(** * hls.js (tchakabam fork): fragment selection, transport retry, playlist
    and key loading, and the fragment receiver's gap handling.

    A shallow embedding of the TypeScript sources.  A JavaScript number is a
    double: the model holds the rational a finite double stands for ([Q]),
    and every sum, difference and product is rounded as the double format
    rounds it (to the nearest double, ties to even, [Infinity] on overflow).
    Sequence numbers, HTTP statuses, retry counters and millisecond delays
    are integers ([Z]); [null] and [undefined] are [None] where the code
    treats both alike, and are told apart where it does not; an object that
    several owners mutate lives in an explicit store and is named by its
    address. *)

From Stdlib Require Import ZArith QArith Qround Qpower Lqa Lia String.
From stdpp Require Import base option list gmap strings.
Local Open Scope Z_scope.

(** ** JavaScript preliminaries *)

(** How a call ends: it returns a value or it throws. *)
Inductive completion (A : Type) : Type :=
| Returns (a : A)
| Throws (msg : string).
Arguments Returns {A} a.
Arguments Throws {A} msg.

(** A JavaScript number: the rational a finite double holds, or one of the
    three values that are not finite. *)
Inductive number : Type :=
| Finite (q : Q)
| NaN
| PosInfinity
| NegInfinity.

Definition Number_isFinite (n : number) : bool :=
  match n with
  | Finite _ => true
  | _ => false
  end.

(** *** Rounding to the double format *)

(** The position of the leading binary digit of a positive rational,
    [⌊log2 q⌋]: the difference of the bit lengths of numerator and
    denominator, or one less. *)
Definition ilog2 (q : Q) : Z :=
  let k := Z.log2 (Qnum q) - Z.log2 (Zpos (Qden q)) in
  if Qle_bool (2 ^ k) q then k else k - 1.

(** The integer nearest a rational, a half going to the even neighbour. *)
Definition roundHalfEven (q : Q) : Z :=
  let f := Qfloor q in
  match (q - inject_Z f ?= 1 # 2)%Q with
  | Lt => f
  | Gt => f + 1
  | Eq => if Z.even f then f else f + 1
  end.

(** The exponent of the last place of a double near a positive rational: 52
    binary places below the leading digit, and never below the last place of
    the subnormal numbers, [2^-1074]. *)
Definition ulpExponent (q : Q) : Z := Z.max (ilog2 q - 52) (-1074).

(** A positive rational rounded to a multiple of its last place. *)
Definition roundedValue (q : Q) : Q :=
  (inject_Z (roundHalfEven (q / 2 ^ ulpExponent q)) * 2 ^ ulpExponent q)%Q.

(** The double nearest a positive rational: [Infinity] from [2^1024] on. *)
Definition roundPositive (q : Q) : number :=
  let r := roundedValue q in
  if Qle_bool (2 ^ 1024) r then PosInfinity else Finite (Qred r).

(** [-n]. *)
Definition js_neg (n : number) : number :=
  match n with
  | Finite q => Finite (- q)
  | NaN => NaN
  | PosInfinity => NegInfinity
  | NegInfinity => PosInfinity
  end.

(** The double an exact result is rounded to: the nearest one, ties to even.
    The two zeros of the format are the one [Finite 0]: the modelled code
    never divides and never tells the zeros apart. *)
Definition round64 (q : Q) : number :=
  match (q ?= 0)%Q with
  | Eq => Finite 0
  | Gt => roundPositive q
  | Lt => js_neg (roundPositive (- q))
  end.

(** A rational that a double holds. *)
Definition isDouble (q : Q) : Prop :=
  match round64 q with
  | Finite r => (r == q)%Q
  | _ => False
  end.

(** *** Arithmetic and comparison of numbers *)

(** [a <= b]: false when a side is [NaN]. *)
Definition js_le (a b : number) : bool :=
  match a, b with
  | NaN, _ | _, NaN => false
  | Finite x, Finite y => Qle_bool x y
  | NegInfinity, _ => true
  | _, PosInfinity => true
  | _, _ => false
  end.

(** [a < b]: on numbers, [a <= b] without [b <= a]. *)
Definition js_lt (a b : number) : bool := js_le a b && negb (js_le b a).

(** [a === b] on numbers. *)
Definition js_eq (a b : number) : bool := js_le a b && js_le b a.

(** [a + b]. *)
Definition js_add (a b : number) : number :=
  match a, b with
  | NaN, _ | _, NaN => NaN
  | Finite x, Finite y => round64 (x + y)
  | PosInfinity, NegInfinity | NegInfinity, PosInfinity => NaN
  | PosInfinity, _ | _, PosInfinity => PosInfinity
  | NegInfinity, _ | _, NegInfinity => NegInfinity
  end.

(** [a - b]: the sum of [a] and [-b], which rounds alike. *)
Definition js_sub (a b : number) : number := js_add a (js_neg b).

(** [a * b]. *)
Definition js_mul (a b : number) : number :=
  match a, b with
  | NaN, _ | _, NaN => NaN
  | Finite x, Finite y => round64 (x * y)
  | Finite x, inf | inf, Finite x =>
      match (x ?= 0)%Q with
      | Eq => NaN
      | Gt => inf
      | Lt => js_neg inf
      end
  | PosInfinity, PosInfinity | NegInfinity, NegInfinity => PosInfinity
  | _, _ => NegInfinity
  end.

(** [Math.min(a, b)]. *)
Definition Math_min (a b : number) : number :=
  match a, b with
  | NaN, _ | _, NaN => NaN
  | _, _ => if js_le a b then a else b
  end.

(** The order of numbers, as a proposition. *)
Definition number_le (a b : number) : Prop := js_le a b = true.

(** [a < b] on finite numbers. *)
Definition Qlt_bool (a b : Q) : bool := negb (Qle_bool b a).

(** Truthiness of a finite number: everything but zero. *)
Definition truthy (q : Q) : bool := negb (Qeq_bool q 0).

(** A value of TypeScript type [number | null]. *)
Inductive numberOrNull : Type :=
| Null
| Num (n : number).

(** [ToNumber] of a field of type [number | null] that may also be
    [undefined] ([None]): [undefined] is [NaN] and [null] is [0]. *)
Definition ToNumber (v : option numberOrNull) : number :=
  match v with
  | None => NaN
  | Some Null => Finite 0
  | Some (Num n) => n
  end.

(** [ToInt32], the conversion [>>] and [&] apply to their operands: the value
    modulo 2^32, read as a signed 32-bit integer. *)
Definition ToInt32 (n : Z) : Z := (n + 2 ^ 31) mod 2 ^ 32 - 2 ^ 31.

(** [arr[i]] for a numeric index: [undefined] below zero and past the end. *)
Definition js_index {A : Type} (arr : list A) (i : Z) : option A :=
  if i <? 0 then None else arr !! Z.to_nat i.

(** ** Rounding is monotonic *)

Module Binary64Spec.

Lemma pow2_pos (k : Z) : (0 < 2 ^ k)%Q.
Proof. by apply Qpower_0_lt. Qed.

Lemma pow2_add (a b : Z) : (2 ^ (a + b) == 2 ^ a * 2 ^ b)%Q.
Proof. by apply Qpower_plus. Qed.

Lemma pow2_le (a b : Z) : a ≤ b → (2 ^ a <= 2 ^ b)%Q.
Proof. intros H. by apply Qpower_le_compat_l. Qed.

Lemma pow2_lt_inv (a b : Z) : (2 ^ a < 2 ^ b)%Q → a < b.
Proof. intros H. by apply (Qpower_lt_compat_l_inv 2). Qed.

Lemma pow2_Z (k : Z) : 0 ≤ k → (2 ^ k == inject_Z (2 ^ k))%Q.
Proof. intros H. by rewrite Zpower_Qpower. Qed.

Lemma pow2_succ (k : Z) : (2 ^ (k + 1) == 2 * 2 ^ k)%Q.
Proof. rewrite pow2_add. change (2 ^ 1)%Q with 2%Q. ring. Qed.

(** [ilog2] is the position of the leading binary digit. *)
Lemma ilog2_spec (q : Q) :
  (0 < q)%Q → (2 ^ ilog2 q <= q)%Q ∧ (q < 2 ^ (ilog2 q + 1))%Q.
Proof.
  intros Hq. unfold ilog2. destruct q as [n d].
  assert (0 < n) as Hn by (unfold Qlt in Hq; simpl in Hq; lia).
  cbn [Qnum Qden].
  set (a := Z.log2 n). set (b := Z.log2 (Z.pos d)). set (k := a - b).
  destruct (Z.log2_spec n Hn) as [Ha1 Ha2]. fold a in Ha1, Ha2.
  destruct (Z.log2_spec (Z.pos d) ltac:(done)) as [Hb1 Hb2]. fold b in Hb1, Hb2.
  assert (0 ≤ a) as Ha0 by apply Z.log2_nonneg.
  assert (0 ≤ b) as Hb0 by apply Z.log2_nonneg.
  rewrite Zle_Qle in Ha1, Hb1. rewrite Zlt_Qlt in Ha2, Hb2.
  replace (Z.succ a) with (a + 1) in Ha2 by lia.
  replace (Z.succ b) with (b + 1) in Hb2 by lia.
  rewrite <- !pow2_Z in Ha1, Ha2, Hb1, Hb2 by lia.
  rewrite pow2_succ in Ha2, Hb2.
  pose proof (pow2_pos a) as HA. pose proof (pow2_pos b) as HB.
  pose proof (pow2_pos k) as HK.
  assert (2 ^ a == 2 ^ k * 2 ^ b)%Q as Hk.
  { rewrite <- pow2_add. by replace (k + b) with a by (unfold k; lia). }
  assert (n # d == inject_Z n / inject_Z (Z.pos d))%Q as Hnd by apply Qmake_Qdiv.
  set (N := inject_Z n) in *. set (D := inject_Z (Z.pos d)) in *.
  set (A := (2 ^ a)%Q) in *. set (B := (2 ^ b)%Q) in *. set (K := (2 ^ k)%Q) in *.
  assert (0 < D)%Q as HD by lra.
  assert (n # d < 2 * K)%Q as Hup.
  { rewrite Hnd. apply Qlt_shift_div_r; [done |].
    apply Qlt_le_trans with (2 * K * B)%Q; [lra |].
    apply Qmult_le_l; lra. }
  assert (K < 2 * (n # d))%Q as Hlow.
  { rewrite Hnd. apply Qlt_le_trans with (2 * (A / D))%Q.
    - unfold Qdiv. rewrite Qmult_assoc. apply Qlt_shift_div_l; [done |].
      apply Qlt_le_trans with (K * (2 * B))%Q; [apply Qmult_lt_l; lra | lra].
    - apply Qmult_le_l; [lra |]. unfold Qdiv. apply Qmult_le_compat_r; [lra |].
      apply Qlt_le_weak, Qinv_lt_0_compat. done. }
  destruct (Qle_bool K (n # d)) eqn:E.
  - apply Qle_bool_iff in E. rewrite pow2_succ. fold K. split; lra.
  - apply not_true_iff_false in E. rewrite Qle_bool_iff in E. apply Qnot_le_lt in E.
    replace (k - 1 + 1) with k by lia. fold K. split; [| done].
    assert (K == 2 * 2 ^ (k - 1))%Q as HK1.
    { unfold K. rewrite <- pow2_succ. by replace (k - 1 + 1) with k by lia. }
    lra.
Qed.

Lemma ilog2_mono (x y : Q) : (0 < x)%Q → (x <= y)%Q → ilog2 x ≤ ilog2 y.
Proof.
  intros Hx Hxy. destruct (ilog2_spec x Hx) as [H1 _].
  destruct (ilog2_spec y ltac:(lra)) as [_ H2].
  assert (ilog2 x < ilog2 y + 1) by (apply pow2_lt_inv; lra). lia.
Qed.

Lemma roundHalfEven_bounds (q : Q) :
  Qfloor q ≤ roundHalfEven q ≤ Qfloor q + 1.
Proof.
  unfold roundHalfEven. destruct (_ ?= _)%Q; [destruct (Z.even _) | |]; lia.
Qed.

Lemma roundHalfEven_mono (x y : Q) : (x <= y)%Q → roundHalfEven x ≤ roundHalfEven y.
Proof.
  intros H. pose proof (Qfloor_resp_le _ _ H) as Hf.
  destruct (Z.eq_dec (Qfloor x) (Qfloor y)) as [E | E].
  - unfold roundHalfEven. rewrite E.
    destruct (Qcompare_spec (x - inject_Z (Qfloor y)) (1 # 2)),
             (Qcompare_spec (y - inject_Z (Qfloor y)) (1 # 2));
      try destruct (Z.even _); try lia; exfalso; lra.
  - pose proof (roundHalfEven_bounds x). pose proof (roundHalfEven_bounds y). lia.
Qed.

Lemma roundHalfEven_Z (z : Z) : roundHalfEven (inject_Z z) = z.
Proof.
  unfold roundHalfEven. rewrite Qfloor_Z.
  destruct (Qcompare_spec (inject_Z z - inject_Z z) (1 # 2)); [exfalso; lra | done | exfalso; lra].
Qed.

Lemma roundHalfEven_comp (x y : Q) : (x == y)%Q → roundHalfEven x = roundHalfEven y.
Proof. intros H. apply Z.le_antisymm; apply roundHalfEven_mono; lra. Qed.

(** Rounding a positive rational to a multiple of its last place is
    monotonic: within one binade the last place is shared, and between two
    binades lies a power of two, which rounding does not cross. *)
Lemma roundedValue_mono (x y : Q) :
  (0 < x)%Q → (x <= y)%Q → (roundedValue x <= roundedValue y)%Q.
Proof.
  intros Hx Hxy. unfold roundedValue.
  pose proof (ilog2_mono x y Hx Hxy) as Hlog.
  set (ex := ulpExponent x). set (ey := ulpExponent y).
  assert (ex ≤ ey) as He by (unfold ex, ey, ulpExponent; lia).
  pose proof (pow2_pos ex) as Hpx. pose proof (pow2_pos ey) as Hpy.
  destruct (Z.eq_dec ex ey) as [E | E].
  - rewrite E. apply Qmult_le_compat_r; [| lra].
    rewrite <- Zle_Qle. apply roundHalfEven_mono.
    unfold Qdiv. apply Qmult_le_compat_r; [done |].
    apply Qlt_le_weak, Qinv_lt_0_compat. by rewrite <- E.
  - set (k := ilog2 y).
    assert (ey = k - 52) as Hey by (unfold ey, ex, ulpExponent in *; lia).
    assert (ilog2 x < k) as Hlt by (unfold ey, ex, ulpExponent in *; lia).
    destruct (ilog2_spec x Hx) as [_ Hxk].
    destruct (ilog2_spec y ltac:(lra)) as [Hyk _]. fold k in Hyk.
    assert (x <= 2 ^ k)%Q as Hxk'.
    { apply Qle_trans with (2 ^ (ilog2 x + 1))%Q; [lra | apply pow2_le; lia]. }
    apply Qle_trans with (2 ^ k)%Q.
    + assert (2 ^ k == inject_Z (2 ^ (k - ex)) * 2 ^ ex)%Q as Hk.
      { rewrite <- pow2_Z by lia. rewrite <- pow2_add. by replace (k - ex + ex) with k by lia. }
      rewrite Hk. apply Qmult_le_compat_r; [| lra].
      rewrite <- Zle_Qle. rewrite <- (roundHalfEven_Z (2 ^ (k - ex))).
      apply roundHalfEven_mono. apply Qle_shift_div_r; [done |]. by rewrite <- Hk.
    + assert (2 ^ k == inject_Z (2 ^ 52) * 2 ^ ey)%Q as Hk.
      { rewrite <- pow2_Z by lia. rewrite <- pow2_add. by replace (52 + ey) with k by lia. }
      rewrite Hk. apply Qmult_le_compat_r; [| lra].
      rewrite <- Zle_Qle. rewrite <- (roundHalfEven_Z (2 ^ 52)) at 1.
      apply roundHalfEven_mono. apply Qle_shift_div_l; [done |]. by rewrite <- Hk.
Qed.

Lemma roundedValue_nonneg (x : Q) : (0 < x)%Q → (0 <= roundedValue x)%Q.
Proof.
  intros Hx. unfold roundedValue. pose proof (pow2_pos (ulpExponent x)) as Hp.
  apply Qmult_le_0_compat; [| lra].
  change 0%Q with (inject_Z 0). rewrite <- Zle_Qle.
  rewrite <- (roundHalfEven_Z 0). apply roundHalfEven_mono.
  apply Qle_shift_div_l; [done |]. change (inject_Z 0) with 0%Q. lra.
Qed.

Lemma number_le_Finite (x y : Q) : number_le (Finite x) (Finite y) ↔ (x <= y)%Q.
Proof. apply Qle_bool_iff. Qed.

Lemma number_le_trans (a b c : number) : number_le a b → number_le b c → number_le a c.
Proof.
  unfold number_le. destruct a, b, c; simpl; try done.
  rewrite !Qle_bool_iff. intros. lra.
Qed.

Lemma roundPositive_cases (x : Q) :
  (roundPositive x = PosInfinity ∧ (2 ^ 1024 <= roundedValue x)%Q) ∨
  (∃ r, roundPositive x = Finite r ∧ (r == roundedValue x)%Q ∧ (r < 2 ^ 1024)%Q).
Proof.
  unfold roundPositive. destruct (Qle_bool _ _) eqn:E.
  - left. by apply Qle_bool_iff in E.
  - right. eexists. split; [done |]. split; [apply Qred_correct |].
    apply not_true_iff_false in E. rewrite Qle_bool_iff in E. apply Qnot_le_lt in E.
    by rewrite Qred_correct.
Qed.

Lemma roundPositive_mono (x y : Q) :
  (0 < x)%Q → (x <= y)%Q → number_le (roundPositive x) (roundPositive y).
Proof.
  intros Hx Hxy. pose proof (roundedValue_mono x y Hx Hxy) as Hv.
  destruct (roundPositive_cases x) as [[-> H1] | (r1 & -> & E1 & H1)],
           (roundPositive_cases y) as [[-> H2] | (r2 & -> & E2 & H2)]; try done.
  - exfalso. lra.
  - apply number_le_Finite. lra.
Qed.

Lemma roundPositive_nonneg (x : Q) : (0 < x)%Q → number_le (Finite 0) (roundPositive x).
Proof.
  intros Hx. pose proof (roundedValue_nonneg x Hx) as Hv.
  destruct (roundPositive_cases x) as [[-> H1] | (r1 & -> & E1 & H1)]; [done |].
  apply number_le_Finite. lra.
Qed.

Lemma js_neg_le (a b : number) : number_le a b → number_le (js_neg b) (js_neg a).
Proof.
  unfold number_le. destruct a, b; simpl; try done.
  rewrite !Qle_bool_iff. intros. lra.
Qed.

(** Rounding to the nearest double is monotonic. *)
Lemma round64_mono (x y : Q) : (x <= y)%Q → number_le (round64 x) (round64 y).
Proof.
  intros Hxy. unfold round64.
  destruct (Qcompare_spec x 0) as [Hx | Hx | Hx], (Qcompare_spec y 0) as [Hy | Hy | Hy];
    try (exfalso; lra); try done.
  - by apply roundPositive_nonneg.
  - apply (js_neg_le (Finite 0)). apply roundPositive_nonneg. lra.
  - apply js_neg_le. apply roundPositive_mono; lra.
  - apply number_le_trans with (Finite 0).
    + apply (js_neg_le (Finite 0)). apply roundPositive_nonneg. lra.
    + by apply roundPositive_nonneg.
  - by apply roundPositive_mono.
Qed.

Lemma round64_not_NaN (q : Q) : round64 q ≠ NaN.
Proof.
  unfold round64, roundPositive.
  destruct (q ?= 0)%Q; [done | |]; by destruct (Qle_bool _ _).
Qed.

(** What a double holds is rounded to itself, up to the order. *)
Lemma isDouble_le (q : Q) :
  isDouble q → number_le (Finite q) (round64 q) ∧ number_le (round64 q) (Finite q).
Proof.
  unfold isDouble. destruct (round64 q) as [r | | |]; try done.
  intros H. split; apply number_le_Finite; lra.
Qed.

Lemma js_lt_iff (a b : number) : js_lt a b = true ↔ js_le a b = true ∧ js_le b a = false.
Proof. unfold js_lt. by rewrite andb_true_iff, negb_true_iff. Qed.

Lemma js_eq_iff (a b : number) : js_eq a b = true ↔ number_le a b ∧ number_le b a.
Proof. unfold js_eq, number_le. by rewrite andb_true_iff. Qed.

(** Two numbers of which neither is [NaN] are comparable. *)
Lemma js_le_total (a b : number) : a ≠ NaN → b ≠ NaN → js_le a b = false → js_lt b a = true.
Proof.
  intros Ha Hb. unfold js_lt. destruct a, b; simpl; try done.
  intros H. rewrite H. simpl. rewrite andb_true_r.
  apply not_true_iff_false in H. rewrite Qle_bool_iff in H. apply Qle_bool_iff. lra.
Qed.

Lemma js_lt_le_trans (a b c : number) : js_lt a b = true → number_le b c → js_lt a c = true.
Proof.
  unfold number_le. rewrite !js_lt_iff. destruct a, b, c; simpl; try done;
    try (intros [? ?] ?; split; done).
  rewrite <- !not_true_iff_false, !Qle_bool_iff. intros [H1 H2] H3. split; lra.
Qed.

Lemma js_le_lt_false (a b : number) : js_le a b = true → js_lt b a = false.
Proof. intros H. unfold js_lt. rewrite H. simpl. apply andb_false_r. Qed.

Lemma js_add_Finite_not_NaN (x y : Q) : js_add (Finite x) (Finite y) ≠ NaN.
Proof. apply round64_not_NaN. Qed.

Lemma js_sub_Finite_not_NaN (a : number) (t : Q) : a ≠ NaN → js_sub a (Finite t) ≠ NaN.
Proof. destruct a; try done. intros _. apply round64_not_NaN. Qed.

(** Subtracting a finite number keeps the order. *)
Lemma js_sub_mono_l (a a' : number) (t : Q) :
  number_le a a' → number_le (js_sub a (Finite t)) (js_sub a' (Finite t)).
Proof.
  unfold js_sub, number_le. destruct a as [x | | |], a' as [y | | |]; simpl; try done.
  - rewrite Qle_bool_iff. intros H. apply round64_mono. lra.
  - intros _. pose proof (round64_not_NaN (x + - t)). by destruct (round64 _).
  - intros _. pose proof (round64_not_NaN (y + - t)). by destruct (round64 _).
Qed.

(** A sum is not below a summand when the other summand is not negative and
    the summand is a double. *)
Lemma js_add_le_l (s d : Q) :
  (0 <= d)%Q → isDouble s → number_le (Finite s) (js_add (Finite s) (Finite d)).
Proof.
  intros Hd Hs. apply number_le_trans with (round64 s); [by apply isDouble_le |].
  apply round64_mono. lra.
Qed.

Lemma js_add_le_r (s d : Q) :
  (0 <= s)%Q → isDouble d → number_le (Finite d) (js_add (Finite s) (Finite d)).
Proof.
  intros Hd Hs. apply number_le_trans with (round64 d); [by apply isDouble_le |].
  apply round64_mono. lra.
Qed.

(** The sum the double format is known for: 0.1 + 0.7 is the double below
    0.8, and not the exact sum of the two doubles. *)
Example round64_tenth_plus_seven_tenths :
  js_add (Finite (3602879701896397 # 36028797018963968))
         (Finite (3152519739159347 # 4503599627370496))
  = Finite (7205759403792793 # 9007199254740992).
Proof. vm_compute. reflexivity. Qed.

(** From [2^53] on, not every integer is a double. *)
Example round64_above_2_53 :
  round64 (inject_Z (2 ^ 53 + 1)) = Finite (inject_Z (2 ^ 53)) ∧
  round64 (inject_Z (2 ^ 53 + 3)) = Finite (inject_Z (2 ^ 53 + 4)) ∧
  round64 (2 ^ 1024) = PosInfinity.
Proof. vm_compute. done. Qed.

End Binary64Spec.

(** ** Playlist model (m3u8/media-fragment.ts, m3u8/level-key.ts) *)

Module Playlist.

(** Addresses of [LevelKey] objects in the store. *)
Definition ref := nat.

(** Class [LevelKey], as its users see it: the public fields [method],
    [key] and [iv], and [uri], the value the getter [get uri] returns.  The
    class keeps [baseuri] and [reluri] and resolves the URI from them with
    url-toolkit on the first read, then keeps it in [_uri]; the model holds
    the resolved URI, so an object that is given the [baseuri] and [reluri]
    of another has the other's [uri]. *)
Record LevelKey : Type := mkLevelKey {
  method : option string;
  uri : option string;
  key : option (list Z);
  iv : option (list Z)
}.

(** [new LevelKey()]. *)
Definition LevelKey_new : LevelKey :=
  {| method := None; uri := None; key := None; iv := None |}.

(** The fields of [MediaFragment] the modelled code reads or writes.
    [start] and [duration] hold finite numbers.  [programDateTime] is of
    type [number | null] and is [undefined] ([None]) as long as nobody
    assigns it: the class does not. *)
Record MediaFragment : Type := mkMediaFragment {
  sn : Z;
  level : Z;
  type : string;
  start : Q;
  duration : Q;
  deltaPTS : option Q;
  programDateTime : option numberOrNull;
  levelkey : option ref;
  _decryptdata : option ref;
  loader : option nat;
  dropped : Z;
  backtracked : bool;
  hasAudio : bool;
  hasVideo : bool
}.

(** A fragment as the playlist parser leaves it: timing and identity only. *)
Definition parsedFragment (n : Z) (s d : Q) (pdt : option numberOrNull) : MediaFragment :=
  {| sn := n; level := 0; type := "main"; start := s; duration := d;
     deltaPTS := None; programDateTime := pdt; levelkey := None;
     _decryptdata := None; loader := None; dropped := 0;
     backtracked := false; hasAudio := false; hasVideo := false |}.

(** [get endProgramDateTime]: [null] unless [programDateTime] is a finite
    number.  Durations are finite in this model, so the getter's fallback to
    [0] for a duration that is not finite has no case here. *)
Definition endProgramDateTime (f : MediaFragment) : numberOrNull :=
  match programDateTime f with
  | Some (Num (Finite pdt)) =>
      Num (js_add (Finite pdt) (js_mul (Finite (duration f)) (Finite 1000)))
  | _ => Null
  end.

End Playlist.
Export Playlist.

(** ** Fragment finders (m3u8/fragment-finders.ts) *)

Module FragmentFinders.

(** [candidate.deltaPTS ? candidate.deltaPTS : 0]. *)
Definition deltaPTS_or_0 (candidate : MediaFragment) : Q :=
  match deltaPTS candidate with
  | Some d => if truthy d then d else 0%Q
  | None => 0%Q
  end.

(** [Math.min(maxFragLookUpTolerance, candidate.duration + (candidate.deltaPTS ? candidate.deltaPTS : 0))]. *)
Definition candidateLookupTolerance (candidate : MediaFragment)
    (maxFragLookUpTolerance : Q) : number :=
  Math_min (Finite maxFragLookUpTolerance)
    (js_add (Finite (duration candidate)) (Finite (deltaPTS_or_0 candidate))).

Definition compareFragmentWithTolerance (candidate : MediaFragment)
    (bufferEnd maxFragLookUpTolerance : Q) : Z :=
  let tolerance := candidateLookupTolerance candidate maxFragLookUpTolerance in
  if js_le (js_sub (js_add (Finite (start candidate)) (Finite (duration candidate)))
              tolerance)
       (Finite bufferEnd)
  then 1
  else if js_lt (Finite bufferEnd) (js_sub (Finite (start candidate)) tolerance)
          && truthy (start candidate)
  then -1
  else 0.

Definition isPdtWithinToleranceTest (candidate : MediaFragment)
    (pdtBufferEnd : number) (maxFragLookUpTolerance : Q) : bool :=
  let tolerance :=
    js_mul (candidateLookupTolerance candidate maxFragLookUpTolerance) (Finite 1000) in
  js_lt pdtBufferEnd (js_sub (ToNumber (Some (endProgramDateTime candidate))) tolerance).

(** The [for] loop of [findFragmentByPDT]: the first fragment that passes. *)
Fixpoint firstWithinTolerance (fragments : list MediaFragment)
    (pdtVal : number) (maxFragLookUpTolerance : Q) : option MediaFragment :=
  match fragments with
  | [] => None
  | frag :: rest =>
      if isPdtWithinToleranceTest frag pdtVal maxFragLookUpTolerance
      then Some frag
      else firstWithinTolerance rest pdtVal maxFragLookUpTolerance
  end.

(** [findFragmentByPDT]: the three early returns, then the loop.
    [maxFragLookUpTolerance || 0] maps a finite tolerance to itself, so the
    tolerance is used as passed. *)
Definition findFragmentByPDT (fragments : list MediaFragment) (pdtVal : number)
    (maxFragLookUpTolerance : Q) : option MediaFragment :=
  match fragments, last fragments with
  | first :: _, Some lastFrag =>
      if negb (Number_isFinite pdtVal) then None
      else if js_lt pdtVal (ToNumber (programDateTime first)) then None
      else if js_le (ToNumber (Some (endProgramDateTime lastFrag))) pdtVal then None
      else firstWithinTolerance fragments pdtVal maxFragLookUpTolerance
  | _, _ => None
  end.

(** Modelled from the spec: [BinarySearch.search] (utils/binary-search) is not
    among the sources.  The spec asks for "a standard binary search over a
    monotonic three-way predicate": the middle element of the index range is
    tested, a positive sign moves the lower bound past it, a negative sign
    moves the upper bound before it, zero returns it, and an empty range
    returns nothing.  [fuel] bounds the iterations of the loop. *)
Fixpoint searchLoop {A : Type} (fuel : nat) (list : list A)
    (comparisonFunction : A → Z) (minIndex maxIndex : Z) : option A :=
  match fuel with
  | O => None
  | S fuel' =>
      if minIndex <=? maxIndex then
        let currentIndex := (minIndex + maxIndex) / 2 in
        match js_index list currentIndex with
        | None => None
        | Some currentElement =>
            let comparisonResult := comparisonFunction currentElement in
            if 0 <? comparisonResult
            then searchLoop fuel' list comparisonFunction (currentIndex + 1) maxIndex
            else if comparisonResult <? 0
            then searchLoop fuel' list comparisonFunction minIndex (currentIndex - 1)
            else Some currentElement
        end
      else None
  end.

(** Modelled from the spec: the search over the whole list; the loop runs at
    most once per element, so [length list] iterations always suffice. *)
Definition BinarySearch_search {A : Type} (list : list A)
    (comparisonFunction : A → Z) : option A :=
  searchLoop (length list) list comparisonFunction 0 (Z.of_nat (length list) - 1).

(** [fragPrevious ? fragments[fragPrevious.sn - fragments[0].sn + 1] : null];
    reading [fragments[0].sn] of an empty list throws. *)
Definition fragNextOf (fragPrevious : option MediaFragment)
    (fragments : list MediaFragment) : completion (option MediaFragment) :=
  match fragPrevious with
  | None => Returns None
  | Some previous =>
      match fragments with
      | [] => Throws "TypeError: fragments[0] is undefined"
      | first :: _ => Returns (js_index fragments (sn previous - sn first + 1))
      end
  end.

(** [findFragmentByPTS], with the imported search as a parameter. *)
Definition findFragmentByPTS_via
    (search : list MediaFragment → (MediaFragment → Z) → option MediaFragment)
    (fragPrevious : option MediaFragment) (fragments : list MediaFragment)
    (bufferEnd maxFragLookUpTolerance : Q) : completion (option MediaFragment) :=
  match fragNextOf fragPrevious fragments with
  | Throws msg => Throws msg
  | Returns fragNext =>
      let fullSearch :=
        search fragments
          (λ fragment, compareFragmentWithTolerance fragment bufferEnd
                         maxFragLookUpTolerance) in
      match fragNext with
      | Some next =>
          if compareFragmentWithTolerance next bufferEnd maxFragLookUpTolerance =? 0
          then Returns (Some next)
          else Returns fullSearch
      | None => Returns fullSearch
      end
  end.

Definition findFragmentByPTS :=
  findFragmentByPTS_via (@BinarySearch_search MediaFragment).

(** Scratch fragments for the examples: sequence number, start, duration. *)
Definition frag (n : Z) (s d : Q) : MediaFragment := parsedFragment n s d None.

Example findFragmentByPTS_first :
  findFragmentByPTS None [frag 0 0 6; frag 1 6 6; frag 2 12 6] 0 0
  = Returns (Some (frag 0 0 6)).
Proof. vm_compute. reflexivity. Qed.

Example findFragmentByPTS_next :
  findFragmentByPTS (Some (frag 0 0 6)) [frag 0 0 6; frag 1 6 6; frag 2 12 6] 6 0
  = Returns (Some (frag 1 6 6)).
Proof. vm_compute. reflexivity. Qed.

(** The end of a fragment as the comparator computes it:
    [start + duration]. *)
Definition fragmentEnd (f : MediaFragment) : number :=
  js_add (Finite (start f)) (Finite (duration f)).

(** The two ends of the tolerance-adjusted interval of a fragment, as the
    comparator computes them: [start - tolerance] and
    [start + duration - tolerance], with
    [tolerance = min(maxFragLookUpTolerance, duration + deltaPTS)]. *)
Definition adjustedStart (f : MediaFragment) (tolerance : Q) : number :=
  js_sub (Finite (start f)) (candidateLookupTolerance f tolerance).

Definition adjustedEnd (f : MediaFragment) (tolerance : Q) : number :=
  js_sub (fragmentEnd f) (candidateLookupTolerance f tolerance).

(** The tolerance-adjusted end of a fragment in program date time, as the
    test computes it:
    [endProgramDateTime - min(tolerance, duration + deltaPTS) * 1000]. *)
Definition toleranceAdjustedEndPDT (f : MediaFragment) (tolerance : Q) : number :=
  js_sub (ToNumber (Some (endProgramDateTime f)))
         (js_mul (candidateLookupTolerance f tolerance) (Finite 1000)).

(** *** Well-formed fragment lists *)

(** Each fragment starts where its predecessor ends: [start] of the next is
    the double [start + duration] of the previous. *)
Fixpoint contiguousFrom (previous : MediaFragment) (rest : list MediaFragment) : Prop :=
  match rest with
  | [] => True
  | next :: rest' =>
      js_eq (fragmentEnd previous) (Finite (start next)) = true ∧ contiguousFrom next rest'
  end.

Definition contiguous (fragments : list MediaFragment) : Prop :=
  match fragments with
  | [] => True
  | first :: rest => contiguousFrom first rest
  end.

Definition positiveDurations (fragments : list MediaFragment) : Prop :=
  Forall (λ f, (0 < duration f)%Q) fragments.

(** Start and duration of every fragment are numbers a double holds. *)
Definition doubles (fragments : list MediaFragment) : Prop :=
  Forall (λ f, isDouble (start f) ∧ isDouble (duration f)) fragments.

(** The tolerance is not cut down by [Math.min] on any fragment. *)
Definition toleranceFits (tolerance : Q) (fragments : list MediaFragment) : Prop :=
  Forall (λ f, js_le (Finite tolerance)
                 (js_add (Finite (duration f)) (Finite (deltaPTS_or_0 f))) = true)
         fragments.

(** Start times never decrease along the list. *)
Definition monotonicStart (fragments : list MediaFragment) : Prop :=
  ∀ i j f g, (i ≤ j)%nat → fragments !! i = Some f → fragments !! j = Some g →
    (start f <= start g)%Q.

(** Sequence numbers follow the list positions. *)
Fixpoint snContiguousFrom (n : Z) (fragments : list MediaFragment) : Prop :=
  match fragments with
  | [] => True
  | f :: rest => sn f = n ∧ snContiguousFrom (n + 1) rest
  end.

Definition snContiguous (fragments : list MediaFragment) : Prop :=
  match fragments with
  | [] => True
  | first :: rest => snContiguousFrom (sn first + 1) rest
  end.

(** The comparator is a monotonic three-way predicate over the list with its
    zero at position [i]: positive before, negative after. *)
Definition monotonicAt {A : Type} (list : list A) (comparisonFunction : A → Z)
    (i : nat) : Prop :=
  (∀ j x, (j < i)%nat → list !! j = Some x → 0 < comparisonFunction x) ∧
  (∀ x, list !! i = Some x → comparisonFunction x = 0) ∧
  (∀ j x, (i < j)%nat → list !! j = Some x → comparisonFunction x < 0).

End FragmentFinders.

(** ** Properties of the fragment finders *)

Module FragmentFindersSpec.
Import Binary64Spec FragmentFinders.

Lemma truthy_iff (q : Q) : truthy q = true ↔ ¬ (q == 0)%Q.
Proof.
  unfold truthy. rewrite negb_true_iff, <- not_true_iff_false, Qeq_bool_iff. tauto.
Qed.

Lemma truthy_false (q : Q) : truthy q = false ↔ (q == 0)%Q.
Proof. unfold truthy. rewrite negb_false_iff. apply Qeq_bool_iff. Qed.

(** The comparator in terms of the two ends of the adjusted interval. *)
Lemma compare_unfold (c : MediaFragment) (b t : Q) :
  compareFragmentWithTolerance c b t
  = if js_le (adjustedEnd c t) (Finite b) then 1
    else if js_lt (Finite b) (adjustedStart c t) && truthy (start c) then -1
    else 0.
Proof. reflexivity. Qed.

(** The three branches of the comparator, read off the code. *)
Lemma compare_cases (c : MediaFragment) (b t : Q) :
  (compareFragmentWithTolerance c b t = 1 ∧ js_le (adjustedEnd c t) (Finite b) = true) ∨
  (compareFragmentWithTolerance c b t = -1 ∧ js_le (adjustedEnd c t) (Finite b) = false ∧
     js_lt (Finite b) (adjustedStart c t) = true ∧ ¬ (start c == 0)%Q) ∨
  (compareFragmentWithTolerance c b t = 0 ∧ js_le (adjustedEnd c t) (Finite b) = false ∧
     (js_lt (Finite b) (adjustedStart c t) = false ∨ (start c == 0)%Q)).
Proof.
  rewrite compare_unfold.
  destruct (js_le (adjustedEnd c t) (Finite b)) eqn:E1; [left; auto |].
  destruct (js_lt (Finite b) (adjustedStart c t)) eqn:E2; simpl.
  - destruct (truthy (start c)) eqn:E3.
    + right; left. apply truthy_iff in E3. auto.
    + right; right. apply truthy_false in E3. auto.
  - right; right. auto.
Qed.

(** *** The binary search *)

Lemma js_index_nat {A : Type} (l : list A) (i : nat) : js_index l (Z.of_nat i) = l !! i.
Proof.
  unfold js_index. destruct (Z.ltb_spec (Z.of_nat i) 0); [lia |]. by rewrite Nat2Z.id.
Qed.

Lemma js_index_Some {A : Type} (l : list A) (z : Z) (x : A) :
  js_index l z = Some x → 0 ≤ z ∧ l !! Z.to_nat z = Some x.
Proof. unfold js_index. destruct (Z.ltb_spec z 0); [done | intros; split; [lia | done]]. Qed.

(** On a list where the comparator is monotonic with its zero at [i], the
    loop returns element [i] from every index range that contains [i], as
    soon as the fuel covers the range. *)
Lemma searchLoop_found {A : Type} (l : list A) (cmp : A → Z) (i : nat) (x : A) :
  monotonicAt l cmp i → l !! i = Some x →
  ∀ (fuel : nat) (lo hi : Z),
    0 ≤ lo ≤ Z.of_nat i → Z.of_nat i ≤ hi < Z.of_nat (length l) →
    hi - lo + 1 ≤ Z.of_nat fuel →
    searchLoop fuel l cmp lo hi = Some x.
Proof.
  intros (Hbefore & Hat & Hafter) Hx. induction fuel as [| fuel IH]; intros lo hi Hlo Hhi Hfuel.
  - lia.
  - simpl. destruct (Z.leb_spec lo hi); [| lia].
    set (mid := (lo + hi) / 2).
    assert (lo ≤ mid ≤ hi) as Hmid.
    { subst mid. split; [apply Z.div_le_lower_bound | apply Z.div_le_upper_bound]; lia. }
    assert (is_Some (l !! Z.to_nat mid)) as [y Hy] by (apply lookup_lt_is_Some; lia).
    assert (js_index l mid = Some y) as ->.
    { rewrite <- (Z2Nat.id mid) by lia. by rewrite js_index_nat. }
    destruct (Z.lt_trichotomy mid (Z.of_nat i)) as [Hlt | [Heq | Hgt]].
    + assert (0 < cmp y) as Hpos by (apply (Hbefore (Z.to_nat mid)); [lia | done]).
      replace (0 <? cmp y) with true by (symmetry; apply Z.ltb_lt; lia).
      apply IH; lia.
    + assert (Z.to_nat mid = i) as Hi by lia. rewrite Hi in Hy.
      assert (y = x) as -> by congruence.
      rewrite (Hat x Hx). reflexivity.
    + assert (cmp y < 0) as Hneg by (apply (Hafter (Z.to_nat mid)); [lia | done]).
      replace (0 <? cmp y) with false by (symmetry; apply Z.ltb_ge; lia).
      replace (cmp y <? 0) with true by (symmetry; apply Z.ltb_lt; lia).
      apply IH; lia.
Qed.

(** The search over the whole list never runs out of fuel before the range is
    empty: more fuel does not change its result. *)
Lemma searchLoop_fuel {A : Type} (l : list A) (cmp : A → Z) :
  ∀ (fuel fuel' : nat) (lo hi : Z),
    hi - lo + 1 ≤ Z.of_nat fuel → hi - lo + 1 ≤ Z.of_nat fuel' → 0 ≤ lo →
    searchLoop fuel l cmp lo hi = searchLoop fuel' l cmp lo hi.
Proof.
  induction fuel as [| fuel IH]; intros fuel' lo hi H1 H2 H0.
  - destruct fuel' as [| fuel']; [done |]. simpl.
    destruct (Z.leb_spec lo hi); [lia | done].
  - destruct fuel' as [| fuel'].
    + simpl. destruct (Z.leb_spec lo hi); [lia | done].
    + simpl. destruct (Z.leb_spec lo hi); [| done].
      assert (lo ≤ (lo + hi) / 2 ≤ hi) as Hmid.
      { split; [apply Z.div_le_lower_bound | apply Z.div_le_upper_bound]; lia. }
      destruct (js_index l ((lo + hi) / 2)); [| done].
      destruct (0 <? cmp a); [apply IH; lia |].
      destruct (cmp a <? 0); [apply IH; lia | done].
Qed.

Lemma BinarySearch_search_found {A : Type} (l : list A) (cmp : A → Z) (i : nat) (x : A) :
  monotonicAt l cmp i → l !! i = Some x → BinarySearch_search l cmp = Some x.
Proof.
  intros Hmono Hx. unfold BinarySearch_search.
  pose proof (lookup_lt_Some _ _ _ Hx).
  apply (searchLoop_found l cmp i x Hmono Hx); lia.
Qed.

Lemma monotonicAt_unique {A : Type} (l : list A) (cmp : A → Z) (i j : nat) (x : A) :
  monotonicAt l cmp i → l !! j = Some x → cmp x = 0 → j = i.
Proof.
  intros (Hbefore & _ & Hafter) Hx H0.
  destruct (lt_eq_lt_dec j i) as [[Hlt | ->] | Hgt]; [| done |].
  - specialize (Hbefore j x Hlt Hx). lia.
  - specialize (Hafter j x Hgt Hx). lia.
Qed.

(** *** Contiguous lists *)

(** A fragment of a positive duration does not end before it starts, also
    after rounding. *)
Lemma start_le_fragmentEnd (f : MediaFragment) :
  (0 < duration f)%Q → isDouble (start f) → number_le (Finite (start f)) (fragmentEnd f).
Proof. intros Hd Hs. apply js_add_le_l; [lra | done]. Qed.

Lemma contiguousFrom_start_le (previous : MediaFragment) (rest : list MediaFragment) :
  contiguousFrom previous rest → positiveDurations rest → doubles rest →
  ∀ j g, rest !! j = Some g → number_le (fragmentEnd previous) (Finite (start g)).
Proof.
  revert previous. induction rest as [| next rest IH]; intros previous Hc Hp Hd j g Hg.
  - done.
  - destruct Hc as [Hstart Hc]. apply Forall_cons in Hp as [Hnext Hp].
    apply Forall_cons in Hd as [[Hdnext _] Hd].
    apply js_eq_iff in Hstart as [Hstart _].
    destruct j as [| j]; simpl in Hg.
    + by injection Hg as <-.
    + specialize (IH next Hc Hp Hd j g Hg).
      apply number_le_trans with (Finite (start next)); [done |].
      apply number_le_trans with (fragmentEnd next); [| done].
      by apply start_le_fragmentEnd.
Qed.

Lemma contiguous_lookup_lt (l : list MediaFragment) :
  contiguous l → positiveDurations l → doubles l →
  ∀ i j f g, (i < j)%nat → l !! i = Some f → l !! j = Some g →
    number_le (fragmentEnd f) (Finite (start g)).
Proof.
  induction l as [| first rest IH]; intros Hc Hp Hd i j f g Hij Hf Hg; [done |].
  apply Forall_cons in Hp as [Hfirst Hp]. apply Forall_cons in Hd as [Hdfirst Hd].
  destruct j as [| j]; [lia |]. simpl in Hg.
  destruct i as [| i]; simpl in Hf.
  - injection Hf as <-. by apply (contiguousFrom_start_le first rest Hc Hp Hd j).
  - apply (IH) with (i := i) (j := j); try done; [| lia].
    destruct rest; [done |]. by destruct Hc.
Qed.

Lemma contiguous_lookup_succ (l : list MediaFragment) :
  contiguous l →
  ∀ i f g, l !! i = Some f → l !! S i = Some g →
    js_eq (fragmentEnd f) (Finite (start g)) = true.
Proof.
  induction l as [| first rest IH]; intros Hc i f g Hf Hg; [done |].
  destruct rest as [| next rest]; [done |]. destruct Hc as [Hstart Hc].
  destruct i as [| i]; simpl in Hf, Hg.
  - injection Hf as <-. by injection Hg as <-.
  - by apply (IH Hc i).
Qed.

Lemma contiguous_monotonicStart (l : list MediaFragment) :
  contiguous l → positiveDurations l → doubles l → monotonicStart l.
Proof.
  intros Hc Hp Hd i j f g Hij Hf Hg.
  destruct (decide (i = j)) as [-> | Hne].
  - assert (f = g) as -> by congruence. lra.
  - pose proof (contiguous_lookup_lt l Hc Hp Hd i j f g ltac:(lia) Hf Hg) as Hfg.
    pose proof (proj1 (Forall_lookup _ _) Hp i f Hf) as Hpf. simpl in Hpf.
    pose proof (proj1 (Forall_lookup _ _) Hd i f Hf) as [Hdf _].
    apply number_le_Finite.
    apply number_le_trans with (fragmentEnd f); [by apply start_le_fragmentEnd | done].
Qed.

(** With a tolerance that fits, the effective tolerance is the tolerance. *)
Lemma toleranceFits_lookup (t : Q) (l : list MediaFragment) (i : nat) (f : MediaFragment) :
  toleranceFits t l → l !! i = Some f → candidateLookupTolerance f t = Finite t.
Proof.
  intros Ht Hf. pose proof (proj1 (Forall_lookup _ _) Ht i f Hf) as H. cbv beta in H.
  unfold candidateLookupTolerance, Math_min.
  destruct (js_add _ _); try done; by rewrite H.
Qed.

(** With a finite tolerance neither end of the adjusted interval is [NaN]. *)
Lemma adjustedEnd_not_NaN (f : MediaFragment) (t : Q) :
  candidateLookupTolerance f t = Finite t → adjustedEnd f t ≠ NaN.
Proof.
  intros Ht. unfold adjustedEnd. rewrite Ht.
  apply js_sub_Finite_not_NaN, js_add_Finite_not_NaN.
Qed.

(** *** The comparator over a contiguous list *)

(** On a contiguous list the tolerance-adjusted intervals tile the window,
    so the comparator is monotonic with its zero at the fragment whose
    interval holds [bufferEnd]. *)
Lemma compare_monotonicAt (l : list MediaFragment) (first lastFrag : MediaFragment)
    (b t : Q) :
  head l = Some first → last l = Some lastFrag →
  contiguous l → positiveDurations l → doubles l → (0 <= start first)%Q →
  toleranceFits t l →
  ((start first == 0)%Q ∨ js_le (adjustedStart first t) (Finite b) = true) →
  js_lt (Finite b) (adjustedEnd lastFrag t) = true →
  ∃ i f, l !! i = Some f ∧
    monotonicAt l (λ c, compareFragmentWithTolerance c b t) i ∧
    js_lt (Finite b) (adjustedEnd f t) = true ∧
    (js_le (adjustedStart f t) (Finite b) = true ∨ (start f == 0)%Q).
Proof.
  intros Hhead Hlast Hc Hp Hd H0 Ht Hlow Hhigh.
  set (P := λ x : MediaFragment, js_lt (Finite b) (adjustedEnd x t) = true).
  assert (is_Some (list_find P l)) as [[i f] Hfind].
  { apply (list_find_elem_of P l lastFrag).
    - apply last_Some_elem_of. exact Hlast.
    - exact Hhigh. }
  apply list_find_Some in Hfind as (Hf & HPf & Hmin).
  unfold P in HPf.
  assert (Hfirst : l !! 0%nat = Some first) by (by rewrite <- head_lookup).
  pose proof (toleranceFits_lookup t l i f Ht Hf) as Htf.
  (* before the found fragment, the adjusted end is at or below [b] *)
  assert (Hbefore : ∀ j g, (j < i)%nat → l !! j = Some g →
            js_le (adjustedEnd g t) (Finite b) = true).
  { intros j g Hj Hg. specialize (Hmin j g Hg Hj). unfold P in Hmin.
    apply not_true_is_false in Hmin.
    pose proof (toleranceFits_lookup t l j g Ht Hg) as Htg.
    destruct (js_le (adjustedEnd g t) (Finite b)) eqn:E; [done |].
    apply js_le_total in E; [congruence | by apply adjustedEnd_not_NaN | done]. }
  (* the adjusted start of a fragment is the adjusted end of its predecessor *)
  assert (Hstep : ∀ j g h, l !! j = Some g → l !! S j = Some h →
            number_le (adjustedStart h t) (adjustedEnd g t) ∧
            number_le (adjustedEnd g t) (adjustedStart h t)).
  { intros j g h Hg Hh.
    pose proof (contiguous_lookup_succ l Hc j g h Hg Hh) as Hs.
    apply js_eq_iff in Hs as [Hs1 Hs2].
    unfold adjustedStart, adjustedEnd.
    rewrite (toleranceFits_lookup t l j g Ht Hg), (toleranceFits_lookup t l (S j) h Ht Hh).
    split; by apply js_sub_mono_l. }
  assert (Hlowf : js_le (adjustedStart f t) (Finite b) = true ∨ (start f == 0)%Q).
  { destruct i as [| i].
    - assert (f = first) as -> by congruence. tauto.
    - assert (is_Some (l !! i)) as [g Hg].
      { apply lookup_lt_is_Some. apply lookup_lt_Some in Hf. lia. }
      left. destruct (Hstep i g f Hg Hf) as [Hs _].
      exact (number_le_trans _ _ _ Hs (Hbefore i g ltac:(lia) Hg)). }
  exists i, f. split; [done |]. split; [| tauto].
  split; [| split].
  - intros j g Hj Hg. rewrite compare_unfold, (Hbefore j g Hj Hg). lia.
  - intros x Hx. assert (x = f) as -> by congruence.
    rewrite compare_unfold. apply js_lt_iff in HPf as [_ ->].
    destruct Hlowf as [Hl | Hz].
    + by rewrite (js_le_lt_false _ _ Hl).
    + apply truthy_false in Hz. rewrite Hz. by rewrite andb_false_r.
  - intros j g Hj Hg.
    pose proof (toleranceFits_lookup t l j g Ht Hg) as Htg.
    pose proof (contiguous_lookup_lt l Hc Hp Hd i j f g Hj Hf Hg) as Hfg.
    pose proof (proj1 (Forall_lookup _ _) Hp i f Hf) as Hpf. simpl in Hpf.
    pose proof (proj1 (Forall_lookup _ _) Hp j g Hg) as Hpg. simpl in Hpg.
    pose proof (proj1 (Forall_lookup _ _) Hd i f Hf) as [Hdsf Hddf].
    pose proof (proj1 (Forall_lookup _ _) Hd j g Hg) as [Hdsg _].
    pose proof (contiguous_monotonicStart l Hc Hp Hd 0%nat i first f ltac:(lia) Hfirst Hf)
      as H0f.
    (* [b] is below the adjusted start of [g] ... *)
    assert (js_lt (Finite b) (adjustedStart g t) = true) as Hbs.
    { apply js_lt_le_trans with (adjustedEnd f t); [done |].
      unfold adjustedStart, adjustedEnd. rewrite Htf, Htg. by apply js_sub_mono_l. }
    (* ... and so below its adjusted end, ... *)
    assert (js_le (adjustedEnd g t) (Finite b) = false) as Hbe.
    { assert (js_lt (Finite b) (adjustedEnd g t) = true) as Hlt.
      { apply js_lt_le_trans with (adjustedStart g t); [done |].
        unfold adjustedStart, adjustedEnd. rewrite Htg.
        apply js_sub_mono_l. by apply start_le_fragmentEnd. }
      by apply js_lt_iff in Hlt as [_ Hlt]. }
    (* ... and [g] does not start at 0. *)
    assert (truthy (start g) = true) as Hnz.
    { apply truthy_iff. intros Hz.
      assert (number_le (Finite (duration f)) (Finite (start g))) as Hdg.
      { apply number_le_trans with (fragmentEnd f); [| done].
        apply js_add_le_r; [lra | done]. }
      apply number_le_Finite in Hdg. lra. }
    rewrite compare_unfold, Hbe, Hbs, Hnz. done.
Qed.

Lemma snContiguousFrom_lookup (n : Z) (l : list MediaFragment) :
  snContiguousFrom n l → ∀ i f, l !! i = Some f → sn f = n + Z.of_nat i.
Proof.
  revert n. induction l as [| x l IH]; intros n Hc i f Hf; [done |].
  destruct Hc as [Hn Hc]. destruct i as [| i]; simpl in Hf.
  - injection Hf as <-. lia.
  - rewrite (IH (n + 1) Hc i f Hf). lia.
Qed.

Lemma snContiguous_lookup (l : list MediaFragment) (first : MediaFragment) :
  snContiguous l → head l = Some first →
  ∀ i f, l !! i = Some f → sn f = sn first + Z.of_nat i.
Proof.
  intros Hc Hh i f Hf. destruct l as [| x l]; [done |].
  injection Hh as ->. destruct i as [| i]; simpl in Hf.
  - injection Hf as <-. lia.
  - rewrite (snContiguousFrom_lookup _ l Hc i f Hf). lia.
Qed.

(** The fast path: a successor entry that matches is returned whatever the
    search would do. *)
Lemma findFragmentByPTS_via_next search (previous first next : MediaFragment)
    (l : list MediaFragment) (b t : Q) :
  head l = Some first →
  js_index l (sn previous - sn first + 1) = Some next →
  compareFragmentWithTolerance next b t = 0 →
  findFragmentByPTS_via search (Some previous) l b t = Returns (Some next).
Proof.
  intros Hh Hnext Hcmp. unfold findFragmentByPTS_via, fragNextOf.
  destruct l as [| x l]; [done |]. injection Hh as ->.
  rewrite Hnext, Hcmp. reflexivity.
Qed.

(** Whatever the previous fragment, a monotonic comparator makes
    [findFragmentByPTS] return the fragment at the comparator's zero. *)
Lemma findFragmentByPTS_monotonicAt (fragPrevious : option MediaFragment)
    (l : list MediaFragment) (b t : Q) (i : nat) (f : MediaFragment) :
  monotonicAt l (λ c, compareFragmentWithTolerance c b t) i → l !! i = Some f →
  findFragmentByPTS fragPrevious l b t = Returns (Some f).
Proof.
  intros Hmono Hf.
  pose proof (BinarySearch_search_found l _ i f Hmono Hf) as Hsearch.
  unfold findFragmentByPTS, findFragmentByPTS_via, fragNextOf.
  destruct fragPrevious as [previous |]; [| by rewrite Hsearch].
  destruct l as [| first l]; [done |]. rewrite Hsearch.
  destruct (js_index _ _) as [next |] eqn:Hnext; [| done].
  destruct (Z.eqb_spec (compareFragmentWithTolerance next b t) 0) as [Hz | Hz]; [| done].
  apply js_index_Some in Hnext as [_ Hnext].
  assert (Z.to_nat (sn previous - sn first + 1) = i) as Hi
    by exact (monotonicAt_unique _ _ i _ next Hmono Hnext Hz).
  rewrite Hi in Hnext. congruence.
Qed.

(** When the second test of the comparator holds, the first does not: the
    adjusted end is not below the adjusted start of a fragment whose
    duration is not negative and whose start is a double. *)
Lemma adjustedStart_below_end (c : MediaFragment) (b t : Q) :
  (0 <= duration c)%Q → isDouble (start c) →
  js_lt (Finite b) (adjustedStart c t) = true →
  js_le (adjustedEnd c t) (Finite b) = false.
Proof.
  intros Hd Hs. unfold adjustedStart, adjustedEnd.
  pose proof (js_add_le_l (start c) (duration c) Hd Hs) as Hle. fold (fragmentEnd c) in Hle.
  destruct (candidateLookupTolerance c t) as [tol | | |] eqn:Htol.
  - intros Hlt.
    assert (js_lt (Finite b) (js_sub (fragmentEnd c) (Finite tol)) = true) as H
      by (apply js_lt_le_trans with (js_sub (Finite (start c)) (Finite tol));
          [done | by apply js_sub_mono_l]).
    by apply js_lt_iff in H as [_ H].
  - done.
  - done.
  - intros _. unfold fragmentEnd, js_sub. simpl.
    pose proof (round64_not_NaN (start c + duration c)). by destruct (round64 _).
Qed.

(** C1 (amended).  Numbers are doubles and every sum and difference is
    rounded.  For every non-empty fragment list that is contiguous in time
    (the start of each fragment is the double [start + duration] of its
    predecessor) with positive durations, starts and durations that doubles
    hold, and a non-negative first start, every tolerance [t] that no
    fragment's [duration + deltaPTS] cuts down, every previous fragment (or
    none) and every [bufferEnd] with [first.start - t <= bufferEnd] (no
    lower bound when the first start is 0) and
    [bufferEnd < last.start + last.duration - t], [findFragmentByPTS]
    returns the one fragment whose tolerance-adjusted interval holds
    [bufferEnd]: the comparator is 0 on it and on no other list position.
    The comparator is +1 exactly when
    [start + duration - min(t, duration + deltaPTS) <= bufferEnd]; on a
    fragment of non-negative duration whose start a double holds it is -1
    exactly when [start - min(t, duration + deltaPTS) > bufferEnd] and
    [start <> 0]; and it is 0 exactly when neither holds. *)
Theorem findFragmentByPTS_unique_match (fragPrevious : option MediaFragment)
    (fragments : list MediaFragment) (first lastFrag : MediaFragment) (bufferEnd t : Q) :
  head fragments = Some first → last fragments = Some lastFrag →
  contiguous fragments → positiveDurations fragments → doubles fragments →
  (0 <= start first)%Q → toleranceFits t fragments →
  ((start first == 0)%Q ∨ js_le (adjustedStart first t) (Finite bufferEnd) = true) →
  js_lt (Finite bufferEnd) (adjustedEnd lastFrag t) = true →
  (∃ i f, fragments !! i = Some f ∧
     findFragmentByPTS fragPrevious fragments bufferEnd t = Returns (Some f) ∧
     candidateLookupTolerance f t = Finite t ∧
     js_lt (Finite bufferEnd) (adjustedEnd f t) = true ∧
     (js_le (adjustedStart f t) (Finite bufferEnd) = true ∨ (start f == 0)%Q) ∧
     compareFragmentWithTolerance f bufferEnd t = 0 ∧
     ∀ j g, fragments !! j = Some g →
       compareFragmentWithTolerance g bufferEnd t = 0 → j = i) ∧
  (∀ c b tol,
     (compareFragmentWithTolerance c b tol = 1 ↔
        js_le (adjustedEnd c tol) (Finite b) = true) ∧
     ((0 <= duration c)%Q → isDouble (start c) →
        (compareFragmentWithTolerance c b tol = -1 ↔
           js_lt (Finite b) (adjustedStart c tol) = true ∧ ¬ (start c == 0)%Q)) ∧
     (compareFragmentWithTolerance c b tol = 0 ↔
        js_le (adjustedEnd c tol) (Finite b) = false ∧
        ¬ (js_lt (Finite b) (adjustedStart c tol) = true ∧ ¬ (start c == 0)%Q))).
Proof.
  intros Hhead Hlast Hc Hp Hd H0 Ht Hlow Hhigh. split.
  - destruct (compare_monotonicAt fragments first lastFrag bufferEnd t
                Hhead Hlast Hc Hp Hd H0 Ht Hlow Hhigh) as (i & f & Hf & Hmono & Hhi & Hlo).
    exists i, f. repeat split; try done.
    + by apply (findFragmentByPTS_monotonicAt _ _ _ _ i).
    + by apply (toleranceFits_lookup t fragments i).
    + destruct Hmono as (_ & Hat & _). by apply Hat.
    + intros j g Hg Hz. exact (monotonicAt_unique _ _ i j g Hmono Hg Hz).
  - intros c b tol.
    destruct (compare_cases c b tol) as [[E H1] | [[E [H1 [H2 H3]]] | [E [H1 H2]]]];
      rewrite E, H1.
    + split; [| split].
      * done.
      * intros Hd' Hs. split; [lia |]. intros [Hx _].
        pose proof (adjustedStart_below_end c b tol Hd' Hs Hx). congruence.
      * split; [lia | by intros [? _]].
    + split; [| split].
      * split; [lia | done].
      * done.
      * split; [lia | intros [_ Hx]; tauto].
    + split; [| split].
      * split; [lia | done].
      * intros Hd' Hs. split; [lia |]. intros [Hx Hy].
        destruct H2; [congruence | tauto].
      * split; [| done]. intros _. split; [done |].
        intros [Hx Hy]. destruct H2; [congruence | tauto].
Qed.

(** Closes a fact between number literals by computation. *)
Ltac qlit :=
  first [lra | (vm_compute; reflexivity) | (vm_compute; congruence) | (vm_compute; tauto)].

Lemma findFragmentByPTS_unique_match_witness :
  let l := [frag 0 0 6; frag 1 6 6; frag 2 12 6] in
  ∃ i f, l !! i = Some f ∧
    findFragmentByPTS (Some (frag 0 0 6)) l 7 (1 # 4) = Returns (Some f) ∧
    candidateLookupTolerance f (1 # 4) = Finite (1 # 4) ∧
    js_lt (Finite 7) (adjustedEnd f (1 # 4)) = true ∧
    (js_le (adjustedStart f (1 # 4)) (Finite 7) = true ∨ (start f == 0)%Q) ∧
    compareFragmentWithTolerance f 7 (1 # 4) = 0 ∧
    ∀ j g, l !! j = Some g → compareFragmentWithTolerance g 7 (1 # 4) = 0 → j = i.
Proof.
  intros l.
  apply (findFragmentByPTS_unique_match (Some (frag 0 0 6)) l (frag 0 0 6) (frag 2 12 6)
           7 (1 # 4)).
  - reflexivity.
  - reflexivity.
  - simpl. repeat split; qlit.
  - repeat constructor; qlit.
  - repeat constructor; qlit.
  - qlit.
  - repeat constructor; qlit.
  - left. qlit.
  - qlit.
Defined.

(** C1 (counterexample).  Two contiguous fragments [[0,10)] and [[10,20)],
    tolerance 1 and [bufferEnd = 19]: the list is non-empty and monotonic in
    start time and 19 lies in [[0, 20)], yet the comparator is +1 on both
    fragments and [findFragmentByPTS] returns [null]. *)
Lemma findFragmentByPTS_window_counterexample :
  let l := [frag 0 0 10; frag 1 10 10] in
  l ≠ [] ∧ monotonicStart l ∧
  (start (frag 0 0 10) <= 19)%Q ∧ (19 < start (frag 1 10 10) + duration (frag 1 10 10))%Q ∧
  findFragmentByPTS None l 19 1 = Returns None ∧
  compareFragmentWithTolerance (frag 0 0 10) 19 1 = 1 ∧
  compareFragmentWithTolerance (frag 1 10 10) 19 1 = 1.
Proof.
  intros l. repeat split; try qlit; try done.
  apply contiguous_monotonicStart.
  - simpl. repeat split; qlit.
  - repeat constructor; qlit.
  - repeat constructor; qlit.
Qed.

(** The other conditions of the amended C1 are needed as well: a gap between
    fragments leaves positions no fragment matches, ... *)
Example findFragmentByPTS_gap :
  findFragmentByPTS None [frag 0 0 10; frag 1 12 8] 11 0 = Returns None.
Proof. vm_compute. reflexivity. Qed.

(** ... a fragment shorter than the tolerance shifts its interval less than
    its neighbours', ... *)
Example findFragmentByPTS_short_fragment :
  findFragmentByPTS None [frag 0 0 10; frag 1 10 2; frag 2 12 10] 6 5 = Returns None.
Proof. vm_compute. reflexivity. Qed.

(** ... and a later fragment that starts at 0 matches too early positions. *)
Example findFragmentByPTS_negative_start :
  findFragmentByPTS None [frag 0 (-10) 10; frag 1 0 10; frag 2 10 10] (-5) 0
  = Returns (Some (frag 1 0 10)).
Proof. vm_compute. reflexivity. Qed.

(** The ends are the rounded ones.  A fragment that starts at the double
    0.1 and lasts the double 0.7 ends at the double 0.7999999999999999, not
    at the exact sum of the two, which is larger: with that [bufferEnd] and
    no tolerance the comparator is +1 and the search finds nothing. *)
Example findFragmentByPTS_rounded_end :
  let c := frag 0 (3602879701896397 # 36028797018963968)
                  (3152519739159347 # 4503599627370496) in
  let bufferEnd := (7205759403792793 # 9007199254740992)%Q in
  isDouble (start c) ∧ isDouble (duration c) ∧ isDouble bufferEnd ∧
  (bufferEnd < start c + duration c)%Q ∧
  fragmentEnd c = Finite bufferEnd ∧
  compareFragmentWithTolerance c bufferEnd 0 = 1 ∧
  findFragmentByPTS None [c] bufferEnd 0 = Returns None.
Proof.
  intros c bufferEnd.
  split; [vm_compute; reflexivity |]. split; [vm_compute; reflexivity |].
  split; [vm_compute; reflexivity |]. split; [vm_compute; reflexivity |].
  split; [vm_compute; reflexivity |]. split; vm_compute; reflexivity.
Qed.

(** C3 (amended).  When the list entry at index
    [previous.sn - fragments[0].sn + 1] exists and the comparator is 0 on it,
    [findFragmentByPTS] returns that entry whatever the search would return
    (no full search decides the result); where sequence numbers follow the
    list positions this entry is the one fragment whose sequence number is
    [previous.sn + 1]; and where the comparator is a monotonic three-way
    predicate over the list (positive before its zero, negative after) the
    full binary search produces the same fragment. *)
Theorem findFragmentByPTS_fast_path (previous first next : MediaFragment)
    (fragments : list MediaFragment) (bufferEnd t : Q) :
  head fragments = Some first →
  js_index fragments (sn previous - sn first + 1) = Some next →
  compareFragmentWithTolerance next bufferEnd t = 0 →
  (∀ search,
     findFragmentByPTS_via search (Some previous) fragments bufferEnd t
     = Returns (Some next)) ∧
  findFragmentByPTS (Some previous) fragments bufferEnd t = Returns (Some next) ∧
  (snContiguous fragments →
     sn next = sn previous + 1 ∧
     ∀ k g, fragments !! k = Some g → sn g = sn previous + 1 → g = next) ∧
  (∀ i, monotonicAt fragments (λ c, compareFragmentWithTolerance c bufferEnd t) i →
     BinarySearch_search fragments (λ c, compareFragmentWithTolerance c bufferEnd t)
     = Some next).
Proof.
  intros Hh Hnext Hcmp. split; [| split; [| split]].
  - intros search. by apply (findFragmentByPTS_via_next search previous first).
  - by apply (findFragmentByPTS_via_next _ previous first).
  - intros Hsn. apply js_index_Some in Hnext as [Hge Hnext].
    pose proof (snContiguous_lookup fragments first Hsn Hh _ _ Hnext) as Hn.
    split; [lia |].
    intros k g Hg Hsg.
    pose proof (snContiguous_lookup fragments first Hsn Hh _ _ Hg) as Hk.
    assert (k = Z.to_nat (sn previous - sn first + 1)) as -> by lia. congruence.
  - intros i Hmono. apply js_index_Some in Hnext as [_ Hnext].
    pose proof (monotonicAt_unique _ _ i _ next Hmono Hnext Hcmp) as Hi.
    rewrite Hi in Hnext. by apply (BinarySearch_search_found _ _ i).
Qed.

Lemma findFragmentByPTS_fast_path_witness :
  let l := [frag 0 0 6; frag 1 6 6; frag 2 12 6] in
  findFragmentByPTS (Some (frag 0 0 6)) l 6 0 = Returns (Some (frag 1 6 6)).
Proof.
  intros l.
  apply (findFragmentByPTS_fast_path (frag 0 0 6) (frag 0 0 6) (frag 1 6 6) l 6 0);
    reflexivity.
Defined.

(** C3 (counterexample).  Fragments [[0,10)], [[10,11)], [[11,21)] with
    sequence numbers 0, 1, 2, tolerance 5 and [bufferEnd = 9.5].  The
    successor of fragment 1 is fragment 2, it is in the list and the
    comparator is 0 on it, so the fast path returns it; the comparator is 0
    on the short fragment 1 as well, and the full binary search returns
    that one. *)
Lemma findFragmentByPTS_fast_path_counterexample :
  let l := [frag 0 0 10; frag 1 10 1; frag 2 11 10] in
  let cmp := λ c, compareFragmentWithTolerance c (19 # 2) 5 in
  snContiguous l ∧ contiguous l ∧ positiveDurations l ∧
  l !! 2%nat = Some (frag 2 11 10) ∧ sn (frag 2 11 10) = sn (frag 1 10 1) + 1 ∧
  cmp (frag 2 11 10) = 0 ∧
  findFragmentByPTS (Some (frag 1 10 1)) l (19 # 2) 5 = Returns (Some (frag 2 11 10)) ∧
  BinarySearch_search l cmp = Some (frag 1 10 1) ∧
  sn (frag 1 10 1) ≠ sn (frag 2 11 10).
Proof.
  intros l cmp. repeat split; try qlit; try done.
  repeat constructor; qlit.
Qed.

(** *** Search by program date time *)

Lemma firstWithinTolerance_None (l : list MediaFragment) (pdt : number) (t : Q) :
  firstWithinTolerance l pdt t = None ↔
  ∀ f, f ∈ l → js_lt pdt (toleranceAdjustedEndPDT f t) = false.
Proof.
  induction l as [| x l IH]; simpl.
  - split; [| done]. intros _ f Hf. by apply elem_of_nil in Hf.
  - change (isPdtWithinToleranceTest x pdt t)
      with (js_lt pdt (toleranceAdjustedEndPDT x t)).
    destruct (js_lt pdt (toleranceAdjustedEndPDT x t)) eqn:E.
    + split; [done |]. intros H. exfalso.
      specialize (H x ltac:(left)). congruence.
    + rewrite IH. split.
      * intros H f Hf. apply elem_of_cons in Hf as [-> | Hf]; [done | by apply H].
      * intros H f Hf. apply H. by right.
Qed.

Lemma firstWithinTolerance_Some (l : list MediaFragment) (pdt : number) (t : Q)
    (f : MediaFragment) :
  firstWithinTolerance l pdt t = Some f →
  ∃ i, l !! i = Some f ∧ js_lt pdt (toleranceAdjustedEndPDT f t) = true ∧
    ∀ j g, (j < i)%nat → l !! j = Some g → js_lt pdt (toleranceAdjustedEndPDT g t) = false.
Proof.
  induction l as [| x l IH]; simpl; [done |].
  change (isPdtWithinToleranceTest x pdt t)
    with (js_lt pdt (toleranceAdjustedEndPDT x t)).
  destruct (js_lt pdt (toleranceAdjustedEndPDT x t)) eqn:E.
  - intros [= ->]. exists 0%nat. split; [done |]. split; [done | intros; lia].
  - intros H. destruct (IH H) as (i & Hi & Hf & Hmin). exists (S i).
    split; [done |]. split; [done |].
    intros [| j] g Hj Hg; simpl in Hg.
    + by injection Hg as <-.
    + apply (Hmin j); [lia | done].
Qed.

(** C2 (amended).  Comparisons are those of JavaScript on doubles: a
    [programDateTime] that is [undefined] is [NaN] and compares false, one
    that is [null] is 0; [endProgramDateTime] is [null], so 0, unless
    [programDateTime] is a finite number, and is the rounded
    [programDateTime + duration * 1000] then.  [findFragmentByPDT] returns
    [null] exactly when the list is empty, [pdtVal] is not finite, [pdtVal]
    is below the first fragment's program date time, [pdtVal] is at or after
    the last fragment's end program date time, or no fragment's
    tolerance-adjusted end
    ([endProgramDateTime - min(tolerance, duration + deltaPTS) * 1000])
    exceeds [pdtVal]; otherwise it returns the first fragment in list order
    whose tolerance-adjusted end strictly exceeds [pdtVal]. *)
Theorem findFragmentByPDT_spec (fragments : list MediaFragment) (pdtVal : number) (t : Q) :
  (findFragmentByPDT fragments pdtVal t = None ↔
     fragments = [] ∨ Number_isFinite pdtVal = false ∨
     (∃ first, head fragments = Some first ∧
        js_lt pdtVal (ToNumber (programDateTime first)) = true) ∨
     (∃ lastFrag, last fragments = Some lastFrag ∧
        js_le (ToNumber (Some (endProgramDateTime lastFrag))) pdtVal = true) ∨
     (∀ f, f ∈ fragments → js_lt pdtVal (toleranceAdjustedEndPDT f t) = false)) ∧
  (∀ f, findFragmentByPDT fragments pdtVal t = Some f →
     ∃ i, Number_isFinite pdtVal = true ∧ fragments !! i = Some f ∧
       js_lt pdtVal (toleranceAdjustedEndPDT f t) = true ∧
       ∀ j g, (j < i)%nat → fragments !! j = Some g →
         js_lt pdtVal (toleranceAdjustedEndPDT g t) = false) ∧
  (∀ f, programDateTime f = None →
     js_lt pdtVal (ToNumber (programDateTime f)) = false ∧
     ToNumber (Some (endProgramDateTime f)) = Finite 0) ∧
  (∀ f, programDateTime f = Some Null →
     ToNumber (programDateTime f) = Finite 0 ∧
     ToNumber (Some (endProgramDateTime f)) = Finite 0) ∧
  (∀ f pdt, programDateTime f = Some (Num (Finite pdt)) →
     ToNumber (Some (endProgramDateTime f))
     = js_add (Finite pdt) (js_mul (Finite (duration f)) (Finite 1000))).
Proof.
  split; [| split; [| split; [| split]]].
  - unfold findFragmentByPDT.
    destruct fragments as [| first rest]; [split; [by left | done] |].
    destruct (last (first :: rest)) as [lastFrag |] eqn:Hlast;
      [| by apply last_None in Hlast].
    destruct (Number_isFinite pdtVal) eqn:Hfin; cbn [negb];
      [| split; [intros _; right; by left | done]].
    destruct (js_lt pdtVal (ToNumber (programDateTime first))) eqn:E1.
    { split; [| done]. intros _. right; right; left. by exists first. }
    destruct (js_le (ToNumber (Some (endProgramDateTime lastFrag))) pdtVal) eqn:E2.
    { split; [| done]. intros _. right; right; right; left. by exists lastFrag. }
    rewrite firstWithinTolerance_None. split.
    + intros H. by right; right; right; right.
    + intros [H | [H | [H | [H | H]]]]; try done.
      * destruct H as (f & [= <-] & H). congruence.
      * destruct H as (f & [= <-] & H). congruence.
  - intros f. unfold findFragmentByPDT.
    destruct fragments as [| first rest]; [done |].
    destruct (last (first :: rest)) as [lastFrag |]; [| done].
    destruct (Number_isFinite pdtVal) eqn:Hfin; cbn [negb]; [| done].
    destruct (js_lt pdtVal (ToNumber (programDateTime first))); [done |].
    destruct (js_le (ToNumber (Some (endProgramDateTime lastFrag))) pdtVal); [done |].
    intros Hf. apply firstWithinTolerance_Some in Hf as (i & Hi & H). by exists i.
  - intros f Hf. unfold endProgramDateTime. rewrite Hf. simpl.
    split; [| done]. unfold js_lt. by destruct pdtVal.
  - intros f Hf. unfold endProgramDateTime. by rewrite Hf.
  - intros f pdt Hf. unfold endProgramDateTime. by rewrite Hf.
Qed.

(** C2 (counterexample).  One fragment with program date time 0 and duration
    10 s (end 10000 ms), tolerance 1 s, [pdtVal = 9500]: the list is not
    empty, 9500 is finite, not below 0 and not at or after 10000, and still
    the result is [null], because the tolerance-adjusted end is 9000. *)
Lemma findFragmentByPDT_null_counterexample :
  let f := parsedFragment 0 0 10 (Some (Num (Finite 0))) in
  [f] ≠ [] ∧ Number_isFinite (Finite 9500) = true ∧
  js_lt (Finite 9500) (ToNumber (programDateTime f)) = false ∧
  ToNumber (Some (endProgramDateTime f)) = Finite 10000 ∧
  js_le (ToNumber (Some (endProgramDateTime f))) (Finite 9500) = false ∧
  toleranceAdjustedEndPDT f 1 = Finite 9000 ∧
  findFragmentByPDT [f] (Finite 9500) 1 = None.
Proof. intros f. repeat split; try done; vm_compute; congruence. Qed.

Example findFragmentByPDT_second :
  findFragmentByPDT
    [parsedFragment 0 0 10 (Some (Num (Finite 0)));
     parsedFragment 1 10 10 (Some (Num (Finite 10000)))]
    (Finite 9500) 1
  = Some (parsedFragment 1 10 10 (Some (Num (Finite 10000)))).
Proof. vm_compute. reflexivity. Qed.

(** Fragments nobody gave a program date time: [pdtVal < undefined] is
    false, the end program date time is [null], and [-5 >= null] is false
    as well, so the loop runs and its test, [null - 0 > -5], holds on the
    first fragment. *)
Example findFragmentByPDT_undated :
  findFragmentByPDT [frag 0 0 6; frag 1 6 6] (Finite (-5)) 0 = Some (frag 0 0 6) ∧
  findFragmentByPDT [frag 0 0 6; frag 1 6 6] (Finite 5) 0 = None ∧
  findFragmentByPDT [parsedFragment 0 0 6 (Some Null)] (Finite (-5)) 0 = None.
Proof. vm_compute. done. Qed.

End FragmentFindersSpec.


(** ** Transport engine (network/network-engine.ts) *)

Module NetworkEngine.

Inductive NetworkEngineContextType : Type :=
| MANIFEST
| LEVEL
| AUDIO_TRACK
| SUBTITLE_TRACK
| MEDIA_FRAGMENT
| KEY.

#[export] Instance NetworkEngineContextType_eq_dec : EqDecision NetworkEngineContextType.
Proof. solve_decision. Defined.

(** The fields of a request context the modelled code reads; [frag] is the
    address of the fragment the request is for. *)
Record NetworkEngineContext : Type := mkContext {
  ctx_type : NetworkEngineContextType;
  ctx_id : option Z;
  ctx_level : option Z;
  ctx_url : option string;
  ctx_responseType : string;
  ctx_isSidxRequest : bool;
  ctx_rangeStart : option Z;
  ctx_rangeEnd : option Z;
  ctx_frag : option nat
}.

(** [retryDelay] and [maxRetryDelay] are absent ([undefined]) when the caller
    leaves them out. *)
Record NetworkEngineLoadOptions : Type := mkLoadOptions {
  timeout : Z;
  maxRetry : Z;
  retryDelay : option Z;
  maxRetryDelay : option Z
}.

(** Only the retry counter and the abort mark of the load statistics take
    part in control flow; the time stamps and byte counts are left out. *)
Record NetworkEngineLoadStats : Type := mkStats {
  aborted : bool;
  retry : Z
}.

Record XMLHttpRequest : Type := mkXhr {
  readyState : Z
}.

(** What the engine does to the outside: calls on its request object, timers
    it arms, and callbacks it invokes. *)
Inductive Effect : Type :=
| XhrOpen (url : option string)
| XhrSetRangeHeader (rangeStart : option Z) (rangeEnd : Z)
| XhrSend
| XhrAbort
| SetRequestTimeout (delay : Z)
| SetRetryTimeout (delay : option Z)
| OnSuccess (context : NetworkEngineContext)
| OnError (code : Z) (context : NetworkEngineContext)
| OnTimeout (context : NetworkEngineContext).

(** A timer field holds the delay of the timer while it is pending. *)
Record NetworkEngine : Type := mkEngine {
  _xhr : option XMLHttpRequest;
  _requestTimeout : option Z;
  _retryTimeout : option (option Z);
  _retryDelay : option Z;
  _config : option NetworkEngineLoadOptions;
  _stats : option NetworkEngineLoadStats;
  _context : option NetworkEngineContext
}.

(** A step of the engine: the engine after it, what it did, and the message
    of the exception if it threw. *)
Definition step : Type := NetworkEngine * list Effect * option string.

(** [new NetworkEngine(config)]. *)
Definition NetworkEngine_new : NetworkEngine :=
  {| _xhr := None; _requestTimeout := None; _retryTimeout := None;
     _retryDelay := None; _config := None; _stats := None; _context := None |}.

Definition set_aborted (stats : option NetworkEngineLoadStats)
    : option NetworkEngineLoadStats :=
  match stats with
  | Some s => Some {| aborted := true; retry := retry s |}
  | None => None
  end.

(** [abort()]: an unfinished request is marked aborted and cancelled; both
    timers are cleared. *)
Definition abort (e : NetworkEngine) : NetworkEngine * list Effect :=
  let unfinished :=
    match _xhr e with
    | Some xhr => negb (readyState xhr =? 4)
    | None => false
    end in
  ({| _xhr := _xhr e; _requestTimeout := None; _retryTimeout := None;
      _retryDelay := _retryDelay e; _config := _config e;
      _stats := if unfinished then set_aborted (_stats e) else _stats e;
      _context := _context e |},
   if unfinished then [XhrAbort] else []).

(** [destroy()]: [abort()], then the request object is dropped. *)
Definition destroy (e : NetworkEngine) : NetworkEngine * list Effect :=
  let '(e1, effects) := abort e in
  ({| _xhr := None; _requestTimeout := _requestTimeout e1;
      _retryTimeout := _retryTimeout e1; _retryDelay := _retryDelay e1;
      _config := _config e1; _stats := _stats e1; _context := _context e1 |},
   effects).

(** [_execRequest()] without an [xhrSetup] hook and with an [xhr.open] that
    does not throw: refuses to start while a request object is held,
    otherwise opens, adds the range header for a truthy [rangeEnd], arms the
    request timer and sends. *)
Definition _execRequest (e : NetworkEngine) : step :=
  match _xhr e with
  | Some _ => (e, [], Some "Request already ongoing"%string)
  | None =>
      match _context e, _config e with
      | Some context, Some config =>
          let range :=
            match ctx_rangeEnd context with
            | Some rangeEnd =>
                if rangeEnd =? 0 then []
                else [XhrSetRangeHeader (ctx_rangeStart context) rangeEnd]
            | None => []
            end in
          ({| _xhr := Some {| readyState := 1 |};
              _requestTimeout := Some (timeout config);
              _retryTimeout := _retryTimeout e; _retryDelay := _retryDelay e;
              _config := _config e; _stats := _stats e; _context := _context e |},
           [XhrOpen (ctx_url context)] ++ range
             ++ [SetRequestTimeout (timeout config); XhrSend],
           None)
      | _, _ => (e, [], Some "TypeError: context or config is undefined"%string)
      end
  end.

(** [load(context, config, callbacks)]. *)
Definition load (e : NetworkEngine) (context : NetworkEngineContext)
    (config : NetworkEngineLoadOptions) : step :=
  _execRequest
    {| _xhr := _xhr e; _requestTimeout := _requestTimeout e;
       _retryTimeout := _retryTimeout e; _retryDelay := retryDelay config;
       _config := Some config;
       _stats := Some {| aborted := false; retry := 0 |};
       _context := Some context |}.

(** [Math.min(2 * this._retryDelay, config.maxRetryDelay)]; a missing operand
    gives no number. *)
Definition nextRetryDelay (current maxDelay : option Z) : option Z :=
  match current, maxDelay with
  | Some d, Some m => Some (Z.min (2 * d) m)
  | _, _ => None
  end.

(** [_handleReadyStateChange(event)] for an event of the engine's own request
    object that reports [readyState] and, once done, [status]. *)
Definition _handleReadyStateChange (e : NetworkEngine) (state status : Z) : step :=
  match _stats e, _context e, _config e with
  | Some stats, Some context, Some config =>
      if aborted stats then (e, [], None)
      else if 2 <=? state then
        if state =? 4 then
          let done :=
            {| _xhr := Some {| readyState := 4 |}; _requestTimeout := None;
               _retryTimeout := _retryTimeout e; _retryDelay := _retryDelay e;
               _config := _config e; _stats := _stats e; _context := _context e |} in
          if (200 <=? status) && (status <? 300) then
            (done, [OnSuccess context], None)
          else if (maxRetry config <=? retry stats)
                  || ((400 <=? status) && (status <? 499)) then
            (done, [OnError status context], None)
          else
            let '(e1, effects) := destroy done in
            ({| _xhr := _xhr e1; _requestTimeout := _requestTimeout e1;
                _retryTimeout := Some (_retryDelay e1);
                _retryDelay := nextRetryDelay (_retryDelay e1) (maxRetryDelay config);
                _config := _config e1;
                _stats := Some {| aborted := aborted stats; retry := retry stats + 1 |};
                _context := _context e1 |},
             effects ++ [SetRetryTimeout (_retryDelay e1)], None)
        else
          ({| _xhr := Some {| readyState := state |};
              _requestTimeout := Some (timeout config);
              _retryTimeout := _retryTimeout e; _retryDelay := _retryDelay e;
              _config := _config e; _stats := _stats e; _context := _context e |},
           [SetRequestTimeout (timeout config)], None)
      else (e, [], None)
  | _, _, _ => (e, [], Some "TypeError: stats, context or config is undefined"%string)
  end.

(** The request timer fires: [_handleTimeout()]. *)
Definition _handleTimeout (e : NetworkEngine) : step :=
  match _context e with
  | Some context =>
      ({| _xhr := _xhr e; _requestTimeout := None; _retryTimeout := _retryTimeout e;
          _retryDelay := _retryDelay e; _config := _config e; _stats := _stats e;
          _context := _context e |},
       [OnTimeout context], None)
  | None => (e, [], Some "TypeError: context is undefined"%string)
  end.

(** The retry timer fires: the pending timer is spent and [_execRequest()]
    runs. *)
Definition fireRetryTimeout (e : NetworkEngine) : step :=
  _execRequest
    {| _xhr := _xhr e; _requestTimeout := _requestTimeout e; _retryTimeout := None;
       _retryDelay := _retryDelay e; _config := _config e; _stats := _stats e;
       _context := _context e |}.

(** The engine against a server: each status of [statuses] answers the
    request in flight; after an answer that armed the retry timer the timer
    fires and the next status answers the new request; after an answer that
    armed no retry the exchange is over. *)
Fixpoint respondAll (e : NetworkEngine) (statuses : list Z) : step :=
  match statuses with
  | [] => (e, [], None)
  | status :: rest =>
      match _handleReadyStateChange e 4 status with
      | (e1, effects1, Some msg) => (e1, effects1, Some msg)
      | (e1, effects1, None) =>
          match _retryTimeout e1 with
          | None => (e1, effects1, None)
          | Some _ =>
              match fireRetryTimeout e1 with
              | (e2, effects2, Some msg) => (e2, effects1 ++ effects2, Some msg)
              | (e2, effects2, None) =>
                  let '(e3, effects3, thrown) := respondAll e2 rest in
                  (e3, effects1 ++ effects2 ++ effects3, thrown)
              end
          end
      end
  end.

(** A load on a fresh engine, answered by [statuses]. *)
Definition loadAndRespond (context : NetworkEngineContext)
    (config : NetworkEngineLoadOptions) (statuses : list Z) : step :=
  match load NetworkEngine_new context config with
  | (e1, effects1, Some msg) => (e1, effects1, Some msg)
  | (e1, effects1, None) =>
      let '(e2, effects2, thrown) := respondAll e1 statuses in
      (e2, effects1 ++ effects2, thrown)
  end.

(** The delays of the retry timers armed in a trace, in order. *)
Definition retryDelays (effects : list Effect) : list (option Z) :=
  omap (λ eff, match eff with SetRetryTimeout d => Some d | _ => None end) effects.

(** The statuses [onError] was invoked with, in order. *)
Definition errorCodes (effects : list Effect) : list Z :=
  omap (λ eff, match eff with OnError code _ => Some code | _ => None end) effects.

(** The requests sent in a trace. *)
Definition sends (effects : list Effect) : nat :=
  length (omap (λ eff, match eff with XhrSend => Some eff | _ => None end) effects).

End NetworkEngine.

(** ** Properties of the transport engine *)

Module NetworkEngineSpec.
Import NetworkEngine.

Definition engineOf (s : step) : NetworkEngine := s.1.1.
Definition effectsOf (s : step) : list Effect := s.1.2.
Definition thrownOf (s : step) : option string := s.2.

(** A context for the examples. *)
Definition levelContext (url : string) : NetworkEngineContext :=
  {| ctx_type := LEVEL; ctx_id := Some 0; ctx_level := Some 0; ctx_url := Some url;
     ctx_responseType := ""; ctx_isSidxRequest := false; ctx_rangeStart := None;
     ctx_rangeEnd := None; ctx_frag := None |}.

Definition threeRetries (d m : Z) : NetworkEngineLoadOptions :=
  {| timeout := 10000; maxRetry := 3; retryDelay := Some d; maxRetryDelay := Some m |}.

Example respond_503_trace :
  effectsOf (loadAndRespond (levelContext "a.m3u8") (threeRetries 1000 64000)
               [503; 503; 503; 503; 503; 503])
  = [XhrOpen (Some "a.m3u8"%string); SetRequestTimeout 10000; XhrSend;
     SetRetryTimeout (Some 1000);
     XhrOpen (Some "a.m3u8"%string); SetRequestTimeout 10000; XhrSend;
     SetRetryTimeout (Some 2000);
     XhrOpen (Some "a.m3u8"%string); SetRequestTimeout 10000; XhrSend;
     SetRetryTimeout (Some 4000);
     XhrOpen (Some "a.m3u8"%string); SetRequestTimeout 10000; XhrSend;
     OnError 503 (levelContext "a.m3u8")].
Proof. reflexivity. Qed.

Example respond_404_trace :
  effectsOf (loadAndRespond (levelContext "a.m3u8") (threeRetries 1000 64000) [404; 200])
  = [XhrOpen (Some "a.m3u8"%string); SetRequestTimeout 10000; XhrSend;
     OnError 404 (levelContext "a.m3u8")].
Proof. reflexivity. Qed.

(** Status 499 is outside the band the engine never retries
    ([status >= 400 && status < 499]): with retries left it is retried. *)
Example respond_499_is_retried :
  retryDelays
    (effectsOf (loadAndRespond (levelContext "a.m3u8") (threeRetries 1000 64000) [499; 200]))
  = [Some 1000].
Proof. reflexivity. Qed.

(** C4 (amended).  A load with [maxRetry = 3] and
    [0 <= retryDelay <= maxRetryDelay] on a fresh engine, answered by HTTP 503
    as often as the engine asks (at least four answers on offer): the engine
    sends four requests, arms the retry timer exactly three times, with the
    delays [retryDelay], [min(2 * retryDelay, maxRetryDelay)] and the
    doubling of that capped again, which never decrease and never exceed
    [maxRetryDelay], and then invokes [onError] once, with status 503, as its
    last act.  And an engine that gets an answer with a status from 400 to
    498 invokes [onError] with it at once, whatever its retry count: it arms
    no retry timer and counts no retry. *)
Theorem load_503_three_retries_then_onError (context : NetworkEngineContext)
    (config : NetworkEngineLoadOptions) (d m : Z) (n : nat) :
  maxRetry config = 3 → retryDelay config = Some d → maxRetryDelay config = Some m →
  0 ≤ d ≤ m → (4 ≤ n)%nat →
  let run := loadAndRespond context config (replicate n 503) in
  let d1 := Z.min (2 * d) m in
  let d2 := Z.min (2 * d1) m in
  (thrownOf run = None ∧
   retryDelays (effectsOf run) = [Some d; Some d1; Some d2] ∧
   sends (effectsOf run) = 4%nat ∧
   errorCodes (effectsOf run) = [503] ∧
   last (effectsOf run) = Some (OnError 503 context) ∧
   _retryTimeout (engineOf run) = None ∧
   d ≤ d1 ∧ d1 ≤ d2 ∧ d2 ≤ m) ∧
  (∀ e stats ctx cfg status,
     _stats e = Some stats → aborted stats = false →
     _context e = Some ctx → _config e = Some cfg →
     400 ≤ status ≤ 498 →
     effectsOf (_handleReadyStateChange e 4 status) = [OnError status ctx] ∧
     thrownOf (_handleReadyStateChange e 4 status) = None ∧
     _retryTimeout (engineOf (_handleReadyStateChange e 4 status)) = _retryTimeout e ∧
     _stats (engineOf (_handleReadyStateChange e 4 status)) = Some stats).
Proof.
  intros Hmax Hdelay Hcap Hd Hn. split.
  - destruct config as [tmo mr rd mrd]. simpl in Hmax, Hdelay, Hcap. subst mr rd mrd.
    do 4 (destruct n as [| n]; [lia |]).
    destruct context as [ty id lv url rt sidx rs re fr].
    repeat split; try lia.
    all: destruct re as [[| re | re] |]; cbv -[Z.min Z.mul]; reflexivity.
  - intros e stats ctx cfg status Hs Ha Hc Hcfg Hstatus.
    unfold _handleReadyStateChange. rewrite Hs, Hc, Hcfg, Ha. simpl.
    replace ((200 <=? status) && (status <? 300)) with false
      by (symmetry; apply andb_false_iff; right; apply Z.ltb_ge; lia).
    replace ((400 <=? status) && (status <? 499)) with true
      by (symmetry; apply andb_true_iff; split; [apply Z.leb_le | apply Z.ltb_lt]; lia).
    rewrite orb_true_r. simpl. repeat split; done.
Qed.

Lemma load_503_three_retries_witness :
  let run := loadAndRespond (levelContext "a.m3u8") (threeRetries 1000 64000)
               (replicate 5 503) in
  retryDelays (effectsOf run) = [Some 1000; Some 2000; Some 4000] ∧
  errorCodes (effectsOf run) = [503].
Proof.
  pose proof (load_503_three_retries_then_onError (levelContext "a.m3u8")
                (threeRetries 1000 64000) 1000 64000 5
                eq_refl eq_refl eq_refl ltac:(lia) ltac:(lia)) as [H _].
  destruct H as (_ & Hdelays & _ & Hcodes & _). split; [exact Hdelays | exact Hcodes].
Defined.

(** C4 (counterexample).  [maxRetry = 3], [retryDelay = 1000] and
    [maxRetryDelay = 500], every answer 503: the three retry timers are armed
    with 1000, 500 and 500 ms.  The first delay is [retryDelay] as configured,
    above the cap, and the delays decrease. *)
Lemma load_503_delays_counterexample :
  let config := threeRetries 1000 500 in
  let run := loadAndRespond (levelContext "a.m3u8") config (replicate 4 503) in
  maxRetry config = 3 ∧
  retryDelays (effectsOf run) = [Some 1000; Some 500; Some 500] ∧
  errorCodes (effectsOf run) = [503] ∧
  ¬ (1000 ≤ 500).
Proof. repeat split; try reflexivity. lia. Qed.

End NetworkEngineSpec.

(** ** Configuration and signals (hls.ts) *)

(** The loading policy fields of [HlsConfig]. *)
Record HlsConfig : Type := mkHlsConfig {
  manifestLoadingTimeOut : Z;
  manifestLoadingMaxRetry : Z;
  manifestLoadingRetryDelay : Z;
  manifestLoadingMaxRetryTimeout : Z;
  levelLoadingTimeOut : Z;
  levelLoadingMaxRetry : Z;
  levelLoadingRetryDelay : Z;
  levelLoadingMaxRetryTimeout : Z;
  fragLoadingTimeOut : Z;
  fragLoadingMaxRetry : Z;
  fragLoadingRetryDelay : Z;
  fragLoadingMaxRetryTimeout : Z
}.

(** A configuration for the examples. *)
Definition sampleConfig : HlsConfig :=
  {| manifestLoadingTimeOut := 10000; manifestLoadingMaxRetry := 1;
     manifestLoadingRetryDelay := 1000; manifestLoadingMaxRetryTimeout := 64000;
     levelLoadingTimeOut := 10000; levelLoadingMaxRetry := 4;
     levelLoadingRetryDelay := 1000; levelLoadingMaxRetryTimeout := 64000;
     fragLoadingTimeOut := 20000; fragLoadingMaxRetry := 6;
     fragLoadingRetryDelay := 1000; fragLoadingMaxRetryTimeout := 64000 |}.

(** The members of [ErrorDetail] (errors.ts, not among the sources) that the
    modelled handlers name; only their identity matters. *)
Inductive ErrorDetail : Type :=
| MANIFEST_LOAD_ERROR
| MANIFEST_LOAD_TIMEOUT
| MANIFEST_PARSING_ERROR
| LEVEL_LOAD_ERROR
| LEVEL_LOAD_TIMEOUT
| AUDIO_TRACK_LOAD_ERROR
| AUDIO_TRACK_LOAD_TIMEOUT
| KEY_LOAD_ERROR
| KEY_LOAD_TIMEOUT.

(** ** Playlist loading (network/playlist-loading.handler.ts) *)

Module PlaylistLoading.
Import NetworkEngine.

#[export] Instance NetworkEngineContextType_countable : Countable NetworkEngineContextType.
Proof.
  refine (inj_countable'
            (λ t, match t with
                  | MANIFEST => 0%nat | LEVEL => 1%nat | AUDIO_TRACK => 2%nat
                  | SUBTITLE_TRACK => 3%nat | MEDIA_FRAGMENT => 4%nat | KEY => 5%nat
                  end)
            (λ n, match n with
                  | 0%nat => MANIFEST | 1%nat => LEVEL | 2%nat => AUDIO_TRACK
                  | 3%nat => SUBTITLE_TRACK | 4%nat => MEDIA_FRAGMENT | _ => KEY
                  end) _).
  by intros [].
Defined.

(** The handler owns [loaders], one engine per context type; [engines] is the
    store of every engine it has created, by address, since a replaced
    engine lives on after it has lost its place in [loaders]. *)
Record PlaylistLoadingHandler : Type := mkHandler {
  engines : list NetworkEngine;
  loaders : gmap NetworkEngineContextType nat
}.

Definition PlaylistLoadingHandler_new : PlaylistLoadingHandler :=
  {| engines := []; loaders := ∅ |}.

(** What the handler does to the outside: effects of one of its engines, the
    error signal, and the hand-over of a playlist body to the parser. *)
Inductive HandlerEffect : Type :=
| EngineDid (address : nat) (eff : Effect)
| TriggerError (details : option ErrorDetail) (fatal : bool) (url : option string)
| PlaylistBody (context : NetworkEngineContext)
| SidxBody (context : NetworkEngineContext).

(** A step of the handler: the handler after it, what it did, and the message
    of the exception if it threw. *)
Definition hstep : Type := PlaylistLoadingHandler * list HandlerEffect * option string.

Definition getInternalLoader (h : PlaylistLoadingHandler)
    (contextType : NetworkEngineContextType) : option (nat * NetworkEngine) :=
  match loaders h !! contextType with
  | Some address =>
      match engines h !! address with
      | Some e => Some (address, e)
      | None => None
      end
  | None => None
  end.

Definition resetInternalLoader (h : PlaylistLoadingHandler)
    (contextType : NetworkEngineContextType) : PlaylistLoadingHandler :=
  {| engines := engines h; loaders := delete contextType (loaders h) |}.

(** The engine at [address] replaced by its next state. *)
Definition setEngine (h : PlaylistLoadingHandler) (address : nat) (e : NetworkEngine)
    : PlaylistLoadingHandler :=
  {| engines := <[address := e]> (engines h); loaders := loaders h |}.

(** The [switch] of [load]: the engine options for a context type. *)
Definition loaderConfigFor (config : HlsConfig) (contextType : NetworkEngineContextType)
    : NetworkEngineLoadOptions :=
  match contextType with
  | MANIFEST =>
      {| timeout := manifestLoadingTimeOut config;
         maxRetry := manifestLoadingMaxRetry config;
         retryDelay := Some (manifestLoadingRetryDelay config);
         maxRetryDelay := Some (manifestLoadingMaxRetryTimeout config) |}
  | LEVEL =>
      {| timeout := levelLoadingTimeOut config;
         maxRetry := 0;
         retryDelay := None;
         maxRetryDelay := None |}
  | _ =>
      {| timeout := levelLoadingTimeOut config;
         maxRetry := levelLoadingMaxRetry config;
         retryDelay := Some (levelLoadingRetryDelay config);
         maxRetryDelay := Some (levelLoadingMaxRetryTimeout config) |}
  end.

(** [load(url, context)]; the result is the boolean the method returns. *)
Definition load (config : HlsConfig) (h : PlaylistLoadingHandler) (url : string)
    (context : NetworkEngineContext) : hstep * bool :=
  let previous := getInternalLoader h (ctx_type context) in
  let sameUrl :=
    match previous with
    | Some (_, loader) =>
        match _context loader with
        | Some loaderContext => bool_decide (ctx_url loaderContext = Some url)
        | None => false
        end
    | None => false
    end in
  if sameUrl then ((h, [], None), false)
  else
    let '(h1, effects1) :=
      match previous with
      | Some (address, loader) =>
          let '(loader', effects) := abort loader in
          (setEngine h address loader', EngineDid address <$> effects)
      | None => (h, [])
      end in
    let loaderConfig := loaderConfigFor config (ctx_type context) in
    let address := length (engines h1) in
    let context' :=
      {| ctx_type := ctx_type context; ctx_id := ctx_id context;
         ctx_level := ctx_level context; ctx_url := Some url;
         ctx_responseType := ctx_responseType context;
         ctx_isSidxRequest := ctx_isSidxRequest context;
         ctx_rangeStart := ctx_rangeStart context;
         ctx_rangeEnd := ctx_rangeEnd context; ctx_frag := ctx_frag context |} in
    let '(loader, effects2, thrown) :=
      NetworkEngine.load NetworkEngine_new context' loaderConfig in
    (({| engines := engines h1 ++ [loader];
         loaders := <[ctx_type context := address]> (loaders h1) |},
      effects1 ++ (EngineDid address <$> effects2), thrown),
     true).

(** The [switch] of [_handleNetworkError]: detail code and fatal flag. *)
Definition networkErrorFor (contextType : NetworkEngineContextType) (isTimeout : bool)
    : option ErrorDetail * bool :=
  match contextType with
  | MANIFEST =>
      (Some (if isTimeout then MANIFEST_LOAD_TIMEOUT else MANIFEST_LOAD_ERROR), true)
  | LEVEL =>
      (Some (if isTimeout then LEVEL_LOAD_TIMEOUT else LEVEL_LOAD_ERROR), false)
  | AUDIO_TRACK =>
      (Some (if isTimeout then AUDIO_TRACK_LOAD_TIMEOUT else AUDIO_TRACK_LOAD_ERROR), false)
  | _ => (None, false)
  end.

(** [_handleNetworkError(context, networkDetails, timeout)]: the registered
    engine is aborted and forgotten, and the error signal carries its URL;
    with no engine registered, reading [loader.context] throws. *)
Definition _handleNetworkError (h : PlaylistLoadingHandler)
    (context : NetworkEngineContext) (isTimeout : bool) : hstep :=
  let '(details, fatal) := networkErrorFor (ctx_type context) isTimeout in
  match getInternalLoader h (ctx_type context) with
  | Some (address, loader) =>
      let '(loader', effects) := abort loader in
      let h1 := resetInternalLoader (setEngine h address loader') (ctx_type context) in
      match _context loader' with
      | Some loaderContext =>
          (h1, (EngineDid address <$> effects)
                 ++ [TriggerError details fatal (ctx_url loaderContext)], None)
      | None => (h1, EngineDid address <$> effects,
                 Some "TypeError: loader.context is undefined"%string)
      end
  | None => (h, [], Some "TypeError: loader is undefined"%string)
  end.

(** [loadsuccess(response, stats, context)] up to the hand-over of the body:
    the answer to a segment-index request leaves the engine registered, any
    other answer clears the registration before the body is parsed. *)
Definition loadsuccess (h : PlaylistLoadingHandler) (context : NetworkEngineContext)
    : hstep :=
  if ctx_isSidxRequest context then (h, [SidxBody context], None)
  else (resetInternalLoader h (ctx_type context), [PlaylistBody context], None).

(** The callbacks the handler gives its engines: [loadsuccess], [loaderror]
    and [loadtimeout]. *)
Definition callback (h : PlaylistLoadingHandler) (eff : Effect) : hstep :=
  match eff with
  | OnSuccess context => loadsuccess h context
  | OnError _ context => _handleNetworkError h context false
  | OnTimeout context => _handleNetworkError h context true
  | _ => (h, [], None)
  end.

(** The effects of a step of the engine at [address], each followed by what
    the callback it invokes does; an exception ends the step. *)
Fixpoint deliver (h : PlaylistLoadingHandler) (address : nat) (effects : list Effect)
    : hstep :=
  match effects with
  | [] => (h, [], None)
  | eff :: rest =>
      match callback h eff with
      | (h1, out1, Some msg) => (h1, EngineDid address eff :: out1, Some msg)
      | (h1, out1, None) =>
          let '(h2, out2, thrown) := deliver h1 address rest in
          (h2, EngineDid address eff :: out1 ++ out2, thrown)
      end
  end.

(** A step of the engine at [address] inside the handler. *)
Definition engineStep (h : PlaylistLoadingHandler) (address : nat)
    (s : NetworkEngine.step) : hstep :=
  match s with
  | (e, effects, Some msg) =>
      (setEngine h address e, EngineDid address <$> effects, Some msg)
  | (e, effects, None) => deliver (setEngine h address e) address effects
  end.

(** A request that has not reached [readyState] 4 can still report. *)
Definition requestActive (e : NetworkEngine) : bool :=
  match _xhr e with
  | Some xhr => negb (readyState xhr =? 4)
  | None => false
  end.

(** What can happen to the handler: a load is asked for (by a loading signal
    or as the follow-up request for a segment index), the request object of
    an engine reports a state, or one of an engine's timers fires.  The
    browser reports only for a request that is not done and fires only
    pending timers. *)
Inductive Event : Type :=
| Load (url : string) (context : NetworkEngineContext)
| ReadyStateChange (address : nat) (state status : Z)
| RequestTimeout (address : nat)
| RetryTimeout (address : nat).

Definition handle (config : HlsConfig) (h : PlaylistLoadingHandler) (ev : Event) : hstep :=
  match ev with
  | Load url context => (load config h url context).1
  | ReadyStateChange address state status =>
      match engines h !! address with
      | Some e =>
          if requestActive e
          then engineStep h address (_handleReadyStateChange e state status)
          else (h, [], None)
      | None => (h, [], None)
      end
  | RequestTimeout address =>
      match engines h !! address with
      | Some e =>
          if bool_decide (is_Some (_requestTimeout e))
          then engineStep h address (_handleTimeout e)
          else (h, [], None)
      | None => (h, [], None)
      end
  | RetryTimeout address =>
      match engines h !! address with
      | Some e =>
          if bool_decide (is_Some (_retryTimeout e))
          then engineStep h address (fireRetryTimeout e)
          else (h, [], None)
      | None => (h, [], None)
      end
  end.

(** The handler after a sequence of events; an exception ends the step that
    threw and the next event finds the state left behind. *)
Fixpoint run (config : HlsConfig) (h : PlaylistLoadingHandler) (events : list Event)
    : PlaylistLoadingHandler :=
  match events with
  | [] => h
  | ev :: rest => run config (handle config h ev).1.1 rest
  end.

(** An engine has a transport request in flight while its request object is
    neither done nor aborted, or while a retry is scheduled. *)
Definition inFlight (e : NetworkEngine) : bool :=
  match _xhr e, _stats e with
  | Some xhr, Some stats => negb (readyState xhr =? 4) && negb (aborted stats)
  | _, _ => false
  end
  || bool_decide (is_Some (_retryTimeout e)).

(** Engine [address] is in flight for [contextType]. *)
Definition inFlightAt (h : PlaylistLoadingHandler)
    (contextType : NetworkEngineContextType) (address : nat) : bool :=
  match engines h !! address with
  | Some e =>
      match _context e with
      | Some context => inFlight e && bool_decide (ctx_type context = contextType)
      | None => false
      end
  | None => false
  end.

(** The engines in flight for a context type, by address. *)
Definition inFlightFor (h : PlaylistLoadingHandler)
    (contextType : NetworkEngineContextType) : list nat :=
  filter (λ address, inFlightAt h contextType address = true)
         (seq 0 (length (engines h))).

End PlaylistLoading.

(** ** Properties of playlist loading *)

Module PlaylistLoadingSpec.
Import NetworkEngine PlaylistLoading.

(** The context [onManifestLoading], [onLevelLoading], [onAudioTrackLoading]
    and [onSubtitleTrackLoading] build. *)
Definition playlistContext (t : NetworkEngineContextType) : NetworkEngineContext :=
  {| ctx_type := t; ctx_id := None; ctx_level := None; ctx_url := None;
     ctx_responseType := ""; ctx_isSidxRequest := false; ctx_rangeStart := None;
     ctx_rangeEnd := None; ctx_frag := None |}.

Example two_levels_one_in_flight :
  let h := run sampleConfig PlaylistLoadingHandler_new
             [Load "a.m3u8" (playlistContext LEVEL);
              Load "b.m3u8" (playlistContext LEVEL);
              Load "b.m3u8" (playlistContext LEVEL);
              Load "audio.m3u8" (playlistContext AUDIO_TRACK)] in
  inFlightFor h LEVEL = [1%nat] ∧ inFlightFor h AUDIO_TRACK = [2%nat] ∧
  length (engines h) = 3%nat.
Proof. vm_compute. done. Qed.

Example level_error_is_not_fatal :
  (handle sampleConfig
     (run sampleConfig PlaylistLoadingHandler_new [Load "a.m3u8" (playlistContext LEVEL)])
     (ReadyStateChange 0 4 503)).1.2
  = [EngineDid 0 (OnError 503
       {| ctx_type := LEVEL; ctx_id := None; ctx_level := None;
          ctx_url := Some "a.m3u8"%string; ctx_responseType := "";
          ctx_isSidxRequest := false; ctx_rangeStart := None; ctx_rangeEnd := None;
          ctx_frag := None |});
     TriggerError (Some LEVEL_LOAD_ERROR) false (Some "a.m3u8"%string)].
Proof. vm_compute. done. Qed.

(** *** At most one request in flight per context type *)

(** An engine never holds a request object and a scheduled retry at once. *)
Definition wellFormed (e : NetworkEngine) : Prop :=
  is_Some (_xhr e) → _retryTimeout e = None.

(** Every engine in flight is the one [loaders] holds for its context type. *)
Definition inFlightRegistered (h : PlaylistLoadingHandler) : Prop :=
  ∀ a e, engines h !! a = Some e →
    wellFormed e ∧
    (inFlight e = true →
       ∃ ctx, _context e = Some ctx ∧ loaders h !! ctx_type ctx = Some a).

Lemma abort_inFlight (e : NetworkEngine) : inFlight (abort e).1 = false.
Proof.
  unfold abort, inFlight. simpl.
  destruct (_xhr e) as [xhr |]; [| done].
  destruct (readyState xhr =? 4) eqn:E; simpl.
  - by destruct (_stats e).
  - by destruct (_stats e) as [stats |].
Qed.

Lemma abort_wellFormed (e : NetworkEngine) : wellFormed (abort e).1.
Proof. by intros _. Qed.

Lemma abort_context (e : NetworkEngine) : _context (abort e).1 = _context e.
Proof. done. Qed.

Lemma getInternalLoader_Some (h : PlaylistLoadingHandler) t a e :
  getInternalLoader h t = Some (a, e) ↔ loaders h !! t = Some a ∧ engines h !! a = Some e.
Proof.
  unfold getInternalLoader. split.
  - destruct (loaders h !! t) as [a' |]; [| done].
    destruct (engines h !! a') as [e' |] eqn:E; [| done]. by intros [= -> ->].
  - intros [Hl He]. by rewrite Hl, He.
Qed.

Lemma inv_setEngine (h : PlaylistLoadingHandler) (a : nat) (e e' : NetworkEngine) :
  inFlightRegistered h → engines h !! a = Some e →
  wellFormed e' → _context e' = _context e →
  (inFlight e' = true → inFlight e = true) →
  inFlightRegistered (setEngine h a e').
Proof.
  intros Hinv He Hwf Hctx Hfl a0 e0 H0. unfold setEngine in *. simpl in *.
  destruct (decide (a = a0)) as [<- | Hne].
  - rewrite list_lookup_insert_eq in H0 by (by eapply lookup_lt_Some).
    injection H0 as <-. split; [done |]. intros Hf.
    destruct (Hinv a e He) as [_ Hreg]. rewrite Hctx. by apply Hreg, Hfl.
  - rewrite list_lookup_insert_ne in H0 by done. by apply Hinv.
Qed.

Lemma inv_reset (h : PlaylistLoadingHandler) (t : NetworkEngineContextType) :
  inFlightRegistered h →
  (∀ a e, getInternalLoader h t = Some (a, e) → inFlight e = false) →
  inFlightRegistered (resetInternalLoader h t).
Proof.
  intros Hinv Hquiet a e He. simpl in He. destruct (Hinv a e He) as [Hwf Hreg].
  split; [done |]. intros Hf. destruct (Hreg Hf) as (ctx & Hctx & Hl).
  exists ctx. split; [done |]. simpl.
  destruct (decide (ctx_type ctx = t)) as [<- | Hne].
  - assert (inFlight e = false) as Hx
      by (apply (Hquiet a e), getInternalLoader_Some; done).
    congruence.
  - by rewrite lookup_delete_ne.
Qed.

Lemma inv_register (h : PlaylistLoadingHandler) (t : NetworkEngineContextType)
    (e : NetworkEngine) :
  inFlightRegistered h →
  (∀ a0 e0, getInternalLoader h t = Some (a0, e0) → inFlight e0 = false) →
  wellFormed e →
  (inFlight e = true → ∃ ctx, _context e = Some ctx ∧ ctx_type ctx = t) →
  inFlightRegistered
    {| engines := engines h ++ [e]; loaders := <[t := length (engines h)]> (loaders h) |}.
Proof.
  intros Hinv Hquiet Hwf Hnew a0 e0 H0. simpl in *.
  destruct (decide (a0 < length (engines h))%nat) as [Hlt | Hge].
  - rewrite lookup_app_l in H0 by done. destruct (Hinv a0 e0 H0) as [Hwf0 Hreg].
    split; [done |]. intros Hf. destruct (Hreg Hf) as (ctx & Hctx & Hl).
    exists ctx. split; [done |].
    destruct (decide (ctx_type ctx = t)) as [<- | Hne].
    + assert (inFlight e0 = false) as Hx
        by (apply (Hquiet a0 e0), getInternalLoader_Some; done).
      congruence.
    + by rewrite lookup_insert_ne.
  - rewrite lookup_app_r in H0 by lia.
    destruct (a0 - length (engines h))%nat as [| k] eqn:Hk; simpl in H0; [| done].
    injection H0 as <-. split; [done |]. intros Hf.
    destruct (Hnew Hf) as (ctx & Hctx & <-). exists ctx. split; [done |].
    rewrite lookup_insert_eq. f_equal. lia.
Qed.

Lemma handleNetworkError_inv (h : PlaylistLoadingHandler) (ctx : NetworkEngineContext)
    (isTimeout : bool) :
  inFlightRegistered h → inFlightRegistered (_handleNetworkError h ctx isTimeout).1.1.
Proof.
  intros Hinv. unfold _handleNetworkError.
  destruct (networkErrorFor (ctx_type ctx) isTimeout) as [details fatal].
  destruct (getInternalLoader h (ctx_type ctx)) as [[a e] |] eqn:Hg; [| done].
  apply getInternalLoader_Some in Hg as [Hl He].
  assert (inFlightRegistered
            (resetInternalLoader (setEngine h a (abort e).1) (ctx_type ctx))) as Hres.
  { apply inv_reset.
    - apply (inv_setEngine h a e); try done. by rewrite abort_inFlight.
    - intros a0 e0 Hg0. apply getInternalLoader_Some in Hg0 as [Hl0 He0]. simpl in *.
      assert (a0 = a) as -> by congruence.
      rewrite list_lookup_insert_eq in He0 by (by eapply lookup_lt_Some).
      injection He0 as <-. apply abort_inFlight. }
  destruct (abort e) as [e' effects] eqn:Ha. simpl in *.
  by destruct (_context e').
Qed.

Lemma loadsuccess_inv (h : PlaylistLoadingHandler) (ctx : NetworkEngineContext) :
  inFlightRegistered h →
  (∀ a e, getInternalLoader h (ctx_type ctx) = Some (a, e) → inFlight e = false) →
  inFlightRegistered (loadsuccess h ctx).1.1.
Proof.
  intros Hinv Hquiet. unfold loadsuccess.
  destruct (ctx_isSidxRequest ctx); simpl; [done | by apply inv_reset].
Qed.

Lemma engine_load_fresh (context : NetworkEngineContext)
    (config : NetworkEngineLoadOptions) :
  ∃ e effects,
    NetworkEngine.load NetworkEngine_new context config = (e, effects, None) ∧
    wellFormed e ∧ _context e = Some context ∧ _config e = Some config ∧
    _retryDelay e = retryDelay config ∧ inFlight e = true ∧
    last effects = Some XhrSend.
Proof.
  unfold NetworkEngine.load, _execRequest. simpl.
  eexists _, _. split; [reflexivity |]. repeat split; try done.
  destruct (ctx_rangeEnd context) as [r |]; [destruct (r =? 0) |]; done.
Qed.

(** The invariant is kept by every event, whatever the configuration. *)
Section Invariant.

Variable config : HlsConfig.

Lemma load_inv (h : PlaylistLoadingHandler) (url : string)
    (context : NetworkEngineContext) :
  inFlightRegistered h → inFlightRegistered (load config h url context).1.1.1.
Proof.
  intros Hinv. unfold load.
  destruct (engine_load_fresh
              {| ctx_type := ctx_type context; ctx_id := ctx_id context;
                 ctx_level := ctx_level context; ctx_url := Some url;
                 ctx_responseType := ctx_responseType context;
                 ctx_isSidxRequest := ctx_isSidxRequest context;
                 ctx_rangeStart := ctx_rangeStart context;
                 ctx_rangeEnd := ctx_rangeEnd context; ctx_frag := ctx_frag context |}
              (loaderConfigFor config (ctx_type context)))
    as (new & effects & Hload & Hwf & Hctx & _ & _ & _ & _).
  destruct (getInternalLoader h (ctx_type context)) as [[a e] |] eqn:Hg.
  - destruct (match _context e with
              | Some loaderContext => bool_decide (ctx_url loaderContext = Some url)
              | None => false
              end); [done |].
    apply getInternalLoader_Some in Hg as [Hl He].
    destruct (abort e) as [e' effects1] eqn:Ha.
    assert (e' = (abort e).1) as -> by (by rewrite Ha).
    rewrite Hload. simpl.
    apply (inv_register (setEngine h a (abort e).1) (ctx_type context) new); [| | done |].
    + apply (inv_setEngine h a e); try done. by rewrite abort_inFlight.
    + intros a0 e0 Hg0. apply getInternalLoader_Some in Hg0 as [Hl0 He0]. simpl in *.
      assert (a0 = a) as -> by congruence.
      rewrite list_lookup_insert_eq in He0 by (by eapply lookup_lt_Some).
      injection He0 as <-. apply abort_inFlight.
    + intros _. by eexists.
  - rewrite Hload. simpl.
    apply (inv_register h (ctx_type context) new); [done | | done |].
    + intros a0 e0 Hg0. congruence.
    + intros _. by eexists.
Qed.

(** What an answer does to an engine whose request can still report. *)
Lemma readyStateChange_summary (e e' : NetworkEngine) (state status : Z)
    (effects : list Effect) (thrown : option string) :
  requestActive e = true → wellFormed e →
  _handleReadyStateChange e state status = (e', effects, thrown) →
  wellFormed e' ∧ _context e' = _context e ∧
  (inFlight e' = true → inFlight e = true) ∧
  (effects = [] ∨ (∃ d, effects = [SetRetryTimeout d]) ∨
   (∃ d, effects = [SetRequestTimeout d]) ∨
   (∃ ctx, (effects = [OnSuccess ctx] ∨ effects = [OnError status ctx]) ∧
      _context e = Some ctx ∧ inFlight e = true ∧ inFlight e' = false)).
Proof.
  intros Hact Hwf. unfold _handleReadyStateChange, requestActive in *.
  destruct (_xhr e) as [xhr |] eqn:Hx; [| done].
  assert (_retryTimeout e = None) as Hr by (apply Hwf; by rewrite Hx).
  destruct (_stats e) as [stats |] eqn:Hs; [| intros [= <- <- <-]; auto].
  destruct (_context e) as [ctx |] eqn:Hc; [| intros [= <- <- <-]; rewrite ?Hc; auto].
  destruct (_config e) as [cfg |] eqn:Hcfg; [| intros [= <- <- <-]; rewrite ?Hc; auto].
  destruct (aborted stats) eqn:Hab; [intros [= <- <- <-]; rewrite ?Hc; auto |].
  assert (inFlight e = true) as Hfl.
  { unfold inFlight. by rewrite ?Hx, ?Hs, ?Hab, ?Hact. }
  destruct (2 <=? state); [| intros [= <- <- <-]; rewrite ?Hc; auto].
  destruct (state =? 4) eqn:Hst.
  - destruct ((200 <=? status) && (status <? 300)).
    { intros [= <- <- <-]. simpl.
      assert (inFlight
                {| _xhr := Some {| readyState := 4 |}; _requestTimeout := None;
                   _retryTimeout := _retryTimeout e; _retryDelay := _retryDelay e;
                   _config := Some cfg; _stats := Some stats; _context := Some ctx |}
              = false) as Hdone by (unfold inFlight; simpl; by rewrite Hr).
      split; [by intros _ |]. split; [done |]. split; [by rewrite Hdone |].
      right; right; right. exists ctx. auto. }
    destruct ((maxRetry cfg <=? retry stats) || (400 <=? status) && (status <? 499)).
    { intros [= <- <- <-]. simpl.
      assert (inFlight
                {| _xhr := Some {| readyState := 4 |}; _requestTimeout := None;
                   _retryTimeout := _retryTimeout e; _retryDelay := _retryDelay e;
                   _config := Some cfg; _stats := Some stats; _context := Some ctx |}
              = false) as Hdone by (unfold inFlight; simpl; by rewrite Hr).
      split; [by intros _ |]. split; [done |]. split; [by rewrite Hdone |].
      right; right; right. exists ctx. auto. }
    unfold destroy, abort. simpl. intros [= <- <- <-]. simpl.
    split; [intros [? [=]] |]. split; [done |]. split; [done |].
    right; left. by eexists.
  - intros [= <- <- <-]. simpl.
    split; [by intros _ |]. split; [done |]. split; [done |].
    right; right; left. by eexists.
Qed.

Lemma execRequest_summary (e e' : NetworkEngine) (effects : list Effect)
    (thrown : option string) :
  _retryTimeout e = None → _execRequest e = (e', effects, thrown) →
  wellFormed e' ∧ _context e' = _context e ∧
  ∀ h a, (deliver h a effects).1.1 = h.
Proof.
  intros Hr. unfold _execRequest.
  assert (wellFormed e) as Hwf by (by intros _).
  destruct (_xhr e) eqn:Hx; [by intros [= <- <- <-] |].
  destruct (_context e) as [ctx |] eqn:Hc; [| by intros [= <- <- <-]].
  destruct (_config e) as [cfg |] eqn:Hcfg; [| by intros [= <- <- <-]].
  intros [= <- <- <-]. split; [by intros _ |]. split; [done |].
  intros h a. destruct (ctx_rangeEnd ctx) as [r |]; [destruct (r =? 0) |]; done.
Qed.

Lemma engineStep_thrown (h : PlaylistLoadingHandler) (a : nat) (e : NetworkEngine)
    (effects : list Effect) (msg : string) :
  (engineStep h a (e, effects, Some msg)).1.1 = setEngine h a e.
Proof. done. Qed.

Lemma handle_inv (h : PlaylistLoadingHandler) (ev : Event) :
  inFlightRegistered h → inFlightRegistered (handle config h ev).1.1.
Proof.
  intros Hinv. destruct ev as [url ctx | a state status | a | a]; simpl.
  - by apply load_inv.
  - destruct (engines h !! a) as [e |] eqn:He; [| done].
    destruct (requestActive e) eqn:Hact; [| done].
    destruct (Hinv a e He) as [Hwf Hreg].
    destruct (_handleReadyStateChange e state status) as [[e' effects] thrown] eqn:Hstep.
    destruct (readyStateChange_summary e e' state status effects thrown Hact Hwf Hstep)
      as (Hwf' & Hctx' & Hfl' & Hshape).
    pose proof (inv_setEngine h a e e' Hinv He Hwf' Hctx' Hfl') as Hset.
    destruct thrown as [msg |]; [done |]. unfold engineStep.
    destruct Hshape as [-> | [[d ->] | [[d ->] | (ctx & Heff & Hc & Hf & Hf')]]]; try done.
    destruct (Hreg Hf) as (ctx0 & Hc0 & Hl0).
    assert (ctx0 = ctx) as -> by congruence.
    destruct Heff as [-> | ->]; simpl.
    + assert (inFlightRegistered (loadsuccess (setEngine h a e') ctx).1.1) as Hres.
      { apply loadsuccess_inv; [done |].
        intros a0 e0 Hg0. apply getInternalLoader_Some in Hg0 as [Hl1 He1]. simpl in *.
        assert (a0 = a) as -> by congruence.
        rewrite list_lookup_insert_eq in He1 by (by eapply lookup_lt_Some).
        by injection He1 as <-. }
      by destruct (loadsuccess (setEngine h a e') ctx) as [[h1 out1] [msg |]].
    + pose proof (handleNetworkError_inv (setEngine h a e') ctx false Hset) as Hres.
      by destruct (_handleNetworkError (setEngine h a e') ctx false) as [[h1 out1] [msg |]].
  - destruct (engines h !! a) as [e |] eqn:He; [| done].
    destruct (bool_decide (is_Some (_requestTimeout e))); [| done].
    destruct (Hinv a e He) as [Hwf Hreg]. unfold _handleTimeout.
    destruct (_context e) as [ctx |] eqn:Hc.
    + set (e' := {| _xhr := _xhr e; _requestTimeout := None;
                    _retryTimeout := _retryTimeout e; _retryDelay := _retryDelay e;
                    _config := _config e; _stats := _stats e; _context := Some ctx |}).
      assert (inFlightRegistered (setEngine h a e')) as Hset
        by (by apply (inv_setEngine h a e)).
      pose proof (handleNetworkError_inv (setEngine h a e') ctx true Hset) as Hres.
      unfold engineStep. simpl. fold e'.
      by destruct (_handleNetworkError (setEngine h a e') ctx true) as [[h1 out1] [msg |]].
    + rewrite engineStep_thrown. by apply (inv_setEngine h a e).
  - destruct (engines h !! a) as [e |] eqn:He; [| done].
    destruct (bool_decide_reflect (is_Some (_retryTimeout e))) as [Hpending |]; [| done].
    destruct (Hinv a e He) as [Hwf Hreg]. unfold fireRetryTimeout.
    set (e0 := {| _xhr := _xhr e; _requestTimeout := _requestTimeout e;
                  _retryTimeout := None; _retryDelay := _retryDelay e;
                  _config := _config e; _stats := _stats e; _context := _context e |}).
    destruct (_execRequest e0) as [[e' effects] thrown] eqn:Hstep.
    destruct (execRequest_summary e0 e' effects thrown eq_refl Hstep)
      as (Hwf' & Hctx' & Hdeliver).
    assert (inFlight e = true) as Hf.
    { unfold inFlight. destruct Hpending as [d ->]. by rewrite orb_true_r. }
    assert (inFlightRegistered (setEngine h a e')) as Hset
      by (by apply (inv_setEngine h a e)).
    destruct thrown as [msg |]; [done |]. unfold engineStep. by rewrite Hdeliver.
Qed.

Lemma run_inv (events : list Event) (h : PlaylistLoadingHandler) :
  inFlightRegistered h → inFlightRegistered (run config h events).
Proof.
  revert h. induction events as [| ev events IH]; intros h Hinv; [done |].
  simpl. by apply IH, handle_inv.
Qed.

End Invariant.


Lemma load_started (config : HlsConfig) (h : PlaylistLoadingHandler) (url : string)
    (context : NetworkEngineContext) :
  (load config h url context).2 = true →
  ∃ new started,
    load config h url context =
      (({| engines :=
             match getInternalLoader h (ctx_type context) with
             | Some (a, loader) => <[a := (abort loader).1]> (engines h)
             | None => engines h
             end ++ [new];
           loaders := <[ctx_type context := length (engines h)]> (loaders h) |},
        match getInternalLoader h (ctx_type context) with
        | Some (a, loader) => EngineDid a <$> (abort loader).2
        | None => []
        end ++ (EngineDid (length (engines h)) <$> started),
        None), true) ∧
    _config new = Some (loaderConfigFor config (ctx_type context)) ∧
    _retryDelay new = retryDelay (loaderConfigFor config (ctx_type context)) ∧
    (∃ ctx, _context new = Some ctx ∧ ctx_type ctx = ctx_type context ∧
       ctx_url ctx = Some url) ∧
    inFlight new = true ∧ last started = Some XhrSend.
Proof.
  unfold load.
  destruct (engine_load_fresh
              {| ctx_type := ctx_type context; ctx_id := ctx_id context;
                 ctx_level := ctx_level context; ctx_url := Some url;
                 ctx_responseType := ctx_responseType context;
                 ctx_isSidxRequest := ctx_isSidxRequest context;
                 ctx_rangeStart := ctx_rangeStart context;
                 ctx_rangeEnd := ctx_rangeEnd context; ctx_frag := ctx_frag context |}
              (loaderConfigFor config (ctx_type context)))
    as (new & started & Hload & _ & Hctx & Hcfg & Hdelay & Hfl & Hlast).
  destruct (getInternalLoader h (ctx_type context)) as [[a loader] |] eqn:Hg.
  - destruct (match _context loader with
              | Some loaderContext => bool_decide (ctx_url loaderContext = Some url)
              | None => false
              end); [done |].
    intros _. destruct (abort loader) as [loader' effects1] eqn:Ha.
    rewrite Hload. simpl. rewrite length_insert.
    exists new, started. repeat split; try done. by eexists.
  - intros _. rewrite Hload. simpl.
    exists new, started. repeat split; try done. by eexists.
Qed.

(** C7 (amended).  Playlist loads take their engine options from the context
    type: a manifest load runs with the manifest budget
    ([manifestLoadingMaxRetry], with the manifest timeout and delays), a
    variant-level load runs with [maxRetry = 0] and no retry delays, and an
    audio-track or subtitle-track playlist load runs with the level budget
    ([levelLoadingMaxRetry], [levelLoadingRetryDelay],
    [levelLoadingMaxRetryTimeout]): its HTTP retry is not disabled.  A network
    failure or timeout is signalled with [fatal = true] for a manifest
    context and [fatal = false] for a level, audio-track or subtitle-track
    context. *)
Theorem load_policy_by_context_type (config : HlsConfig) :
  (∀ h url context, (load config h url context).2 = true →
     ∃ new,
       engines (load config h url context).1.1.1 !! length (engines h) = Some new ∧
       loaders (load config h url context).1.1.1 !! ctx_type context
         = Some (length (engines h)) ∧
       _config new = Some (loaderConfigFor config (ctx_type context)) ∧
       _retryDelay new = retryDelay (loaderConfigFor config (ctx_type context))) ∧
  loaderConfigFor config MANIFEST
    = {| timeout := manifestLoadingTimeOut config;
         maxRetry := manifestLoadingMaxRetry config;
         retryDelay := Some (manifestLoadingRetryDelay config);
         maxRetryDelay := Some (manifestLoadingMaxRetryTimeout config) |} ∧
  loaderConfigFor config LEVEL
    = {| timeout := levelLoadingTimeOut config; maxRetry := 0;
         retryDelay := None; maxRetryDelay := None |} ∧
  (∀ t, t = AUDIO_TRACK ∨ t = SUBTITLE_TRACK →
     loaderConfigFor config t
     = {| timeout := levelLoadingTimeOut config;
          maxRetry := levelLoadingMaxRetry config;
          retryDelay := Some (levelLoadingRetryDelay config);
          maxRetryDelay := Some (levelLoadingMaxRetryTimeout config) |}) ∧
  (∀ h context isTimeout a loader lc,
     getInternalLoader h (ctx_type context) = Some (a, loader) →
     _context loader = Some lc →
     ∃ h' details,
       _handleNetworkError h context isTimeout
       = (h', (EngineDid a <$> (abort loader).2)
                ++ [TriggerError details (bool_decide (ctx_type context = MANIFEST))
                      (ctx_url lc)], None) ∧
       loaders h' !! ctx_type context = None) ∧
  (∀ t isTimeout,
     (networkErrorFor t isTimeout).2 = bool_decide (t = MANIFEST)).
Proof.
  split; [| split; [done | split; [done | split; [| split]]]].
  - intros h url context Hret.
    destruct (load_started config h url context Hret)
      as (new & started & -> & Hcfg & Hdelay & _). simpl.
    exists new. split; [| split; [by rewrite lookup_insert_eq | done]].
    destruct (getInternalLoader h (ctx_type context)) as [[a loader] |].
    + rewrite lookup_app_r by (by rewrite length_insert).
      by rewrite length_insert, Nat.sub_diag.
    + rewrite lookup_app_r by done. by rewrite Nat.sub_diag.
  - by intros t [-> | ->].
  - intros h context isTimeout a loader lc Hg Hlc. unfold _handleNetworkError.
    rewrite Hg.
    destruct (abort loader) as [loader' effects] eqn:Ha.
    assert (_context loader' = Some lc) as Hlc'.
    { replace loader' with (abort loader).1 by (by rewrite Ha). done. }
    destruct (ctx_type context), isTimeout; simpl; rewrite Hlc';
      eexists _, _; (split; [reflexivity | simpl; apply lookup_delete_eq]).
  - by intros [] [].
Qed.

(** C7 (counterexample).  With [levelLoadingMaxRetry = 4] an audio-track
    playlist load starts its engine with [maxRetry = 4], and an HTTP 503
    answer is retried by the engine after 1000 ms: no error is signalled. *)
Lemma audio_track_retry_counterexample :
  let h := run sampleConfig PlaylistLoadingHandler_new
             [Load "audio.m3u8" (playlistContext AUDIO_TRACK)] in
  (_config <$> engines h !! 0%nat)
    = Some (Some {| timeout := 10000; maxRetry := 4; retryDelay := Some 1000;
                    maxRetryDelay := Some 64000 |}) ∧
  (handle sampleConfig h (ReadyStateChange 0 4 503)).1.2
    = [EngineDid 0 (SetRetryTimeout (Some 1000))] ∧
  inFlightFor (handle sampleConfig h (ReadyStateChange 0 4 503)).1.1 AUDIO_TRACK = [0%nat].
Proof. vm_compute. done. Qed.


End PlaylistLoadingSpec.

(** ** Fragment objects and their decryption data (m3u8/media-fragment.ts) *)

Module Fragment.

(** The store of shared objects: [LevelKey] and [MediaFragment] objects by
    address.  A fragment names its playlist key and its decryption data by
    address, so a key object shared by several fragments is one entry. *)
Record Store : Type := mkStore {
  keys : list LevelKey;
  frags : list MediaFragment
}.

(** Truthiness of a string or [null]: everything but [null] and [""]. *)
Definition truthyString (s : option string) : bool :=
  match s with
  | Some s' => negb (String.eqb s' "")
  | None => false
  end.

(** The [for] loop of [_createInitializationVector]: [n] more rounds from
    index [i]. *)
Fixpoint ivLoop (n : nat) (i : Z) (segmentNumber : Z) (uint8View : list Z) : list Z :=
  match n with
  | O => uint8View
  | S n' =>
      ivLoop n' (i + 1) segmentNumber
        (<[Z.to_nat i := Z.land (Z.shiftr (ToInt32 segmentNumber) (8 * (15 - i))) 255]>
           uint8View)
  end.

(** [new Uint8Array(16)] filled for [i = 12 .. 15]. *)
Definition _createInitializationVector (segmentNumber : Z) : list Z :=
  ivLoop 4 12 segmentNumber (replicate 16 0).

Definition setDecryptdata (f : MediaFragment) (d : option ref) : MediaFragment :=
  {| sn := sn f; level := level f; type := type f; start := start f;
     duration := duration f; deltaPTS := deltaPTS f;
     programDateTime := programDateTime f; levelkey := levelkey f;
     _decryptdata := d; loader := loader f; dropped := dropped f;
     backtracked := backtracked f; hasAudio := hasAudio f; hasVideo := hasVideo f |}.

Definition setLoader (f : MediaFragment) (l : option nat) : MediaFragment :=
  {| sn := sn f; level := level f; type := type f; start := start f;
     duration := duration f; deltaPTS := deltaPTS f;
     programDateTime := programDateTime f; levelkey := levelkey f;
     _decryptdata := _decryptdata f; loader := l; dropped := dropped f;
     backtracked := backtracked f; hasAudio := hasAudio f; hasVideo := hasVideo f |}.

Definition setKey (k : LevelKey) (bytes : option (list Z)) : LevelKey :=
  {| method := method k; uri := uri k; key := bytes; iv := iv k |}.

(** [_createDecryptDataFromLevelkey(levelkey, segmentNumber)]: the playlist
    key itself, or, for a key with a method and a URI and no IV, a new key
    object with the IV derived from the sequence number.  The new object is
    given the method, [baseuri] and [reluri] of the playlist key, so its
    [uri] is the playlist key's. *)
Definition _createDecryptDataFromLevelkey (st : Store) (levelkey : option ref)
    (segmentNumber : Z) : Store * option ref :=
  match levelkey with
  | Some r =>
      match keys st !! r with
      | Some k =>
          if truthyString (method k) && truthyString (uri k)
             && negb (bool_decide (is_Some (iv k)))
          then
            ({| keys := keys st ++
                  [{| method := method k; uri := uri k; key := key LevelKey_new;
                      iv := Some (_createInitializationVector segmentNumber) |}];
                frags := frags st |},
             Some (length (keys st)))
          else (st, Some r)
      | None => (st, Some r)
      end
  | None => (st, None)
  end.

(** [get decryptdata] of the fragment at address [f]: computed on first use
    and remembered in [_decryptdata]. *)
Definition decryptdata (st : Store) (f : nat) : Store * option ref :=
  match frags st !! f with
  | Some frag =>
      match _decryptdata frag with
      | Some r => (st, Some r)
      | None =>
          let '(st1, d) := _createDecryptDataFromLevelkey st (levelkey frag) (sn frag) in
          ({| keys := keys st1; frags := <[f := setDecryptdata frag d]> (frags st1) |}, d)
      end
  | None => (st, None)
  end.

(** [get encrypted]:
    [!!((decryptdata && decryptdata.uri !== null) && (decryptdata.key === null))]. *)
Definition encrypted (st : Store) (f : nat) : Store * bool :=
  let '(st1, d) := decryptdata st f in
  match d with
  | Some r =>
      match keys st1 !! r with
      | Some k => (st1, bool_decide (uri k ≠ None) && bool_decide (key k = None))
      | None => (st1, false)
      end
  | None => (st1, false)
  end.

(** [decryptdata.key = bytes] on the key object at [r]. *)
Definition attachKey (st : Store) (r : ref) (bytes : list Z) : Store :=
  match keys st !! r with
  | Some k => {| keys := <[r := setKey k (Some bytes)]> (keys st); frags := frags st |}
  | None => st
  end.

(** Big-endian value of a list of bytes. *)
Definition bigEndian (bytes : list Z) : Z :=
  fold_left (λ acc b, acc * 256 + b) bytes 0.

Example iv_of_258 :
  _createInitializationVector 258 = [0; 0; 0; 0; 0; 0; 0; 0; 0; 0; 0; 0; 0; 0; 1; 2].
Proof. reflexivity. Qed.

End Fragment.

(** ** Key loading (network/key-loading.handler.ts) *)

Module KeyLoading.
Import NetworkEngine Fragment.

(** [_loaders] holds one engine per fragment type; [engines] is the store of
    every engine the handler has created, by address. *)
Record KeyLoadingHandler : Type := mkKeyLoader {
  engines : list NetworkEngine;
  _loaders : gmap string nat;
  _keyData : option (list Z);
  _keyUrl : option string
}.

Definition KeyLoadingHandler_new : KeyLoadingHandler :=
  {| engines := []; _loaders := ∅; _keyData := None; _keyUrl := None |}.

Inductive KeyEffect : Type :=
| EngineDid (address : nat) (eff : Effect)
| TriggerKeyLoaded (frag : nat)
| TriggerError (details : ErrorDetail) (fatal : bool) (frag : option nat).

(** A step of the key loader: the store and the handler after it, what it
    did, and the message of the exception if it threw. *)
Definition kstep : Type := Store * KeyLoadingHandler * list KeyEffect * option string.

(** The request context and the engine options [onKeyLoading] builds. *)
Definition keyContext (u : option string) (f : nat) : NetworkEngineContext :=
  {| ctx_type := KEY; ctx_id := None; ctx_level := None; ctx_url := u;
     ctx_responseType := "arraybuffer"; ctx_isSidxRequest := false;
     ctx_rangeStart := None; ctx_rangeEnd := None; ctx_frag := Some f |}.

Definition keyLoaderConfig (config : HlsConfig) : NetworkEngineLoadOptions :=
  {| timeout := fragLoadingTimeOut config; maxRetry := 0;
     retryDelay := Some (fragLoadingRetryDelay config);
     maxRetryDelay := Some (fragLoadingMaxRetryTimeout config) |}.

(** [loader.abort()] on the engine of a lane, if the lane has one. *)
Definition abortLane (engs : list NetworkEngine) (lane : option nat)
    : list NetworkEngine * list KeyEffect :=
  match lane with
  | Some a =>
      match engs !! a with
      | Some loader =>
          let '(loader', effects) := abort loader in
          (<[a := loader']> engs, EngineDid a <$> effects)
      | None => (engs, [])
      end
  | None => (engs, [])
  end.

(** [frag.loader = l] on the fragment at address [f]. *)
Definition setFragLoader (st : Store) (f : nat) (l : option nat) : Store :=
  match frags st !! f with
  | Some frag => {| keys := keys st; frags := <[f := setLoader frag l]> (frags st) |}
  | None => st
  end.

(** [onKeyLoading({frag})] for the fragment at address [f]. *)
Definition onKeyLoading (config : HlsConfig) (st : Store) (kl : KeyLoadingHandler)
    (f : nat) : kstep :=
  match frags st !! f with
  | None => (st, kl, [], Some "TypeError: frag is undefined"%string)
  | Some frag =>
      let lane := _loaders kl !! type frag in
      let '(st1, d) := decryptdata st f in
      match d ≫= (λ r, keys st1 !! r ≫= (λ k, Some (r, k))) with
      | None => (st1, kl, [], Some "TypeError: decryptdata is undefined"%string)
      | Some (r, k) =>
          if negb (bool_decide (uri k = _keyUrl kl))
             || negb (bool_decide (is_Some (_keyData kl)))
          then
            let '(engines1, effects1) := abortLane (engines kl) lane in
            let address := length engines1 in
            let '(e, effects2, thrown) :=
              NetworkEngine.load NetworkEngine_new (keyContext (uri k) f)
                (keyLoaderConfig config) in
            (setFragLoader st1 f (Some address),
             {| engines := engines1 ++ [e];
                _loaders := <[type frag := address]> (_loaders kl);
                _keyData := None; _keyUrl := uri k |},
             effects1 ++ (EngineDid address <$> effects2), thrown)
          else
            match _keyData kl with
            | Some bytes => (attachKey st1 r bytes, kl, [TriggerKeyLoaded f], None)
            | None => (st1, kl, [], None)
            end
      end
  end.

(** [_handleSuccess(response, stats, context)] with [response.data = bytes]. *)
Definition _handleSuccess (st : Store) (kl : KeyLoadingHandler)
    (context : NetworkEngineContext) (bytes : list Z) : kstep :=
  match ctx_frag context ≫= (λ f, frags st !! f ≫= (λ frag, Some (f, frag))) with
  | None => (st, kl, [], Some "TypeError: frag is undefined"%string)
  | Some (f, frag) =>
      let '(st1, d) := decryptdata st f in
      match d ≫= (λ r, keys st1 !! r ≫= (λ k, Some r)) with
      | None => (st1, kl, [], Some "TypeError: decryptdata is undefined"%string)
      | Some r =>
          (setFragLoader (attachKey st1 r bytes) f None,
           {| engines := engines kl; _loaders := delete (type frag) (_loaders kl);
              _keyData := Some bytes; _keyUrl := _keyUrl kl |},
           [TriggerKeyLoaded f], None)
      end
  end.

(** [_handleError] and [_handleTimeout]: the fragment's engine is aborted,
    the entry of [_loaders] under the context type (["key"]) is cleared, and
    a non-fatal error is signalled. *)
Definition _handleFailure (details : ErrorDetail) (st : Store) (kl : KeyLoadingHandler)
    (context : NetworkEngineContext) : kstep :=
  match ctx_frag context ≫= (λ f, frags st !! f ≫= (λ frag, Some (f, frag))) with
  | None => (st, kl, [], Some "TypeError: frag is undefined"%string)
  | Some (f, frag) =>
      let '(engines1, effects1) := abortLane (engines kl) (loader frag) in
      (st,
       {| engines := engines1; _loaders := delete "key"%string (_loaders kl);
          _keyData := _keyData kl; _keyUrl := _keyUrl kl |},
       effects1 ++ [TriggerError details false (Some f)], None)
  end.

Definition _handleError := _handleFailure KEY_LOAD_ERROR.
Definition _handleTimeout := _handleFailure KEY_LOAD_TIMEOUT.

(** The engine at [address] answers with [status] and, on success, the body
    [bytes]; the engine's callbacks run the handlers above. *)
Definition answer (st : Store) (kl : KeyLoadingHandler) (address : nat)
    (status : Z) (bytes : list Z) : kstep :=
  match engines kl !! address with
  | None => (st, kl, [], None)
  | Some e =>
      match _xhr e with
      | Some xhr =>
          if readyState xhr =? 4 then (st, kl, [], None)
          else
            match _handleReadyStateChange e 4 status with
            | (e', effects, Some msg) =>
                (st, {| engines := <[address := e']> (engines kl);
                        _loaders := _loaders kl; _keyData := _keyData kl;
                        _keyUrl := _keyUrl kl |},
                 EngineDid address <$> effects, Some msg)
            | (e', effects, None) =>
                let kl1 := {| engines := <[address := e']> (engines kl);
                              _loaders := _loaders kl; _keyData := _keyData kl;
                              _keyUrl := _keyUrl kl |} in
                match effects with
                | [OnSuccess context] =>
                    let '(st2, kl2, out, thrown) := _handleSuccess st kl1 context bytes in
                    (st2, kl2, EngineDid address (OnSuccess context) :: out, thrown)
                | [OnError code context] =>
                    let '(st2, kl2, out, thrown) := _handleError st kl1 context in
                    (st2, kl2, EngineDid address (OnError code context) :: out, thrown)
                | _ => (st, kl1, EngineDid address <$> effects, None)
                end
            end
      | None => (st, kl, [], None)
      end
  end.

(** What can happen to the key loader: a key is asked for, or an engine's
    request is answered. *)
Inductive Event : Type :=
| KeyLoading (frag : nat)
| Answer (address : nat) (status : Z) (bytes : list Z).

Definition handle (config : HlsConfig) (st : Store) (kl : KeyLoadingHandler)
    (ev : Event) : kstep :=
  match ev with
  | KeyLoading f => onKeyLoading config st kl f
  | Answer address status bytes => answer st kl address status bytes
  end.

(** The store, the handler and everything done after a sequence of events. *)
Fixpoint run (config : HlsConfig) (st : Store) (kl : KeyLoadingHandler)
    (events : list Event) : Store * KeyLoadingHandler * list KeyEffect :=
  match events with
  | [] => (st, kl, [])
  | ev :: rest =>
      let '(st1, kl1, effects1, _) := handle config st kl ev in
      let '(st2, kl2, effects2) := run config st1 kl1 rest in
      (st2, kl2, effects1 ++ effects2)
  end.

(** The requests sent, the engines aborted with a request to cancel, and the
    key-loaded signals of a trace. *)
Definition fetches (effects : list KeyEffect) : list nat :=
  omap (λ eff, match eff with EngineDid a XhrSend => Some a | _ => None end) effects.

Definition aborts (effects : list KeyEffect) : list nat :=
  omap (λ eff, match eff with EngineDid a XhrAbort => Some a | _ => None end) effects.

Definition keyLoaded (effects : list KeyEffect) : list nat :=
  omap (λ eff, match eff with TriggerKeyLoaded f => Some f | _ => None end) effects.

End KeyLoading.

(** ** Properties of fragments and of key loading *)

Module FragmentSpec.
Import Fragment.

Lemma byte_of_shift (n k : Z) :
  0 ≤ k → Z.land (Z.shiftr n k) 255 = (n / 2 ^ k) mod 256.
Proof.
  intros Hk. rewrite Z.shiftr_div_pow2 by lia. change 255 with (Z.ones 8).
  by rewrite Z.land_ones by lia.
Qed.

(** The initialization vector, byte by byte: twelve zeros and the 32-bit
    big-endian form of the sequence number. *)
Lemma createInitializationVector_bytes (segmentNumber : Z) :
  _createInitializationVector segmentNumber
  = replicate 12 0 ++
    [(segmentNumber / 2 ^ 24) mod 256; (segmentNumber / 2 ^ 16) mod 256;
     (segmentNumber / 2 ^ 8) mod 256; segmentNumber mod 256].
Proof.
  unfold _createInitializationVector. simpl.
  rewrite !byte_of_shift by lia. unfold ToInt32.
  change (15 - 12) with 3. change (15 - (12 + 1)) with 2.
  change (15 - (12 + 1 + 1)) with 1. change (15 - (12 + 1 + 1 + 1)) with 0.
  change (2 ^ (8 * 3)) with 16777216. change (2 ^ (8 * 2)) with 65536.
  change (2 ^ (8 * 1)) with 256. change (2 ^ (8 * 0)) with 1.
  change (2 ^ 31) with 2147483648. change (2 ^ 32) with 4294967296.
  change (2 ^ 24) with 16777216. change (2 ^ 16) with 65536. change (2 ^ 8) with 256.
  set (x := (segmentNumber + 2147483648) mod 4294967296 - 2147483648).
  assert ((x / 16777216) mod 256 = (segmentNumber / 16777216) mod 256) as ->
    by (subst x; Z.to_euclidean_division_equations; lia).
  assert ((x / 65536) mod 256 = (segmentNumber / 65536) mod 256) as ->
    by (subst x; Z.to_euclidean_division_equations; lia).
  assert ((x / 256) mod 256 = (segmentNumber / 256) mod 256) as ->
    by (subst x; Z.to_euclidean_division_equations; lia).
  assert ((x / 1) mod 256 = segmentNumber mod 256) as ->
    by (subst x; Z.to_euclidean_division_equations; lia).
  reflexivity.
Qed.

(** C9 (amended).  For a fragment whose playlist key has a method and a URI
    (both non-empty) and no IV, the decryption data is a new key object with
    the playlist key's method and URI, no key bytes, and a 16-byte IV: its
    first 12 bytes are zero and its bytes 12 to 15 are, in big-endian byte
    order, the sequence number taken modulo 2^32.  That is the sequence
    number itself exactly when [0 <= sn < 2^32]. *)
Theorem derived_iv_is_big_endian_sn (st : Store) (f : nat) (frag : MediaFragment)
    (r : ref) (k : LevelKey) :
  frags st !! f = Some frag → _decryptdata frag = None →
  levelkey frag = Some r → keys st !! r = Some k →
  truthyString (method k) = true → truthyString (uri k) = true → iv k = None →
  ∃ r' k' bytes,
    (decryptdata st f).2 = Some r' ∧ keys (decryptdata st f).1 !! r' = Some k' ∧
    method k' = method k ∧ uri k' = uri k ∧ key k' = None ∧
    iv k' = Some bytes ∧ length bytes = 16%nat ∧
    (∀ i, (i < 12)%nat → bytes !! i = Some 0) ∧
    (∀ i b, bytes !! i = Some b → 0 ≤ b < 256) ∧
    bytes !! 12%nat = Some ((sn frag / 2 ^ 24) mod 256) ∧
    bytes !! 13%nat = Some ((sn frag / 2 ^ 16) mod 256) ∧
    bytes !! 14%nat = Some ((sn frag / 2 ^ 8) mod 256) ∧
    bytes !! 15%nat = Some (sn frag mod 256) ∧
    bigEndian (drop 12 bytes) = sn frag mod 2 ^ 32 ∧
    (bigEndian (drop 12 bytes) = sn frag ↔ 0 ≤ sn frag < 2 ^ 32).
Proof.
  intros Hf Hmemo Hlk Hk Hm Hu Hiv.
  unfold decryptdata, _createDecryptDataFromLevelkey.
  rewrite Hf, Hmemo, Hlk, Hk, Hm, Hu, Hiv. simpl.
  eexists (length (keys st)), _, _.
  split; [reflexivity |]. split; [by rewrite lookup_app_r, Nat.sub_diag |].
  do 4 (split; [reflexivity |]).
  rewrite createInitializationVector_bytes.
  split; [reflexivity |]. split.
  { intros i Hi. do 12 (destruct i as [| i]; [reflexivity |]). lia. }
  split.
  { intros i b Hb. do 12 (destruct i as [| i]; [injection Hb as <-; lia |]).
    do 4 (destruct i as [| i];
          [injection Hb as <-; apply Z.mod_pos_bound; lia |]).
    done. }
  do 4 (split; [reflexivity |]).
  assert (bigEndian
            (drop 12
               (replicate 12 0 ++
                [(sn frag / 2 ^ 24) mod 256; (sn frag / 2 ^ 16) mod 256;
                 (sn frag / 2 ^ 8) mod 256; sn frag mod 256]))
          = sn frag mod 2 ^ 32) as Hbe.
  { unfold bigEndian. simpl.
    change (2 ^ 32) with 4294967296. change (2 ^ 24) with 16777216.
    change (2 ^ 16) with 65536. change (2 ^ 8) with 256.
    Z.to_euclidean_division_equations; lia. }
  split; [exact Hbe |]. rewrite Hbe. split.
  - intros <-. apply Z.mod_pos_bound. lia.
  - intros Hrange. by apply Z.mod_small.
Qed.

(** A store with one playlist key without IV and one fragment, sequence
    number 258, that refers to it. *)
Definition sampleStore : Store :=
  {| keys := [{| method := Some "AES-128"%string; uri := Some "https://k/1"%string;
                 key := None; iv := None |}];
     frags := [{| sn := 258; level := 0; type := "main"; start := 0; duration := 6;
                  deltaPTS := None; programDateTime := None; levelkey := Some 0%nat;
                  _decryptdata := None; loader := None; dropped := 0;
                  backtracked := false; hasAudio := false; hasVideo := false |}] |}.

Lemma derived_iv_is_big_endian_sn_witness :
  ∃ r' k' bytes,
    (decryptdata sampleStore 0).2 = Some r' ∧
    keys (decryptdata sampleStore 0).1 !! r' = Some k' ∧
    iv k' = Some bytes ∧ length bytes = 16%nat ∧
    bytes !! 14%nat = Some 1 ∧ bytes !! 15%nat = Some 2 ∧
    bigEndian (drop 12 bytes) = 258.
Proof.
  destruct (derived_iv_is_big_endian_sn sampleStore 0
              {| sn := 258; level := 0; type := "main"; start := 0; duration := 6;
                 deltaPTS := None; programDateTime := None; levelkey := Some 0%nat;
                 _decryptdata := None; loader := None; dropped := 0;
                 backtracked := false; hasAudio := false; hasVideo := false |}
              0%nat
              {| method := Some "AES-128"%string; uri := Some "https://k/1"%string;
                 key := None; iv := None |}
              eq_refl eq_refl eq_refl eq_refl eq_refl eq_refl eq_refl)
    as (r' & k' & bytes & H1 & H2 & _ & _ & _ & H3 & H4 & _ & _ & _ & _ & H5 & H6 & _ & H7).
  exists r', k', bytes. repeat split; try done.
  apply H7. simpl. lia.
Defined.

(** C9 (counterexample).  A fragment with sequence number [2^32 + 5] whose
    playlist key has a method and a URI and no IV: the last four bytes of
    the derived IV are 0, 0, 0, 5, the big-endian form of 5 and not of the
    sequence number. *)
Lemma derived_iv_wraps_counterexample :
  let st :=
    {| keys := [{| method := Some "AES-128"%string; uri := Some "https://k/1"%string;
                   key := None; iv := None |}];
       frags := [{| sn := 2 ^ 32 + 5; level := 0; type := "main"; start := 0;
                    duration := 6; deltaPTS := None; programDateTime := None;
                    levelkey := Some 0%nat; _decryptdata := None; loader := None;
                    dropped := 0; backtracked := false; hasAudio := false;
                    hasVideo := false |}] |} in
  (sn <$> frags st !! 0%nat) = Some 4294967301 ∧
  (decryptdata st 0).2 = Some 1%nat ∧
  (iv <$> keys (decryptdata st 0).1 !! 1%nat)
  = Some (Some [0; 0; 0; 0; 0; 0; 0; 0; 0; 0; 0; 0; 0; 0; 0; 5]) ∧
  bigEndian [0; 0; 0; 5] = 5 ∧ 5 ≠ 4294967301.
Proof. vm_compute. repeat split; congruence. Qed.

End FragmentSpec.

Module KeyLoadingSpec.
Import NetworkEngine Fragment KeyLoading.

(** After [get decryptdata] has returned a key object, the fragment
    remembers it. *)
Lemma decryptdata_memo (st st1 : Store) (f : nat) (frag : MediaFragment) (r : ref) :
  frags st !! f = Some frag → decryptdata st f = (st1, Some r) →
  ∃ frag1, frags st1 !! f = Some frag1 ∧ _decryptdata frag1 = Some r ∧
    type frag1 = type frag ∧ loader frag1 = loader frag.
Proof.
  intros Hf. unfold decryptdata. rewrite Hf.
  destruct (_decryptdata frag) as [r0 |] eqn:Hmemo.
  - intros [= <- <-]. by exists frag.
  - destruct (_createDecryptDataFromLevelkey st (levelkey frag) (sn frag))
      as [st0 d] eqn:Hc.
    intros [= <- ->]. simpl.
    assert (frags st0 = frags st) as ->.
    { unfold _createDecryptDataFromLevelkey in Hc.
      destruct (levelkey frag) as [r0 |]; [| by injection Hc as <- _].
      destruct (keys st !! r0) as [k |]; [| by injection Hc as <- _].
      destruct (_ && _); by injection Hc as <- _. }
    exists (setDecryptdata frag (Some r)). split; [| by repeat split].
    apply list_lookup_insert_eq. by eapply lookup_lt_Some.
Qed.

Lemma decryptdata_memoized (st : Store) (f : nat) (frag : MediaFragment) (r : ref) :
  frags st !! f = Some frag → _decryptdata frag = Some r →
  decryptdata st f = (st, Some r).
Proof. intros Hf Hmemo. unfold decryptdata. by rewrite Hf, Hmemo. Qed.

Lemma abortLane_length (engs : list NetworkEngine) (lane : option nat) :
  length (abortLane engs lane).1 = length engs.
Proof.
  unfold abortLane. destruct lane as [a |]; [| done].
  destruct (engs !! a) as [e |]; [| done].
  destruct (abort e). simpl. apply length_insert.
Qed.

Lemma abortLane_fetches (engs : list NetworkEngine) (lane : option nat) :
  fetches (abortLane engs lane).2 = [].
Proof.
  unfold abortLane. destruct lane as [a |]; [| done].
  destruct (engs !! a) as [e |]; [| done].
  unfold abort. by destruct (match _xhr e with Some _ => _ | None => _ end).
Qed.

Lemma fetches_app (l1 l2 : list KeyEffect) : fetches (l1 ++ l2) = fetches l1 ++ fetches l2.
Proof. apply omap_app. Qed.

(** The cached path of [onKeyLoading]. *)
Lemma onKeyLoading_cached (config : HlsConfig) (st st1 : Store) (kl : KeyLoadingHandler)
    (f : nat) (frag : MediaFragment) (r : ref) (k : LevelKey) (bytes : list Z) :
  frags st !! f = Some frag → decryptdata st f = (st1, Some r) → keys st1 !! r = Some k →
  uri k = _keyUrl kl → _keyData kl = Some bytes →
  onKeyLoading config st kl f = (attachKey st1 r bytes, kl, [TriggerKeyLoaded f], None).
Proof.
  intros Hf Hd Hk Hu Hb. unfold onKeyLoading. rewrite Hf, Hd. simpl. rewrite Hk. simpl.
  rewrite Hb. rewrite bool_decide_eq_true_2 by done.
  by rewrite bool_decide_eq_true_2 by done.
Qed.

(** The fetching path of [onKeyLoading]. *)
Lemma onKeyLoading_fetch (config : HlsConfig) (st st1 : Store) (kl : KeyLoadingHandler)
    (f : nat) (frag : MediaFragment) (r : ref) (k : LevelKey) :
  frags st !! f = Some frag → decryptdata st f = (st1, Some r) → keys st1 !! r = Some k →
  uri k ≠ _keyUrl kl ∨ _keyData kl = None →
  onKeyLoading config st kl f
  = (setFragLoader st1 f (Some (length (engines kl))),
     {| engines :=
          (abortLane (engines kl) (_loaders kl !! type frag)).1
            ++ [(NetworkEngine.load NetworkEngine_new (keyContext (uri k) f)
                   (keyLoaderConfig config)).1.1];
        _loaders := <[type frag := length (engines kl)]> (_loaders kl);
        _keyData := None; _keyUrl := uri k |},
     (abortLane (engines kl) (_loaders kl !! type frag)).2
       ++ (EngineDid (length (engines kl))
             <$> [XhrOpen (uri k); SetRequestTimeout (fragLoadingTimeOut config); XhrSend]),
     None).
Proof.
  intros Hf Hd Hk Hcond. unfold onKeyLoading. rewrite Hf, Hd. simpl. rewrite Hk. simpl.
  assert (negb (bool_decide (uri k = _keyUrl kl))
          || negb (bool_decide (is_Some (_keyData kl))) = true) as ->.
  { destruct Hcond as [Hne | Hnone].
    - by rewrite bool_decide_eq_false_2.
    - rewrite Hnone. rewrite (bool_decide_eq_false_2 (is_Some None)) by (by intros [? ?]).
      apply orb_true_r. }
  pose proof (abortLane_length (engines kl) (_loaders kl !! type frag)) as Hlen.
  destruct (abortLane (engines kl) (_loaders kl !! type frag)) as [engines1 effects1].
  simpl in *. by rewrite Hlen.
Qed.

(** [_handleSuccess] for a fragment whose decryption data resolves. *)
Lemma handleSuccess_attaches (st st1 : Store) (kl : KeyLoadingHandler)
    (context : NetworkEngineContext) (bytes : list Z) (f : nat) (frag : MediaFragment)
    (r : ref) (k : LevelKey) :
  ctx_frag context = Some f → frags st !! f = Some frag →
  decryptdata st f = (st1, Some r) → keys st1 !! r = Some k →
  _handleSuccess st kl context bytes
  = (setFragLoader (attachKey st1 r bytes) f None,
     {| engines := engines kl; _loaders := delete (type frag) (_loaders kl);
        _keyData := Some bytes; _keyUrl := _keyUrl kl |},
     [TriggerKeyLoaded f], None).
Proof.
  intros Hc Hf Hd Hk. unfold _handleSuccess. rewrite Hc. simpl. rewrite Hf. simpl.
  rewrite Hd. simpl. by rewrite Hk.
Qed.

(** Once key bytes are attached to the key object a fragment remembers, the
    fragment is no longer [encrypted]. *)
Lemma encrypted_after_attach (st : Store) (f : nat) (frag : MediaFragment) (r : ref)
    (k : LevelKey) (bytes : list Z) (l : option nat) :
  frags st !! f = Some frag → _decryptdata frag = Some r → keys st !! r = Some k →
  let st' := setFragLoader (attachKey st r bytes) f l in
  encrypted st' f = (st', false) ∧ decryptdata st' f = (st', Some r) ∧
  keys st' !! r = Some (setKey k (Some bytes)).
Proof.
  intros Hf Hmemo Hk st'.
  assert (frags st' !! f = Some (setLoader frag l)) as Hf'.
  { unfold st', setFragLoader, attachKey. rewrite Hk. simpl. rewrite Hf. simpl.
    apply list_lookup_insert_eq. by eapply lookup_lt_Some. }
  assert (keys st' !! r = Some (setKey k (Some bytes))) as Hk'.
  { unfold st', setFragLoader, attachKey. rewrite Hk. simpl. rewrite Hf. simpl.
    apply list_lookup_insert_eq. by eapply lookup_lt_Some. }
  assert (decryptdata st' f = (st', Some r)) as Hd
    by (by apply (decryptdata_memoized st' f (setLoader frag l))).
  split; [| done]. unfold encrypted. rewrite Hd, Hk'. simpl.
  by rewrite andb_false_r.
Qed.

(** The URI of the decryption data of the fragment at [f], as [onKeyLoading]
    would read it in store [st]. *)
Definition keyUriAt (st : Store) (f : nat) : option (option string) :=
  match frags st !! f with
  | Some _ => (decryptdata st f).2 ≫= (λ r, uri <$> keys (decryptdata st f).1 !! r)
  | None => None
  end.

Lemma keyUriAt_Some (st : Store) (f : nat) (u : option string) :
  keyUriAt st f = Some u →
  ∃ frag st1 r k, frags st !! f = Some frag ∧ decryptdata st f = (st1, Some r) ∧
    keys st1 !! r = Some k ∧ uri k = u.
Proof.
  unfold keyUriAt. destruct (frags st !! f) as [frag |] eqn:Hf; [| done].
  destruct (decryptdata st f) as [st1 [r |]] eqn:Hd; simpl; [| done].
  destruct (keys st1 !! r) as [k |] eqn:Hk; simpl; [| done].
  intros [= <-]. by exists frag, st1, r, k.
Qed.

Lemma run_snoc (config : HlsConfig) (events : list Event) (ev : Event) :
  ∀ st kl,
    run config st kl (events ++ [ev])
    = (let '(st1, kl1, effects1) := run config st kl events in
       let '(st2, kl2, effects2, _) := handle config st1 kl1 ev in
       (st2, kl2, effects1 ++ effects2)).
Proof.
  induction events as [| e events IH]; intros st kl; simpl.
  - destruct (handle config st kl ev) as [[[st1 kl1] effects1] thrown].
    by rewrite !app_nil_r.
  - destruct (handle config st kl e) as [[[st1 kl1] effects1] thrown].
    rewrite IH. destruct (run config st1 kl1 events) as [[st2 kl2] effects2].
    destruct (handle config st2 kl2 ev) as [[[st3 kl3] effects3] thrown3].
    by rewrite app_assoc.
Qed.

(** A key request that fetches, answered with success before anything else
    happens: the engine it started is the one at address
    [length (engines kl)]. *)
Lemma fetch_then_success (config : HlsConfig) (st st1 : Store) (kl : KeyLoadingHandler)
    (f : nat) (frag : MediaFragment) (r : ref) (k : LevelKey) (bytes : list Z) :
  frags st !! f = Some frag → decryptdata st f = (st1, Some r) → keys st1 !! r = Some k →
  uri k ≠ _keyUrl kl ∨ _keyData kl = None →
  let a := length (engines kl) in
  ∃ st2 kl2,
    run config st kl [KeyLoading f; Answer a 200 bytes]
    = (st2, kl2,
       (abortLane (engines kl) (_loaders kl !! type frag)).2 ++
       [EngineDid a (XhrOpen (uri k));
        EngineDid a (SetRequestTimeout (fragLoadingTimeOut config));
        EngineDid a XhrSend;
        EngineDid a (OnSuccess (keyContext (uri k) f));
        TriggerKeyLoaded f]) ∧
    _keyData kl2 = Some bytes ∧ _keyUrl kl2 = uri k ∧
    encrypted st2 f = (st2, false).
Proof.
  intros Hf Hd Hk Hcond a.
  destruct (decryptdata_memo st st1 f frag r Hf Hd) as (frag1 & Hf1 & Hmemo1 & Hty & _).
  pose proof (onKeyLoading_fetch config st st1 kl f frag r k Hf Hd Hk Hcond) as Hstep1.
  fold a in Hstep1.
  pose proof (abortLane_length (engines kl) (_loaders kl !! type frag)) as Hlen.
  set (lane := abortLane (engines kl) (_loaders kl !! type frag)) in *.
  set (st1' := setFragLoader st1 f (Some a)) in *.
  assert (frags st1' !! f = Some (setLoader frag1 (Some a))) as Hf1'.
  { unfold st1', setFragLoader. rewrite Hf1. simpl.
    apply list_lookup_insert_eq. by eapply lookup_lt_Some. }
  assert (keys st1' !! r = Some k) as Hk1'.
  { unfold st1', setFragLoader. by rewrite Hf1. }
  assert (decryptdata st1' f = (st1', Some r)) as Hd1'
    by (by apply (decryptdata_memoized st1' f (setLoader frag1 (Some a)))).
  cbn [run handle]. rewrite Hstep1. unfold answer. cbn [engines].
  rewrite lookup_app_r by (fold a; lia).
  replace (a - length lane.1)%nat with 0%nat by (fold a in Hlen; lia).
  simpl.
  rewrite (handleSuccess_attaches st1' st1' _ (keyContext (uri k) f) bytes f
             (setLoader frag1 (Some a)) r k eq_refl Hf1' Hd1' Hk1').
  eexists _, _. split.
  { rewrite !app_nil_r. rewrite <- app_assoc. reflexivity. }
  split; [done |]. split; [done |].
  by destruct (encrypted_after_attach st1' f (setLoader frag1 (Some a)) r k bytes None
                 Hf1' Hmemo1 Hk1') as [He _].
Qed.

Lemma keyLoaded_abortLane_nil (engs : list NetworkEngine) (lane : option nat) :
  keyLoaded (abortLane engs lane).2 = [].
Proof.
  unfold abortLane. destruct lane as [a |]; [| done].
  destruct (engs !! a) as [e |]; [| done].
  destruct (abort e) as [e' effects]. simpl.
  induction effects as [| eff effects IH]; [done | exact IH].
Qed.

(** C6 (amended).  A key request for a fragment whose key URI equals the
    cached URI while key bytes are cached attaches the cached bytes to the
    fragment's decryption data and signals key-loaded; the handler is
    unchanged and no engine acts.  A key request whose URI differs from the
    cached one, or that finds no key bytes cached, aborts the engine of the
    fragment type's lane if there is one, then starts exactly one new engine
    with [maxRetry = 0], which opens the URI and sends once; the URI becomes
    the cached URI and the cached bytes are dropped.  Hence, from any state
    of the handler: when a request that fetches is answered with success
    and the next key request, with nothing in between, is for the same key
    URI, the three events leave exactly one fetch for the two fragments, a
    key-loaded signal for each, and no abort but that of the lane's old
    engine by the first request. *)
Theorem key_cache_policy (config : HlsConfig) :
  (∀ st st1 kl f frag r k bytes,
     frags st !! f = Some frag → decryptdata st f = (st1, Some r) →
     keys st1 !! r = Some k → uri k = _keyUrl kl → _keyData kl = Some bytes →
     onKeyLoading config st kl f
       = (attachKey st1 r bytes, kl, [TriggerKeyLoaded f], None) ∧
     keys (attachKey st1 r bytes) !! r = Some (setKey k (Some bytes))) ∧
  (∀ st st1 kl f frag r k,
     frags st !! f = Some frag → decryptdata st f = (st1, Some r) →
     keys st1 !! r = Some k → uri k ≠ _keyUrl kl ∨ _keyData kl = None →
     ∃ st' kl' e,
       onKeyLoading config st kl f
       = (st', kl',
          (abortLane (engines kl) (_loaders kl !! type frag)).2
            ++ (EngineDid (length (engines kl))
                  <$> [XhrOpen (uri k); SetRequestTimeout (fragLoadingTimeOut config);
                       XhrSend]),
          None) ∧
       fetches (onKeyLoading config st kl f).1.2 = [length (engines kl)] ∧
       engines kl' !! length (engines kl) = Some e ∧
       _loaders kl' !! type frag = Some (length (engines kl)) ∧
       (maxRetry <$> _config e) = Some 0 ∧
       _keyUrl kl' = uri k ∧ _keyData kl' = None ∧
       (∀ a old, _loaders kl !! type frag = Some a → engines kl !! a = Some old →
          engines kl' !! a = Some (abort old).1 ∧
          (abortLane (engines kl) (_loaders kl !! type frag)).2
          = EngineDid a <$> (abort old).2)) ∧
  (∀ st kl f1 frag1 f2 bytes u,
     frags st !! f1 = Some frag1 → keyUriAt st f1 = Some u →
     u ≠ _keyUrl kl ∨ _keyData kl = None →
     keyUriAt (run config st kl
                 [KeyLoading f1; Answer (length (engines kl)) 200 bytes]).1.1 f2
     = Some u →
     let effects := (run config st kl
                       [KeyLoading f1; Answer (length (engines kl)) 200 bytes;
                        KeyLoading f2]).2 in
     fetches effects = [length (engines kl)] ∧
     aborts effects = aborts (abortLane (engines kl) (_loaders kl !! type frag1)).2 ∧
     keyLoaded effects = [f1; f2]).
Proof.
  split; [| split].
  - intros st st1 kl f frag r k bytes Hf Hd Hk Hu Hb.
    split; [by apply (onKeyLoading_cached config st st1 kl f frag r k) |].
    unfold attachKey. rewrite Hk. simpl.
    apply list_lookup_insert_eq. by eapply lookup_lt_Some.
  - intros st st1 kl f frag r k Hf Hd Hk Hcond.
    rewrite (onKeyLoading_fetch config st st1 kl f frag r k Hf Hd Hk Hcond).
    pose proof (abortLane_length (engines kl) (_loaders kl !! type frag)) as Hlen.
    eexists _, _,
      (NetworkEngine.load NetworkEngine_new (keyContext (uri k) f)
         (keyLoaderConfig config)).1.1.
    split; [reflexivity |]. simpl.
    split; [by rewrite fetches_app, abortLane_fetches |].
    split; [rewrite lookup_app_r by lia; by rewrite Hlen, Nat.sub_diag |].
    split; [by rewrite lookup_insert_eq |].
    split; [done |]. split; [done |]. split; [done |].
    intros a old Hlane Hold. unfold abortLane. rewrite Hlane, Hold. simpl.
    split; [| reflexivity].
    rewrite lookup_app_l by (rewrite length_insert; by eapply lookup_lt_Some).
    apply list_lookup_insert_eq. by eapply lookup_lt_Some.
  - intros st kl f1 frag1 f2 bytes u Hfrag1 Hu1 Hcond Hu2 effects.
    apply keyUriAt_Some in Hu1 as (frag1' & st1 & r1 & k1 & Hf1 & Hd1 & Hk1 & <-).
    assert (frag1' = frag1) as -> by congruence.
    destruct (fetch_then_success config st st1 kl f1 frag1 r1 k1 bytes Hf1 Hd1 Hk1 Hcond)
      as (st2 & kl2 & Hrun & Hbytes & Hurl & _).
    rewrite Hrun in Hu2. simpl in Hu2.
    apply keyUriAt_Some in Hu2 as (frag2 & st3 & r2 & k2 & Hf2 & Hd2 & Hk2 & Hu2).
    subst effects.
    change [KeyLoading f1; Answer (length (engines kl)) 200 bytes; KeyLoading f2]
      with ([KeyLoading f1; Answer (length (engines kl)) 200 bytes] ++ [KeyLoading f2]).
    rewrite run_snoc, Hrun. cbn [handle].
    rewrite (onKeyLoading_cached config st2 st3 kl2 f2 frag2 r2 k2 bytes
               Hf2 Hd2 Hk2 ltac:(congruence) Hbytes).
    cbn [snd]. unfold fetches, aborts, keyLoaded. rewrite !omap_app.
    fold (fetches (abortLane (engines kl) (_loaders kl !! type frag1)).2).
    fold (aborts (abortLane (engines kl) (_loaders kl !! type frag1)).2).
    fold (keyLoaded (abortLane (engines kl) (_loaders kl !! type frag1)).2).
    rewrite abortLane_fetches, keyLoaded_abortLane_nil. simpl.
    by rewrite !app_nil_r.
Qed.

(** Two fragments, sequence numbers 1 and 2, that share one playlist key
    with an explicit IV. *)
Definition twoFragments : Store :=
  {| keys := [{| method := Some "AES-128"%string; uri := Some "https://k/1"%string;
                 key := None; iv := Some (replicate 16 0) |}];
     frags := [{| sn := 1; level := 0; type := "main"; start := 0; duration := 6;
                  deltaPTS := None; programDateTime := None; levelkey := Some 0%nat;
                  _decryptdata := None; loader := None; dropped := 0;
                  backtracked := false; hasAudio := false; hasVideo := false |};
               {| sn := 2; level := 0; type := "main"; start := 6; duration := 6;
                  deltaPTS := None; programDateTime := None; levelkey := Some 0%nat;
                  _decryptdata := None; loader := None; dropped := 0;
                  backtracked := false; hasAudio := false; hasVideo := false |}] |}.

Lemma key_cache_policy_witness :
  let effects := (run sampleConfig twoFragments KeyLoadingHandler_new
                    [KeyLoading 0; Answer 0 200 (replicate 16 7); KeyLoading 1]).2 in
  fetches effects = [0%nat] ∧ aborts effects = [] ∧ keyLoaded effects = [0%nat; 1%nat].
Proof.
  destruct (key_cache_policy sampleConfig) as (_ & _ & H).
  exact (H twoFragments KeyLoadingHandler_new 0%nat _ 1%nat (replicate 16 7)
           (Some "https://k/1"%string) eq_refl eq_refl (or_intror eq_refl) eq_refl).
Defined.

(** C6 (counterexample).  Two fragments that refer to the same key URI, the
    second request arriving before the first is answered: no key bytes are
    cached yet, so the second request aborts the first engine and fetches
    again.  Two fetches for one URI. *)
Lemma same_uri_two_fetches_counterexample :
  let effects := (run sampleConfig twoFragments KeyLoadingHandler_new
                    [KeyLoading 0; KeyLoading 1]).2 in
  keyUriAt twoFragments 0 = keyUriAt twoFragments 1 ∧
  fetches effects = [0%nat; 1%nat] ∧ aborts effects = [0%nat] ∧ keyLoaded effects = [].
Proof. vm_compute. done. Qed.

(** The cache holds one key.  Three fragments, the first and the third
    with one key URI and the second with another, each request answered
    with success before the next: the third request finds the other URI
    cached and fetches the first URI again. *)
Example other_uri_in_between_fetches_again :
  let st :=
    {| keys := [{| method := Some "AES-128"%string; uri := Some "https://k/1"%string;
                   key := None; iv := Some (replicate 16 0) |};
                {| method := Some "AES-128"%string; uri := Some "https://k/2"%string;
                   key := None; iv := Some (replicate 16 0) |};
                {| method := Some "AES-128"%string; uri := Some "https://k/1"%string;
                   key := None; iv := Some (replicate 16 1) |}];
       frags := [setDecryptdata (parsedFragment 1 0 6 None) (Some 0%nat);
                 setDecryptdata (parsedFragment 2 6 6 None) (Some 1%nat);
                 setDecryptdata (parsedFragment 3 12 6 None) (Some 2%nat)] |} in
  let effects := (run sampleConfig st KeyLoadingHandler_new
                    [KeyLoading 0; Answer 0 200 (replicate 16 7);
                     KeyLoading 1; Answer 1 200 (replicate 16 8);
                     KeyLoading 2]).2 in
  keyUriAt st 0 = keyUriAt st 2 ∧
  fetches effects = [0%nat; 1%nat; 2%nat] ∧ keyLoaded effects = [0%nat; 1%nat].
Proof. vm_compute. done. Qed.

Lemma encrypted_after_attachKey (st : Store) (f : nat) (frag : MediaFragment) (r : ref)
    (k : LevelKey) (bytes : list Z) :
  frags st !! f = Some frag → _decryptdata frag = Some r → keys st !! r = Some k →
  encrypted (attachKey st r bytes) f = (attachKey st r bytes, false).
Proof.
  intros Hf Hmemo Hk.
  assert (frags (attachKey st r bytes) !! f = Some frag) as Hf'
    by (unfold attachKey; by rewrite Hk).
  assert (keys (attachKey st r bytes) !! r = Some (setKey k (Some bytes))) as Hk'.
  { unfold attachKey. rewrite Hk. simpl.
    apply list_lookup_insert_eq. by eapply lookup_lt_Some. }
  unfold encrypted.
  rewrite (decryptdata_memoized _ f frag r Hf' Hmemo), Hk'. simpl.
  by rewrite andb_false_r.
Qed.

Lemma keyLoaded_engine_effects (a : nat) (effects : list Effect) (f : nat) :
  TriggerKeyLoaded f ∉ (EngineDid a <$> effects).
Proof. intros H. apply list_elem_of_fmap in H as (eff & [=] & _). Qed.

Lemma keyLoaded_abortLane (engs : list NetworkEngine) (lane : option nat) (f : nat) :
  TriggerKeyLoaded f ∉ (abortLane engs lane).2.
Proof.
  unfold abortLane. destruct lane as [a |]; [| apply not_elem_of_nil].
  destruct (engs !! a) as [e |]; [| apply not_elem_of_nil].
  destruct (abort e) as [e' effects]. apply keyLoaded_engine_effects.
Qed.

(** C10.  The [encrypted] getter is true exactly when the fragment's
    decryption data exists, has a non-null URI, and has no key bytes yet.
    So once the key loader has attached key bytes to the fragment's
    decryption data, on a successful fetch or from its cache, the same
    fragment reports [encrypted = false]. *)
Theorem encrypted_iff_uri_without_key (st : Store) (f : nat) :
  ((encrypted st f).2 = true ↔
     ∃ r k, (decryptdata st f).2 = Some r ∧
       keys (decryptdata st f).1 !! r = Some k ∧ uri k ≠ None ∧ key k = None) ∧
  (∀ kl context bytes st' kl' effects,
     ctx_frag context = Some f →
     _handleSuccess st kl context bytes = (st', kl', effects, None) →
     encrypted st' f = (st', false) ∧
     ∃ r k, decryptdata st' f = (st', Some r) ∧ keys st' !! r = Some k ∧
       key k = Some bytes) ∧
  (∀ config kl st' kl' effects,
     onKeyLoading config st kl f = (st', kl', effects, None) →
     TriggerKeyLoaded f ∈ effects →
     encrypted st' f = (st', false)).
Proof.
  split; [| split].
  - unfold encrypted. destruct (decryptdata st f) as [st1 [r |]] eqn:Hd; simpl.
    + destruct (keys st1 !! r) as [k |] eqn:Hk; simpl.
      * rewrite andb_true_iff, !bool_decide_eq_true. split.
        -- intros [Hu Hkey]. by exists r, k.
        -- intros (r0 & k0 & [= <-] & Hk0 & Hu & Hkey). by simplify_eq.
      * split; [done |]. intros (r0 & k0 & [= <-] & Hk0 & _). congruence.
    + split; [done |]. by intros (r0 & k0 & [=] & _).
  - intros kl context bytes st' kl' effects Hc. unfold _handleSuccess. rewrite Hc. simpl.
    destruct (frags st !! f) as [frag |] eqn:Hf; simpl; [| done].
    destruct (decryptdata st f) as [st1 [r |]] eqn:Hd; simpl; [| done].
    destruct (keys st1 !! r) as [k |] eqn:Hk; simpl; [| done].
    intros [= <- _ _].
    destruct (decryptdata_memo st st1 f frag r Hf Hd) as (frag1 & Hf1 & Hmemo1 & _).
    destruct (encrypted_after_attach st1 f frag1 r k bytes None Hf1 Hmemo1 Hk)
      as (He & Hd' & Hk').
    split; [done |]. by exists r, (setKey k (Some bytes)).
  - intros config kl st' kl' effects. unfold onKeyLoading.
    destruct (frags st !! f) as [frag |] eqn:Hf; [| done].
    destruct (decryptdata st f) as [st1 [r |]] eqn:Hd; simpl; [| done].
    destruct (keys st1 !! r) as [k |] eqn:Hk; simpl; [| done].
    destruct (decryptdata_memo st st1 f frag r Hf Hd) as (frag1 & Hf1 & Hmemo1 & _).
    destruct (negb _ || negb _).
    + pose proof (keyLoaded_abortLane (engines kl) (_loaders kl !! type frag) f) as Hno.
      destruct (abortLane (engines kl) (_loaders kl !! type frag)) as [engines1 effects1].
      intros [= <- <- <-] Hin. exfalso.
      apply elem_of_app in Hin as [Hin | Hin]; [done |].
      by apply (keyLoaded_engine_effects (length engines1)
                  [XhrOpen (uri k); SetRequestTimeout (fragLoadingTimeOut config); XhrSend]
                  f).
    + destruct (_keyData kl) as [bytes |].
      * intros [= <- _ _] _. by apply (encrypted_after_attachKey st1 f frag1 r k).
      * intros [= <- <- <-] Hin. by apply elem_of_nil in Hin.
Qed.

Example encrypted_before_and_after :
  (encrypted twoFragments 0).2 = true ∧
  (encrypted (run sampleConfig twoFragments KeyLoadingHandler_new
                [KeyLoading 0; Answer 0 200 (replicate 16 7)]).1.1 0).2 = false ∧
  (encrypted (run sampleConfig twoFragments KeyLoadingHandler_new
                [KeyLoading 0; Answer 0 200 (replicate 16 7)]).1.1 1).2 = false.
Proof. vm_compute. done. Qed.

End KeyLoadingSpec.

(** ** Fragment receiver (MediaFragmentReceiver) *)

Module Receiver.

Inductive MediaFragmentReceiverState : Type :=
| STOPPED
| IDLE
| KEY_LOADING
| FRAG_LOADING
| FRAG_LOADING_WAITING_RETRY
| WAITING_LEVEL
| PARSING
| PARSED
| BUFFER_FLUSHING
| ENDED
| ERROR.

#[export] Instance MediaFragmentReceiverState_eq_dec : EqDecision MediaFragmentReceiverState.
Proof. solve_decision. Defined.

(** The fields of [MediaVariantDetails] and [QualityLevel] the handler reads. *)
Record MediaVariantDetails : Type := mkDetails {
  startSN : Z;
  endSN : Z
}.

Record QualityLevel : Type := mkLevel {
  details : option MediaVariantDetails
}.

(** Modelled from the spec: class [MediaFragmentTracker] is not among the
    sources.  The spec speaks of "any fragment-tracking structure" from which
    a fragment is withdrawn; the model is the list of the addresses of the
    tracked fragments, and [removeFragment] takes the fragment out of it. *)
Definition removeFragment (tracker : list nat) (f : nat) : list nat :=
  filter (λ g, g ≠ f) tracker.

(** The fields of the receiver that [onFragParsingData] reads or writes.
    [fragmentTracker] is [None] until somebody assigns the field: the
    constructor does not.  Fragments are named by their address in the
    store of fragments. *)
Record MediaFragmentReceiver : Type := mkReceiver {
  state : MediaFragmentReceiverState;
  fragCurrent : option nat;
  fragPrevious : option nat;
  nextLoadPosition : option Q;
  altAudio : bool;
  appended : bool;
  pendingBuffering : bool;
  levels : list QualityLevel;
  level : Z;
  fragmentTracker : option (list nat)
}.

(** The payload of the parse-data signal; a missing [dropped] count is 0 and
    a missing buffer is [None]. *)
Record FragParsingData : Type := mkParsingData {
  pd_frag : nat;
  pd_id : string;
  pd_type : string;
  pd_startPTS : Q;
  pd_endPTS : number;
  pd_startDTS : Q;
  pd_endDTS : Q;
  pd_dropped : Z;
  pd_hasAudio : bool;
  pd_hasVideo : bool;
  pd_data1 : option (list Z);
  pd_data2 : option (list Z)
}.

(** What the handler does to the outside.  The call of
    [LevelHelper.updateFragPTSDTS] (m3u8/level-helper, not among the
    sources) is recorded with its arguments; what it does to the timing
    fields of the level and of the fragment is outside the model, and so is
    the drift it returns.  Signals are recorded, their listeners do not run. *)
Inductive ReceiverEffect : Type :=
| UpdateFragPTSDTS (frag : nat) (startPTS : Q) (endPTS : number) (startDTS : Q)
    (endDTS : number)
| TriggerLevelPtsUpdated (level : Z) (type : string) (startPTS : Q) (endPTS : number)
| TriggerBufferAppending (type : string) (data : list Z) (parent content : string).

(** A step of the receiver: the receiver and the fragments after it, what it
    did, and the message of the exception if it threw. *)
Definition rstep : Type :=
  MediaFragmentReceiver * list MediaFragment * list ReceiverEffect * option string.

(** [tick()]: in this class it throws. *)
Definition tick (rc : MediaFragmentReceiver) (fragments : list MediaFragment)
    (effects : list ReceiverEffect) : rstep :=
  (rc, fragments, effects, Some "Method not implemented."%string).

(** The fragment with its parse flags replaced. *)
Definition setParseFlags (f : MediaFragment) (d : Z) (b a v : bool) : MediaFragment :=
  {| sn := sn f; Playlist.level := Playlist.level f; type := type f; start := start f;
     duration := duration f; deltaPTS := deltaPTS f;
     programDateTime := programDateTime f; levelkey := levelkey f;
     _decryptdata := _decryptdata f; loader := loader f; dropped := d;
     backtracked := b; hasAudio := a; hasVideo := v |}.

(** The body of the [forEach] over [[data.data1, data.data2]]: a buffer that
    is there and not empty is appended while the state is [PARSING]. *)
Definition appendBuffer (type : string) (acc : MediaFragmentReceiver * list ReceiverEffect)
    (buffer : option (list Z)) : MediaFragmentReceiver * list ReceiverEffect :=
  let '(rc, effects) := acc in
  match buffer with
  | Some bytes =>
      if negb (length bytes =? 0)%nat && bool_decide (state rc = PARSING)
      then
        ({| state := state rc; fragCurrent := fragCurrent rc;
            fragPrevious := fragPrevious rc; nextLoadPosition := nextLoadPosition rc;
            altAudio := altAudio rc; appended := true; pendingBuffering := true;
            levels := levels rc; level := level rc;
            fragmentTracker := fragmentTracker rc |},
         effects ++ [TriggerBufferAppending type bytes "main" "data"])
      else acc
  | None => acc
  end.

(** [onFragParsingData(data)]. *)
Definition onFragParsingData (rc : MediaFragmentReceiver) (fragments : list MediaFragment)
    (data : FragParsingData) : rstep :=
  match fragCurrent rc with
  | None => (rc, fragments, [], None)
  | Some fc =>
      match fragments !! fc with
      | None => (rc, fragments, [], None)
      | Some cur =>
        if negb (String.eqb (pd_id data) "main") then (rc, fragments, [], None)
        else
        match fragments !! pd_frag data with
        | None => (rc, fragments, [], Some "TypeError: data.frag is undefined"%string)
        | Some fragNew =>
          if (sn fragNew =? sn cur) && (Playlist.level fragNew =? Playlist.level cur)
             && negb (String.eqb (pd_type data) "audio" && altAudio rc)
             && bool_decide (state rc = PARSING)
          then
            let lv := js_index (levels rc) (level rc) in
            let endPTS :=
              match pd_endPTS data with
              | Finite q => Finite q
              | _ => js_add (Finite (pd_startPTS data)) (Finite (duration cur))
              end in
            let endDTS :=
              match pd_endPTS data with
              | Finite _ => Finite (pd_endDTS data)
              | _ => js_add (Finite (pd_startDTS data)) (Finite (duration cur))
              end in
            let audio := if pd_hasAudio data then true else hasAudio cur in
            let video := if pd_hasVideo data then true else hasVideo cur in
            (* the append that follows the gap check *)
            let proceed (frag : MediaFragment) : rstep :=
              let fragments1 := <[fc := frag]> fragments in
              match lv with
              | None => (rc, fragments1, [], Some "TypeError: level is undefined"%string)
              | Some _ =>
                  let effects :=
                    [UpdateFragPTSDTS fc (pd_startPTS data) endPTS (pd_startDTS data) endDTS;
                     TriggerLevelPtsUpdated (level rc) (pd_type data) (pd_startPTS data)
                       endPTS] in
                  let '(rc1, effects1) :=
                    fold_left (appendBuffer (pd_type data)) [pd_data1 data; pd_data2 data]
                      (rc, effects) in
                  tick rc1 fragments1 effects1
              end in
            if String.eqb (pd_type data) "video" then
              if negb (pd_dropped data =? 0) then
                if negb (backtracked cur) then
                  match lv with
                  | None =>
                      (rc, <[fc := setParseFlags cur (pd_dropped data) false audio video]>
                             fragments,
                       [], Some "TypeError: level is undefined"%string)
                  | Some l =>
                      let firstOfLevel :=
                        match details l with
                        | Some levelDetails => sn cur =? startSN levelDetails
                        | None => false
                        end in
                      if firstOfLevel
                      then proceed (setParseFlags cur (pd_dropped data) false audio video)
                      else
                        match fragmentTracker rc with
                        | None =>
                            (rc,
                             <[fc := setParseFlags cur (pd_dropped data) false audio video]>
                               fragments,
                             [], Some "TypeError: fragmentTracker is undefined"%string)
                        | Some tracker =>
                            tick
                              {| state := IDLE; fragCurrent := fragCurrent rc;
                                 fragPrevious := Some fc;
                                 nextLoadPosition := Some (pd_startPTS data);
                                 altAudio := altAudio rc; appended := appended rc;
                                 pendingBuffering := pendingBuffering rc;
                                 levels := levels rc; level := level rc;
                                 fragmentTracker := Some (removeFragment tracker fc) |}
                              (<[fc := setParseFlags cur (pd_dropped data) true audio video]>
                                 fragments)
                              []
                        end
                  end
                else proceed (setParseFlags cur (pd_dropped data) true audio video)
              else proceed (setParseFlags cur (pd_dropped data) false audio video)
            else proceed (setParseFlags cur (dropped cur) (backtracked cur) audio video)
          else (rc, fragments, [], None)
        end
      end
  end.

(** The buffer-append signals of a trace. *)
Definition bufferAppends (effects : list ReceiverEffect) : list (list Z) :=
  omap (λ eff, match eff with
               | TriggerBufferAppending _ bytes _ _ => Some bytes
               | _ => None
               end) effects.

End Receiver.

(** ** Properties of the fragment receiver *)

Module ReceiverSpec.
Import Receiver.

(** The buffers of a parse-data payload that are there and not empty. *)
Definition nonEmptyBuffers (data : FragParsingData) : list (list Z) :=
  omap (λ buffer : option (list Z),
          match buffer with
          | Some bytes => if (length bytes =? 0)%nat then None else Some bytes
          | None => None
          end)
       [pd_data1 data; pd_data2 data].

Lemma removeFragment_not_elem (tracker : list nat) (f : nat) : f ∉ removeFragment tracker f.
Proof. unfold removeFragment. intros H. by apply list_elem_of_filter in H as [H _]. Qed.

(** The appends of the [forEach] from the [PARSING] state. *)
Lemma appendBuffers_parsing (rc : MediaFragmentReceiver) (data : FragParsingData)
    (effects : list ReceiverEffect) :
  state rc = PARSING → bufferAppends effects = [] →
  ∃ rc' effects',
    fold_left (appendBuffer (pd_type data)) [pd_data1 data; pd_data2 data] (rc, effects)
    = (rc', effects') ∧
    state rc' = PARSING ∧ nextLoadPosition rc' = nextLoadPosition rc ∧
    fragPrevious rc' = fragPrevious rc ∧ fragmentTracker rc' = fragmentTracker rc ∧
    bufferAppends effects' = nonEmptyBuffers data ∧
    (nonEmptyBuffers data ≠ [] → appended rc' = true ∧ pendingBuffering rc' = true) ∧
    (∀ bytes, bytes ∈ nonEmptyBuffers data →
       TriggerBufferAppending (pd_type data) bytes "main" "data" ∈ effects').
Proof.
  intros Hstate Heff. unfold nonEmptyBuffers. simpl.
  destruct (pd_data1 data) as [[| b1 bytes1] |], (pd_data2 data) as [[| b2 bytes2] |];
    simpl; rewrite ?Hstate; simpl;
    eexists _, _; (split; [reflexivity |]); simpl;
    unfold bufferAppends in *; rewrite ?omap_app, ?Heff; simpl;
    repeat split; try done; intros bytes Hin;
    rewrite ?elem_of_app, ?elem_of_cons, ?elem_of_nil in *; intuition congruence.
Qed.

(** C5 (amended).  The parse of the current fragment reports dropped leading
    video frames while the receiver is [PARSING] on a level it knows.  If the
    fragment is not marked backtracked and is not the first fragment of the
    level's playlist ([sn] differs from the details' [startSN], or the level
    has no details), the receiver backtracks, and what happens depends on
    its [fragmentTracker] field.  Where the field holds a tracker, the
    receiver removes the fragment from the tracker, marks it backtracked,
    rewinds [nextLoadPosition] to the parsed start PTS, records the fragment
    as [fragPrevious] and goes to [IDLE] with no signal at all, so no
    buffer-append; it then calls [tick()].  Where the field is unset, as the
    constructor leaves it, the call of [removeFragment] throws: the dropped
    count is written to the fragment, and the mark, the position, the state
    and [fragPrevious] are as before; there is no signal.  If the fragment
    is not marked backtracked and is the first fragment of the level's
    playlist, the receiver does not backtrack: it stays in [PARSING] and
    appends with the gap.  If the fragment is already marked backtracked, the receiver stays
    in [PARSING], leaves position, tracker and the mark alone, and signals a
    buffer-append for each buffer of the payload that is there and not
    empty. *)
Theorem dropped_frames_backtrack_once (rc : MediaFragmentReceiver)
    (fragments : list MediaFragment) (data : FragParsingData) (fc : nat)
    (cur fragNew : MediaFragment) (lv : QualityLevel) :
  fragCurrent rc = Some fc → fragments !! fc = Some cur →
  fragments !! pd_frag data = Some fragNew →
  pd_id data = "main"%string → sn fragNew = sn cur →
  Playlist.level fragNew = Playlist.level cur →
  state rc = PARSING → pd_type data = "video"%string → pd_dropped data ≠ 0 →
  js_index (levels rc) (level rc) = Some lv →
  (backtracked cur = false →
   (∀ d, details lv = Some d → startSN d ≠ sn cur) →
   ∀ tracker, fragmentTracker rc = Some tracker →
   ∃ rc' cur',
     onFragParsingData rc fragments data
     = (rc', <[fc := cur']> fragments, [], Some "Method not implemented."%string) ∧
     state rc' = IDLE ∧ nextLoadPosition rc' = Some (pd_startPTS data) ∧
     fragPrevious rc' = Some fc ∧
     fragmentTracker rc' = Some (removeFragment tracker fc) ∧
     (fc ∉ removeFragment tracker fc) ∧
     backtracked cur' = true ∧ dropped cur' = pd_dropped data ∧ sn cur' = sn cur ∧
     appended rc' = appended rc ∧ pendingBuffering rc' = pendingBuffering rc) ∧
  (backtracked cur = false →
   (∀ d, details lv = Some d → startSN d ≠ sn cur) →
   fragmentTracker rc = None →
   ∃ cur',
     onFragParsingData rc fragments data
     = (rc, <[fc := cur']> fragments, [],
        Some "TypeError: fragmentTracker is undefined"%string) ∧
     backtracked cur' = false ∧ dropped cur' = pd_dropped data ∧ sn cur' = sn cur) ∧
  (backtracked cur = false →
   (∃ d, details lv = Some d ∧ startSN d = sn cur) →
   ∃ rc' cur' effects,
     onFragParsingData rc fragments data
     = (rc', <[fc := cur']> fragments, effects, Some "Method not implemented."%string) ∧
     state rc' = PARSING ∧ nextLoadPosition rc' = nextLoadPosition rc ∧
     fragPrevious rc' = fragPrevious rc ∧ fragmentTracker rc' = fragmentTracker rc ∧
     backtracked cur' = false ∧ dropped cur' = pd_dropped data ∧
     bufferAppends effects = nonEmptyBuffers data) ∧
  (backtracked cur = true →
   ∃ rc' cur' effects,
     onFragParsingData rc fragments data
     = (rc', <[fc := cur']> fragments, effects, Some "Method not implemented."%string) ∧
     state rc' = PARSING ∧ nextLoadPosition rc' = nextLoadPosition rc ∧
     fragPrevious rc' = fragPrevious rc ∧ fragmentTracker rc' = fragmentTracker rc ∧
     backtracked cur' = true ∧ dropped cur' = pd_dropped data ∧
     bufferAppends effects = nonEmptyBuffers data ∧
     (nonEmptyBuffers data ≠ [] → appended rc' = true ∧ pendingBuffering rc' = true) ∧
     (∀ bytes, bytes ∈ nonEmptyBuffers data →
        TriggerBufferAppending "video" bytes "main" "data" ∈ effects)).
Proof.
  intros Hfc Hcur Hnew Hid Hsn Hlevel Hstate Htype Hdropped Hlv.
  assert ((pd_dropped data =? 0) = false) as Hd by (by apply Z.eqb_neq).
  set (endPTS := match pd_endPTS data with
                 | Finite q => Finite q
                 | _ => js_add (Finite (pd_startPTS data)) (Finite (duration cur))
                 end).
  set (endDTS := match pd_endPTS data with
                 | Finite _ => Finite (pd_endDTS data)
                 | _ => js_add (Finite (pd_startDTS data)) (Finite (duration cur))
                 end).
  destruct (appendBuffers_parsing rc data
              [UpdateFragPTSDTS fc (pd_startPTS data) endPTS (pd_startDTS data) endDTS;
               TriggerLevelPtsUpdated (level rc) (pd_type data) (pd_startPTS data) endPTS]
              Hstate eq_refl)
    as (rc' & effects' & Hfold & Hs & Hn & Hp & Ht & Happ & Hflags & Hin).
  rewrite Htype in Hfold, Hin.
  unfold onFragParsingData.
  rewrite Hfc, Hcur, Hnew, Hid, Hsn, Hlevel, Hstate, Htype, Hlv, Hd, !Z.eqb_refl.
  cbn [negb andb String.eqb Ascii.eqb Bool.eqb bool_decide decide_rel].
  fold endPTS endDTS.
  split; [| split; [| split]].
  - intros Hb Hfirst tracker Htracker. rewrite Hb, Htracker. simpl.
    assert (match details lv with
            | Some levelDetails => sn cur =? startSN levelDetails
            | None => false
            end = false) as ->.
    { destruct (details lv) as [d |] eqn:Hdet; [| done].
      apply Z.eqb_neq. intros Heq. by apply (Hfirst d). }
    unfold tick. eexists _, _. split; [reflexivity |]. simpl.
    repeat split; try done. apply removeFragment_not_elem.
  - intros Hb Hfirst Htracker. rewrite Hb, Htracker. simpl.
    assert (match details lv with
            | Some levelDetails => sn cur =? startSN levelDetails
            | None => false
            end = false) as ->.
    { destruct (details lv) as [d |] eqn:Hdet; [| done].
      apply Z.eqb_neq. intros Heq. by apply (Hfirst d). }
    eexists. split; [reflexivity |]. done.
  - intros Hb (d & Hdet & Hfirst). rewrite Hb, Hdet, Hfirst, Z.eqb_refl. simpl.
    simpl in Hfold. rewrite Hfold.
    unfold tick. eexists _, _, _. split; [reflexivity |]. by repeat split.
  - intros Hb. rewrite Hb. simpl.
    simpl in Hfold. rewrite Hfold.
    unfold tick. eexists _, _, _. split; [reflexivity |]. simpl.
    repeat split; try done; by apply Hflags.
Qed.

(** A receiver that parses fragment 1 (sequence number 6) of a level whose
    playlist starts at sequence number 5, and tracks both fragments. *)
Definition parsingReceiver : MediaFragmentReceiver :=
  {| state := PARSING; fragCurrent := Some 1%nat; fragPrevious := Some 0%nat;
     nextLoadPosition := None; altAudio := false; appended := false;
     pendingBuffering := true;
     levels := [{| details := Some {| startSN := 5; endSN := 9 |} |}];
     level := 0; fragmentTracker := Some [0%nat; 1%nat] |}.

Definition levelFragments : list MediaFragment :=
  [parsedFragment 5 0 6 None; parsedFragment 6 6 6 None].

(** A parse of the fragment at [f] that dropped two leading video frames. *)
Definition droppedVideo (f : nat) (startPTS : Q) : FragParsingData :=
  {| pd_frag := f; pd_id := "main"; pd_type := "video"; pd_startPTS := startPTS;
     pd_endPTS := Finite (startPTS + 6); pd_startDTS := startPTS;
     pd_endDTS := (startPTS + 6)%Q; pd_dropped := 2; pd_hasAudio := false;
     pd_hasVideo := true; pd_data1 := Some [1; 2; 3]; pd_data2 := None |}.

Lemma dropped_frames_backtrack_once_witness :
  ∃ rc' cur',
    onFragParsingData parsingReceiver levelFragments (droppedVideo 1 (13 # 2))
    = (rc', <[1%nat := cur']> levelFragments, [],
       Some "Method not implemented."%string) ∧
    state rc' = IDLE ∧ nextLoadPosition rc' = Some (13 # 2) ∧
    fragmentTracker rc' = Some [0%nat] ∧ backtracked cur' = true.
Proof.
  destruct (dropped_frames_backtrack_once parsingReceiver levelFragments
              (droppedVideo 1 (13 # 2)) 1%nat
              (parsedFragment 6 6 6 None) (parsedFragment 6 6 6 None)
              {| details := Some {| startSN := 5; endSN := 9 |} |}
              eq_refl eq_refl eq_refl eq_refl eq_refl eq_refl eq_refl eq_refl
              ltac:(done) eq_refl) as [H _].
  destruct (H eq_refl ltac:(by intros d [= <-]) [0%nat; 1%nat] eq_refl)
    as (rc' & cur' & Heq & Hs & Hn & _ & Ht & _ & Hb & _).
  exists rc', cur'. by repeat split.
Defined.

(** The receiver as the constructor leaves it, without a tracker: the
    backtrack throws before the mark, the position and the state are
    written. *)
Example backtrack_without_tracker_throws :
  let rc := {| state := PARSING; fragCurrent := Some 1%nat; fragPrevious := Some 0%nat;
               nextLoadPosition := None; altAudio := false; appended := false;
               pendingBuffering := true;
               levels := [{| details := Some {| startSN := 5; endSN := 9 |} |}];
               level := 0; fragmentTracker := None |} in
  let r := onFragParsingData rc levelFragments (droppedVideo 1 (13 # 2)) in
  r.2 = Some "TypeError: fragmentTracker is undefined"%string ∧
  r.1.1.1 = rc ∧ r.1.2 = [] ∧
  (backtracked <$> r.1.1.2 !! 1%nat) = Some false ∧
  (dropped <$> r.1.1.2 !! 1%nat) = Some 2.
Proof. vm_compute. done. Qed.

Example redelivered_fragment_is_appended :
  let fragments := <[1%nat := setParseFlags (parsedFragment 6 6 6 None) 2 true false true]>
                     levelFragments in
  let r := onFragParsingData parsingReceiver fragments (droppedVideo 1 (13 # 2)) in
  state r.1.1.1 = PARSING ∧ bufferAppends r.1.2 = [[1; 2; 3]] ∧
  (backtracked <$> r.1.1.2 !! 1%nat) = Some true.
Proof. vm_compute. done. Qed.

(** C5 (counterexample).  The current fragment is the first of its level's
    playlist ([sn = startSN = 5]); its parse reports two dropped leading
    video frames and it is not marked backtracked.  The receiver does not
    backtrack: it stays in [PARSING], leaves [nextLoadPosition], the tracker
    and the mark alone, and signals the buffer-append. *)
Lemma first_fragment_gap_counterexample :
  let rc := {| state := PARSING; fragCurrent := Some 0%nat; fragPrevious := None;
               nextLoadPosition := None; altAudio := false; appended := false;
               pendingBuffering := true;
               levels := [{| details := Some {| startSN := 5; endSN := 9 |} |}];
               level := 0; fragmentTracker := Some [0%nat] |} in
  let r := onFragParsingData rc levelFragments (droppedVideo 0 (1 # 2)) in
  (backtracked <$> levelFragments !! 0%nat) = Some false ∧
  pd_dropped (droppedVideo 0 (1 # 2)) = 2 ∧
  state r.1.1.1 = PARSING ∧ nextLoadPosition r.1.1.1 = None ∧
  fragmentTracker r.1.1.1 = Some [0%nat] ∧
  (backtracked <$> r.1.1.2 !! 0%nat) = Some false ∧
  bufferAppends r.1.2 = [[1; 2; 3]].
Proof. vm_compute. done. Qed.

End ReceiverSpec.

(** * Further laws of the code

    The retry loop of the transport engine, the tear-down and the answers of
    the playlist loader, the level bounds and the configuration check of the
    player facade, byte ranges and fragment loading, the way from a playlist
    body to signals, the failure path of the key loader, the end of a
    fragment's parsing, and the second player. *)

From Stdlib Require Import Ascii DecimalString DecimalPos.

(** ** Laws of the transport engine's retry loop *)

Module NetworkEngineLaws.
Import NetworkEngine NetworkEngineSpec.

(** A status the engine answers with a retry while retries are left: outside
    the success band and outside the band [status >= 400 && status < 499]. *)
Definition retryable (status : Z) : bool :=
  negb ((200 <=? status) && (status <? 300))
  && negb ((400 <=? status) && (status <? 499)).

(** The success band of [_handleReadyStateChange]. *)
Definition successful (status : Z) : bool := (200 <=? status) && (status <? 300).

(** The delay of the [k]-th retry: [retryDelay] first, then
    [Math.min(2 * delay, maxRetryDelay)] again and again. *)
Fixpoint backoff (delay maxDelay : option Z) (k : nat) : option Z :=
  match k with
  | O => delay
  | S k' => backoff (nextRetryDelay delay maxDelay) maxDelay k'
  end.

(** What [_execRequest] does for a context and engine options. *)
Definition execEffects (context : NetworkEngineContext)
    (config : NetworkEngineLoadOptions) : list Effect :=
  [XhrOpen (ctx_url context)]
    ++ match ctx_rangeEnd context with
       | Some rangeEnd =>
           if rangeEnd =? 0 then []
           else [XhrSetRangeHeader (ctx_rangeStart context) rangeEnd]
       | None => []
       end
    ++ [SetRequestTimeout (timeout config); XhrSend].

(** [k] rounds of retry: the timer is armed with the current delay, fires,
    and the request is sent again. *)
Fixpoint retryTrace (context : NetworkEngineContext) (config : NetworkEngineLoadOptions)
    (delay : option Z) (k : nat) : list Effect :=
  match k with
  | O => []
  | S k' =>
      SetRetryTimeout delay :: execEffects context config
        ++ retryTrace context config (nextRetryDelay delay (maxRetryDelay config)) k'
  end.

(** The engine waits for the answer to a request it has sent, after [r]
    retries. *)
Definition awaiting (e : NetworkEngine) (context : NetworkEngineContext)
    (config : NetworkEngineLoadOptions) (r : Z) : Prop :=
  is_Some (_xhr e) ∧ _stats e = Some {| aborted := false; retry := r |} ∧
  _context e = Some context ∧ _config e = Some config ∧ _retryTimeout e = None.

(** The engine has finished: its request object is done and no timer is
    pending. *)
Definition finished (e : NetworkEngine) : Prop :=
  _xhr e = Some {| readyState := 4 |} ∧ _requestTimeout e = None ∧
  _retryTimeout e = None.

(** The final callback for a status. *)
Definition finalCallback (context : NetworkEngineContext) (status : Z) : Effect :=
  if successful status then OnSuccess context else OnError status context.

(** The request object reports a sequence of [(readyState, status)] pairs to
    [_handleReadyStateChange]; an exception ends the sequence. *)
Fixpoint reportAll (e : NetworkEngine) (reports : list (Z * Z)) : step :=
  match reports with
  | [] => (e, [], None)
  | (state, status) :: rest =>
      match _handleReadyStateChange e state status with
      | (e1, effects1, Some msg) => (e1, effects1, Some msg)
      | (e1, effects1, None) =>
          let '(e2, effects2, thrown) := reportAll e1 rest in
          (e2, effects1 ++ effects2, thrown)
      end
  end.

Definition successes (effects : list Effect) : nat :=
  length (omap (λ eff, match eff with OnSuccess _ => Some eff | _ => None end) effects).

Lemma load_awaiting (context : NetworkEngineContext) (config : NetworkEngineLoadOptions) :
  ∃ e, load NetworkEngine_new context config = (e, execEffects context config, None) ∧
    awaiting e context config 0 ∧ _retryDelay e = retryDelay config.
Proof.
  unfold load, _execRequest. simpl. eexists. split; [reflexivity |].
  by repeat split.
Qed.

Lemma respondAll_final (e : NetworkEngine) (context : NetworkEngineContext)
    (config : NetworkEngineLoadOptions) (r status : Z) (rest : list Z) :
  awaiting e context config r →
  successful status = true ∨ retryable status = false ∨ maxRetry config ≤ r →
  ∃ e', respondAll e (status :: rest) = (e', [finalCallback context status], None) ∧
    finished e' ∧ _stats e' = _stats e ∧ _context e' = Some context.
Proof.
  intros (Hx & Hs & Hc & Hcfg & Hrt) Hfinal.
  unfold finalCallback, successful, retryable in *.
  simpl. unfold _handleReadyStateChange. rewrite Hs, Hc, Hcfg. simpl.
  destruct ((200 <=? status) && (status <? 300)) eqn:E200; simpl.
  - rewrite Hrt. eexists. split; [reflexivity |]. by repeat split.
  - assert ((maxRetry config <=? r) || (400 <=? status) && (status <? 499) = true) as ->.
    { destruct Hfinal as [H | [H | H]]; [done | |].
      - simpl in H. apply negb_false_iff in H. rewrite H. apply orb_true_r.
      - apply orb_true_iff. left. by apply Z.leb_le. }
    rewrite Hrt. eexists. split; [reflexivity |]. by repeat split.
Qed.

Lemma respondAll_retry (e : NetworkEngine) (context : NetworkEngineContext)
    (config : NetworkEngineLoadOptions) (r status : Z) (rest : list Z) :
  awaiting e context config r → retryable status = true → r < maxRetry config →
  ∃ e2, awaiting e2 context config (r + 1) ∧
    _retryDelay e2 = nextRetryDelay (_retryDelay e) (maxRetryDelay config) ∧
    respondAll e (status :: rest)
    = (let '(e3, effects3, thrown) := respondAll e2 rest in
       (e3, [SetRetryTimeout (_retryDelay e)] ++ execEffects context config ++ effects3,
        thrown)).
Proof.
  intros (Hx & Hs & Hc & Hcfg & Hrt) Hretry Hr.
  unfold retryable in Hretry. apply andb_true_iff in Hretry as [H200 H400].
  apply negb_true_iff in H200, H400.
  simpl. unfold _handleReadyStateChange. rewrite Hs, Hc, Hcfg. simpl.
  rewrite H200, H400. simpl.
  assert ((maxRetry config <=? r) = false) as -> by (apply Z.leb_gt; lia).
  simpl. unfold fireRetryTimeout, _execRequest. simpl. rewrite ?Hc, ?Hcfg.
  eexists. split; [| split; [| reflexivity]].
  - by repeat split.
  - done.
Qed.

Lemma respondAll_trace (context : NetworkEngineContext) (config : NetworkEngineLoadOptions)
    (fails : list Z) :
  ∀ (e : NetworkEngine) (r final : Z) (rest : list Z),
    awaiting e context config r →
    Forall (λ s, retryable s = true) fails →
    Z.of_nat (length fails) ≤ Z.max 0 (maxRetry config - r) →
    successful final = true ∨ retryable final = false
      ∨ maxRetry config ≤ r + Z.of_nat (length fails) →
    ∃ e', respondAll e (fails ++ final :: rest)
          = (e', retryTrace context config (_retryDelay e) (length fails)
                   ++ [finalCallback context final], None) ∧
      finished e' ∧
      _stats e' = Some {| aborted := false; retry := r + Z.of_nat (length fails) |}.
Proof.
  induction fails as [| s fails IH]; intros e r final rest Ha Hfails Hbound Hfinal.
  - simpl in *. rewrite Z.add_0_r in *.
    destruct (respondAll_final e context config r final rest Ha Hfinal)
      as (e' & Heq & Hfin & Hs & _).
    exists e'. split; [done |]. split; [done |].
    destruct Ha as (_ & Hst & _). congruence.
  - apply Forall_cons in Hfails as [Hs Hfails].
    simpl length in *.
    destruct (respondAll_retry e context config r s (fails ++ final :: rest) Ha Hs
                ltac:(lia)) as (e2 & Ha2 & Hd2 & Heq).
    destruct (IH e2 (r + 1) final rest Ha2 Hfails ltac:(lia)
                ltac:(destruct Hfinal as [H | [H | H]]; auto; right; right; lia))
      as (e' & Heq' & Hfin & Hst).
    exists e'. split; [| split; [done |]].
    + change ((s :: fails) ++ final :: rest) with (s :: (fails ++ final :: rest)).
      rewrite Heq, Heq'. simpl. rewrite Hd2. by rewrite <- !app_assoc.
    + rewrite Hst. do 2 f_equal. lia.
Qed.


(** The counts of a retry trace. *)
Lemma execEffects_counts (context : NetworkEngineContext)
    (config : NetworkEngineLoadOptions) :
  sends (execEffects context config) = 1%nat ∧
  retryDelays (execEffects context config) = [] ∧
  errorCodes (execEffects context config) = [] ∧
  successes (execEffects context config) = 0%nat.
Proof.
  unfold execEffects, sends, retryDelays, errorCodes, successes.
  destruct (ctx_rangeEnd context) as [rangeEnd |]; [| done].
  by destruct (rangeEnd =? 0).
Qed.

Lemma sends_app (l1 l2 : list Effect) : sends (l1 ++ l2) = (sends l1 + sends l2)%nat.
Proof. unfold sends. by rewrite omap_app, length_app. Qed.

Lemma successes_app (l1 l2 : list Effect) :
  successes (l1 ++ l2) = (successes l1 + successes l2)%nat.
Proof. unfold successes. by rewrite omap_app, length_app. Qed.

Lemma retryDelays_app (l1 l2 : list Effect) :
  retryDelays (l1 ++ l2) = retryDelays l1 ++ retryDelays l2.
Proof. apply omap_app. Qed.

Lemma errorCodes_app (l1 l2 : list Effect) :
  errorCodes (l1 ++ l2) = errorCodes l1 ++ errorCodes l2.
Proof. apply omap_app. Qed.

Lemma retryTrace_counts (context : NetworkEngineContext)
    (config : NetworkEngineLoadOptions) (k : nat) :
  ∀ delay,
    sends (retryTrace context config delay k) = k ∧
    retryDelays (retryTrace context config delay k)
      = (λ i, backoff delay (maxRetryDelay config) i) <$> seq 0 k ∧
    errorCodes (retryTrace context config delay k) = [] ∧
    successes (retryTrace context config delay k) = 0%nat.
Proof.
  destruct (execEffects_counts context config) as (Hs & Hd & He & Hok).
  induction k as [| k IH]; intros delay; [done |].
  destruct (IH (nextRetryDelay delay (maxRetryDelay config))) as (IHs & IHd & IHe & IHok).
  cbn [retryTrace]. repeat split.
  - change (SetRetryTimeout delay :: ?l) with ([SetRetryTimeout delay] ++ l).
    rewrite !sends_app, Hs, IHs. done.
  - change (SetRetryTimeout delay :: ?l) with ([SetRetryTimeout delay] ++ l).
    rewrite !retryDelays_app, Hd, IHd. simpl. f_equal.
    by rewrite <- fmap_S_seq, <- list_fmap_compose.
  - change (SetRetryTimeout delay :: ?l) with ([SetRetryTimeout delay] ++ l).
    rewrite !errorCodes_app, He, IHe. done.
  - change (SetRetryTimeout delay :: ?l) with ([SetRetryTimeout delay] ++ l).
    rewrite !successes_app, Hok, IHok. done.
Qed.

(** With [0 <= retryDelay <= maxRetryDelay] the delays are the doublings of
    [retryDelay], capped. *)
Lemma backoff_closed_form (d m : Z) (k : nat) :
  0 ≤ d ≤ m → backoff (Some d) (Some m) k = Some (Z.min (2 ^ Z.of_nat k * d) m).
Proof.
  intros Hd. revert d Hd. induction k as [| k IH]; intros d Hd.
  - simpl. f_equal. lia.
  - cbn [backoff nextRetryDelay]. rewrite IH by lia. f_equal.
    rewrite Nat2Z.inj_succ, Z.pow_succ_r by lia.
    assert (0 < 2 ^ Z.of_nat k) by (apply Z.pow_pos_nonneg; lia).
    destruct (Z.le_gt_cases (2 * d) m) as [Hle | Hgt].
    + rewrite (Z.min_l (2 * d) m) by done. f_equal. lia.
    + rewrite (Z.min_r (2 * d) m) by lia. rewrite !Z.min_r; [done | nia | nia].
Qed.

(** The whole exchange of a load: [fails] are answered by retries, [final]
    ends the exchange. *)
Lemma loadAndRespond_trace (context : NetworkEngineContext)
    (config : NetworkEngineLoadOptions) (fails : list Z) (final : Z) (rest : list Z) :
  Forall (λ s, retryable s = true) fails →
  Z.of_nat (length fails) ≤ Z.max 0 (maxRetry config) →
  successful final = true ∨ retryable final = false
    ∨ maxRetry config ≤ Z.of_nat (length fails) →
  ∃ e', loadAndRespond context config (fails ++ final :: rest)
        = (e', execEffects context config
                 ++ retryTrace context config (retryDelay config) (length fails)
                 ++ [finalCallback context final], None) ∧
    finished e' ∧
    _stats e' = Some {| aborted := false; retry := Z.of_nat (length fails) |}.
Proof.
  intros Hfails Hbound Hfinal. unfold loadAndRespond.
  destruct (load_awaiting context config) as (e & -> & Ha & Hd).
  destruct (respondAll_trace context config fails e 0 final rest Ha Hfails
              ltac:(by rewrite Z.sub_0_r) ltac:(by rewrite Z.add_0_l))
    as (e' & -> & Hfin & Hst).
  exists e'. by rewrite Hd.
Qed.

(** X1.  A load whose answers are all statuses the engine retries (outside
    200..299 and outside 400..498): the engine retries [max(0, maxRetry)]
    times and then reports the error of the last answer.  It sends
    [maxRetry + 1] requests, arms the retry timer before each but the
    first, reports no success, invokes [onError] exactly once, as its last
    act, and ends with no timer pending.  The [k]-th retry waits
    [retryDelay] doubled [k] times, each doubling capped by
    [maxRetryDelay]; with [0 <= retryDelay <= maxRetryDelay] that is
    [min(2^k * retryDelay, maxRetryDelay)]. *)
Theorem retries_exhausted_then_onError (context : NetworkEngineContext)
    (config : NetworkEngineLoadOptions) (fails : list Z) (final : Z) (rest : list Z) :
  Forall (λ s, retryable s = true) fails → retryable final = true →
  Z.of_nat (length fails) = Z.max 0 (maxRetry config) →
  let run := loadAndRespond context config (fails ++ final :: rest) in
  thrownOf run = None ∧
  sends (effectsOf run) = S (length fails) ∧
  retryDelays (effectsOf run)
    = (λ k, backoff (retryDelay config) (maxRetryDelay config) k)
        <$> seq 0 (length fails) ∧
  errorCodes (effectsOf run) = [final] ∧
  successes (effectsOf run) = 0%nat ∧
  last (effectsOf run) = Some (OnError final context) ∧
  finished (engineOf run) ∧
  (∀ d m k, retryDelay config = Some d → maxRetryDelay config = Some m → 0 ≤ d ≤ m →
     backoff (retryDelay config) (maxRetryDelay config) k
     = Some (Z.min (2 ^ Z.of_nat k * d) m)).
Proof.
  intros Hfails Hfinal Hlen run.
  destruct (loadAndRespond_trace context config fails final rest Hfails
              ltac:(lia) ltac:(right; right; lia)) as (e' & Heq & Hfin & Hst).
  subst run. rewrite Heq. unfold thrownOf, effectsOf, engineOf. cbn [fst snd].
  destruct (execEffects_counts context config) as (Hs & Hd & He & Hok).
  destruct (retryTrace_counts context config (length fails) (retryDelay config))
    as (Hs' & Hd' & He' & Hok').
  assert (finalCallback context final = OnError final context) as ->.
  { unfold finalCallback, successful. unfold retryable in Hfinal.
    apply andb_true_iff in Hfinal as [H _]. apply negb_true_iff in H. by rewrite H. }
  repeat split; try done.
  - rewrite !sends_app, Hs, Hs'. simpl. unfold sends. simpl. lia.
  - rewrite !retryDelays_app, Hd, Hd'. simpl. by rewrite app_nil_r.
  - by rewrite !errorCodes_app, He, He'.
  - by rewrite !successes_app, Hok, Hok'.
  - by rewrite !app_assoc, last_snoc.
  - by destruct Hfin.
  - by destruct Hfin as (_ & ? & _).
  - by destruct Hfin as (_ & _ & ?).
  - intros d m k -> -> Hdm. by apply backoff_closed_form.
Qed.

Lemma retries_exhausted_then_onError_witness :
  let run := loadAndRespond (levelContext "a.m3u8")
               {| timeout := 10000; maxRetry := 2; retryDelay := Some 300;
                  maxRetryDelay := Some 1000 |} [500; 503; 0; 200] in
  sends (effectsOf run) = 3%nat ∧
  retryDelays (effectsOf run) = [Some 300; Some 600] ∧
  errorCodes (effectsOf run) = [0] ∧
  successes (effectsOf run) = 0%nat.
Proof.
  pose proof (retries_exhausted_then_onError (levelContext "a.m3u8")
                {| timeout := 10000; maxRetry := 2; retryDelay := Some 300;
                   maxRetryDelay := Some 1000 |} [500; 503] 0 [200]
                ltac:(by repeat constructor) eq_refl eq_refl) as H.
  destruct H as (_ & Hs & Hd & He & Hok & _). by repeat split.
Defined.




(** X3.  [abort()] clears both timers of the engine, whatever its state, and
    cancels the request exactly when the engine holds a request object that
    is not done.  After the abort of an unfinished request of a loaded
    engine (one that has its statistics, context and options) the engine is
    deaf: whatever its request object reports afterwards, in any number and
    order, the engine invokes no callback, arms no timer and does not
    change. *)
Theorem abort_silences_engine (e : NetworkEngine) :
  _requestTimeout (abort e).1 = None ∧ _retryTimeout (abort e).1 = None ∧
  (abort e).2 = (if PlaylistLoading.requestActive e then [XhrAbort] else []) ∧
  (PlaylistLoading.requestActive e = true →
   is_Some (_stats e) → is_Some (_context e) → is_Some (_config e) →
   ∀ reports, reportAll (abort e).1 reports = ((abort e).1, [], None)).
Proof.
  split; [done |]. split; [done |]. split.
  - unfold abort, PlaylistLoading.requestActive. by destruct (_xhr e).
  - intros Hactive [stats Hs] [context Hc] [config Hcfg] reports.
    assert (∀ state status,
              _handleReadyStateChange (abort e).1 state status = ((abort e).1, [], None))
      as Hdeaf.
    { intros state status. unfold _handleReadyStateChange, abort.
      unfold PlaylistLoading.requestActive in Hactive.
      destruct (_xhr e) as [xhr |]; [| done]. by rewrite Hactive, Hs, Hc, Hcfg. }
    induction reports as [| [state status] reports IH]; [done |].
    cbn [reportAll]. by rewrite Hdeaf, IH.
Qed.

End NetworkEngineLaws.

(** ** Laws of playlist loading: tear-down, segment-index answers, timeouts *)

Module PlaylistLoadingLaws.
Import NetworkEngine PlaylistLoading PlaylistLoadingSpec.

(** The engine a [load] on a new engine leaves behind: the request is open
    and sent, the request timer is armed. *)
Definition sentEngine (context : NetworkEngineContext)
    (config : NetworkEngineLoadOptions) : NetworkEngine :=
  {| _xhr := Some {| readyState := 1 |}; _requestTimeout := Some (timeout config);
     _retryTimeout := None; _retryDelay := retryDelay config; _config := Some config;
     _stats := Some {| aborted := false; retry := 0 |}; _context := Some context |}.

(** The same engine after its request is done. *)
Definition doneEngine (context : NetworkEngineContext)
    (config : NetworkEngineLoadOptions) : NetworkEngine :=
  {| _xhr := Some {| readyState := 4 |}; _requestTimeout := None;
     _retryTimeout := None; _retryDelay := retryDelay config; _config := Some config;
     _stats := Some {| aborted := false; retry := 0 |}; _context := Some context |}.

(** [context.url = url] as [load] does it. *)
Definition withUrl (context : NetworkEngineContext) (url : string)
    : NetworkEngineContext :=
  {| ctx_type := ctx_type context; ctx_id := ctx_id context;
     ctx_level := ctx_level context; ctx_url := Some url;
     ctx_responseType := ctx_responseType context;
     ctx_isSidxRequest := ctx_isSidxRequest context;
     ctx_rangeStart := ctx_rangeStart context;
     ctx_rangeEnd := ctx_rangeEnd context; ctx_frag := ctx_frag context |}.

(** One round of the [for ... in] loop of [destroyInternalLoaders]: the
    engine found under the key is destroyed and the key is deleted; a key
    that holds nothing by now is passed over. *)
Definition destroyLoader (acc : PlaylistLoadingHandler * list HandlerEffect)
    (entry : NetworkEngineContextType * nat)
    : PlaylistLoadingHandler * list HandlerEffect :=
  let '(h, effects) := acc in
  match loaders h !! entry.1 with
  | Some address =>
      match engines h !! address with
      | Some loader =>
          let '(loader', effects') := destroy loader in
          (resetInternalLoader (setEngine h address loader') entry.1,
           effects ++ (EngineDid address <$> effects'))
      | None => (resetInternalLoader h entry.1, effects)
      end
  | None => (h, effects)
  end.

(** [destroyInternalLoaders()]: the loop over the keys of [loaders].  The
    map does not record the order in which the keys were added, which is the
    order of the loop in JavaScript; the rounds touch different keys, and
    only the order of the effects depends on it. *)
Definition destroyInternalLoaders (h : PlaylistLoadingHandler)
    : PlaylistLoadingHandler * list HandlerEffect :=
  foldl destroyLoader (h, []) (map_to_list (loaders h)).

Lemma destroy_inFlight (e : NetworkEngine) : inFlight (destroy e).1 = false.
Proof. unfold destroy, abort, inFlight. simpl. done. Qed.

Lemma destroyLoader_inv (h : PlaylistLoadingHandler) (effects : list HandlerEffect)
    (entry : NetworkEngineContextType * nat) :
  inFlightRegistered h →
  inFlightRegistered (destroyLoader (h, effects) entry).1 ∧
  loaders (destroyLoader (h, effects) entry).1 = delete entry.1 (loaders h).
Proof.
  intros Hinv. unfold destroyLoader.
  destruct (loaders h !! entry.1) as [a |] eqn:Hl.
  - destruct (engines h !! a) as [e |] eqn:He.
    + destruct (destroy e) as [e' effects'] eqn:Hd. simpl. split; [| done].
      assert (e' = (destroy e).1) as -> by (by rewrite Hd).
      apply inv_reset.
      * by apply (inv_setEngine h a e).
      * intros a0 e0 Hg. apply getInternalLoader_Some in Hg as [Hl0 He0]. simpl in *.
        assert (a0 = a) as -> by congruence.
        rewrite list_lookup_insert_eq in He0 by (by eapply lookup_lt_Some).
        injection He0 as <-. apply destroy_inFlight.
    + simpl. split; [| done]. apply inv_reset; [done |].
      intros a0 e0 Hg. apply getInternalLoader_Some in Hg as [Hl0 He0]. congruence.
  - simpl. split; [done |]. by rewrite delete_id.
Qed.

Lemma destroyLoaders_inv (entries : list (NetworkEngineContextType * nat)) :
  ∀ h effects, inFlightRegistered h →
    inFlightRegistered (foldl destroyLoader (h, effects) entries).1 ∧
    ∀ t, loaders (foldl destroyLoader (h, effects) entries).1 !! t
         = if bool_decide (t ∈ entries.*1) then None else loaders h !! t.
Proof.
  induction entries as [| entry entries IH]; intros h effects Hinv.
  - cbn [foldl fst]. split; [done |]. intros t.
    case_bool_decide as Hin; [| done]. by apply elem_of_nil in Hin.
  - destruct (destroyLoader_inv h effects entry Hinv) as [Hinv1 Hl1].
    destruct (destroyLoader (h, effects) entry) as [h1 effects1] eqn:Hstep.
    cbn [foldl]. rewrite Hstep. simpl in Hinv1, Hl1.
    destruct (IH h1 effects1 Hinv1) as [Hinv2 Hl2]. split; [done |].
    intros t. rewrite Hl2, Hl1. rewrite fmap_cons.
    destruct (decide (t = entry.1)) as [-> | Hne].
    + rewrite lookup_delete_eq.
      rewrite (bool_decide_eq_true_2 (entry.1 ∈ entry.1 :: entries.*1)) by (by left).
      by destruct (bool_decide _).
    + rewrite lookup_delete_ne by done.
      destruct (decide (t ∈ entries.*1)) as [Hin | Hnin].
      * rewrite !bool_decide_eq_true_2; [done | by right | done].
      * rewrite !bool_decide_eq_false_2; [done | | done].
        intros [-> | Hin]%elem_of_cons; done.
Qed.

(** X4.  [destroyInternalLoaders()] on a handler reached by any sequence of
    load requests, request reports and timer firings: afterwards [loaders]
    is empty and no engine is in flight, for any context type. *)
Theorem destroy_leaves_nothing_in_flight (config : HlsConfig) (events : list Event) :
  let h := (destroyInternalLoaders (run config PlaylistLoadingHandler_new events)).1 in
  loaders h = ∅ ∧
  (∀ a e, engines h !! a = Some e → inFlight e = false) ∧
  (∀ t, inFlightFor h t = []).
Proof.
  set (h0 := run config PlaylistLoadingHandler_new events).
  assert (inFlightRegistered h0) as Hinv0 by (apply run_inv; by intros a e).
  unfold destroyInternalLoaders.
  destruct (destroyLoaders_inv (map_to_list (loaders h0)) h0 [] Hinv0) as [Hinv Hl].
  set (h := (foldl destroyLoader (h0, []) (map_to_list (loaders h0))).1) in *.
  cbn zeta.
  assert (loaders h = ∅) as Hempty.
  { apply map_eq. intros t. rewrite Hl, lookup_empty.
    destruct (loaders h0 !! t) as [a |] eqn:Ht.
    - rewrite bool_decide_eq_true_2; [done |].
      apply list_elem_of_fmap. exists (t, a). split; [done |].
      by apply elem_of_map_to_list.
    - by destruct (bool_decide _). }
  assert (∀ a e, engines h !! a = Some e → inFlight e = false) as Hquiet.
  { intros a e He. destruct (inFlight e) eqn:Hf; [| done].
    destruct (Hinv a e He) as [_ Hreg]. destruct (Hreg Hf) as (ctx & _ & Hreg').
    by rewrite Hempty, lookup_empty in Hreg'. }
  split; [done |]. split; [done |].
  intros t. unfold inFlightFor.
  destruct (filter _ _) as [| a rest] eqn:Hfilter; [done |]. exfalso.
  assert (a ∈ a :: rest) as Ha by left. rewrite <- Hfilter in Ha.
  apply list_elem_of_filter in Ha as [Ha _]. unfold inFlightAt in Ha.
  destruct (engines h !! a) as [e |] eqn:He; [| done].
  rewrite (Hquiet a e He) in Ha. by destruct (_context e).
Qed.

(** A successful answer to the request a new engine has sent. *)
Lemma handle_success (config : HlsConfig) (h : PlaylistLoadingHandler) (a : nat)
    (ctx : NetworkEngineContext) (cfg : NetworkEngineLoadOptions) (status : Z) :
  engines h !! a = Some (sentEngine ctx cfg) → 200 ≤ status < 300 →
  handle config h (ReadyStateChange a 4 status)
  = if ctx_isSidxRequest ctx
    then (setEngine h a (doneEngine ctx cfg),
          [EngineDid a (OnSuccess ctx); SidxBody ctx], None)
    else (resetInternalLoader (setEngine h a (doneEngine ctx cfg)) (ctx_type ctx),
          [EngineDid a (OnSuccess ctx); PlaylistBody ctx], None).
Proof.
  intros He Hstatus. unfold handle. rewrite He.
  unfold requestActive, _handleReadyStateChange. simpl.
  assert ((200 <=? status) && (status <? 300) = true) as ->
    by (apply andb_true_iff; split; [apply Z.leb_le | apply Z.ltb_lt]; lia).
  simpl. unfold loadsuccess. by destruct (ctx_isSidxRequest ctx).
Qed.

(** A [load] that starts a request, with the engine it creates. *)
Lemma load_sent (config : HlsConfig) (h : PlaylistLoadingHandler) (url : string)
    (context : NetworkEngineContext) :
  (load config h url context).2 = true →
  ∃ engines1 effects,
    length engines1 = length (engines h) ∧
    (load config h url context).1
    = ({| engines := engines1
            ++ [sentEngine (withUrl context url)
                  (loaderConfigFor config (ctx_type context))];
          loaders := <[ctx_type context := length (engines h)]> (loaders h) |},
       effects, None).
Proof.
  unfold load.
  destruct (getInternalLoader h (ctx_type context)) as [[a loader] |] eqn:Hg.
  - destruct (match _context loader with
              | Some loaderContext => bool_decide (ctx_url loaderContext = Some url)
              | None => false
              end); [done |].
    intros _. destruct (abort loader) as [loader' effects1] eqn:Ha.
    eexists _, _. split; [| simpl; rewrite length_insert; reflexivity].
    apply length_insert.
  - intros _. by eexists _, _.
Qed.

(** X5.  The answer to a playlist request, by kind.  After a successful
    answer to a request that is not a segment-index request the handler has
    forgotten the engine: the same URL can be loaded again for the context
    type.  After a successful answer to a segment-index request the engine
    stays in [loaders] although its request is done: a further [load] of the
    same URL for that context type is refused as "ongoing" (it returns
    [false] and does nothing). *)
Theorem answered_request_registration (config : HlsConfig)
    (h : PlaylistLoadingHandler) (url : string) (context : NetworkEngineContext)
    (status : Z) :
  (load config h url context).2 = true → 200 ≤ status < 300 →
  let a := length (engines h) in
  let answered :=
    handle config (load config h url context).1.1.1 (ReadyStateChange a 4 status) in
  answered.2 = None ∧
  (ctx_isSidxRequest context = false →
     answered.1.2 = [EngineDid a (OnSuccess (withUrl context url));
                     PlaylistBody (withUrl context url)] ∧
     loaders answered.1.1 !! ctx_type context = None ∧
     ∀ context', ctx_type context' = ctx_type context →
       (load config answered.1.1 url context').2 = true) ∧
  (ctx_isSidxRequest context = true →
     answered.1.2 = [EngineDid a (OnSuccess (withUrl context url));
                     SidxBody (withUrl context url)] ∧
     loaders answered.1.1 !! ctx_type context = Some a ∧
     (inFlight <$> engines answered.1.1 !! a) = Some false ∧
     ∀ context', ctx_type context' = ctx_type context →
       load config answered.1.1 url context' = ((answered.1.1, [], None), false)).
Proof.
  intros Hstart Hstatus a answered.
  destruct (load_sent config h url context Hstart) as (engines1 & effects & Hlen & Heq).
  set (ctx := withUrl context url) in *.
  set (cfg := loaderConfigFor config (ctx_type context)) in *.
  assert (∀ e : NetworkEngine,
            <[a := e]> (engines1 ++ [sentEngine ctx cfg]) = engines1 ++ [e]) as Hins.
  { intros e. subst a. rewrite <- Hlen. rewrite insert_app_r_alt by lia.
    by rewrite Nat.sub_diag. }
  assert (∀ e : NetworkEngine, (engines1 ++ [e]) !! a = Some e) as Hat.
  { intros e. subst a. rewrite <- Hlen. rewrite lookup_app_r by lia.
    by rewrite Nat.sub_diag. }
  subst answered. rewrite Heq. cbn [fst snd].
  rewrite (handle_success config
             {| engines := engines1 ++ [sentEngine ctx cfg];
                loaders := <[ctx_type context := length (engines h)]> (loaders h) |}
             a ctx cfg status (Hat _) Hstatus).
  unfold setEngine. cbn [engines loaders]. rewrite Hins.
  change (ctx_isSidxRequest ctx) with (ctx_isSidxRequest context).
  change (ctx_type ctx) with (ctx_type context).
  split; [by destruct (ctx_isSidxRequest context) |].
  split; intros ->; cbn [fst snd].
  - split; [done |]. split; [apply lookup_delete_eq |].
    intros context' Ht. unfold load, getInternalLoader. cbn [loaders resetInternalLoader].
    rewrite Ht, lookup_delete_eq.
    by destruct (NetworkEngine.load _ _ _) as [[? ?] ?].
  - split; [done |]. split; [apply lookup_insert_eq |]. cbn [engines].
    split; [by rewrite Hat |].
    intros context' Ht. unfold load, getInternalLoader. cbn [loaders engines].
    rewrite Ht, lookup_insert_eq, Hat. cbn [_context doneEngine ctx_url ctx withUrl].
    by rewrite bool_decide_eq_true_2.
Qed.

Lemma answered_request_registration_witness :
  let started :=
    load sampleConfig PlaylistLoadingHandler_new "a.m3u8" (playlistContext LEVEL) in
  let answered := handle sampleConfig started.1.1.1 (ReadyStateChange 0 4 200) in
  answered.2 = None ∧ loaders answered.1.1 !! LEVEL = None.
Proof.
  pose proof (answered_request_registration sampleConfig PlaylistLoadingHandler_new
                "a.m3u8" (playlistContext LEVEL) 200 eq_refl ltac:(lia)) as H.
  cbv zeta in *. destruct H as (Hquiet & Hplain & _).
  split; [exact Hquiet |]. exact (proj1 (proj2 (Hplain eq_refl))).
Defined.

(** X6.  The request timer of the engine registered for a context type
    fires while the request is unfinished: the engine reports the timeout,
    the handler cancels the request, forgets the engine and signals the
    timeout error of the context type with the engine's URL.  From then on
    the cancelled request is mute: whatever it reports, the handler does
    nothing and does not change, so a late answer is never delivered. *)
Theorem timeout_cancels_request (config : HlsConfig) (h : PlaylistLoadingHandler)
    (a : nat) (e : NetworkEngine) (ctx : NetworkEngineContext)
    (stats : NetworkEngineLoadStats) (cfg : NetworkEngineLoadOptions) (t : Z) :
  engines h !! a = Some e → loaders h !! ctx_type ctx = Some a →
  _context e = Some ctx → _stats e = Some stats → _config e = Some cfg →
  requestActive e = true → _requestTimeout e = Some t →
  let timedOut := handle config h (RequestTimeout a) in
  timedOut.1.2
    = [EngineDid a (OnTimeout ctx); EngineDid a XhrAbort;
       TriggerError (networkErrorFor (ctx_type ctx) true).1
         (networkErrorFor (ctx_type ctx) true).2 (ctx_url ctx)] ∧
  timedOut.2 = None ∧
  loaders timedOut.1.1 !! ctx_type ctx = None ∧
  (inFlight <$> engines timedOut.1.1 !! a) = Some false ∧
  (∀ state status,
     handle config timedOut.1.1 (ReadyStateChange a state status)
     = (timedOut.1.1, [], None)).
Proof.
  intros He Hl Hc Hs Hcfg Hactive Htimer timedOut.
  assert (a < length (engines h))%nat as Hlt by (by eapply lookup_lt_Some).
  unfold requestActive in Hactive.
  destruct (_xhr e) as [xhr |] eqn:Hx; [| done].
  set (cancelled :=
         {| _xhr := Some xhr; _requestTimeout := None; _retryTimeout := None;
            _retryDelay := _retryDelay e; _config := Some cfg;
            _stats := Some {| aborted := true; retry := retry stats |};
            _context := Some ctx |}).
  assert (timedOut
          = (resetInternalLoader (setEngine h a cancelled) (ctx_type ctx),
             [EngineDid a (OnTimeout ctx); EngineDid a XhrAbort;
              TriggerError (networkErrorFor (ctx_type ctx) true).1
                (networkErrorFor (ctx_type ctx) true).2 (ctx_url ctx)], None)) as ->.
  { subst timedOut. unfold handle. rewrite He.
    rewrite bool_decide_eq_true_2 by (by rewrite Htimer).
    unfold _handleTimeout. rewrite Hc. unfold engineStep.
    cbn [deliver callback]. unfold _handleNetworkError.
    destruct (networkErrorFor (ctx_type ctx) true) as [details fatal].
    unfold getInternalLoader. cbn [setEngine loaders engines].
    rewrite Hl, list_lookup_insert_eq by done.
    unfold abort. simpl. rewrite Hx, Hactive, Hs, Hcfg. simpl.
    unfold setEngine, resetInternalLoader. cbn [engines loaders]. by rewrite list_insert_insert_eq. }
  cbn [fst snd].
  assert (engines (resetInternalLoader (setEngine h a cancelled) (ctx_type ctx)) !! a
          = Some cancelled) as Hat by (by apply list_lookup_insert_eq).
  repeat split.
  - apply lookup_delete_eq.
  - rewrite Hat. cbn [fmap option_fmap option_map]. f_equal.
    unfold inFlight. cbn. by rewrite andb_false_r.
  - intros state status. unfold handle. rewrite Hat.
    unfold requestActive, _handleReadyStateChange. cbn [_xhr _stats _context _config
      cancelled aborted]. rewrite Hactive.
    cbn [engineStep deliver setEngine resetInternalLoader engines loaders].
    unfold setEngine, resetInternalLoader. cbn [engines loaders]. by rewrite list_insert_insert_eq.
Qed.

Lemma timeout_cancels_request_witness :
  let started :=
    (load sampleConfig PlaylistLoadingHandler_new "a.m3u8" (playlistContext LEVEL)).1.1.1 in
  let timedOut := handle sampleConfig started (RequestTimeout 0) in
  timedOut.1.2
  = [EngineDid 0 (OnTimeout (withUrl (playlistContext LEVEL) "a.m3u8"));
     EngineDid 0 XhrAbort;
     TriggerError (Some LEVEL_LOAD_TIMEOUT) false (Some "a.m3u8"%string)] ∧
  handle sampleConfig timedOut.1.1 (ReadyStateChange 0 4 200) = (timedOut.1.1, [], None).
Proof.
  pose proof (timeout_cancels_request sampleConfig
                (load sampleConfig PlaylistLoadingHandler_new "a.m3u8"
                   (playlistContext LEVEL)).1.1.1
                0
                (sentEngine (withUrl (playlistContext LEVEL) "a.m3u8")
                   (loaderConfigFor sampleConfig LEVEL))
                (withUrl (playlistContext LEVEL) "a.m3u8")
                {| aborted := false; retry := 0 |}
                (loaderConfigFor sampleConfig LEVEL) 10000
                eq_refl eq_refl eq_refl eq_refl eq_refl eq_refl eq_refl) as H.
  cbv zeta in *. destruct H as (Htrace & _ & _ & _ & Hmute).
  split; [exact Htrace | exact (Hmute 4 200)].
Defined.

End PlaylistLoadingLaws.

(** Truthiness of a number. *)
Definition truthyNumber (n : number) : bool :=
  match n with
  | Finite q => negb (Qeq_bool q 0)
  | NaN => false
  | PosInfinity | NegInfinity => true
  end.

(** ** The player facade (hls.ts): level bounds and configuration check *)

Module Hls.

(** The fields of [QualityLevel] the level bounds read.  Bit rates are
    integers (bits per second); [realBitrate] is optional. *)
Record QualityLevel : Type := mkQualityLevel {
  bitrate : Z;
  realBitrate : option Z
}.

(** [levels[i].realBitrate ? Math.max(levels[i].realBitrate, levels[i].bitrate)
                           : levels[i].bitrate]. *)
Definition levelNextBitrate (level : QualityLevel) : Z :=
  match realBitrate level with
  | Some real => if real =? 0 then bitrate level else Z.max real (bitrate level)
  | None => bitrate level
  end.

(** The [for] loop of [get minAutoLevel] from index [i] on. *)
Fixpoint minAutoLevelFrom (levels : list QualityLevel) (minAutoBitrate : Z) (i : Z)
    : option Z :=
  match levels with
  | [] => None
  | level :: rest =>
      if minAutoBitrate <? levelNextBitrate level then Some i
      else minAutoLevelFrom rest minAutoBitrate (i + 1)
  end.

(** [get minAutoLevel]; [levels] is [None] while the level controller has no
    level list. *)
Definition minAutoLevel (levels : option (list QualityLevel)) (minAutoBitrate : Z) : Z :=
  match levels with
  | Some levels' => default 0 (minAutoLevelFrom levels' minAutoBitrate 0)
  | None => 0
  end.

(** [get maxAutoLevel]. *)
Definition maxAutoLevel (levels : option (list QualityLevel)) (autoLevelCapping : Z) : Z :=
  match levels with
  | Some levels' =>
      if (autoLevelCapping =? -1) && negb (length levels' =? 0)%nat
      then Z.of_nat (length levels') - 1
      else autoLevelCapping
  | None => autoLevelCapping
  end.

(** [get nextAutoLevel]: the level the rate controller proposes, kept
    between the two bounds. *)
Definition nextAutoLevel (abrNextAutoLevel : Z) (levels : option (list QualityLevel))
    (minAutoBitrate autoLevelCapping : Z) : Z :=
  Z.min (Z.max abrNextAutoLevel (minAutoLevel levels minAutoBitrate))
        (maxAutoLevel levels autoLevelCapping).

(** [set nextAutoLevel]: the value assigned to the rate controller. *)
Definition set_nextAutoLevel (levels : option (list QualityLevel)) (minAutoBitrate : Z)
    (nextLevel : Z) : Z :=
  Z.max (minAutoLevel levels minAutoBitrate) nextLevel.

(** [set startLevel]: the value assigned to the level controller. *)
Definition set_startLevel (levels : option (list QualityLevel)) (minAutoBitrate : Z)
    (newLevel : Z) : Z :=
  if newLevel =? -1 then newLevel
  else Z.max newLevel (minAutoLevel levels minAutoBitrate).

(** [get firstLevel], from the level controller's [firstLevel]. *)
Definition firstLevel (controllerFirstLevel : Z) (levels : option (list QualityLevel))
    (minAutoBitrate : Z) : Z :=
  Z.max controllerFirstLevel (minAutoLevel levels minAutoBitrate).

(** *** The configuration check of the constructor *)

(** A configuration object is the map of its own properties by name.  The
    value of a property is a number or [undefined] ([None]); a name the map
    does not hold is a property the object does not have.

    [config.name]: [undefined] for a property the object does not have and
    for one whose value is [undefined]. *)
Definition property (config : gmap string (option number)) (name : string)
    : option number :=
  mjoin (config !! name).

(** Truthiness of a value that is a number or [undefined]. *)
Definition truthyProperty (v : option number) : bool :=
  match v with
  | Some n => truthyNumber n
  | None => false
  end.

(** [a <= b] where [b] may be [undefined], which compares as [NaN]. *)
Definition le_property (a : number) (b : option number) : bool :=
  match b with
  | Some b' => js_le a b'
  | None => false
  end.

(** The three errors the constructor throws. *)
Inductive ConfigError : Type :=
| MixedLiveSyncSettings
| LatencyCountNotAboveSyncCount
| LatencyNotAboveSync.

(** [Object.assign(config, Hls.DefaultConfig)]: every property the defaults
    have is written onto [config], also one whose value is [undefined]. *)
Definition Object_assign (config defaults : gmap string (option number))
    : gmap string (option number) :=
  defaults ∪ config.

(** [new Hls(config)] as far as the configuration goes: the configuration the
    instance keeps, or the error thrown.  The values of the four properties
    the check reads are numbers or [undefined]. *)
Definition Hls_new (DefaultConfig config : gmap string (option number))
    : ConfigError + gmap string (option number) :=
  let config' := Object_assign config DefaultConfig in
  let liveSyncDurationCount := property config' "liveSyncDurationCount" in
  let liveMaxLatencyDurationCount := property config' "liveMaxLatencyDurationCount" in
  let liveSyncDuration := property config' "liveSyncDuration" in
  let liveMaxLatencyDuration := property config' "liveMaxLatencyDuration" in
  if (truthyProperty liveSyncDurationCount || truthyProperty liveMaxLatencyDurationCount)
     && (truthyProperty liveSyncDuration || truthyProperty liveMaxLatencyDuration)
  then inl MixedLiveSyncSettings
  else if match liveMaxLatencyDurationCount with
          | Some n => le_property n liveSyncDurationCount
          | None => false
          end
  then inl LatencyCountNotAboveSyncCount
  else if match liveMaxLatencyDuration with
          | Some n =>
              le_property n liveSyncDuration
              || negb (bool_decide (is_Some liveSyncDuration))
          | None => false
          end
  then inl LatencyNotAboveSync
  else inr config'.

End Hls.

Module HlsSpec.
Import Hls.

Lemma minAutoLevelFrom_spec (levels : list QualityLevel) (m : Z) :
  ∀ i r, minAutoLevelFrom levels m i = Some r →
    ∃ k level, r = i + Z.of_nat k ∧ levels !! k = Some level ∧
      m < levelNextBitrate level ∧
      ∀ j l, (j < k)%nat → levels !! j = Some l → levelNextBitrate l ≤ m.
Proof.
  induction levels as [| level rest IH]; intros i r; simpl; [done |].
  destruct (Z.ltb_spec m (levelNextBitrate level)) as [Hlt | Hge].
  - intros [= <-]. exists 0%nat, level. repeat split; [lia | done | lia].
  - intros Hr. destruct (IH (i + 1) r Hr) as (k & l & -> & Hl & Hm & Hmin).
    exists (S k), l. split; [lia |]. split; [done |]. split; [done |].
    intros [| j] l0 Hj Hl0; simpl in Hl0.
    + by injection Hl0 as <-.
    + apply (Hmin j); [lia | done].
Qed.

Lemma minAutoLevelFrom_None (levels : list QualityLevel) (m : Z) :
  ∀ i, minAutoLevelFrom levels m i = None ↔ ∀ l, l ∈ levels → levelNextBitrate l ≤ m.
Proof.
  induction levels as [| level rest IH]; intros i; simpl.
  - split; [| done]. intros _ l Hl. by apply elem_of_nil in Hl.
  - destruct (Z.ltb_spec m (levelNextBitrate level)) as [Hlt | Hge].
    + split; [done |]. intros H. specialize (H level ltac:(left)). lia.
    + rewrite IH. split.
      * intros H l [-> | Hl]%elem_of_cons; [done | by apply H].
      * intros H l Hl. apply H. by right.
Qed.

Lemma minAutoLevel_nonneg (levels : option (list QualityLevel)) (m : Z) :
  0 ≤ minAutoLevel levels m.
Proof.
  unfold minAutoLevel. destruct levels as [levels' |]; [| done].
  destruct (minAutoLevelFrom levels' m 0) as [r |] eqn:Hr; [| done]. simpl.
  destruct (minAutoLevelFrom_spec levels' m 0 r Hr) as (k & _ & -> & _). lia.
Qed.

(** X7.  [minAutoLevel] is the index of the first level whose bit rate (the
    larger of [realBitrate] and [bitrate] when [realBitrate] is set and not
    0, else [bitrate]) exceeds [minAutoBitrate]: every level before it is at
    or below [minAutoBitrate], and it is an index of the list.  If no level
    exceeds [minAutoBitrate], or there is no level list, it is 0: that the
    result is 0 does not say that level 0 qualifies. *)
Theorem minAutoLevel_first_above (levels : list QualityLevel) (minAutoBitrate : Z) :
  let i := minAutoLevel (Some levels) minAutoBitrate in
  0 ≤ i ∧ (levels ≠ [] → i < Z.of_nat (length levels)) ∧
  (∀ j l, (Z.of_nat j < i) → levels !! j = Some l → levelNextBitrate l ≤ minAutoBitrate) ∧
  ((∃ l, l ∈ levels ∧ minAutoBitrate < levelNextBitrate l) →
     ∃ l, levels !! Z.to_nat i = Some l ∧ minAutoBitrate < levelNextBitrate l) ∧
  ((∀ l, l ∈ levels → levelNextBitrate l ≤ minAutoBitrate) → i = 0) ∧
  minAutoLevel None minAutoBitrate = 0.
Proof.
  unfold minAutoLevel.
  destruct (minAutoLevelFrom levels minAutoBitrate 0) as [r |] eqn:Hr; simpl.
  - destruct (minAutoLevelFrom_spec levels minAutoBitrate 0 r Hr)
      as (k & level & -> & Hl & Hm & Hmin).
    apply lookup_lt_Some in Hl as Hk.
    split; [lia |]. split; [lia |]. split; [| split; [| split; [| done]]].
    + intros j l Hj. apply Hmin. lia.
    + intros _. exists level. by rewrite Z.add_0_l, Nat2Z.id.
    + intros Hall. assert (level ∈ levels) as Hin by (by eapply list_elem_of_lookup_2).
      specialize (Hall level Hin). lia.
  - split; [lia |]. split; [destruct levels; [done | simpl; lia] |].
    split; [lia |]. split; [| done].
    intros (l & Hl & Hm).
    pose proof (proj1 (minAutoLevelFrom_None levels minAutoBitrate 0) Hr l Hl). lia.
Qed.

(** X8.  [nextAutoLevel] never exceeds [maxAutoLevel], and is at least
    [minAutoLevel] whenever the bounds are in order.  Without a cap
    ([autoLevelCapping = -1]) and with a non-empty level list it is an index
    of the list, whatever the rate controller proposes; without levels it is
    [-1].  With a cap below [minAutoLevel] the cap wins.  The setters keep
    the lower bound: the value [set nextAutoLevel] stores is at least
    [minAutoLevel], and so is the value [set startLevel] stores unless it is
    [-1], which is stored as it is. *)
Theorem nextAutoLevel_between_bounds (abrNextAutoLevel : Z)
    (levels : option (list QualityLevel)) (minAutoBitrate autoLevelCapping : Z) :
  let next := nextAutoLevel abrNextAutoLevel levels minAutoBitrate autoLevelCapping in
  let lo := minAutoLevel levels minAutoBitrate in
  let hi := maxAutoLevel levels autoLevelCapping in
  next ≤ hi ∧ (lo ≤ hi → lo ≤ next) ∧
  (autoLevelCapping = -1 →
     match levels with
     | Some (level :: rest) => 0 ≤ next < Z.of_nat (length (level :: rest))
     | _ => next = -1
     end) ∧
  (autoLevelCapping ≠ -1 → autoLevelCapping < lo → next = autoLevelCapping) ∧
  (∀ nextLevel, lo ≤ set_nextAutoLevel levels minAutoBitrate nextLevel ∧
                nextLevel ≤ set_nextAutoLevel levels minAutoBitrate nextLevel) ∧
  set_startLevel levels minAutoBitrate (-1) = -1 ∧
  (∀ newLevel, newLevel ≠ -1 →
     lo ≤ set_startLevel levels minAutoBitrate newLevel ∧
     newLevel ≤ set_startLevel levels minAutoBitrate newLevel).
Proof.
  intros next lo hi. subst next. unfold nextAutoLevel. fold lo hi.
  assert (0 ≤ lo) as Hlo by apply minAutoLevel_nonneg.
  split; [lia |]. split; [lia |]. split; [| split; [| split; [| split]]].
  - intros ->. subst hi. unfold maxAutoLevel.
    destruct levels as [[| level rest] |]; simpl; lia.
  - intros Hcap Hbelow. subst hi. unfold maxAutoLevel.
    destruct levels as [levels' |]; [| lia].
    destruct (Z.eqb_spec autoLevelCapping (-1)); [done | simpl; lia].
  - intros nextLevel. unfold set_nextAutoLevel. fold lo. lia.
  - unfold set_startLevel. done.
  - intros newLevel Hnew. unfold set_startLevel. fold lo.
    destruct (Z.eqb_spec newLevel (-1)); [done | lia].
Qed.

Lemma Object_assign_lookup (config defaults : gmap string (option number)) (k : string) :
  Object_assign config defaults !! k
  = match defaults !! k with
    | Some v => Some v
    | None => config !! k
    end.
Proof.
  unfold Object_assign. destruct (defaults !! k) as [v |] eqn:Hd.
  - by apply lookup_union_Some_l.
  - by rewrite lookup_union_r.
Qed.

Lemma Object_assign_property (config defaults : gmap string (option number)) (k : string) :
  property (Object_assign config defaults) k
  = match defaults !! k with
    | Some v => v
    | None => property config k
    end.
Proof. unfold property. rewrite Object_assign_lookup. by destruct (defaults !! k). Qed.

(** X9.  The constructor writes the defaults over the configuration it is
    given ([Object.assign(config, Hls.DefaultConfig)]): whatever the caller
    sets under a name the defaults have is lost, also where the default
    value is [undefined].  So two configurations that agree on the names
    the defaults do not have are treated alike (same error or same kept
    configuration), and a kept configuration holds the default under every
    name the defaults have.  The check then runs on the merged
    configuration.  With defaults that have [liveSyncDuration] and
    [liveMaxLatencyDuration] with the value [undefined], the error about
    mixed settings is never thrown, whatever the caller sets.  With defaults
    that carry a truthy [liveSyncDurationCount] and do not have the property
    [liveSyncDuration] at all, a caller who sets a truthy [liveSyncDuration]
    gets the error about mixed settings.  A kept configuration with a
    truthy [liveMaxLatencyDuration] has a [liveSyncDuration] that is not at
    or above it and no truthy count setting. *)
Theorem defaults_override_config (DefaultConfig config1 config2 : gmap string (option number)) :
  (∀ k, DefaultConfig !! k = None → config1 !! k = config2 !! k) →
  Hls_new DefaultConfig config1 = Hls_new DefaultConfig config2 ∧
  (∀ kept k v, Hls_new DefaultConfig config1 = inr kept →
     DefaultConfig !! k = Some v → kept !! k = Some v) ∧
  (DefaultConfig !! "liveSyncDuration"%string = Some None →
   DefaultConfig !! "liveMaxLatencyDuration"%string = Some None →
   Hls_new DefaultConfig config1 ≠ inl MixedLiveSyncSettings ∧
   Hls_new DefaultConfig config1 ≠ inl LatencyNotAboveSync) ∧
  (∀ n v, DefaultConfig !! "liveSyncDurationCount"%string = Some (Some n) →
     truthyNumber n = true →
     DefaultConfig !! "liveSyncDuration"%string = None →
     config1 !! "liveSyncDuration"%string = Some (Some v) → truthyNumber v = true →
     Hls_new DefaultConfig config1 = inl MixedLiveSyncSettings) ∧
  (∀ kept n, Hls_new DefaultConfig config1 = inr kept →
     property kept "liveMaxLatencyDuration" = Some n → truthyNumber n = true →
     (∃ s, property kept "liveSyncDuration" = Some s ∧ js_le n s = false) ∧
     truthyProperty (property kept "liveSyncDurationCount") = false ∧
     truthyProperty (property kept "liveMaxLatencyDurationCount") = false).
Proof.
  intros Hagree.
  assert (Object_assign config1 DefaultConfig = Object_assign config2 DefaultConfig)
    as Hsame.
  { apply map_eq. intros k. rewrite !Object_assign_lookup.
    destruct (DefaultConfig !! k) eqn:Hd; [done | by apply Hagree]. }
  split; [unfold Hls_new; by rewrite Hsame |].
  assert (∀ kept, Hls_new DefaultConfig config1 = inr kept →
            kept = Object_assign config1 DefaultConfig) as Hkept.
  { intros kept. unfold Hls_new.
    repeat match goal with |- context [if ?b then _ else _] => destruct b end;
      congruence. }
  split; [| split; [| split]].
  - intros kept k v Hnew Hd. rewrite (Hkept kept Hnew), Object_assign_lookup.
    by rewrite Hd.
  - intros Hsync Hmax. unfold Hls_new.
    rewrite !Object_assign_property, Hsync, Hmax. cbn [truthyProperty orb].
    rewrite andb_false_r.
    split; by destruct (match _ with Some _ => _ | None => _ end).
  - intros n v Hcount Hn Hopen Hsync Hv. unfold Hls_new.
    assert (property config1 "liveSyncDuration" = Some v) as Hp
      by (unfold property; by rewrite Hsync).
    rewrite !Object_assign_property, Hcount, Hopen, Hp. simpl. by rewrite Hn, Hv.
  - intros kept n Hnew Hmax Hn. pose proof (Hkept kept Hnew) as ->.
    unfold Hls_new in Hnew. rewrite Hmax in Hnew.
    destruct (property (Object_assign config1 DefaultConfig) "liveSyncDurationCount")
      as [c |] eqn:Hc;
    destruct (property (Object_assign config1 DefaultConfig) "liveMaxLatencyDurationCount")
      as [m |] eqn:Hm;
    destruct (property (Object_assign config1 DefaultConfig) "liveSyncDuration")
      as [s |] eqn:Hs; cbn [truthyProperty le_property] in *; rewrite ?Hn in Hnew;
    rewrite ?orb_true_r, ?andb_true_r, ?orb_false_r, ?orb_false_l in Hnew;
    repeat match type of Hnew with
           | context [if ?b then _ else _] => destruct b eqn:?; try discriminate
           end;
    repeat match goal with
           | H : _ || _ = false |- _ => apply orb_false_iff in H as [? ?]
           end;
    try discriminate; (split; [by eexists | by split]).
Qed.

(** Defaults that hold [liveSyncDuration] with the value [undefined]: what
    the caller sets under that name does not count. *)
Lemma defaults_override_config_witness :
  Hls_new {[ "liveSyncDurationCount"%string := Some (Finite 3);
             "liveSyncDuration"%string := None ]}
          {[ "liveSyncDuration"%string := Some (Finite 10) ]}
  = Hls_new {[ "liveSyncDurationCount"%string := Some (Finite 3);
               "liveSyncDuration"%string := None ]}
            ∅.
Proof.
  refine (proj1 (defaults_override_config _ _ _ _)).
  intros k Hk.
  destruct (decide (k = "liveSyncDuration"%string)) as [-> | Hne].
  - rewrite lookup_insert_ne in Hk by done. by rewrite lookup_singleton_eq in Hk.
  - rewrite lookup_singleton_ne by done. by rewrite lookup_empty.
Defined.

Example Hls_new_undefined_default :
  Hls_new {[ "liveSyncDurationCount"%string := Some (Finite 3);
             "liveSyncDuration"%string := None ]}
          {[ "liveSyncDuration"%string := Some (Finite 10) ]}
  = inr {[ "liveSyncDurationCount"%string := Some (Finite 3);
           "liveSyncDuration"%string := None ]} ∧
  Hls_new {[ "liveSyncDurationCount"%string := Some (Finite 3) ]}
          {[ "liveSyncDuration"%string := Some (Finite 10) ]}
  = inl MixedLiveSyncSettings.
Proof. vm_compute. done. Qed.

End HlsSpec.

(** ** JavaScript strings: the built-ins the sources call *)

Module JsString.

(** [s.indexOf(searchString)], searched from [position] on. *)
Fixpoint indexOfFrom (searchString s : string) (position : Z) : Z :=
  if String.prefix searchString s then position
  else
    match s with
    | EmptyString => -1
    | String _ rest => indexOfFrom searchString rest (position + 1)
    end.

Definition indexOf (s searchString : string) : Z := indexOfFrom searchString s 0.

(** [s.split(separator)] for a separator of one character. *)
Fixpoint split (separator : ascii) (s : string) : list string :=
  match s with
  | EmptyString => [EmptyString]
  | String c rest =>
      if Ascii.eqb c separator then EmptyString :: split separator rest
      else
        match split separator rest with
        | piece :: pieces => String c piece :: pieces
        | [] => [String c EmptyString]
        end
  end.

(** [s.split(separator, limit)]: the first [limit] pieces. *)
Definition split_limit (separator : ascii) (limit : nat) (s : string) : list string :=
  take limit (split separator s).

(** White space that [parseInt] skips, among the characters below 256. *)
Definition isWhiteSpace (c : ascii) : bool :=
  let n := nat_of_ascii c in
  ((n =? 9) || (n =? 10) || (n =? 11) || (n =? 12) || (n =? 13) || (n =? 32)
   || (n =? 160))%nat.

Fixpoint trimStart (s : string) : string :=
  match s with
  | String c rest => if isWhiteSpace c then trimStart rest else s
  | EmptyString => EmptyString
  end.

(** The value of a character as a digit, up to radix 36. *)
Definition digitOf (c : ascii) : option Z :=
  let n := Z.of_nat (nat_of_ascii c) in
  if (48 <=? n) && (n <=? 57) then Some (n - 48)
  else if (97 <=? n) && (n <=? 122) then Some (n - 87)
  else if (65 <=? n) && (n <=? 90) then Some (n - 55)
  else None.

(** The longest prefix of digits of the radix, as a number; [acc] is the
    value so far, [None] before the first digit. *)
Fixpoint digits (radix : Z) (s : string) (acc : option Z) : option Z :=
  match s with
  | String c rest =>
      match digitOf c with
      | Some d =>
          if d <? radix then digits radix rest (Some (default 0 acc * radix + d))
          else acc
      | None => acc
      end
  | EmptyString => acc
  end.

(** The string without its first [n] characters. *)
Fixpoint dropChars (n : nat) (s : string) : string :=
  match n, s with
  | O, _ => s
  | S n', String _ rest => dropChars n' rest
  | S _, EmptyString => EmptyString
  end.

(** An integer as a number.  An integer-valued number is held as the
    integer; [None] stands for a number that is not finite.  The result of
    an operation on integers is the double nearest the exact result, which
    is an integer again, or [Infinity] when the exact result is beyond the
    largest double. *)
Definition roundInteger (z : Z) : option Z :=
  match round64 (inject_Z z) with
  | Finite q => Some (Qfloor q)
  | _ => None
  end.

(** The integer [parseInt(s)] reads, with no radix: leading white space is
    skipped, a sign is read, a prefix [0x] or [0X] switches to radix 16, and
    the longest prefix of digits is the value; [None] when there is no
    digit. *)
Definition readInteger (s : string) : option Z :=
  let s1 := trimStart s in
  let negative := String.prefix "-" s1 in
  let s2 := if negative || String.prefix "+" s1 then dropChars 1 s1 else s1 in
  let hex := String.prefix "0x" s2 || String.prefix "0X" s2 in
  let s3 := if hex then dropChars 2 s2 else s2 in
  (λ v, if negative then - v else v) <$> digits (if hex then 16 else 10) s3 None.

(** [parseInt(s)]: the double nearest the integer read.  [None] is a result
    that is not finite: [NaN] when there is no digit, [Infinity] when the
    integer is beyond the largest double. *)
Definition parseInt (s : string) : option Z := readInteger s ≫= roundInteger.

(** The decimal digits of an integer, with a minus sign when negative. *)
Definition decimal (n : Z) : string := NilZero.string_of_int (Z.to_int n).

(** [String(n)] for an integer [n] of at most [2^53] in absolute value: its
    decimal digits.  Beyond [2^53] the result is [None]: there [String]
    prints the digits of the shortest decimal that rounds to [n], and from
    [10^21] on an exponent, which the model does not describe. *)
Definition Number_toString (n : Z) : option string :=
  if Z.abs n <=? 2 ^ 53 then Some (decimal n) else None.

(** The character does not occur in the string. *)
Fixpoint lacks (c : ascii) (s : string) : bool :=
  match s with
  | EmptyString => true
  | String c' rest => negb (Ascii.eqb c' c) && lacks c rest
  end.

(** The string has the search string somewhere inside. *)
Definition includes (s searchString : string) : Prop :=
  ∃ before after, s = (before ++ searchString ++ after)%string.

End JsString.

Module JsStringLaws.
Import Binary64Spec JsString.

Lemma prefix_app (p s : string) :
  String.prefix p s = true ↔ ∃ after, s = (p ++ after)%string.
Proof.
  revert s. induction p as [| a p IH]; intros s.
  - split; [intros _; by exists s | by destruct s].
  - destruct s as [| b s]; simpl.
    + split; [done | by intros [after Hs]].
    + destruct (ascii_dec a b) as [-> | Hne].
      * rewrite IH. split; intros [after Hs]; exists after.
        -- by rewrite Hs.
        -- simpl in Hs. by injection Hs.
      * split; [done |]. intros [after Hs]. simpl in Hs. by injection Hs.
Qed.

Lemma indexOfFrom_range (n s : string) (p : Z) :
  indexOfFrom n s p = -1 ∨ p ≤ indexOfFrom n s p.
Proof.
  revert p. induction s as [| c s IH]; intros p; cbn [indexOfFrom].
  - destruct (String.prefix n ""); [right; lia | by left].
  - destruct (String.prefix n (String c s)); [right; lia |].
    destruct (IH (p + 1)) as [H | H]; [by left | right; lia].
Qed.

(** [indexOf] finds the search string at position 0 exactly when the string
    starts with it. *)
Lemma indexOf_0 (s n : string) : indexOf s n = 0 ↔ String.prefix n s = true.
Proof.
  unfold indexOf. destruct s as [| c s]; cbn [indexOfFrom].
  - destruct (String.prefix n ""); split; done.
  - destruct (String.prefix n (String c s)); [done |].
    split; [| done]. intros H.
    destruct (indexOfFrom_range n s (0 + 1)) as [H' | H']; lia.
Qed.

Lemma indexOfFrom_found (n s : string) :
  ∀ p, 0 ≤ p → (p ≤ indexOfFrom n s p ↔ includes s n).
Proof.
  induction s as [| c s IH]; intros p Hp; cbn [indexOfFrom].
  - destruct (String.prefix n "") eqn:E.
    + split; [| lia]. intros _. apply prefix_app in E as [after E].
      exists ""%string, after. done.
    + split; [lia |]. intros (before & after & Hs).
      destruct before; simpl in Hs.
      * assert (String.prefix n "" = true) by (apply prefix_app; by exists after).
        congruence.
      * done.
  - destruct (String.prefix n (String c s)) eqn:E.
    + split; [| lia]. intros _. apply prefix_app in E as [after E].
      exists ""%string, after. done.
    + destruct (indexOfFrom_range n s (p + 1)) as [Hnone | Hsome].
      * rewrite Hnone. split; [lia |]. intros (before & after & Hs).
        destruct before as [| b before]; simpl in Hs.
        -- assert (String.prefix n (String c s) = true)
             by (apply prefix_app; by exists after).
           congruence.
        -- injection Hs as -> Hs.
           assert (p + 1 ≤ indexOfFrom n s (p + 1))
             by (apply IH; [lia | by exists before, after]).
           lia.
      * split; [| lia]. intros _.
        destruct (proj1 (IH (p + 1) ltac:(lia)) Hsome) as (before & after & ->).
        by exists (String c before), after.
Qed.

(** [indexOf] is not negative exactly when the search string occurs. *)
Lemma indexOf_found (s n : string) : 0 ≤ indexOf s n ↔ includes s n.
Proof. by apply indexOfFrom_found. Qed.

(** A positive [indexOf] under a known first search string: when the string
    starts with [h] and [n] cannot start where [h] starts, [indexOf > 0] is
    the same as occurrence. *)
Lemma indexOf_positive (s n : string) :
  String.prefix n s = false → (0 < indexOf s n ↔ includes s n).
Proof.
  intros Hn. rewrite <- indexOf_found.
  assert (indexOf s n ≠ 0) by (rewrite indexOf_0; congruence). lia.
Qed.

(** *** Printing and reading integers *)

(** One step of [digits] on a known character. *)
Ltac digit_step :=
  cbn [NilEmpty.string_of_uint digits];
  match goal with
  | |- context [digitOf ?c] =>
      let v := eval vm_compute in (digitOf c) in change (digitOf c) with v
  end;
  cbv beta iota;
  match goal with
  | |- context [?a <? 10] =>
      let b := eval vm_compute in (a <? 10) in change (a <? 10) with b
  end;
  cbv beta iota; cbn [default from_option id].

Lemma digits_of_uint_acc (d : Decimal.uint) :
  ∀ p, digits 10 (NilEmpty.string_of_uint d) (Some (Z.pos p))
       = Some (Z.pos (Pos.of_uint_acc d p)).
Proof.
  induction d; intros p; [done | ..]; digit_step; cbn [Pos.of_uint_acc];
    rewrite <- IHd; do 2 f_equal; lia.
Qed.

Lemma digits_of_uint (d : Decimal.uint) :
  digits 10 (NilEmpty.string_of_uint d) (Some 0) = Some (Z.of_N (Pos.of_uint d)).
Proof.
  induction d; [done | ..]; digit_step; cbn [Pos.of_uint]; [exact IHd | ..];
    apply digits_of_uint_acc.
Qed.

Lemma digits_start (d : Decimal.uint) :
  d ≠ Decimal.Nil →
  digits 10 (NilEmpty.string_of_uint d) None
  = digits 10 (NilEmpty.string_of_uint d) (Some 0).
Proof. intros Hd. destruct d; [done | ..]; by digit_step. Qed.

(** A printed number is read as it is: no white space, no sign, no [0x]. *)
Lemma readInteger_of_uint (d : Decimal.uint) :
  d ≠ Decimal.Nil →
  readInteger (NilEmpty.string_of_uint d)
  = (λ v : Z, v) <$> digits 10 (NilEmpty.string_of_uint d) None ∧
  readInteger (String "-" (NilEmpty.string_of_uint d))
  = Z.opp <$> digits 10 (NilEmpty.string_of_uint d) None.
Proof.
  intros Hd. destruct d as [| d | d | d | d | d | d | d | d | d | d]; [done | ..];
    try (split; reflexivity).
  destruct d; split; reflexivity.
Qed.

(** The digits of an integer are read as that integer. *)
Lemma readInteger_decimal (n : Z) : readInteger (decimal n) = Some n.
Proof.
  unfold decimal. destruct n as [| p | p]; [done | |];
    cbn [Z.to_int NilZero.string_of_int].
  - pose proof (Unsigned.to_uint_nonnil p) as Hnil.
    assert (NilZero.string_of_uint (Pos.to_uint p)
            = NilEmpty.string_of_uint (Pos.to_uint p)) as ->
      by (by destruct (Pos.to_uint p)).
    destruct (readInteger_of_uint _ Hnil) as [-> _].
    by rewrite digits_start, digits_of_uint, DecimalPos.Unsigned.of_to.
  - pose proof (Unsigned.to_uint_nonnil p) as Hnil.
    assert (NilZero.string_of_uint (Pos.to_uint p)
            = NilEmpty.string_of_uint (Pos.to_uint p)) as ->
      by (by destruct (Pos.to_uint p)).
    destruct (readInteger_of_uint _ Hnil) as [_ ->].
    by rewrite digits_start, digits_of_uint, DecimalPos.Unsigned.of_to.
Qed.

(** *** Integers that doubles hold *)

(** A positive integer of at most [2^53] is a multiple of its last place. *)
Lemma roundedValue_integer (z : Z) :
  0 < z ≤ 2 ^ 53 → (roundedValue (inject_Z z) == inject_Z z)%Q.
Proof.
  intros Hz. unfold roundedValue, ulpExponent.
  assert (ilog2 (inject_Z z) = Z.log2 z) as ->.
  { unfold ilog2, inject_Z. cbn [Qnum Qden]. change (Z.log2 1) with 0.
    rewrite Z.sub_0_r. destruct (Z.log2_spec z ltac:(lia)) as [Hlow _].
    assert (Qle_bool (2 ^ Z.log2 z) (z # 1) = true) as ->; [| done].
    apply Qle_bool_iff. rewrite pow2_Z by apply Z.log2_nonneg.
    change (z # 1) with (inject_Z z). by rewrite <- Zle_Qle. }
  assert (0 ≤ Z.log2 z ≤ 53) as Hlog.
  { split; [apply Z.log2_nonneg |].
    rewrite <- (Z.log2_pow2 53) by lia. apply Z.log2_le_mono. lia. }
  rewrite Z.max_l by lia. set (e := Z.log2 z - 52).
  destruct (Z.le_gt_cases e 0) as [He | He].
  - assert (inject_Z z / 2 ^ e == inject_Z (z * 2 ^ (- e)))%Q as Hq.
    { rewrite inject_Z_mult, <- pow2_Z by lia. rewrite Qpower_opp. reflexivity. }
    rewrite (roundHalfEven_comp _ _ Hq), roundHalfEven_Z.
    rewrite inject_Z_mult, <- pow2_Z by lia.
    rewrite <- Qmult_assoc, <- pow2_add. replace (- e + e) with 0 by lia.
    change (2 ^ 0)%Q with 1%Q. ring.
  - assert (Z.log2 z = 53) as Hl by (unfold e in He; lia).
    assert (z = 2 ^ 53) as ->.
    { destruct (Z.log2_spec z ltac:(lia)) as [Hlow _]. rewrite Hl in Hlow. lia. }
    vm_compute. reflexivity.
Qed.

(** The double nearest an integer of at most [2^53] in absolute value is the
    integer. *)
Lemma round64_integer (z : Z) :
  Z.abs z ≤ 2 ^ 53 → ∃ q, round64 (inject_Z z) = Finite q ∧ (q == inject_Z z)%Q.
Proof.
  intros Hz. unfold round64.
  assert (∀ p, 0 < p ≤ 2 ^ 53 →
            ∃ q, roundPositive (inject_Z p) = Finite q ∧ (q == inject_Z p)%Q) as Hpos.
  { intros p Hp. pose proof (roundedValue_integer p Hp) as Hv.
    destruct (roundPositive_cases (inject_Z p)) as [[_ Hbig] | (r & -> & Hr & _)].
    - exfalso. rewrite Hv in Hbig. rewrite pow2_Z in Hbig by lia.
      rewrite <- Zle_Qle in Hbig.
      assert (2 ^ 53 < 2 ^ 1024) by (apply Z.pow_lt_mono_r; lia). lia.
    - exists r. split; [done |]. by rewrite Hr. }
  destruct (Qcompare_spec (inject_Z z) 0) as [H0 | Hneg | Hp].
  - exists 0%Q. split; [done |]. by rewrite H0.
  - change 0%Q with (inject_Z 0) in Hneg. rewrite <- Zlt_Qlt in Hneg.
    destruct (Hpos (- z) ltac:(lia)) as (q & Hq & Heq).
    rewrite <- inject_Z_opp, Hq. exists (- q)%Q. split; [done |].
    rewrite Heq, inject_Z_opp. ring.
  - change 0%Q with (inject_Z 0) in Hp. rewrite <- Zlt_Qlt in Hp.
    apply Hpos. lia.
Qed.

(** An integer of at most [2^53] in absolute value is a double. *)
Lemma roundInteger_exact (z : Z) : Z.abs z ≤ 2 ^ 53 → roundInteger z = Some z.
Proof.
  intros Hz. unfold roundInteger.
  destruct (round64_integer z Hz) as (q & -> & Hq).
  by rewrite (Qfloor_comp _ _ Hq), Qfloor_Z.
Qed.

(** Reading back a printed integer gives the integer. *)
Lemma parseInt_Number_toString (n : Z) (s : string) :
  Number_toString n = Some s → parseInt s = Some n ∧ s = decimal n ∧ Z.abs n ≤ 2 ^ 53.
Proof.
  unfold Number_toString. destruct (Z.leb_spec (Z.abs n) (2 ^ 53)) as [Hn | Hn]; [| done].
  intros [= <-]. unfold parseInt. rewrite readInteger_decimal. simpl.
  by rewrite roundInteger_exact.
Qed.

Lemma Number_toString_exact (n : Z) :
  Z.abs n ≤ 2 ^ 53 → Number_toString n = Some (decimal n).
Proof.
  intros Hn. unfold Number_toString.
  by destruct (Z.leb_spec (Z.abs n) (2 ^ 53)); [| lia].
Qed.

(** Beyond [2^53] the doubles thin out: [2^53 + 1] is read as [2^53]. *)
Example parseInt_beyond_2_53 :
  parseInt "9007199254740993" = Some 9007199254740992 ∧
  roundInteger (9007199254740992 + 1) = Some 9007199254740992 ∧
  Number_toString 9007199254740994 = None.
Proof. vm_compute. done. Qed.

(** A printed integer has no ["@"] in it. *)
Lemma lacks_of_uint (d : Decimal.uint) : lacks "@" (NilEmpty.string_of_uint d) = true.
Proof. induction d; [done | ..]; exact IHd. Qed.

Lemma lacks_decimal (n : Z) : lacks "@" (decimal n) = true.
Proof.
  unfold decimal. destruct n as [| p | p]; [done | |];
    cbn [Z.to_int NilZero.string_of_int].
  - pose proof (Unsigned.to_uint_nonnil p) as Hnil.
    assert (NilZero.string_of_uint (Pos.to_uint p)
            = NilEmpty.string_of_uint (Pos.to_uint p)) as ->
      by (by destruct (Pos.to_uint p)).
    apply lacks_of_uint.
  - pose proof (Unsigned.to_uint_nonnil p) as Hnil.
    assert (NilZero.string_of_uint (Pos.to_uint p)
            = NilEmpty.string_of_uint (Pos.to_uint p)) as ->
      by (by destruct (Pos.to_uint p)).
    cbn [lacks]. apply lacks_of_uint.
Qed.

Lemma split_lacks (c : ascii) (s : string) : lacks c s = true → split c s = [s].
Proof.
  induction s as [| c' s IH]; [done |]. cbn [lacks split].
  intros [Hc Hs]%andb_true_iff. apply negb_true_iff in Hc. rewrite Hc, (IH Hs). done.
Qed.

Lemma split_app (c : ascii) (s1 s2 : string) :
  lacks c s1 = true →
  split c (s1 ++ String c s2)%string = s1 :: split c s2.
Proof.
  induction s1 as [| c' s1 IH]; cbn [lacks].
  - intros _. simpl. by rewrite Ascii.eqb_refl.
  - intros [Hc Hs]%andb_true_iff. apply negb_true_iff in Hc.
    simpl. rewrite Hc, (IH Hs). done.
Qed.

(** A non-empty printed integer. *)
Lemma decimal_nonempty (n : Z) : decimal n ≠ ""%string.
Proof.
  unfold decimal. destruct n as [| p | p]; [done | | done].
  cbn [Z.to_int NilZero.string_of_int].
  pose proof (Unsigned.to_uint_nonnil p). by destruct (Pos.to_uint p).
Qed.

End JsStringLaws.

(** ** Fragment resources: URL and byte range (m3u8/media-fragment.ts) *)

Module FragmentResource.
Import JsString.

(** A [MediaFragment] with the fields that locate its bytes, next to the
    fields of the playlist model ([core]).  Byte positions are integers; a
    component of [_byteRange] is [None] when it is not finite ([NaN], or
    [Infinity] after an overflow). *)
Record LoadableFragment : Type := mkLoadable {
  core : MediaFragment;
  _url : option string;
  baseurl : option string;
  relurl : option string;
  rawByteRange : option string;
  _byteRange : option (option Z * option Z);
  lastByteRangeEndOffset : option Z;
  loaded : option Z
}.

Definition setByteRange (f : LoadableFragment) (r : option (option Z * option Z))
    : LoadableFragment :=
  {| core := core f; _url := _url f; baseurl := baseurl f; relurl := relurl f;
     rawByteRange := rawByteRange f; _byteRange := r;
     lastByteRangeEndOffset := lastByteRangeEndOffset f; loaded := loaded f |}.

Definition setRawByteRange (f : LoadableFragment) (raw : option string)
    : LoadableFragment :=
  {| core := core f; _url := _url f; baseurl := baseurl f; relurl := relurl f;
     rawByteRange := raw; _byteRange := _byteRange f;
     lastByteRangeEndOffset := lastByteRangeEndOffset f; loaded := loaded f |}.

Definition setUrl (f : LoadableFragment) (u : option string) : LoadableFragment :=
  {| core := core f; _url := u; baseurl := baseurl f; relurl := relurl f;
     rawByteRange := rawByteRange f; _byteRange := _byteRange f;
     lastByteRangeEndOffset := lastByteRangeEndOffset f; loaded := loaded f |}.

Definition setLoaded (f : LoadableFragment) (n : option Z) : LoadableFragment :=
  {| core := core f; _url := _url f; baseurl := baseurl f; relurl := relurl f;
     rawByteRange := rawByteRange f; _byteRange := _byteRange f;
     lastByteRangeEndOffset := lastByteRangeEndOffset f; loaded := n |}.

Definition setCore (f : LoadableFragment) (c : MediaFragment) : LoadableFragment :=
  {| core := c; _url := _url f; baseurl := baseurl f; relurl := relurl f;
     rawByteRange := rawByteRange f; _byteRange := _byteRange f;
     lastByteRangeEndOffset := lastByteRangeEndOffset f; loaded := loaded f |}.

(** [a + b] and [a - b] on integers that may be not finite: the double
    nearest the exact result. *)
Definition addNumbers (a b : option Z) : option Z :=
  match a, b with
  | Some x, Some y => roundInteger (x + y)
  | _, _ => None
  end.

Definition subNumbers (a b : option Z) : option Z :=
  match a, b with
  | Some x, Some y => roundInteger (x - y)
  | _, _ => None
  end.

(** [_parseByteRange()]. *)
Definition _parseByteRange (f : LoadableFragment) : LoadableFragment :=
  if negb (Fragment.truthyString (rawByteRange f)) then f
  else
    let params := split_limit "@" 2 (default EmptyString (rawByteRange f)) in
    let byteRange0 :=
      if (length params =? 1)%nat
      then Some (default 0 (lastByteRangeEndOffset f))
      else params !! 1%nat ≫= parseInt in
    let byteRange1 := addNumbers (params !! 0%nat ≫= parseInt) byteRange0 in
    setByteRange f (Some (byteRange0, byteRange1)).

(** [get byteRange]: [null] without a raw byte range, else the parsed range,
    parsed on first use and remembered. *)
Definition byteRange (f : LoadableFragment)
    : LoadableFragment * option (option Z * option Z) :=
  if negb (Fragment.truthyString (rawByteRange f)) then (f, None)
  else
    let f' :=
      match _byteRange f with
      | Some _ => f
      | None => _parseByteRange f
      end in
    (f', _byteRange f').

(** [get byteRangeStartOffset] and [get byteRangeEndOffset]: [None] is
    [null], [Some None] is [NaN]. *)
Definition byteRangeStartOffset (f : LoadableFragment)
    : LoadableFragment * option (option Z) :=
  let '(f1, r) := byteRange f in
  match r with
  | Some _ => let '(f2, r2) := byteRange f1 in (f2, fst <$> r2)
  | None => (f1, None)
  end.

Definition byteRangeEndOffset (f : LoadableFragment)
    : LoadableFragment * option (option Z) :=
  let '(f1, r) := byteRange f in
  match r with
  | Some _ => let '(f2, r2) := byteRange f1 in (f2, snd <$> r2)
  | None => (f1, None)
  end.

(** [Number.isFinite] of such an offset. *)
Definition isFiniteOffset (v : option (option Z)) : bool :=
  match v with
  | Some (Some _) => true
  | _ => false
  end.

(** [get url], with the URL resolver of the url-toolkit library as a
    parameter. *)
Definition url (buildAbsoluteURL : option string → string → string)
    (f : LoadableFragment) : LoadableFragment * option string :=
  if negb (Fragment.truthyString (_url f)) && Fragment.truthyString (relurl f)
  then
    let resolved := buildAbsoluteURL (baseurl f) (default EmptyString (relurl f)) in
    (setUrl f (Some resolved), Some resolved)
  else (f, _url f).

(** The raw byte range [_handleSidxRequest] writes for a segment reference
    that spans the bytes [start .. end]:
    [String(1 + end - start) + '@' + String(start)].  [None] where a number
    to print is one whose printed form the model does not describe. *)
Definition referenceRange (start end_ : Z) : option string :=
  lengthDigits ←
    subNumbers (addNumbers (Some 1) (Some end_)) (Some start) ≫= Number_toString;
  offsetDigits ← Number_toString start;
  Some (lengthDigits ++ "@" ++ offsetDigits)%string.

(** The value of the [Range] header [_execRequest] sets:
    ['bytes=' + rangeStart + '-' + (rangeEnd - 1)]. *)
Definition rangeHeader (rangeStart rangeEnd : Z) : option string :=
  firstDigits ← Number_toString rangeStart;
  lastDigits ← subNumbers (Some rangeEnd) (Some 1) ≫= Number_toString;
  Some ("bytes=" ++ firstDigits ++ "-" ++ lastDigits)%string.

End FragmentResource.

Module FragmentResourceLaws.
Import JsString JsStringLaws FragmentResource.

(** The bytes [start .. end] of a file: positions that are not negative, in
    order, and below [2^53], where every integer is a double. *)
Definition validBytes (start end_ : Z) : Prop :=
  0 ≤ start ∧ start ≤ end_ + 1 ∧ end_ < 2 ^ 53.

(** The raw range of valid bytes: the decimal digits of length and offset. *)
Lemma referenceRange_valid (start end_ : Z) :
  validBytes start end_ →
  referenceRange start end_
  = Some (decimal (1 + end_ - start) ++ "@" ++ decimal start)%string.
Proof.
  intros (H0 & Hle & Hmax). unfold referenceRange. cbn [addNumbers].
  rewrite roundInteger_exact by lia. cbn [subNumbers].
  rewrite roundInteger_exact by lia. cbn [mbind option_bind].
  by rewrite !Number_toString_exact by lia.
Qed.

Lemma truthy_decimalRange (a b : Z) :
  Fragment.truthyString (Some (decimal a ++ "@" ++ decimal b)%string) = true.
Proof.
  unfold Fragment.truthyString.
  pose proof (decimal_nonempty a). by destruct (decimal a).
Qed.

Lemma split_decimalRange (a b : Z) :
  split_limit "@" 2 (decimal a ++ "@" ++ decimal b)%string = [decimal a; decimal b].
Proof.
  unfold split_limit.
  change ("@" ++ decimal b)%string with (String "@" (decimal b)).
  rewrite split_app by apply lacks_decimal.
  by rewrite split_lacks by apply lacks_decimal.
Qed.

(** The first read of a range printed from a segment reference. *)
Lemma byteRange_of_reference (f : LoadableFragment) (start end_ : Z) :
  validBytes start end_ →
  rawByteRange f = referenceRange start end_ → _byteRange f = None →
  byteRange f = (setByteRange f (Some (Some start, Some (end_ + 1))),
                 Some (Some start, Some (end_ + 1))).
Proof.
  intros Hvalid Hraw Hmemo. rewrite (referenceRange_valid _ _ Hvalid) in Hraw.
  destruct Hvalid as (H0 & Hle & Hmax).
  unfold byteRange, _parseByteRange. rewrite Hraw, Hmemo.
  rewrite truthy_decimalRange. cbn [negb default from_option id].
  rewrite split_decimalRange.
  cbn [length Nat.eqb lookup list_lookup mbind option_bind].
  unfold parseInt. rewrite !readInteger_decimal. cbn [mbind option_bind].
  rewrite !roundInteger_exact by lia. cbn [addNumbers].
  replace (1 + end_ - start + start) with (end_ + 1) by lia.
  by rewrite roundInteger_exact by lia.
Qed.

(** A remembered range is returned as it is while a raw range is there. *)
Lemma byteRange_remembered (f : LoadableFragment) (r : option Z * option Z) :
  Fragment.truthyString (rawByteRange f) = true → _byteRange f = Some r →
  byteRange f = (f, Some r).
Proof.
  intros Hraw Hmemo. unfold byteRange. rewrite Hraw, Hmemo. cbn [negb].
  by rewrite Hmemo.
Qed.

Lemma offsets_of_reference (f : LoadableFragment) (start end_ : Z) :
  validBytes start end_ →
  rawByteRange f = referenceRange start end_ → _byteRange f = None →
  byteRangeStartOffset f
  = (setByteRange f (Some (Some start, Some (end_ + 1))), Some (Some start)) ∧
  byteRangeEndOffset f
  = (setByteRange f (Some (Some start, Some (end_ + 1))), Some (Some (end_ + 1))) ∧
  byteRangeEndOffset (setByteRange f (Some (Some start, Some (end_ + 1))))
  = (setByteRange f (Some (Some start, Some (end_ + 1))), Some (Some (end_ + 1))).
Proof.
  intros Hvalid Hraw Hmemo.
  pose proof (byteRange_of_reference f start end_ Hvalid Hraw Hmemo) as Hfirst.
  assert (byteRange (setByteRange f (Some (Some start, Some (end_ + 1))))
          = (setByteRange f (Some (Some start, Some (end_ + 1))),
             Some (Some start, Some (end_ + 1)))) as Hagain.
  { apply byteRange_remembered; [| done]. cbn [rawByteRange setByteRange].
    rewrite Hraw, (referenceRange_valid _ _ Hvalid). apply truthy_decimalRange. }
  unfold byteRangeStartOffset, byteRangeEndOffset. by rewrite Hfirst, !Hagain.
Qed.

Lemma offsets_without_range (f : LoadableFragment) :
  Fragment.truthyString (rawByteRange f) = false →
  byteRange f = (f, None) ∧ byteRangeStartOffset f = (f, None) ∧
  byteRangeEndOffset f = (f, None).
Proof.
  intros Hraw. unfold byteRangeStartOffset, byteRangeEndOffset, byteRange.
  by rewrite Hraw.
Qed.

(** X10.  The byte range of a fragment is read from its raw form
    [length@offset] once and remembered.  For bytes [start .. end] with
    [0 <= start <= end + 1] and [end < 2^53], the raw range printed from a
    segment reference is [length@offset] in decimal digits and reads back
    as the range from [start] to [end + 1] (start and end offset), whatever
    [lastByteRangeEndOffset] says; once a range is remembered, another raw
    range no longer shows; and without a raw range the byte range is [null]
    and so are both offsets.  The bound matters: numbers are doubles, and
    for [start = end = 2^53] the printed range reads back with the end
    offset [2^53], not [2^53 + 1]. *)
Theorem byteRange_round_trip (f : LoadableFragment) (start end_ : Z) :
  validBytes start end_ →
  rawByteRange f = referenceRange start end_ → _byteRange f = None →
  rawByteRange f = Some (decimal (1 + end_ - start) ++ "@" ++ decimal start)%string ∧
  (byteRange f).2 = Some (Some start, Some (end_ + 1)) ∧
  (byteRangeStartOffset f).2 = Some (Some start) ∧
  (byteRangeEndOffset f).2 = Some (Some (end_ + 1)) ∧
  (∀ raw', (byteRange (setRawByteRange (byteRange f).1 (Some raw'))).2
           = (if Fragment.truthyString (Some raw')
              then Some (Some start, Some (end_ + 1)) else None)) ∧
  (∀ g, Fragment.truthyString (rawByteRange g) = false →
     (byteRange g).2 = None ∧ (byteRangeStartOffset g).2 = None ∧
     (byteRangeEndOffset g).2 = None) ∧
  (∀ g, rawByteRange g = referenceRange (2 ^ 53) (2 ^ 53) → _byteRange g = None →
     rawByteRange g = Some "0@9007199254740992"%string ∧
     (byteRange g).2 = Some (Some (2 ^ 53), Some (2 ^ 53))).
Proof.
  intros Hvalid Hraw Hmemo.
  destruct (offsets_of_reference f start end_ Hvalid Hraw Hmemo) as (Hs & He & _).
  pose proof (byteRange_of_reference f start end_ Hvalid Hraw Hmemo) as Hrange.
  split; [by rewrite Hraw, (referenceRange_valid _ _ Hvalid) |].
  split; [by rewrite Hrange |]. split; [by rewrite Hs |]. split; [by rewrite He |].
  split; [| split].
  - intros raw'. rewrite Hrange. unfold byteRange.
    cbn [fst rawByteRange _byteRange setRawByteRange setByteRange].
    by destruct (Fragment.truthyString (Some raw')).
  - intros g Hg. destruct (offsets_without_range g Hg) as (-> & -> & ->). done.
  - intros g Hg Hgmemo.
    assert (referenceRange (2 ^ 53) (2 ^ 53) = Some "0@9007199254740992"%string) as Href
      by (vm_compute; reflexivity).
    rewrite Href in Hg. split; [done |].
    unfold byteRange, _parseByteRange. rewrite Hg, Hgmemo.
    vm_compute. reflexivity.
Qed.

Lemma byteRange_round_trip_witness :
  (byteRange {| core := parsedFragment 3 12 6 None; _url := None; baseurl := None;
                relurl := None; rawByteRange := Some "500@1000"%string;
                _byteRange := None; lastByteRangeEndOffset := Some 77;
                loaded := None |}).2
  = Some (Some 1000, Some 1500).
Proof.
  refine (proj1 (proj2 (byteRange_round_trip
                  {| core := parsedFragment 3 12 6 None; _url := None; baseurl := None;
                     relurl := None; rawByteRange := Some "500@1000"%string;
                     _byteRange := None; lastByteRangeEndOffset := Some 77;
                     loaded := None |} 1000 1499 _ _ eq_refl))).
  - unfold validBytes. lia.
  - vm_compute. reflexivity.
Defined.

End FragmentResourceLaws.

(** ** Fragment loading (FragmentLoadingHandler) *)

Module FragmentLoading.
Import NetworkEngine JsString FragmentResource.

(** [_loaders] holds one engine per fragment type; [engines] is the store of
    every engine the handler has created, by address. *)
Record FragmentLoadingHandler : Type := mkFragLoader {
  engines : list NetworkEngine;
  _loaders : gmap string nat
}.

Definition FragmentLoadingHandler_new : FragmentLoadingHandler :=
  {| engines := []; _loaders := ∅ |}.

(** The two members of [ErrorDetail] this handler names. *)
Inductive FragErrorDetail : Type :=
| FRAG_LOAD_ERROR
| FRAG_LOAD_TIMEOUT.

Inductive FragEffect : Type :=
| EngineDid (address : nat) (eff : Effect)
| TriggerFragLoaded (frag : nat)
| TriggerFragLoadProgress (frag : nat) (loaded : Z)
| TriggerError (details : FragErrorDetail) (fatal : bool) (frag : nat).

(** A step of the fragment loader: the fragments and the handler after it,
    what it did, and the message of the exception if it threw. *)
Definition fstep : Type :=
  list LoadableFragment * FragmentLoadingHandler * list FragEffect * option string.

(** [loader.abort()] on the engine of a lane, if the lane has one. *)
Definition abortLane (engs : list NetworkEngine) (lane : option nat)
    : list NetworkEngine * list FragEffect :=
  match lane with
  | Some a =>
      match engs !! a with
      | Some loader =>
          let '(loader', effects) := abort loader in
          (<[a := loader']> engs, EngineDid a <$> effects)
      | None => (engs, [])
      end
  | None => (engs, [])
  end.

(** The engine options [onFragLoading] builds: the retry settings of the
    configuration are not used. *)
Definition fragLoaderConfig (config : HlsConfig) : NetworkEngineLoadOptions :=
  {| timeout := fragLoadingTimeOut config; maxRetry := 0; retryDelay := Some 0;
     maxRetryDelay := Some (fragLoadingMaxRetryTimeout config) |}.

(** The request context [onFragLoading] builds; the range is set when both
    offsets are finite. *)
Definition fragContext (f : nat) (u : option string) (start end_ : option (option Z))
    : NetworkEngineContext :=
  let ranged := isFiniteOffset start && isFiniteOffset end_ in
  {| ctx_type := MEDIA_FRAGMENT; ctx_id := None; ctx_level := None; ctx_url := u;
     ctx_responseType := "arraybuffer"; ctx_isSidxRequest := false;
     ctx_rangeStart := if ranged then start ≫= id else None;
     ctx_rangeEnd := if ranged then end_ ≫= id else None;
     ctx_frag := Some f |}.

(** The context as [onFragLoading] builds it for a fragment: the URL and the
    two offsets are read through the fragment's getters, which may remember
    what they computed. *)
Definition loaderContextFor (buildAbsoluteURL : option string → string → string)
    (f : nat) (frag : LoadableFragment) : LoadableFragment * NetworkEngineContext :=
  let '(frag1, u) := url buildAbsoluteURL frag in
  let '(frag2, start) := byteRangeStartOffset frag1 in
  let '(frag3, end_) := byteRangeEndOffset frag2 in
  (frag3, fragContext f u start end_).

(** [onFragLoading({frag})] for the fragment at address [f]. *)
Definition onFragLoading (buildAbsoluteURL : option string → string → string)
    (config : HlsConfig) (frags : list LoadableFragment) (h : FragmentLoadingHandler)
    (f : nat) : fstep :=
  match frags !! f with
  | None => (frags, h, [], Some "TypeError: frag is undefined"%string)
  | Some frag =>
      let type := Playlist.type (core frag) in
      let frag1 := setLoaded frag (Some 0) in
      let '(engines1, effects1) := abortLane (engines h) (_loaders h !! type) in
      let address := length engines1 in
      let frag2 := setCore frag1 (Fragment.setLoader (core frag1) (Some address)) in
      let '(frag3, loaderContext) := loaderContextFor buildAbsoluteURL f frag2 in
      let '(e, effects2, thrown) :=
        NetworkEngine.load NetworkEngine_new loaderContext (fragLoaderConfig config) in
      (<[f := frag3]> frags,
       {| engines := engines1 ++ [e]; _loaders := <[type := address]> (_loaders h) |},
       effects1 ++ (EngineDid address <$> effects2), thrown)
  end.

(** [_handleSuccess(response, stats, context)]. *)
Definition _handleSuccess (frags : list LoadableFragment) (h : FragmentLoadingHandler)
    (context : NetworkEngineContext) : fstep :=
  match ctx_frag context ≫= (λ f, frags !! f ≫= (λ frag, Some (f, frag))) with
  | None => (frags, h, [], Some "TypeError: frag is undefined"%string)
  | Some (f, frag) =>
      (<[f := setCore frag (Fragment.setLoader (core frag) None)]> frags,
       {| engines := engines h;
          _loaders := delete (Playlist.type (core frag)) (_loaders h) |},
       [TriggerFragLoaded f], None)
  end.

(** [_handleError] and [_handleTimeout]. *)
Definition _handleFailure (details : FragErrorDetail) (frags : list LoadableFragment)
    (h : FragmentLoadingHandler) (context : NetworkEngineContext) : fstep :=
  match ctx_frag context ≫= (λ f, frags !! f ≫= (λ frag, Some (f, frag))) with
  | None => (frags, h, [], Some "TypeError: frag is undefined"%string)
  | Some (f, frag) =>
      let '(engines1, effects1) := abortLane (engines h) (loader (core frag)) in
      (frags,
       {| engines := engines1;
          _loaders := delete (Playlist.type (core frag)) (_loaders h) |},
       effects1 ++ [TriggerError details false f], None)
  end.

Definition _handleError := _handleFailure FRAG_LOAD_ERROR.
Definition _handleTimeout := _handleFailure FRAG_LOAD_TIMEOUT.

(** [_handleProgress(stats, context, data)] with [stats.loaded = n]. *)
Definition _handleProgress (frags : list LoadableFragment) (h : FragmentLoadingHandler)
    (context : NetworkEngineContext) (n : Z) : fstep :=
  match ctx_frag context ≫= (λ f, frags !! f ≫= (λ frag, Some (f, frag))) with
  | None => (frags, h, [], Some "TypeError: frag is undefined"%string)
  | Some (f, frag) =>
      (<[f := setLoaded frag (Some n)]> frags, h, [TriggerFragLoadProgress f n], None)
  end.

(** The callbacks the handler gives its engines. *)
Definition callback (frags : list LoadableFragment) (h : FragmentLoadingHandler)
    (eff : Effect) : fstep :=
  match eff with
  | OnSuccess context => _handleSuccess frags h context
  | OnError _ context => _handleError frags h context
  | OnTimeout context => _handleTimeout frags h context
  | _ => (frags, h, [], None)
  end.

(** The effects of a step of the engine at [address], each followed by what
    the callback it invokes does; an exception ends the step. *)
Fixpoint deliver (frags : list LoadableFragment) (h : FragmentLoadingHandler)
    (address : nat) (effects : list Effect) : fstep :=
  match effects with
  | [] => (frags, h, [], None)
  | eff :: rest =>
      match callback frags h eff with
      | (frags1, h1, out1, Some msg) =>
          (frags1, h1, EngineDid address eff :: out1, Some msg)
      | (frags1, h1, out1, None) =>
          let '(frags2, h2, out2, thrown) := deliver frags1 h1 address rest in
          (frags2, h2, EngineDid address eff :: out1 ++ out2, thrown)
      end
  end.

Definition setEngine (h : FragmentLoadingHandler) (address : nat) (e : NetworkEngine)
    : FragmentLoadingHandler :=
  {| engines := <[address := e]> (engines h); _loaders := _loaders h |}.

(** The request of the engine at [address] is answered with [status]. *)
Definition answer (frags : list LoadableFragment) (h : FragmentLoadingHandler)
    (address : nat) (status : Z) : fstep :=
  match engines h !! address with
  | Some e =>
      if PlaylistLoading.requestActive e then
        match _handleReadyStateChange e 4 status with
        | (e', effects, Some msg) =>
            (frags, setEngine h address e', EngineDid address <$> effects, Some msg)
        | (e', effects, None) => deliver frags (setEngine h address e') address effects
        end
      else (frags, h, [], None)
  | None => (frags, h, [], None)
  end.

(** The request timer of the engine at [address] fires. *)
Definition requestTimeout (frags : list LoadableFragment) (h : FragmentLoadingHandler)
    (address : nat) : fstep :=
  match engines h !! address with
  | Some e =>
      if bool_decide (is_Some (_requestTimeout e)) then
        match NetworkEngine._handleTimeout e with
        | (e', effects, Some msg) =>
            (frags, setEngine h address e', EngineDid address <$> effects, Some msg)
        | (e', effects, None) => deliver frags (setEngine h address e') address effects
        end
      else (frags, h, [], None)
  | None => (frags, h, [], None)
  end.

(** The retry timers armed in a trace. *)
Definition retriesArmed (effects : list FragEffect) : nat :=
  length (omap (λ eff, match eff with
                       | EngineDid _ (SetRetryTimeout d) => Some d
                       | _ => None
                       end) effects).

(** The requests sent in a trace. *)
Definition requestsSent (effects : list FragEffect) : nat :=
  length (omap (λ eff, match eff with
                       | EngineDid a XhrSend => Some a
                       | _ => None
                       end) effects).

(** The range headers set in a trace. *)
Definition rangeHeaders (effects : list FragEffect) : list (option Z * Z) :=
  omap (λ eff, match eff with
               | EngineDid _ (XhrSetRangeHeader rangeStart rangeEnd) =>
                   Some (rangeStart, rangeEnd)
               | _ => None
               end) effects.

(** The fragment as [onFragLoading] prepares it before it builds the
    context. *)
Definition prepared (frag : LoadableFragment) (address : nat) : LoadableFragment :=
  setCore (setLoaded frag (Some 0)) (Fragment.setLoader (core frag) (Some address)).

End FragmentLoading.

Module FragmentLoadingLaws.
Import NetworkEngine JsString JsStringLaws FragmentResource FragmentResourceLaws.
Import FragmentLoading.

Lemma lane_abort_length (engs : list NetworkEngine) (lane : option nat) :
  length (abortLane engs lane).1 = length engs.
Proof.
  unfold abortLane. destruct lane as [a |]; [| done].
  destruct (engs !! a) as [e |]; [| done].
  destruct (abort e). simpl. apply length_insert.
Qed.

Lemma abortLane_quiet (engs : list NetworkEngine) (lane : option nat) :
  retriesArmed (abortLane engs lane).2 = 0%nat ∧
  requestsSent (abortLane engs lane).2 = 0%nat.
Proof.
  unfold abortLane. destruct lane as [a |]; [| done].
  destruct (engs !! a) as [e |]; [| done].
  unfold abort. by destruct (match _xhr e with Some _ => _ | None => _ end).
Qed.

(** The getters change what a fragment remembers, nothing else. *)
Lemma byteRange_core (g : LoadableFragment) :
  core (byteRange g).1 = core g ∧ loaded (byteRange g).1 = loaded g.
Proof.
  unfold byteRange, _parseByteRange.
  destruct (Fragment.truthyString (rawByteRange g)); [| done]. simpl.
  by destruct (_byteRange g).
Qed.

Lemma loaderContextFor_core (b : option string → string → string) (f : nat)
    (g : LoadableFragment) :
  core (loaderContextFor b f g).1 = core g ∧ loaded (loaderContextFor b f g).1 = loaded g ∧
  ctx_type (loaderContextFor b f g).2 = MEDIA_FRAGMENT ∧
  ctx_frag (loaderContextFor b f g).2 = Some f.
Proof.
  unfold loaderContextFor.
  assert (core (url b g).1 = core g ∧ loaded (url b g).1 = loaded g) as [Hc1 Hl1].
  { unfold url. by destruct (_ && _). }
  destruct (url b g) as [g1 u]. cbn [fst] in *.
  assert (core (byteRangeStartOffset g1).1 = core g1
          ∧ loaded (byteRangeStartOffset g1).1 = loaded g1) as [Hc2 Hl2].
  { unfold byteRangeStartOffset. pose proof (byteRange_core g1) as [? ?].
    destruct (byteRange g1) as [g' [r |]]; [| done]. cbn [fst] in *.
    pose proof (byteRange_core g') as [? ?].
    destruct (byteRange g') as [g'' r']. cbn [fst] in *. split; congruence. }
  destruct (byteRangeStartOffset g1) as [g2 start]. cbn [fst] in *.
  assert (core (byteRangeEndOffset g2).1 = core g2
          ∧ loaded (byteRangeEndOffset g2).1 = loaded g2) as [Hc3 Hl3].
  { unfold byteRangeEndOffset. pose proof (byteRange_core g2) as [? ?].
    destruct (byteRange g2) as [g' [r |]]; [| done]. cbn [fst] in *.
    pose proof (byteRange_core g') as [? ?].
    destruct (byteRange g') as [g'' r']. cbn [fst] in *. split; congruence. }
  destruct (byteRangeEndOffset g2) as [g3 end_]. cbn [fst snd] in *.
  repeat split; congruence.
Qed.

Lemma load_new_sent (context : NetworkEngineContext)
    (config : NetworkEngineLoadOptions) :
  NetworkEngine.load NetworkEngine_new context config
  = (PlaylistLoadingLaws.sentEngine context config,
     NetworkEngineLaws.execEffects context config, None).
Proof. reflexivity. Qed.

(** What [onFragLoading] leaves behind. *)
Lemma onFragLoading_started (b : option string → string → string)
    (config : HlsConfig) (frags : list LoadableFragment) (h : FragmentLoadingHandler)
    (f : nat) (frag : LoadableFragment) :
  frags !! f = Some frag →
  let address := length (engines h) in
  let lane := abortLane (engines h) (_loaders h !! Playlist.type (core frag)) in
  let located := loaderContextFor b f (prepared frag address) in
  onFragLoading b config frags h f
  = (<[f := located.1]> frags,
     {| engines := lane.1
                     ++ [PlaylistLoadingLaws.sentEngine located.2 (fragLoaderConfig config)];
        _loaders := <[Playlist.type (core frag) := address]> (_loaders h) |},
     lane.2 ++ (EngineDid address
                  <$> NetworkEngineLaws.execEffects located.2 (fragLoaderConfig config)),
     None).
Proof.
  intros Hf address lane located. unfold onFragLoading. rewrite Hf.
  pose proof (lane_abort_length (engines h) (_loaders h !! Playlist.type (core frag)))
    as Hlen.
  subst lane located address.
  destruct (abortLane (engines h) (_loaders h !! Playlist.type (core frag)))
    as [engines1 effects1] eqn:Ha. cbn [fst snd] in *. rewrite Hlen.
  change (setCore _ _) with (prepared frag (length (engines h))).
  destruct (loaderContextFor b f (prepared frag (length (engines h)))) as [g ctx].
  by rewrite load_new_sent.
Qed.

Lemma requestsSent_app (l1 l2 : list FragEffect) :
  requestsSent (l1 ++ l2) = (requestsSent l1 + requestsSent l2)%nat.
Proof. unfold requestsSent. by rewrite omap_app, length_app. Qed.

Lemma retriesArmed_app (l1 l2 : list FragEffect) :
  retriesArmed (l1 ++ l2) = (retriesArmed l1 + retriesArmed l2)%nat.
Proof. unfold retriesArmed. by rewrite omap_app, length_app. Qed.

Lemma requestsSent_engine (a : nat) (effects : list Effect) :
  requestsSent (EngineDid a <$> effects) = sends effects.
Proof.
  unfold requestsSent, sends. induction effects as [| eff effects IH]; [done |].
  destruct eff; simpl; first [exact IH | f_equal; exact IH].
Qed.

Lemma retriesArmed_engine (a : nat) (effects : list Effect) :
  retriesArmed (EngineDid a <$> effects) = length (retryDelays effects).
Proof.
  unfold retriesArmed, retryDelays. induction effects as [| eff effects IH]; [done |].
  destruct eff; simpl; first [exact IH | f_equal; exact IH].
Qed.

(** An engine without retries ends on the first answer. *)
Lemma answer_without_retries (context : NetworkEngineContext)
    (config : NetworkEngineLoadOptions) (status : Z) :
  maxRetry config ≤ 0 →
  _handleReadyStateChange (PlaylistLoadingLaws.sentEngine context config) 4 status
  = (PlaylistLoadingLaws.doneEngine context config,
     [NetworkEngineLaws.finalCallback context status], None).
Proof.
  intros Hmax. unfold _handleReadyStateChange, NetworkEngineLaws.finalCallback,
    NetworkEngineLaws.successful. simpl.
  destruct ((200 <=? status) && (status <? 300)); [done |].
  assert ((maxRetry config <=? 0) = true) as -> by (by apply Z.leb_le).
  done.
Qed.

(** X11.  A fragment load never retries at the transport level: the engine
    is started with [maxRetry = 0] whatever [fragLoadingMaxRetry] and
    [fragLoadingRetryDelay] say, it sends one request, and its first answer
    ends the load.  A 2xx answer signals fragment-loaded and detaches the
    engine from the fragment; any other status signals the fragment load
    error, not fatal, with no retry timer armed and no second request.  In
    both cases the lane of the fragment's type is free again. *)
Theorem fragment_load_never_retries (b : option string → string → string)
    (config : HlsConfig) (frags : list LoadableFragment) (h : FragmentLoadingHandler)
    (f : nat) (frag : LoadableFragment) (status : Z) :
  frags !! f = Some frag →
  let a := length (engines h) in
  let context := (loaderContextFor b f (prepared frag a)).2 in
  let started := onFragLoading b config frags h f in
  let answered := answer started.1.1.1 started.1.1.2 a status in
  started.2 = None ∧ requestsSent started.1.2 = 1%nat ∧
  retriesArmed started.1.2 = 0%nat ∧
  (engines started.1.1.2 !! a ≫= _config) = Some (fragLoaderConfig config) ∧
  maxRetry (fragLoaderConfig config) = 0 ∧
  answered.2 = None ∧
  answered.1.2
    = (if NetworkEngineLaws.successful status
       then [EngineDid a (OnSuccess context); TriggerFragLoaded f]
       else [EngineDid a (OnError status context);
             TriggerError FRAG_LOAD_ERROR false f]) ∧
  _loaders answered.1.1.2 !! Playlist.type (core frag) = None ∧
  (engines answered.1.1.2 !! a ≫= _retryTimeout) = None ∧
  (NetworkEngineLaws.successful status = true →
     (loader ∘ core <$> answered.1.1.1 !! f) = Some None).
Proof.
  intros Hf a context started answered.
  pose proof (onFragLoading_started b config frags h f frag Hf) as Hstart.
  cbn zeta in Hstart. fold a in Hstart. fold context in Hstart.
  pose proof (lane_abort_length (engines h) (_loaders h !! Playlist.type (core frag)))
    as Hlen.
  destruct (abortLane_quiet (engines h) (_loaders h !! Playlist.type (core frag)))
    as [Hq1 Hq2].
  destruct (loaderContextFor_core b f (prepared frag a)) as (Hcore & _ & _ & Hcf).
  fold context in Hcf.
  set (lane := abortLane (engines h) (_loaders h !! Playlist.type (core frag))) in *.
  set (located := (loaderContextFor b f (prepared frag a)).1) in *.
  set (cfg := fragLoaderConfig config) in *.
  assert (f < length frags)%nat as Hlt by (by eapply lookup_lt_Some).
  assert (∀ e : NetworkEngine, (lane.1 ++ [e]) !! a = Some e) as Hat.
  { intros e. rewrite lookup_app_r by lia. by rewrite Hlen, Nat.sub_diag. }
  assert (∀ e e' : NetworkEngine, <[a := e']> (lane.1 ++ [e]) = lane.1 ++ [e']) as Hins.
  { intros e e'. rewrite insert_app_r_alt by lia. by rewrite Hlen, Nat.sub_diag. }
  destruct (NetworkEngineLaws.execEffects_counts context cfg) as (Hs & Hd & _ & _).
  subst answered started. rewrite Hstart. cbn [fst snd].
  split; [done |].
  split; [rewrite requestsSent_app, Hq2, requestsSent_engine, Hs; done |].
  split; [rewrite retriesArmed_app, Hq1, retriesArmed_engine, Hd; done |].
  split; [cbn [engines]; by rewrite Hat |].
  split; [done |].
  unfold answer. cbn [engines]. rewrite Hat.
  change (PlaylistLoading.requestActive (PlaylistLoadingLaws.sentEngine context cfg))
    with true. cbv iota.
  rewrite answer_without_retries by done.
  unfold NetworkEngineLaws.finalCallback, setEngine. cbn [engines _loaders].
  rewrite Hins.
  assert (Playlist.type (core located) = Playlist.type (core frag)) as Hty
    by (by rewrite Hcore).
  assert (loader (core located) = Some a) as Hloader by (by rewrite Hcore).
  destruct (NetworkEngineLaws.successful status) eqn:Hok;
    cbn [deliver callback]; unfold _handleError, _handleFailure, _handleSuccess;
    rewrite Hcf; cbn [mbind option_bind];
    rewrite list_lookup_insert_eq by done; cbn [mbind option_bind].
  - rewrite Hty. cbn [fst snd engines _loaders app].
    split; [done |]. split; [done |]. split; [apply lookup_delete_eq |].
    split; [by rewrite Hat |]. intros _.
    by rewrite list_lookup_insert_eq by (by rewrite length_insert).
  - rewrite Hty, Hloader. unfold abortLane. cbn [engines]. rewrite Hat.
    cbn [abort PlaylistLoadingLaws.doneEngine _xhr readyState Z.eqb negb fmap list_fmap
         app fst snd engines _loaders]. rewrite Hins.
    split; [done |]. split; [done |]. split; [apply lookup_delete_eq |].
    split; [by rewrite Hat |]. done.
Qed.

Lemma fragment_load_never_retries_witness :
  let frags := [{| core := parsedFragment 3 12 6 None;
                   _url := Some "https://cdn/3.ts"%string; baseurl := None;
                   relurl := None; rawByteRange := None; _byteRange := None;
                   lastByteRangeEndOffset := None; loaded := None |}] in
  let started :=
    onFragLoading (λ _ rel, rel) sampleConfig frags FragmentLoadingHandler_new 0 in
  retriesArmed (answer started.1.1.1 started.1.1.2 0 503).1.2 = 0%nat ∧
  requestsSent started.1.2 = 1%nat.
Proof.
  pose proof (fragment_load_never_retries (λ _ rel, rel) sampleConfig
                [{| core := parsedFragment 3 12 6 None;
                    _url := Some "https://cdn/3.ts"%string; baseurl := None;
                    relurl := None; rawByteRange := None; _byteRange := None;
                    lastByteRangeEndOffset := None; loaded := None |}]
                FragmentLoadingHandler_new 0 _ 503 eq_refl) as H.
  cbn zeta in H. destruct H as (_ & Hsent & _ & _ & _ & _ & Heff & _).
  cbv zeta. change (length (engines FragmentLoadingHandler_new)) with 0%nat in Heff.
  split; [| exact Hsent]. by rewrite Heff.
Defined.

(** A second read of the byte range returns what the first remembered. *)
Lemma byteRange_again (g g1 : LoadableFragment) (r : option Z * option Z) :
  byteRange g = (g1, Some r) → byteRange g1 = (g1, Some r).
Proof.
  unfold byteRange.
  destruct (Fragment.truthyString (rawByteRange g)) eqn:Hraw; [| done]. cbn [negb].
  destruct (_byteRange g) as [r0 |] eqn:Hmemo.
  - intros [= <- Hr]. rewrite Hraw, Hmemo. cbn [negb]. by rewrite Hr.
  - unfold _parseByteRange. rewrite Hraw. cbn [negb].
    cbn [rawByteRange _byteRange setByteRange]. intros [= <- <-].
    cbn [rawByteRange _byteRange setByteRange]. by rewrite Hraw.
Qed.

Lemma byteRange_none (g : LoadableFragment) :
  (byteRange g).2 = None → byteRange g = (g, None).
Proof.
  unfold byteRange.
  destruct (Fragment.truthyString (rawByteRange g)) eqn:Hraw; [| done]. cbn [negb].
  destruct (_byteRange g) as [r0 |] eqn:Hmemo; cbn [snd].
  - by rewrite Hmemo.
  - unfold _parseByteRange. by rewrite Hraw.
Qed.

(** Reading the URL does not touch the byte range. *)
Lemma url_range (b : option string → string → string) (g : LoadableFragment) :
  (byteRange (url b g).1).2 = (byteRange g).2.
Proof.
  unfold url. destruct (_ && _); [| done].
  unfold byteRange, _parseByteRange. cbn [rawByteRange _byteRange setUrl fst snd].
  destruct (Fragment.truthyString (rawByteRange g)); [| done]. cbn [negb].
  by destruct (_byteRange g).
Qed.

(** The range of the context is the byte range of the fragment when both of
    its ends are numbers, and is absent otherwise. *)
Lemma loaderContextFor_range (b : option string → string → string) (f : nat)
    (g : LoadableFragment) :
  let context := (loaderContextFor b f g).2 in
  match (byteRange g).2 with
  | Some (Some start, Some end_) =>
      ctx_rangeStart context = Some start ∧ ctx_rangeEnd context = Some end_
  | _ => ctx_rangeStart context = None ∧ ctx_rangeEnd context = None
  end.
Proof.
  unfold loaderContextFor.
  pose proof (url_range b g) as Hurl.
  destruct (url b g) as [g1 u]. cbn [fst snd] in *.
  unfold byteRangeStartOffset, byteRangeEndOffset.
  destruct (byteRange g1) as [g2 r] eqn:Hg1. cbn [snd] in Hurl. rewrite <- Hurl.
  destruct r as [r |].
  - rewrite !(byteRange_again g1 g2 r Hg1).
    cbn [fmap option_fmap option_map fst snd fragContext].
    by destruct r as [[start |] [end_ |]].
  - assert (byteRange g1 = (g1, None)) as Hnone
      by (apply byteRange_none; by rewrite Hg1).
    assert (g2 = g1) as -> by congruence. by rewrite Hnone.
Qed.

Lemma prepared_range (frag : LoadableFragment) (a : nat) :
  (byteRange (prepared frag a)).2 = (byteRange frag).2.
Proof.
  unfold byteRange, _parseByteRange, prepared.
  cbn [rawByteRange _byteRange setCore setLoaded].
  destruct (Fragment.truthyString (rawByteRange frag)); [| done]. cbn [negb].
  by destruct (_byteRange frag).
Qed.

Lemma rangeHeaders_app (l1 l2 : list FragEffect) :
  rangeHeaders (l1 ++ l2) = rangeHeaders l1 ++ rangeHeaders l2.
Proof. apply omap_app. Qed.

Lemma abortLane_rangeHeaders (engs : list NetworkEngine) (lane : option nat) :
  rangeHeaders (abortLane engs lane).2 = [].
Proof.
  unfold abortLane. destruct lane as [a |]; [| done].
  destruct (engs !! a) as [e |]; [| done].
  unfold abort. by destruct (match _xhr e with Some _ => _ | None => _ end).
Qed.

(** X12.  The request for a fragment asks for the fragment's byte range, if
    it has one with two finite ends.  For a fragment whose raw byte range
    was printed from a segment reference for the bytes [start .. end], with
    [0 <= start <= end + 1], [end < 2^53] and [end + 1 <> 0], the request
    carries the header [Range: bytes=start-end], the same bytes in decimal
    digits.  For a fragment without a raw byte range, and for one whose raw
    byte range does not read as two finite numbers, no [Range] header is
    set: the whole resource is asked for. *)
Theorem fragment_range_request (b : option string → string → string)
    (config : HlsConfig) (frags : list LoadableFragment) (h : FragmentLoadingHandler)
    (f : nat) (frag : LoadableFragment) :
  frags !! f = Some frag →
  let effects := (onFragLoading b config frags h f).1.2 in
  (∀ start end_,
     validBytes start end_ →
     rawByteRange frag = referenceRange start end_ → _byteRange frag = None →
     end_ + 1 ≠ 0 →
     rangeHeaders effects = [(Some start, end_ + 1)] ∧
     rangeHeader start (end_ + 1)
     = Some ("bytes=" ++ decimal start ++ "-" ++ decimal end_)%string) ∧
  (Fragment.truthyString (rawByteRange frag) = false → rangeHeaders effects = []) ∧
  (∀ r, (byteRange frag).2 = Some r → r.1 = None ∨ r.2 = None →
     rangeHeaders effects = []).
Proof.
  intros Hf effects. subst effects.
  rewrite (onFragLoading_started b config frags h f frag Hf). cbn [fst snd].
  rewrite rangeHeaders_app, abortLane_rangeHeaders. cbn [app].
  pose proof (loaderContextFor_range b f (prepared frag (length (engines h)))) as Hrange.
  cbn zeta in Hrange. rewrite prepared_range in Hrange.
  set (context := (loaderContextFor b f (prepared frag (length (engines h)))).2) in *.
  unfold NetworkEngineLaws.execEffects.
  split; [| split].
  - intros start end_ Hvalid Hraw Hmemo Hend.
    rewrite (byteRange_of_reference frag start end_ Hvalid Hraw Hmemo) in Hrange.
    cbn [snd] in Hrange. destruct Hrange as [-> ->].
    apply Z.eqb_neq in Hend. rewrite Hend. split; [done |].
    destruct Hvalid as (H0 & Hle & Hmax).
    unfold rangeHeader. cbn [subNumbers].
    rewrite Number_toString_exact by lia. replace (end_ + 1 - 1) with end_ by lia.
    rewrite roundInteger_exact by lia. cbn [mbind option_bind].
    by rewrite Number_toString_exact by lia.
  - intros Hraw. destruct (offsets_without_range frag Hraw) as (Hnone & _).
    rewrite Hnone in Hrange. cbn [snd] in Hrange. by destruct Hrange as [_ ->].
  - intros r Hr Hnan. rewrite Hr in Hrange.
    destruct r as [[start |] [end_ |]]; cbn [fst snd] in Hnan;
      try (by destruct Hnan); by destruct Hrange as [_ ->].
Qed.

Lemma fragment_range_request_witness :
  rangeHeaders
    (onFragLoading (λ _ rel, rel) sampleConfig
       [{| core := parsedFragment 3 12 6 None;
           _url := Some "https://cdn/3.mp4"%string; baseurl := None;
           relurl := None; rawByteRange := Some "500@1000"%string; _byteRange := None;
           lastByteRangeEndOffset := None; loaded := None |}]
       FragmentLoadingHandler_new 0).1.2
  = [(Some 1000, 1500)].
Proof.
  pose proof (fragment_range_request (λ _ rel, rel) sampleConfig
                [{| core := parsedFragment 3 12 6 None;
                    _url := Some "https://cdn/3.mp4"%string; baseurl := None;
                    relurl := None; rawByteRange := Some "500@1000"%string;
                    _byteRange := None; lastByteRangeEndOffset := None;
                    loaded := None |}]
                FragmentLoadingHandler_new 0 _ eq_refl) as [H _].
  refine (proj1 (H 1000 1499 _ _ eq_refl ltac:(lia))).
  - unfold validBytes. lia.
  - vm_compute. reflexivity.
Defined.

(** Where the doubles thin out the header is another: for the bytes
    [2^53 .. 2^53] the request asks for [2^53 .. 2^53 - 1]. *)
Example fragment_range_beyond_2_53 :
  let frag := {| core := parsedFragment 3 12 6 None;
                 _url := Some "https://cdn/3.mp4"%string; baseurl := None;
                 relurl := None; rawByteRange := referenceRange (2 ^ 53) (2 ^ 53);
                 _byteRange := None; lastByteRangeEndOffset := None; loaded := None |} in
  rangeHeaders (onFragLoading (λ _ rel, rel) sampleConfig [frag]
                  FragmentLoadingHandler_new 0).1.2
  = [(Some (2 ^ 53), 2 ^ 53)] ∧
  rangeHeader (2 ^ 53) (2 ^ 53) = Some "bytes=9007199254740992-9007199254740991"%string.
Proof. vm_compute. done. Qed.

(** X13.  The request timer of a fragment load fires: the engine reports
    the timeout, the handler cancels the request, frees the lane of the
    fragment's type and signals the fragment load timeout, not fatal.  The
    fragment keeps pointing at the cancelled engine.  From then on the
    request is mute: an answer that comes late changes nothing and signals
    nothing, and the timer does not fire again. *)
Theorem fragment_timeout_cancels (b : option string → string → string)
    (config : HlsConfig) (frags : list LoadableFragment) (h : FragmentLoadingHandler)
    (f : nat) (frag : LoadableFragment) :
  frags !! f = Some frag →
  let a := length (engines h) in
  let context := (loaderContextFor b f (prepared frag a)).2 in
  let started := onFragLoading b config frags h f in
  let timedOut := requestTimeout started.1.1.1 started.1.1.2 a in
  timedOut.2 = None ∧
  timedOut.1.2
  = [EngineDid a (OnTimeout context); EngineDid a XhrAbort;
     TriggerError FRAG_LOAD_TIMEOUT false f] ∧
  timedOut.1.1.1 = started.1.1.1 ∧
  (loader ∘ core <$> timedOut.1.1.1 !! f) = Some (Some a) ∧
  _loaders timedOut.1.1.2 !! Playlist.type (core frag) = None ∧
  (aborted <$> (engines timedOut.1.1.2 !! a ≫= _stats)) = Some true ∧
  (∀ status,
     answer timedOut.1.1.1 timedOut.1.1.2 a status
     = (timedOut.1.1.1, timedOut.1.1.2, [], None)) ∧
  requestTimeout timedOut.1.1.1 timedOut.1.1.2 a
  = (timedOut.1.1.1, timedOut.1.1.2, [], None).
Proof.
  intros Hf a context started timedOut.
  pose proof (onFragLoading_started b config frags h f frag Hf) as Hstart.
  cbn zeta in Hstart. fold a in Hstart. fold context in Hstart.
  pose proof (lane_abort_length (engines h) (_loaders h !! Playlist.type (core frag)))
    as Hlen.
  destruct (loaderContextFor_core b f (prepared frag a)) as (Hcore & _ & _ & Hcf).
  fold context in Hcf.
  set (lane := abortLane (engines h) (_loaders h !! Playlist.type (core frag))) in *.
  set (located := (loaderContextFor b f (prepared frag a)).1) in *.
  set (cfg := fragLoaderConfig config) in *.
  assert (f < length frags)%nat as Hlt by (by eapply lookup_lt_Some).
  assert (∀ e : NetworkEngine, (lane.1 ++ [e]) !! a = Some e) as Hat.
  { intros e. rewrite lookup_app_r by lia. by rewrite Hlen, Nat.sub_diag. }
  assert (∀ e e' : NetworkEngine, <[a := e']> (lane.1 ++ [e]) = lane.1 ++ [e']) as Hins.
  { intros e e'. rewrite insert_app_r_alt by lia. by rewrite Hlen, Nat.sub_diag. }
  assert (Playlist.type (core located) = Playlist.type (core frag)) as Hty
    by (by rewrite Hcore).
  assert (loader (core located) = Some a) as Hloader by (by rewrite Hcore).
  set (cancelled :=
         {| _xhr := Some {| readyState := 1 |}; _requestTimeout := None;
            _retryTimeout := None; _retryDelay := retryDelay cfg; _config := Some cfg;
            _stats := Some {| aborted := true; retry := 0 |};
            _context := Some context |}).
  assert (timedOut
          = (<[f := located]> frags,
             {| engines := lane.1 ++ [cancelled];
                _loaders := delete (Playlist.type (core frag))
                              (<[Playlist.type (core frag) := a]> (_loaders h)) |},
             [EngineDid a (OnTimeout context); EngineDid a XhrAbort;
              TriggerError FRAG_LOAD_TIMEOUT false f], None)) as Htimed.
  { subst timedOut started. rewrite Hstart. cbn [fst snd].
    unfold requestTimeout. cbn [engines]. rewrite Hat.
    cbn [PlaylistLoadingLaws.sentEngine _requestTimeout].
    rewrite bool_decide_eq_true_2 by done.
    unfold NetworkEngine._handleTimeout.
    cbn [PlaylistLoadingLaws.sentEngine _context _xhr _retryTimeout _retryDelay _config
         _stats].
    unfold setEngine. cbn [engines _loaders]. rewrite Hins.
    cbn [deliver callback]. unfold _handleTimeout, _handleFailure.
    rewrite Hcf. cbn [mbind option_bind].
    rewrite list_lookup_insert_eq by done. cbn [mbind option_bind].
    rewrite Hty, Hloader. unfold abortLane. cbn [engines]. rewrite Hat.
    cbn [abort _xhr readyState Z.eqb Pos.eqb negb set_aborted _stats fmap list_fmap
         app fst snd engines _loaders retry _requestTimeout _retryTimeout _retryDelay
         _config _context].
    by rewrite Hins. }
  rewrite Htimed. subst started. rewrite Hstart. cbn [fst snd engines _loaders].
  split; [done |]. split; [done |]. split; [done |].
  split; [by rewrite list_lookup_insert_eq, <- Hloader by done |].
  split; [apply lookup_delete_eq |].
  split; [by rewrite Hat |].
  split.
  - intros status. unfold answer. cbn [engines]. rewrite Hat.
    change (PlaylistLoading.requestActive cancelled) with true. cbv iota.
    unfold _handleReadyStateChange. cbn [cancelled _stats _context _config aborted].
    cbn [deliver]. unfold setEngine. cbn [engines _loaders]. by rewrite Hins.
  - unfold requestTimeout. cbn [engines]. rewrite Hat.
    by rewrite bool_decide_eq_false_2 by (by intros [? ?]).
Qed.

Lemma fragment_timeout_cancels_witness :
  let frags := [{| core := parsedFragment 3 12 6 None;
                   _url := Some "https://cdn/3.ts"%string; baseurl := None;
                   relurl := None; rawByteRange := None; _byteRange := None;
                   lastByteRangeEndOffset := None; loaded := None |}] in
  let started :=
    onFragLoading (λ _ rel, rel) sampleConfig frags FragmentLoadingHandler_new 0 in
  let timedOut := requestTimeout started.1.1.1 started.1.1.2 0 in
  timedOut.2 = None ∧
  answer timedOut.1.1.1 timedOut.1.1.2 0 200 = (timedOut.1.1.1, timedOut.1.1.2, [], None).
Proof.
  pose proof (fragment_timeout_cancels (λ _ rel, rel) sampleConfig
                [{| core := parsedFragment 3 12 6 None;
                    _url := Some "https://cdn/3.ts"%string; baseurl := None;
                    relurl := None; rawByteRange := None; _byteRange := None;
                    lastByteRangeEndOffset := None; loaded := None |}]
                FragmentLoadingHandler_new 0 _ eq_refl) as H.
  cbv zeta in *. destruct H as (Hquiet & _ & _ & _ & _ & _ & Hmute & _).
  split; [exact Hquiet | exact (Hmute 200)].
Defined.

End FragmentLoadingLaws.

(** ** Alternate media tracks of a master playlist
       (createTrackListsFromM3u8, MediaTrack) *)

Module MediaTrack.

Inductive AlternateMediaType : Type :=
| AUDIO
| SUBTITLES.

(** The fields of a master-playlist level that [createTrackListsFromM3u8]
    reads: the [AUDIO] attribute and the audio codec. *)
Record MasterLevel : Type := mkMasterLevel {
  attrs_AUDIO : option string;
  audioCodec : option string
}.

(** A [MediaTrack]: its type and id, as the constructor takes them, and the
    fields the constructor sets to [null] that the modelled code reads. *)
Record MediaTrack : Type := mkMediaTrack {
  track_type : AlternateMediaType;
  track_id : option Z;
  track_groupId : option string;
  track_name : option string;
  track_url : option string
}.

(** [new MediaTrack(type, id)]. *)
Definition MediaTrack_new (type : AlternateMediaType) (id : option Z) : MediaTrack :=
  {| track_type := type; track_id := id; track_groupId := None; track_name := None;
     track_url := None |}.

Record AlternateMediaSet : Type := mkMediaSet {
  set_SUBTITLES : list MediaTrack;
  set_AUDIO : list MediaTrack
}.

Section Parser.

(** [M3U8Parser.parseMasterPlaylistMedia] (m3u8/m3u8-parser, not among the
    sources): data, base URL, media type and the audio groups, which are
    left out for subtitles. *)
Variable parseMasterPlaylistMedia :
  string → option string → AlternateMediaType →
  option (list (option string * option string)) → list MediaTrack.

(** [createTrackListsFromM3u8(data, baseUrl, levels)]. *)
Definition createTrackListsFromM3u8 (data : string) (baseUrl : option string)
    (levels : list MasterLevel) : completion AlternateMediaSet :=
  let audioGroups := (λ level, (attrs_AUDIO level, audioCodec level)) <$> levels in
  let audioTracks := parseMasterPlaylistMedia data baseUrl AUDIO (Some audioGroups) in
  let subtitleTracks := parseMasterPlaylistMedia data baseUrl SUBTITLES None in
  if negb (length audioTracks =? 0)%nat then
    let embeddedAudioFound :=
      existsb (λ audioTrack, negb (Fragment.truthyString (track_url audioTrack)))
              audioTracks in
    if embeddedAudioFound
    then Returns {| set_SUBTITLES := subtitleTracks; set_AUDIO := audioTracks |}
    else
      match levels with
      | [] => Throws "TypeError: levels[0] is undefined"
      | level0 :: _ =>
          if Fragment.truthyString (audioCodec level0)
             && negb (Fragment.truthyString (attrs_AUDIO level0))
          then Returns {| set_SUBTITLES := subtitleTracks;
                          set_AUDIO := MediaTrack_new AUDIO None :: audioTracks |}
          else Returns {| set_SUBTITLES := subtitleTracks; set_AUDIO := audioTracks |}
      end
  else Returns {| set_SUBTITLES := subtitleTracks; set_AUDIO := audioTracks |}.

End Parser.

End MediaTrack.

(** ** From a playlist body to signals
       (PlaylistLoadingHandler, m3u8/media-variant.ts) *)

Module PlaylistParsing.
Import NetworkEngine PlaylistLoading JsString FragmentResource MediaTrack.

(** The fields of a parsed media playlist ([MediaVariant]) the handler
    reads or writes. *)
Record MediaVariant : Type := mkVariant {
  targetduration : number;
  needSidxRanges : bool;
  initSegment : option LoadableFragment;
  fragments : list LoadableFragment
}.

Inductive LevelType : Type :=
| LevelType_MAIN
| LevelType_AUDIO
| LevelType_SUBTITLE.

(** A response with a text body. *)
Record Response : Type := mkResponse {
  response_url : option string;
  response_data : string
}.

(** What [MP4Demuxer.parseSegmentIndex] (not among the sources) returns, as
    far as the handler reads it: the first and last byte of each reference
    and the end of the [moov] box. *)
Record SidxInfo : Type := mkSidx {
  references : list (Z * Z);
  moovEndOffset : Z
}.

(** A level of the manifest-loaded signal: a level of a master playlist, or
    the single level made up for a media playlist. *)
Inductive ManifestLevel : Type :=
| ParsedLevel (level : MasterLevel)
| SingleLevel (url : option string) (details : MediaVariant).

Inductive Signal : Type :=
| MANIFEST_LOADED (levels : list ManifestLevel)
    (audioTracks subtitleTracks : list MediaTrack) (url : option string)
| LEVEL_LOADED (details : MediaVariant) (level id : Z)
| AUDIO_TRACK_LOADED (details : MediaVariant) (id : option Z)
| SUBTITLE_TRACK_LOADED (details : MediaVariant) (id : option Z)
| ERROR_MANIFEST_PARSING (fatal : bool) (url : option string) (reason : string).

(** What the handler does: a signal, or a step of request handling. *)
Inductive ParsingEffect : Type :=
| Trigger (signal : Signal)
| Did (eff : HandlerEffect).

(** A step: the handler after it, what it did, and the message of the
    exception if it threw. *)
Definition pstep : Type := PlaylistLoadingHandler * list ParsingEffect * option string.

(** The three kinds of body [loadsuccess] tells apart. *)
Inductive BodyKind : Type :=
| NotAPlaylist
| TrackOrLevelPlaylist
| MasterPlaylist.

(** The tests of [loadsuccess] on the body. *)
Definition bodyKind (data : string) : BodyKind :=
  if negb (indexOf data "#EXTM3U" =? 0) then NotAPlaylist
  else if (0 <? indexOf data "#EXTINF:") || (0 <? indexOf data "#EXT-X-TARGETDURATION:")
  then TrackOrLevelPlaylist
  else MasterPlaylist.

Definition canHaveQualityLevels (type : NetworkEngineContextType) : bool :=
  negb (bool_decide (type = AUDIO_TRACK)) && negb (bool_decide (type = SUBTITLE_TRACK)).

Definition mapContextToLevelType (context : NetworkEngineContext) : LevelType :=
  match ctx_type context with
  | AUDIO_TRACK => LevelType_AUDIO
  | SUBTITLE_TRACK => LevelType_SUBTITLE
  | _ => LevelType_MAIN
  end.

(** [getResponseUrl(response, context)]: the URL of the response, unless it
    is missing or a [data:] URL. *)
Definition getResponseUrl (response : Response) (context : NetworkEngineContext)
    : option string :=
  match response_url response with
  | None => ctx_url context
  | Some url => if indexOf url "data:" =? 0 then ctx_url context else Some url
  end.

Definition _handleManifestParsingError (response : Response) (reason : string)
    : list ParsingEffect :=
  [Trigger (ERROR_MANIFEST_PARSING true (response_url response) reason)].

(** [_handlePlaylistLoaded(response, stats, context, networkDetails)] with
    [context.levelDetails = levelDetails]. *)
Definition _handlePlaylistLoaded (response : Response) (context : NetworkEngineContext)
    (levelDetails : MediaVariant) : list ParsingEffect :=
  if negb (truthyNumber (targetduration levelDetails))
  then _handleManifestParsingError response "invalid target duration"
  else if canHaveQualityLevels (ctx_type context)
  then [Trigger (LEVEL_LOADED levelDetails (default 0 (ctx_level context))
                   (default 0 (ctx_id context)))]
  else
    match ctx_type context with
    | AUDIO_TRACK => [Trigger (AUDIO_TRACK_LOADED levelDetails (ctx_id context))]
    | SUBTITLE_TRACK => [Trigger (SUBTITLE_TRACK_LOADED levelDetails (ctx_id context))]
    | _ => []
    end.

(** The body of the [forEach] of [_handleSidxRequest] on the fragment it
    finds: the fragment gets the byte range of the reference unless it has
    one.  [None] where the raw range to write is one the model does not
    describe (see [Number_toString]). *)
Definition fillByteRange (frag : LoadableFragment) (reference : Z * Z)
    : option LoadableFragment :=
  let '(frag1, range) := byteRange frag in
  match range with
  | Some _ => Some frag1
  | None =>
      raw ← referenceRange reference.1 reference.2;
      Some (setRawByteRange frag1 (Some raw))
  end.

(** One round of the [forEach]: the fragment at the index of the reference
    must be there. *)
Definition applyReference (fragments : option (completion (list LoadableFragment)))
    (entry : nat * (Z * Z)) : option (completion (list LoadableFragment)) :=
  match fragments with
  | Some (Returns frags) =>
      match frags !! entry.1 with
      | None => Some (Throws "TypeError: frag is undefined")
      | Some frag =>
          frag' ← fillByteRange frag entry.2;
          Some (Returns (<[entry.1 := frag']> frags))
      end
  | _ => fragments
  end.

(** [_handleSidxRequest(response, context)] on the details of the context,
    with the parsed segment index. *)
Definition _handleSidxRequest (sidxInfo : SidxInfo) (levelDetails : MediaVariant)
    : option (completion MediaVariant) :=
  match foldl applyReference (Some (Returns (fragments levelDetails)))
          (imap (λ index reference, (index, reference)) (references sidxInfo)) with
  | None => None
  | Some (Throws msg) => Some (Throws msg)
  | Some (Returns fragments') =>
      match initSegment levelDetails with
      | None => Some (Throws "TypeError: initSegment is null")
      | Some init =>
          raw ← Number_toString (moovEndOffset sidxInfo);
          Some (Returns
                  {| targetduration := targetduration levelDetails;
                     needSidxRanges := needSidxRanges levelDetails;
                     initSegment := Some (setRawByteRange init (Some (raw ++ "@0")%string));
                     fragments := fragments' |})
      end
  end.

Section Parsers.

(** The parsers of m3u8/m3u8-parser and transmux/demux/mp4demuxer, which are
    not among the sources, and the URL resolver of url-toolkit. *)
Variable parseMasterPlaylist : string → option string → list MasterLevel.
Variable parseMasterPlaylistMedia :
  string → option string → AlternateMediaType →
  option (list (option string * option string)) → list MediaTrack.
Variable parseLevelPlaylist : string → option string → Z → LevelType → Z → MediaVariant.
Variable buildAbsoluteURL : option string → string → string.

(** [createVariantFromM3u8] (m3u8/media-variant.ts). *)
Definition createVariantFromM3u8 (data : string) (url : option string) (levelId : Z)
    (levelType : LevelType) (levelUrlId : Z) : MediaVariant :=
  parseLevelPlaylist data url levelId levelType levelUrlId.

(** [_handleMasterPlaylist(response, stats, context, networkDetails)]. *)
Definition _handleMasterPlaylist (h : PlaylistLoadingHandler) (response : Response)
    (context : NetworkEngineContext) : pstep :=
  let url := getResponseUrl response context in
  let levels := parseMasterPlaylist (response_data response) url in
  if (length levels =? 0)%nat
  then (h, _handleManifestParsingError response "no level found in manifest", None)
  else
    match createTrackListsFromM3u8 parseMasterPlaylistMedia (response_data response) url
            levels with
    | Throws msg => (h, [], Some msg)
    | Returns trackSet =>
        (h, [Trigger (MANIFEST_LOADED (ParsedLevel <$> levels) (set_AUDIO trackSet)
                        (set_SUBTITLES trackSet) url)], None)
    end.

(** The context of the request for the segment index. *)
Definition sidxContext (context : NetworkEngineContext) : NetworkEngineContext :=
  {| ctx_type := ctx_type context; ctx_id := ctx_id context;
     ctx_level := ctx_level context; ctx_url := None;
     ctx_responseType := "arraybuffer"; ctx_isSidxRequest := true;
     ctx_rangeStart := Some 0; ctx_rangeEnd := Some 2048; ctx_frag := None |}.

(** [_handleTrackOrLevelPlaylist(response, stats, context, networkDetails)].
    The result is [None] when the playlist needs a segment index and its
    init segment has no URL: a load of [null] is outside the model.  The
    last component is the [levelDetails] the context of a segment-index
    request carries. *)
Definition _handleTrackOrLevelPlaylist (config : HlsConfig) (h : PlaylistLoadingHandler)
    (response : Response) (context : NetworkEngineContext)
    : option (pstep * option MediaVariant) :=
  let url := getResponseUrl response context in
  let levelUrlId := default 0 (ctx_id context) in
  let levelId := default levelUrlId (ctx_level context) in
  let levelType := mapContextToLevelType context in
  let levelDetails :=
    createVariantFromM3u8 (response_data response) url levelId levelType levelUrlId in
  let manifestLoaded :=
    if bool_decide (ctx_type context = MANIFEST)
    then [Trigger (MANIFEST_LOADED [SingleLevel url levelDetails] [] [] url)]
    else [] in
  if needSidxRanges levelDetails then
    match initSegment levelDetails with
    | None => Some ((h, manifestLoaded, Some "TypeError: initSegment is null"%string), None)
    | Some init =>
        let '(init', sidxUrl) := FragmentResource.url buildAbsoluteURL init in
        let levelDetails' :=
          {| targetduration := targetduration levelDetails;
             needSidxRanges := needSidxRanges levelDetails;
             initSegment := Some init'; fragments := fragments levelDetails |} in
        match sidxUrl with
        | None => None
        | Some sidxUrl' =>
            let '(h1, effects, thrown) :=
              (load config h sidxUrl' (sidxContext context)).1 in
            Some ((h1, manifestLoaded ++ (Did <$> effects), thrown), Some levelDetails')
        end
    end
  else
    Some ((h, manifestLoaded ++ _handlePlaylistLoaded response context levelDetails, None),
          None).

(** [loadsuccess(response, stats, context)] for a request that is not a
    segment-index request. *)
Definition loadsuccess_playlist (config : HlsConfig) (h : PlaylistLoadingHandler)
    (response : Response) (context : NetworkEngineContext)
    : option (pstep * option MediaVariant) :=
  let h1 := resetInternalLoader h (ctx_type context) in
  match bodyKind (response_data response) with
  | NotAPlaylist =>
      Some ((h1, _handleManifestParsingError response "no EXTM3U delimiter", None), None)
  | TrackOrLevelPlaylist => _handleTrackOrLevelPlaylist config h1 response context
  | MasterPlaylist => Some (_handleMasterPlaylist h1 response context, None)
  end.

(** [loadsuccess(response, stats, context)] for a segment-index request whose
    context carries [levelDetails]; the parsed segment index stands for the
    body. *)
Definition loadsuccess_sidx (h : PlaylistLoadingHandler) (response : Response)
    (sidxInfo : SidxInfo) (context : NetworkEngineContext) (levelDetails : MediaVariant)
    : option (pstep * option MediaVariant) :=
  match _handleSidxRequest sidxInfo levelDetails with
  | None => None
  | Some (Throws msg) => Some ((h, [], Some msg), None)
  | Some (Returns levelDetails') =>
      Some ((h, _handlePlaylistLoaded response context levelDetails', None),
            Some levelDetails')
  end.

End Parsers.

(** The signals of a trace. *)
Definition signals (effects : list ParsingEffect) : list Signal :=
  omap (λ eff, match eff with Trigger s => Some s | Did _ => None end) effects.

(** What the engines do in a trace. *)
Definition engineEffects (effects : list ParsingEffect) : list Effect :=
  omap (λ eff, match eff with Did (EngineDid _ e) => Some e | _ => None end) effects.

End PlaylistParsing.

Module MediaTrackLaws.
Import MediaTrack.

(** With a first level, [createTrackListsFromM3u8] returns; its audio list
    is the parser's, with an audio track without id and URL in front of it
    when the parser found tracks, all with a URL, and the first level has an
    audio codec and no audio group. *)
Lemma createTrackLists_returns
    (parse : string → option string → AlternateMediaType →
             option (list (option string * option string)) → list MediaTrack)
    (data : string) (baseUrl : option string) (level0 : MasterLevel)
    (levels : list MasterLevel) :
  let groups := (λ level, (attrs_AUDIO level, audioCodec level)) <$> (level0 :: levels) in
  let found := parse data baseUrl AUDIO (Some groups) in
  let withUrl := forallb (λ track, Fragment.truthyString (track_url track)) found in
  let mixed := Fragment.truthyString (audioCodec level0)
               && negb (Fragment.truthyString (attrs_AUDIO level0)) in
  createTrackListsFromM3u8 parse data baseUrl (level0 :: levels)
  = Returns {| set_SUBTITLES := parse data baseUrl SUBTITLES None;
               set_AUDIO := if negb (length found =? 0)%nat && withUrl && mixed
                            then MediaTrack_new AUDIO None :: found else found |}.
Proof.
  intros groups found withUrl mixed. unfold createTrackListsFromM3u8.
  fold groups. fold found. fold mixed.
  assert (existsb (λ track, negb (Fragment.truthyString (track_url track))) found
          = negb withUrl) as Hex.
  { subst withUrl. clearbody found. induction found as [| t l IH]; [done |].
    simpl. rewrite IH. by destruct (Fragment.truthyString (track_url t)). }
  rewrite Hex. clearbody withUrl mixed found.
  destruct (negb (length found =? 0)%nat); [| done]. cbn [andb].
  destruct withUrl; [| done]. cbn [negb]. by destruct mixed.
Qed.

Lemma existsb_forallb (found : list MediaTrack) :
  existsb (λ track, negb (Fragment.truthyString (track_url track))) found
  = negb (forallb (λ track, Fragment.truthyString (track_url track)) found).
Proof.
  induction found as [| t l IH]; [done |].
  simpl. rewrite IH. by destruct (Fragment.truthyString (track_url t)).
Qed.

(** X14.  The audio track list [createTrackListsFromM3u8] returns is the
    parser's list, with one track put in front of it in exactly one case:
    the parser found audio tracks, all of them with a URL, and the first
    level has an audio codec but no audio group.  The track put in front is
    an audio track without id and URL.  So whenever the parser found audio
    tracks and the first level has an audio codec and no audio group, the
    result holds a track without URL; the subtitle list is the parser's. *)
Theorem embedded_audio_track
    (parse : string → option string → AlternateMediaType →
             option (list (option string * option string)) → list MediaTrack)
    (data : string) (baseUrl : option string) (level0 : MasterLevel)
    (levels : list MasterLevel) :
  let groups := (λ level, (attrs_AUDIO level, audioCodec level)) <$> (level0 :: levels) in
  let found := parse data baseUrl AUDIO (Some groups) in
  let withUrl := forallb (λ track, Fragment.truthyString (track_url track)) found in
  let mixed := Fragment.truthyString (audioCodec level0)
               && negb (Fragment.truthyString (attrs_AUDIO level0)) in
  ∃ trackSet,
    createTrackListsFromM3u8 parse data baseUrl (level0 :: levels) = Returns trackSet ∧
    set_SUBTITLES trackSet = parse data baseUrl SUBTITLES None ∧
    set_AUDIO trackSet
    = (if negb (length found =? 0)%nat && withUrl && mixed
       then MediaTrack_new AUDIO None :: found else found) ∧
    (found ≠ [] → mixed = true →
     existsb (λ track, negb (Fragment.truthyString (track_url track)))
             (set_AUDIO trackSet) = true).
Proof.
  intros groups found withUrl mixed.
  pose proof (createTrackLists_returns parse data baseUrl level0 levels) as Hcall.
  cbn zeta in Hcall. fold groups in Hcall. fold found in Hcall.
  fold withUrl in Hcall. fold mixed in Hcall.
  eexists. split; [exact Hcall |]. split; [done |]. split; [done |].
  cbn [set_AUDIO]. intros Hfound Hmixed. rewrite Hmixed, andb_true_r.
  destruct withUrl eqn:Hw; rewrite ?andb_true_r, ?andb_false_r.
  - destruct found; [done | done].
  - rewrite existsb_forallb. fold withUrl. by rewrite Hw.
Qed.

End MediaTrackLaws.

Module PlaylistParsingLaws.
Import NetworkEngine PlaylistLoading PlaylistLoadingSpec.
Import JsString JsStringLaws FragmentResource FragmentResourceLaws MediaTrack.
Import PlaylistParsing.

Lemma starts_with_EXTM3U (data : string) :
  String.prefix "#EXTM3U" data = true →
  String.prefix "#EXTINF:" data = false ∧
  String.prefix "#EXT-X-TARGETDURATION:" data = false.
Proof.
  intros H. apply prefix_app in H as [after ->]. split; reflexivity.
Qed.

(** X15.  How [loadsuccess] sorts a body.  A body that does not start with
    [#EXTM3U] is no playlist: the registration of the request is cleared, the
    only signal is a fatal parsing error with the reason
    [no EXTM3U delimiter] and the URL of the response, and no parser runs.
    A body that starts with [#EXTM3U] is a track or level playlist exactly
    when [#EXTINF:] or [#EXT-X-TARGETDURATION:] occurs in it, and a master
    playlist otherwise: testing the position for [> 0] loses nothing, since
    neither tag can stand where [#EXTM3U] stands. *)
Theorem playlist_body_kinds (data : string) :
  (bodyKind data = NotAPlaylist ↔ String.prefix "#EXTM3U" data = false) ∧
  (bodyKind data = TrackOrLevelPlaylist ↔
   String.prefix "#EXTM3U" data = true
   ∧ (includes data "#EXTINF:" ∨ includes data "#EXT-X-TARGETDURATION:")) ∧
  (bodyKind data = MasterPlaylist ↔
   String.prefix "#EXTM3U" data = true
   ∧ ¬ includes data "#EXTINF:" ∧ ¬ includes data "#EXT-X-TARGETDURATION:") ∧
  (∀ parseMaster parseMedia parseLevel b config h response context,
     response_data response = data → String.prefix "#EXTM3U" data = false →
     loadsuccess_playlist parseMaster parseMedia parseLevel b config h response context
     = Some ((resetInternalLoader h (ctx_type context),
              [Trigger (ERROR_MANIFEST_PARSING true (response_url response)
                          "no EXTM3U delimiter")], None), None)).
Proof.
  assert (bodyKind data = NotAPlaylist ↔ String.prefix "#EXTM3U" data = false) as Hnot.
  { unfold bodyKind. pose proof (indexOf_0 data "#EXTM3U") as H0.
    destruct (indexOf data "#EXTM3U" =? 0) eqn:E; cbn [negb].
    - apply Z.eqb_eq, H0 in E. rewrite E.
      split; [by destruct (_ || _) | done].
    - split; [intros _ | done]. apply Z.eqb_neq in E.
      destruct (String.prefix "#EXTM3U" data); [| done]. by destruct E; apply H0. }
  assert (String.prefix "#EXTM3U" data = true →
          ((0 <? indexOf data "#EXTINF:") || (0 <? indexOf data "#EXT-X-TARGETDURATION:")
           = true
           ↔ includes data "#EXTINF:" ∨ includes data "#EXT-X-TARGETDURATION:")) as Htags.
  { intros Hp. destruct (starts_with_EXTM3U data Hp) as [H1 H2].
    rewrite orb_true_iff, !Z.ltb_lt.
    by rewrite (indexOf_positive data _ H1), (indexOf_positive data _ H2). }
  split; [exact Hnot |]. split; [| split].
  - split.
    + intros Hk.
      destruct (Sumbool.sumbool_of_bool (String.prefix "#EXTM3U" data)) as [Hp | Hp].
      * split; [done |]. apply (Htags Hp). unfold bodyKind in Hk.
        apply indexOf_0 in Hp. rewrite Hp in Hk. cbn [Z.eqb negb] in Hk.
        by destruct (_ || _).
      * apply Hnot in Hp. congruence.
    + intros [Hp Hin]. apply (Htags Hp) in Hin. unfold bodyKind.
      apply indexOf_0 in Hp. rewrite Hp. cbn [Z.eqb negb]. by rewrite Hin.
  - split.
    + intros Hk.
      destruct (Sumbool.sumbool_of_bool (String.prefix "#EXTM3U" data)) as [Hp | Hp].
      * split; [done |]. unfold bodyKind in Hk.
        pose proof (Htags Hp) as Ht.
        apply indexOf_0 in Hp. rewrite Hp in Hk. cbn [Z.eqb negb] in Hk.
        destruct (_ || _); [done |].
        split; intros Hin; [assert (false = true) by (apply Ht; by left)
                           | assert (false = true) by (apply Ht; by right)]; done.
      * apply Hnot in Hp. congruence.
    + intros (Hp & Hn1 & Hn2). unfold bodyKind.
      pose proof (Htags Hp) as Ht. apply indexOf_0 in Hp. rewrite Hp.
      cbn [Z.eqb negb]. destruct (_ || _); [| done].
      destruct (proj1 Ht eq_refl); done.
  - intros parseMaster parseMedia parseLevel b config h response context Hdata Hp.
    unfold loadsuccess_playlist. rewrite Hdata. apply Hnot in Hp. by rewrite Hp.
Qed.

(** After [resetInternalLoader] no engine is registered under the type. *)
Lemma reset_unregistered (h : PlaylistLoadingHandler) (t : NetworkEngineContextType) :
  getInternalLoader (resetInternalLoader h t) t = None.
Proof.
  unfold getInternalLoader, resetInternalLoader. cbn [loaders].
  by rewrite lookup_delete_eq.
Qed.

(** The outcome [_handlePlaylistLoaded] signals for parsed details. *)
Definition outcome (response : Response) (context : NetworkEngineContext)
    (details : MediaVariant) : Signal :=
  if truthyNumber (targetduration details) then
    match ctx_type context with
    | AUDIO_TRACK => AUDIO_TRACK_LOADED details (ctx_id context)
    | SUBTITLE_TRACK => SUBTITLE_TRACK_LOADED details (ctx_id context)
    | _ => LEVEL_LOADED details (default 0 (ctx_level context))
             (default 0 (ctx_id context))
    end
  else ERROR_MANIFEST_PARSING true (response_url response) "invalid target duration".

Lemma _handlePlaylistLoaded_outcome (response : Response)
    (context : NetworkEngineContext) (details : MediaVariant) :
  _handlePlaylistLoaded response context details
  = [Trigger (outcome response context details)].
Proof.
  unfold _handlePlaylistLoaded, outcome, _handleManifestParsingError,
    canHaveQualityLevels.
  destruct (truthyNumber (targetduration details)); [| done]. cbn [negb].
  by destruct (ctx_type context).
Qed.

Lemma signals_app (l1 l2 : list ParsingEffect) :
  signals (l1 ++ l2) = signals l1 ++ signals l2.
Proof. apply omap_app. Qed.

Lemma engineEffects_app (l1 l2 : list ParsingEffect) :
  engineEffects (l1 ++ l2) = engineEffects l1 ++ engineEffects l2.
Proof. apply omap_app. Qed.

Lemma signals_Did (l : list HandlerEffect) : signals (Did <$> l) = [].
Proof. by induction l. Qed.

Lemma engineEffects_EngineDid (a : nat) (l : list Effect) :
  engineEffects (Did <$> (EngineDid a <$> l)) = l.
Proof. induction l as [| e l IH]; [done |]. simpl. f_equal. exact IH. Qed.

(** The manifest-loaded signal a media playlist gets when it answers the
    request for the manifest. *)
Definition asManifest (context : NetworkEngineContext) (url : option string)
    (details : MediaVariant) : list Signal :=
  if bool_decide (ctx_type context = MANIFEST)
  then [MANIFEST_LOADED [SingleLevel url details] [] [] url]
  else [].

(** X16.  What the answer to a playlist request signals when the body is a
    track or level playlist that needs no segment index.  The registration
    of the request is cleared, nothing throws and no request is made.
    Exactly one outcome is signalled: a parsing error with the reason
    [invalid target duration] when the target duration is zero or not a
    number, else the loaded signal of the context type, where a missing
    level or id is reported as [0] for a level.  When the request was the
    one for the manifest, the manifest-loaded signal with the playlist as
    its single level comes first, also when the parsing error follows. *)
Theorem media_playlist_signals
    (parseMaster : string → option string → list MasterLevel)
    (parseMedia : string → option string → AlternateMediaType →
                  option (list (option string * option string)) → list MediaTrack)
    (parseLevel : string → option string → Z → LevelType → Z → MediaVariant)
    (b : option string → string → string)
    (config : HlsConfig) (h : PlaylistLoadingHandler) (response : Response)
    (context : NetworkEngineContext) :
  bodyKind (response_data response) = TrackOrLevelPlaylist →
  let url := getResponseUrl response context in
  let details :=
    parseLevel (response_data response) url
      (default (default 0 (ctx_id context)) (ctx_level context))
      (mapContextToLevelType context) (default 0 (ctx_id context)) in
  needSidxRanges details = false →
  ∃ effects,
    loadsuccess_playlist parseMaster parseMedia parseLevel b config h response context
    = Some ((resetInternalLoader h (ctx_type context), effects, None), None) ∧
    engineEffects effects = [] ∧
    signals effects = asManifest context url details ++ [outcome response context details].
Proof.
  intros Hkind url details Hsidx.
  unfold loadsuccess_playlist. rewrite Hkind.
  unfold _handleTrackOrLevelPlaylist, createVariantFromM3u8.
  fold url. fold details. rewrite Hsidx.
  eexists. split; [reflexivity |].
  rewrite _handlePlaylistLoaded_outcome, engineEffects_app, signals_app.
  unfold asManifest. by case_bool_decide.
Qed.

(** A media playlist of one target duration and no fragments, and a parser
    that returns it. *)
Definition sampleVariant : MediaVariant :=
  {| targetduration := Finite 6; needSidxRanges := false; initSegment := None;
     fragments := [] |}.

Definition sampleResponse (data : string) : Response :=
  {| response_url := Some "https://cdn/a.m3u8"%string; response_data := data |}.

Lemma media_playlist_signals_witness :
  ∃ effects,
    loadsuccess_playlist (λ _ _, []) (λ _ _ _ _, []) (λ _ _ _ _ _, sampleVariant)
      (λ _ rel, rel) sampleConfig PlaylistLoadingHandler_new
      (sampleResponse "#EXTM3U #EXT-X-TARGETDURATION:6") (playlistContext MANIFEST)
    = Some ((resetInternalLoader PlaylistLoadingHandler_new MANIFEST, effects, None),
            None) ∧
    engineEffects effects = [] ∧
    signals effects
    = [MANIFEST_LOADED [SingleLevel (Some "https://cdn/a.m3u8"%string) sampleVariant]
         [] [] (Some "https://cdn/a.m3u8"%string);
       LEVEL_LOADED sampleVariant 0 0].
Proof.
  exact (media_playlist_signals (λ _ _, []) (λ _ _ _ _, []) (λ _ _ _ _ _, sampleVariant)
           (λ _ rel, rel) sampleConfig PlaylistLoadingHandler_new
           (sampleResponse "#EXTM3U #EXT-X-TARGETDURATION:6") (playlistContext MANIFEST)
           eq_refl eq_refl).
Defined.

(** X17.  A track or level playlist that needs a segment index is not
    signalled as loaded when its body arrives.  Instead one request is made,
    on a new engine registered under the type of the playlist request: for
    the URL of the init segment, with the context marked as a segment-index
    request, and with the header [Range: bytes=0-2047].  The only signal at
    this point is the manifest-loaded one, when the request was the one for
    the manifest.  The details are kept for the answer to that request, with
    the URL of the init segment remembered. *)
Theorem segment_index_requested_first
    (parseMaster : string → option string → list MasterLevel)
    (parseMedia : string → option string → AlternateMediaType →
                  option (list (option string * option string)) → list MediaTrack)
    (parseLevel : string → option string → Z → LevelType → Z → MediaVariant)
    (b : option string → string → string)
    (config : HlsConfig) (h : PlaylistLoadingHandler) (response : Response)
    (context : NetworkEngineContext) (init : LoadableFragment) (sidxUrl : string) :
  bodyKind (response_data response) = TrackOrLevelPlaylist →
  let url := getResponseUrl response context in
  let details :=
    parseLevel (response_data response) url
      (default (default 0 (ctx_id context)) (ctx_level context))
      (mapContextToLevelType context) (default 0 (ctx_id context)) in
  needSidxRanges details = true → initSegment details = Some init →
  (FragmentResource.url b init).2 = Some sidxUrl →
  let request := PlaylistLoadingLaws.withUrl (sidxContext context) sidxUrl in
  let options := loaderConfigFor config (ctx_type context) in
  ∃ h1 effects kept,
    loadsuccess_playlist parseMaster parseMedia parseLevel b config h response context
    = Some ((h1, effects, None), Some kept) ∧
    signals effects = asManifest context url details ∧
    engineEffects effects
    = [XhrOpen (Some sidxUrl); XhrSetRangeHeader (Some 0) 2048;
       SetRequestTimeout (timeout options); XhrSend] ∧
    rangeHeader 0 2048 = Some "bytes=0-2047"%string ∧
    getInternalLoader h1 (ctx_type context)
    = Some (length (engines h), PlaylistLoadingLaws.sentEngine request options) ∧
    ctx_isSidxRequest request = true ∧ ctx_type request = ctx_type context ∧
    ctx_level request = ctx_level context ∧ ctx_id request = ctx_id context ∧
    fragments kept = fragments details ∧
    initSegment kept = Some (FragmentResource.url b init).1.
Proof.
  intros Hkind url details Hsidx Hinit Hurl request options.
  unfold loadsuccess_playlist. rewrite Hkind.
  unfold _handleTrackOrLevelPlaylist, createVariantFromM3u8.
  fold url. fold details. rewrite Hsidx, Hinit.
  destruct (FragmentResource.url b init) as [init' u]. cbn [snd fst] in *. subst u.
  unfold load. rewrite reset_unregistered.
  cbn [sidxContext ctx_type ctx_id ctx_level ctx_responseType ctx_isSidxRequest
       ctx_rangeStart ctx_rangeEnd ctx_frag].
  change (NetworkEngine.load NetworkEngine_new _ _)
    with (PlaylistLoadingLaws.sentEngine request options,
          NetworkEngineLaws.execEffects request options, @None string).
  cbn [fst]. eexists _, _, _. split; [reflexivity |].
  cbn [app]. rewrite signals_app, engineEffects_app, signals_Did, engineEffects_EngineDid.
  rewrite app_nil_r.
  split; [unfold asManifest; by case_bool_decide |].
  split; [by case_bool_decide |].
  split; [vm_compute; reflexivity |]. split; [| done].
  unfold getInternalLoader, resetInternalLoader. cbn [loaders engines].
  rewrite lookup_insert_eq. by rewrite lookup_app_r, Nat.sub_diag by done.
Qed.

(** A fragment at a URL, without byte range. *)
Definition fragmentAt (u : string) : LoadableFragment :=
  {| core := parsedFragment 0 0 6 None; _url := Some u; baseurl := None;
     relurl := None; rawByteRange := None; _byteRange := None;
     lastByteRangeEndOffset := None; loaded := None |}.

(** A media playlist in one file: an init segment and two fragments, whose
    bytes the segment index is to tell. *)
Definition indexedVariant : MediaVariant :=
  {| targetduration := Finite 6; needSidxRanges := true;
     initSegment := Some (fragmentAt "https://cdn/v.mp4");
     fragments := [fragmentAt "https://cdn/v.mp4"; fragmentAt "https://cdn/v.mp4"] |}.

Lemma segment_index_requested_first_witness :
  ∃ h1 effects kept,
    loadsuccess_playlist (λ _ _, []) (λ _ _ _ _, []) (λ _ _ _ _ _, indexedVariant)
      (λ _ rel, rel) sampleConfig PlaylistLoadingHandler_new
      (sampleResponse "#EXTM3U #EXT-X-TARGETDURATION:6") (playlistContext LEVEL)
    = Some ((h1, effects, None), Some kept) ∧
    signals effects = [] ∧
    engineEffects effects
    = [XhrOpen (Some "https://cdn/v.mp4"%string); XhrSetRangeHeader (Some 0) 2048;
       SetRequestTimeout 10000; XhrSend].
Proof.
  destruct (segment_index_requested_first (λ _ _, []) (λ _ _ _ _, [])
              (λ _ _ _ _ _, indexedVariant) (λ _ rel, rel) sampleConfig
              PlaylistLoadingHandler_new
              (sampleResponse "#EXTM3U #EXT-X-TARGETDURATION:6") (playlistContext LEVEL)
              (fragmentAt "https://cdn/v.mp4") "https://cdn/v.mp4"
              eq_refl eq_refl eq_refl eq_refl)
    as (h1 & effects & kept & Hcall & Hsignals & Hengine & _).
  exists h1, effects, kept. split; [exact Hcall |]. split; [exact Hsignals | exact Hengine].
Defined.

(** *** The segment index *)

Lemma foldl_applyReference_Throws (msg : string) (entries : list (nat * (Z * Z))) :
  foldl applyReference (Some (Throws msg)) entries = Some (Throws msg).
Proof. by induction entries. Qed.

Lemma imap_shift (k : nat) (refs : list (Z * Z)) :
  imap ((λ (i : nat) (r : Z * Z), ((k + i)%nat, r)) ∘ S) refs
  = imap (λ (i : nat) (r : Z * Z), ((S k + i)%nat, r)) refs.
Proof. apply imap_ext. intros i r _. simpl. f_equal. lia. Qed.

(** What [fillByteRange] makes of a fragment for a reference to valid
    bytes. *)
Definition filledWith (frag : LoadableFragment) (reference : Z * Z) : LoadableFragment :=
  match (byteRange frag).2 with
  | Some _ => (byteRange frag).1
  | None => setRawByteRange (byteRange frag).1 (referenceRange reference.1 reference.2)
  end.

Lemma fillByteRange_valid (frag : LoadableFragment) (reference : Z * Z) :
  validBytes reference.1 reference.2 →
  fillByteRange frag reference = Some (filledWith frag reference).
Proof.
  intros Hvalid. unfold fillByteRange, filledWith.
  destruct (byteRange frag) as [frag1 [range |]]; [done |]. cbn [fst snd].
  by rewrite (referenceRange_valid _ _ Hvalid).
Qed.

(** With a fragment for every reference, the loop fills the fragments the
    references name and leaves the others alone. *)
Lemma applyReferences_filled (refs : list (Z * Z)) :
  Forall (λ r, validBytes r.1 r.2) refs →
  ∀ (k : nat) (frags : list LoadableFragment),
    (k + length refs ≤ length frags)%nat →
    ∃ frags',
      foldl applyReference (Some (Returns frags))
        (imap (λ (i : nat) (r : Z * Z), ((k + i)%nat, r)) refs) = Some (Returns frags') ∧
      length frags' = length frags ∧
      (∀ i, (i < k ∨ k + length refs ≤ i)%nat → frags' !! i = frags !! i) ∧
      (∀ i r, refs !! i = Some r →
         frags' !! (k + i)%nat = (λ frag, filledWith frag r) <$> frags !! (k + i)%nat).
Proof.
  induction refs as [| r refs IH]; intros Hvalid k frags Hlen.
  - exists frags. split; [done |]. split; [done |]. split; [done |].
    intros i r Hr. by rewrite lookup_nil in Hr.
  - apply Forall_cons in Hvalid as [Hr Hvalid].
    cbn [length] in Hlen. rewrite imap_cons, imap_shift. cbn [foldl applyReference fst snd].
    rewrite Nat.add_0_r.
    destruct (lookup_lt_is_Some_2 frags k ltac:(lia)) as [frag Hfrag]. rewrite Hfrag.
    rewrite (fillByteRange_valid frag r Hr). cbn [mbind option_bind].
    destruct (IH Hvalid (S k) (<[k := filledWith frag r]> frags))
      as (frags' & Hrun & Hl & Hout & Hin).
    { rewrite length_insert. lia. }
    exists frags'. split; [exact Hrun |]. rewrite length_insert in Hl.
    split; [exact Hl |]. split.
    + intros i Hi. cbn [length] in Hi. rewrite Hout by lia.
      apply list_lookup_insert_ne. lia.
    + intros [| i] r' Hr'.
      * injection Hr' as <-. rewrite Nat.add_0_r, Hout by lia.
        rewrite Hfrag. cbn [fmap option_fmap option_map].
        apply list_lookup_insert_eq. lia.
      * cbn [lookup list_lookup] in Hr'.
        replace (k + S i)%nat with (S k + i)%nat by lia.
        rewrite (Hin i r' Hr'). by rewrite list_lookup_insert_ne by lia.
Qed.

(** With fewer fragments than references, the loop throws. *)
Lemma applyReferences_missing (refs : list (Z * Z)) :
  Forall (λ r, validBytes r.1 r.2) refs →
  ∀ (k : nat) (frags : list LoadableFragment),
    (k ≤ length frags < k + length refs)%nat →
    foldl applyReference (Some (Returns frags))
      (imap (λ (i : nat) (r : Z * Z), ((k + i)%nat, r)) refs)
    = Some (Throws "TypeError: frag is undefined").
Proof.
  induction refs as [| r refs IH]; intros Hvalid k frags Hlen;
    [cbn [length] in Hlen; lia |].
  apply Forall_cons in Hvalid as [Hr Hvalid].
  cbn [length] in Hlen. rewrite imap_cons, imap_shift. cbn [foldl applyReference fst snd].
  rewrite Nat.add_0_r.
  destruct (frags !! k) as [frag |] eqn:Hfrag.
  - apply lookup_lt_Some in Hfrag.
    rewrite (fillByteRange_valid frag r Hr). cbn [mbind option_bind].
    apply (IH Hvalid). rewrite length_insert. lia.
  - apply foldl_applyReference_Throws.
Qed.

Lemma filledWith_empty (frag : LoadableFragment) (reference : Z * Z) :
  Fragment.truthyString (rawByteRange frag) = false →
  filledWith frag reference
  = setRawByteRange frag (referenceRange reference.1 reference.2).
Proof.
  intros Hraw. unfold filledWith.
  destruct (offsets_without_range frag Hraw) as (-> & _). done.
Qed.

Lemma filledWith_ranged (frag : LoadableFragment) (reference : Z * Z) :
  Fragment.truthyString (rawByteRange frag) = true →
  filledWith frag reference = (byteRange frag).1 ∧
  rawByteRange (byteRange frag).1 = rawByteRange frag ∧
  (byteRange (byteRange frag).1).2 = (byteRange frag).2.
Proof.
  intros Hraw. unfold filledWith, byteRange, _parseByteRange. rewrite Hraw.
  cbn [negb]. destruct (_byteRange frag) as [r |] eqn:Hmemo.
  - rewrite Hmemo. cbn [fst snd]. by rewrite Hraw, Hmemo.
  - cbn [fst snd rawByteRange _byteRange setByteRange]. by rewrite Hraw.
Qed.

(** The raw range of the init segment is that of the bytes from 0 to the
    end of the [moov] box. *)
Lemma initRange (m : Z) :
  0 ≤ m ≤ 2 ^ 53 →
  Number_toString m = Some (decimal m) ∧
  validBytes 0 (m - 1) ∧
  referenceRange 0 (m - 1) = Some (decimal m ++ "@0")%string.
Proof.
  intros Hm. split; [apply Number_toString_exact; lia |].
  assert (validBytes 0 (m - 1)) as Hvalid by (unfold validBytes; lia).
  split; [done |]. rewrite (referenceRange_valid _ _ Hvalid).
  by replace (1 + (m - 1) - 0) with m by lia.
Qed.

(** X18.  The answer to a segment-index request turns the references of the
    index into byte ranges of the fragments, by position.  The references
    are to bytes [start .. end] with [0 <= start <= end + 1] and
    [end < 2^53], and the end of the [moov] box is between 0 and [2^53]:
    byte positions that doubles hold and that print as their decimal
    digits.  With a fragment for every reference: a fragment without byte
    range gets the bytes of its reference, so that its byte range reads as
    [start] to [end + 1] and its raw form is one the fragment loader turns
    into the header [Range: bytes=start-end]; a fragment that has a byte
    range keeps it; fragments past the last reference are untouched; the
    init segment gets the bytes from 0 to the end of the [moov] box; the
    playlist is then signalled as one that was just parsed would be, and
    the handler is left as it is.  With fewer fragments than references the
    call throws before anything is signalled. *)
Theorem segment_index_fills_byte_ranges (h : PlaylistLoadingHandler)
    (response : Response) (context : NetworkEngineContext) (sidxInfo : SidxInfo)
    (levelDetails : MediaVariant) (init : LoadableFragment) :
  initSegment levelDetails = Some init →
  Forall (λ r, validBytes r.1 r.2) (references sidxInfo) →
  0 ≤ moovEndOffset sidxInfo ≤ 2 ^ 53 →
  ((length (references sidxInfo) ≤ length (fragments levelDetails))%nat →
   ∃ filled init',
     _handleSidxRequest sidxInfo levelDetails = Some (Returns filled) ∧
     loadsuccess_sidx h response sidxInfo context levelDetails
     = Some ((h, [Trigger (outcome response context filled)], None), Some filled) ∧
     targetduration filled = targetduration levelDetails ∧
     length (fragments filled) = length (fragments levelDetails) ∧
     (∀ i frag start end_,
        fragments levelDetails !! i = Some frag →
        references sidxInfo !! i = Some (start, end_) →
        Fragment.truthyString (rawByteRange frag) = false → _byteRange frag = None →
        ∃ frag',
          fragments filled !! i = Some frag' ∧ core frag' = core frag ∧
          rawByteRange frag'
          = Some (decimal (1 + end_ - start) ++ "@" ++ decimal start)%string ∧
          rawByteRange frag' = referenceRange start end_ ∧
          _byteRange frag' = None ∧
          (byteRange frag').2 = Some (Some start, Some (end_ + 1)) ∧
          rangeHeader start (end_ + 1)
          = Some ("bytes=" ++ decimal start ++ "-" ++ decimal end_)%string) ∧
     (∀ i frag,
        fragments levelDetails !! i = Some frag →
        Fragment.truthyString (rawByteRange frag) = true →
        ∃ frag',
          fragments filled !! i = Some frag' ∧ rawByteRange frag' = rawByteRange frag ∧
          (byteRange frag').2 = (byteRange frag).2) ∧
     (∀ i, (length (references sidxInfo) ≤ i)%nat →
        fragments filled !! i = fragments levelDetails !! i) ∧
     initSegment filled = Some init' ∧
     rawByteRange init' = Some (decimal (moovEndOffset sidxInfo) ++ "@0")%string ∧
     (_byteRange init = None →
      (byteRange init').2 = Some (Some 0, Some (moovEndOffset sidxInfo)))) ∧
  ((length (fragments levelDetails) < length (references sidxInfo))%nat →
   loadsuccess_sidx h response sidxInfo context levelDetails
   = Some ((h, [], Some "TypeError: frag is undefined"%string), None)).
Proof.
  intros Hinit Hvalid Hmoov.
  destruct (initRange _ Hmoov) as (Hprint & Hinitvalid & Hinitrange). split.
  - intros Hlen.
    destruct (applyReferences_filled (references sidxInfo) Hvalid 0
                (fragments levelDetails))
      as (frags' & Hrun & Hl & Hout & Hin); [simpl; lia |].
    assert (_handleSidxRequest sidxInfo levelDetails
            = Some (Returns
                {| targetduration := targetduration levelDetails;
                   needSidxRanges := needSidxRanges levelDetails;
                   initSegment :=
                     Some (setRawByteRange init
                             (Some (decimal (moovEndOffset sidxInfo) ++ "@0")%string));
                   fragments := frags' |})) as Hcall.
    { unfold _handleSidxRequest. rewrite Hinit.
      change (imap (λ index reference, (index, reference)) (references sidxInfo))
        with (imap (λ (i : nat) (r : Z * Z), ((0 + i)%nat, r)) (references sidxInfo)).
      by rewrite Hrun, Hprint. }
    eexists _, _. split; [exact Hcall |].
    split; [unfold loadsuccess_sidx; by rewrite Hcall, _handlePlaylistLoaded_outcome |].
    cbn [targetduration fragments initSegment].
    split; [done |]. split; [exact Hl |]. split; [| split; [| split]].
    + intros i frag start end_ Hfrag Href Hraw Hmemo.
      pose proof (proj1 (Forall_lookup _ _) Hvalid i _ Href) as Hbytes.
      cbn [fst snd] in Hbytes.
      pose proof (Hin i _ Href) as Hi. cbn [Nat.add] in Hi.
      rewrite Hfrag in Hi. cbn [fmap option_fmap option_map] in Hi.
      rewrite (filledWith_empty frag _ Hraw) in Hi. cbn [fst snd] in Hi.
      eexists. split; [exact Hi |]. split; [done |].
      split; [cbn [rawByteRange setRawByteRange]; by apply referenceRange_valid |].
      split; [done |]. split; [done |].
      split; [by rewrite (byteRange_of_reference _ start end_) |].
      destruct Hbytes as (H0 & Hle & Hmax).
      unfold rangeHeader. cbn [subNumbers].
      rewrite Number_toString_exact by lia. replace (end_ + 1 - 1) with end_ by lia.
      rewrite roundInteger_exact by lia. cbn [mbind option_bind].
      by rewrite Number_toString_exact by lia.
    + intros i frag Hfrag Hraw.
      destruct (decide (i < length (references sidxInfo))%nat) as [Hi | Hi].
      * destruct (lookup_lt_is_Some_2 _ _ Hi) as [r Hr].
        pose proof (Hin i _ Hr) as Hfill. cbn [Nat.add] in Hfill.
        rewrite Hfrag in Hfill. cbn [fmap option_fmap option_map] in Hfill.
        destruct (filledWith_ranged frag r Hraw) as (Hf & Hsame & Hrange).
        rewrite Hf in Hfill. eexists. split; [exact Hfill |]. done.
      * exists frag. rewrite Hout by (simpl; lia). done.
    + intros i Hi. apply Hout. simpl. lia.
    + split; [done |]. split; [done |]. intros Hmemo.
      rewrite (byteRange_of_reference _ 0 (moovEndOffset sidxInfo - 1));
        [| done | by rewrite Hinitrange | done].
      cbn [snd]. by replace (moovEndOffset sidxInfo - 1 + 1) with (moovEndOffset sidxInfo)
        by lia.
  - intros Hlen. unfold loadsuccess_sidx, _handleSidxRequest.
    change (imap (λ index reference, (index, reference)) (references sidxInfo))
      with (imap (λ (i : nat) (r : Z * Z), ((0 + i)%nat, r)) (references sidxInfo)).
    by rewrite applyReferences_missing by (done || (simpl; lia)).
Qed.

Definition sampleIndex : SidxInfo :=
  {| references := [(800, 1499); (1500, 2999)]; moovEndOffset := 800 |}.

Lemma segment_index_fills_byte_ranges_witness :
  ∃ filled,
    _handleSidxRequest sampleIndex indexedVariant = Some (Returns filled) ∧
    (∀ frag', fragments filled !! 1%nat = Some frag' →
       (byteRange frag').2 = Some (Some 1500, Some 3000)).
Proof.
  assert (Forall (λ r : Z * Z, validBytes r.1 r.2) (references sampleIndex)) as Hvalid
    by (repeat constructor; simpl; lia).
  destruct (proj1 (segment_index_fills_byte_ranges PlaylistLoadingHandler_new
                     (sampleResponse "") (playlistContext LEVEL) sampleIndex
                     indexedVariant (fragmentAt "https://cdn/v.mp4") eq_refl
                     Hvalid ltac:(simpl; lia))
              (le_n 2))
    as (filled & init' & Hcall & _ & _ & _ & Hfill & _).
  exists filled. split; [exact Hcall |]. intros frag' Hfrag'.
  destruct (Hfill 1%nat (fragmentAt "https://cdn/v.mp4") 1500 2999
              eq_refl eq_refl eq_refl eq_refl)
    as (frag'' & Hfrag'' & _ & _ & _ & _ & Hrange & _).
  rewrite Hfrag' in Hfrag''. injection Hfrag'' as <-. exact Hrange.
Defined.

(** X19.  What the answer to a playlist request signals when the body is a
    master playlist.  The registration of the request is cleared, no request
    is made, and nothing throws: the read of the first level in
    [createTrackListsFromM3u8] happens only when there is one.  Without
    levels the only signal is a fatal parsing error with the reason
    [no level found in manifest].  With levels it is one manifest-loaded
    signal with all of them, the subtitle tracks the parser found, and audio
    tracks that end with the ones the parser found, with at most one track
    in front. *)
Theorem master_playlist_signals
    (parseMaster : string → option string → list MasterLevel)
    (parseMedia : string → option string → AlternateMediaType →
                  option (list (option string * option string)) → list MediaTrack)
    (parseLevel : string → option string → Z → LevelType → Z → MediaVariant)
    (b : option string → string → string)
    (config : HlsConfig) (h : PlaylistLoadingHandler) (response : Response)
    (context : NetworkEngineContext) :
  bodyKind (response_data response) = MasterPlaylist →
  let url := getResponseUrl response context in
  let levels := parseMaster (response_data response) url in
  let groups := (λ level, (attrs_AUDIO level, audioCodec level)) <$> levels in
  let found := parseMedia (response_data response) url AUDIO (Some groups) in
  ∃ effects,
    loadsuccess_playlist parseMaster parseMedia parseLevel b config h response context
    = Some ((resetInternalLoader h (ctx_type context), effects, None), None) ∧
    engineEffects effects = [] ∧
    (levels = [] →
     signals effects
     = [ERROR_MANIFEST_PARSING true (response_url response) "no level found in manifest"]) ∧
    (levels ≠ [] →
     ∃ audio,
       signals effects
       = [MANIFEST_LOADED (ParsedLevel <$> levels) audio
            (parseMedia (response_data response) url SUBTITLES None) url] ∧
       found `suffix_of` audio ∧ (length audio ≤ S (length found))%nat).
Proof.
  intros Hkind url levels groups found.
  unfold loadsuccess_playlist. rewrite Hkind. unfold _handleMasterPlaylist.
  fold url. fold levels. destruct levels as [| level0 rest] eqn:Hlevels.
  - eexists. split; [reflexivity |]. split; [done |]. split; [done | done].
  - cbn [length Nat.eqb].
    pose proof (MediaTrackLaws.createTrackLists_returns parseMedia
                  (response_data response) url level0 rest) as Hcall.
    cbn zeta in Hcall. rewrite Hcall.
    eexists. split; [reflexivity |]. split; [done |]. split; [done |].
    intros _. eexists. split; [reflexivity |].
    subst found groups. destruct (_ && _ && _).
    + split; [by apply suffix_cons_r | apply le_n].
    + split; [done | apply le_S, le_n].
Qed.

Lemma master_playlist_signals_witness :
  ∃ effects,
    loadsuccess_playlist
      (λ _ _, [{| attrs_AUDIO := None; audioCodec := Some "mp4a.40.2"%string |}])
      (λ _ _ _ _, []) (λ _ _ _ _ _, sampleVariant) (λ _ rel, rel) sampleConfig
      PlaylistLoadingHandler_new (sampleResponse "#EXTM3U #EXT-X-STREAM-INF:")
      (playlistContext MANIFEST)
    = Some ((resetInternalLoader PlaylistLoadingHandler_new MANIFEST, effects, None),
            None) ∧
    engineEffects effects = [].
Proof.
  destruct (master_playlist_signals
              (λ _ _, [{| attrs_AUDIO := None; audioCodec := Some "mp4a.40.2"%string |}])
              (λ _ _ _ _, []) (λ _ _ _ _ _, sampleVariant) (λ _ rel, rel) sampleConfig
              PlaylistLoadingHandler_new (sampleResponse "#EXTM3U #EXT-X-STREAM-INF:")
              (playlistContext MANIFEST) eq_refl)
    as (effects & Hcall & Hengine & _).
  exists effects. split; [exact Hcall | exact Hengine].
Defined.

End PlaylistParsingLaws.

Module KeyLoadingLaws.
Import NetworkEngine Fragment KeyLoading KeyLoadingSpec.

(** The engine of a key request after its request is done. *)
Definition answeredEngine (u : option string) (f : nat) (config : HlsConfig)
    : NetworkEngine :=
  PlaylistLoadingLaws.doneEngine (keyContext u f) (keyLoaderConfig config).

(** An answer that is no success, on an engine that has no retries. *)
Lemma failure_without_retries (context : NetworkEngineContext)
    (options : NetworkEngineLoadOptions) (status : Z) :
  maxRetry options ≤ 0 → ¬ 200 ≤ status < 300 →
  _handleReadyStateChange (PlaylistLoadingLaws.sentEngine context options) 4 status
  = (PlaylistLoadingLaws.doneEngine context options, [OnError status context], None).
Proof.
  intros Hretry Hstatus. unfold _handleReadyStateChange.
  cbn [PlaylistLoadingLaws.sentEngine _stats _context _config aborted retry Z.leb
       Z.compare Pos.compare Pos.compare_cont Z.eqb Pos.eqb].
  assert ((200 <=? status) && (status <? 300) = false) as ->.
  { apply andb_false_iff. destruct (Z.leb_spec 200 status); [| by left].
    right. apply Z.ltb_ge. lia. }
  assert ((maxRetry options <=? 0) = true) as -> by (by apply Z.leb_le).
  done.
Qed.

(** A first key request on a new handler, answered with a failure. *)
Lemma fetch_then_failure (config : HlsConfig) (st st1 : Store) (f : nat)
    (frag : MediaFragment) (r : ref) (k : LevelKey) (status : Z) (bytes : list Z) :
  frags st !! f = Some frag → decryptdata st f = (st1, Some r) → keys st1 !! r = Some k →
  ¬ 200 ≤ status < 300 →
  run config st KeyLoadingHandler_new [KeyLoading f; Answer 0 status bytes]
  = (setFragLoader st1 f (Some 0%nat),
     {| engines := [answeredEngine (uri k) f config];
        _loaders := delete "key"%string (<[type frag := 0%nat]> ∅);
        _keyData := None; _keyUrl := uri k |},
     [EngineDid 0 (XhrOpen (uri k));
      EngineDid 0 (SetRequestTimeout (fragLoadingTimeOut config));
      EngineDid 0 XhrSend;
      EngineDid 0 (OnError status (keyContext (uri k) f));
      TriggerError KEY_LOAD_ERROR false (Some f)]).
Proof.
  intros Hf Hd Hk Hstatus.
  destruct (decryptdata_memo st st1 f frag r Hf Hd) as (frag1 & Hf1 & Hmemo1 & Hty & _).
  pose proof (onKeyLoading_fetch config st st1 KeyLoadingHandler_new f frag r k
                Hf Hd Hk (or_intror eq_refl)) as Hstep1.
  simpl in Hstep1. rewrite lookup_empty in Hstep1. simpl in Hstep1.
  set (st1' := setFragLoader st1 f (Some 0%nat)) in *.
  assert (frags st1' !! f = Some (setLoader frag1 (Some 0%nat))) as Hf1'.
  { unfold st1', setFragLoader. rewrite Hf1. simpl.
    apply list_lookup_insert_eq. by eapply lookup_lt_Some. }
  simpl. rewrite Hstep1. unfold answer.
  cbn [engines lookup list_lookup app _xhr fst snd NetworkEngine.load _execRequest
       NetworkEngine_new readyState Z.eqb Pos.eqb _context _config].
  change (_handleReadyStateChange _ 4 status)
    with (_handleReadyStateChange
            (PlaylistLoadingLaws.sentEngine (keyContext (uri k) f) (keyLoaderConfig config))
            4 status).
  rewrite failure_without_retries by done.
  unfold _handleError, _handleFailure. simpl. rewrite Hf1'. simpl. done.
Qed.

Lemma aborts_app (l1 l2 : list KeyEffect) : aborts (l1 ++ l2) = aborts l1 ++ aborts l2.
Proof. apply omap_app. Qed.

Lemma keyLoaded_app (l1 l2 : list KeyEffect) :
  keyLoaded (l1 ++ l2) = keyLoaded l1 ++ keyLoaded l2.
Proof. apply omap_app. Qed.

(** Aborting an engine whose request is done cancels nothing. *)
Lemma abortLane_answered (u : option string) (f : nat) (config : HlsConfig)
    (lane : option nat) :
  (abortLane [answeredEngine u f config] lane).2 = [].
Proof. by destruct lane as [[| a] |]. Qed.

(** X20.  A key request that fails is not remembered as a key.  On a new
    handler, a key request answered with a status outside 200-299 is sent
    once and never retried; the handler signals a non-fatal key-load error
    for the fragment and no key-loaded signal.  It keeps the URI as the
    cached URI, but no key bytes, so the next request for the key of that
    fragment fetches again, on a new engine, with nothing to cancel.  The
    entry of [_loaders] that is cleared is the one named ["key"], not the
    one of the fragment's type: for a fragment of another type the failed
    engine stays registered. *)
Theorem failed_key_is_fetched_again (config : HlsConfig) (st st1 : Store) (f : nat)
    (frag : MediaFragment) (r : ref) (k : LevelKey) (status : Z) (bytes : list Z) :
  frags st !! f = Some frag → decryptdata st f = (st1, Some r) → keys st1 !! r = Some k →
  ¬ 200 ≤ status < 300 →
  let failed := run config st KeyLoadingHandler_new [KeyLoading f; Answer 0 status bytes] in
  let again := handle config failed.1.1 failed.1.2 (KeyLoading f) in
  failed.2
  = [EngineDid 0 (XhrOpen (uri k));
     EngineDid 0 (SetRequestTimeout (fragLoadingTimeOut config));
     EngineDid 0 XhrSend;
     EngineDid 0 (OnError status (keyContext (uri k) f));
     TriggerError KEY_LOAD_ERROR false (Some f)] ∧
  fetches failed.2 = [0%nat] ∧ keyLoaded failed.2 = [] ∧
  _keyUrl failed.1.2 = uri k ∧ _keyData failed.1.2 = None ∧
  (type frag ≠ "key"%string → _loaders failed.1.2 !! type frag = Some 0%nat) ∧
  again.2 = None ∧ fetches again.1.2 = [1%nat] ∧ aborts again.1.2 = [] ∧
  keyLoaded again.1.2 = [].
Proof.
  intros Hf Hd Hk Hstatus failed again. subst again failed.
  rewrite (fetch_then_failure config st st1 f frag r k status bytes Hf Hd Hk Hstatus).
  cbn [fst snd _keyUrl _keyData _loaders handle].
  destruct (decryptdata_memo st st1 f frag r Hf Hd) as (frag1 & Hf1 & Hmemo1 & Hty & _).
  set (st1' := setFragLoader st1 f (Some 0%nat)).
  assert (frags st1' !! f = Some (setLoader frag1 (Some 0%nat))) as Hf1'.
  { unfold st1', setFragLoader. rewrite Hf1. simpl.
    apply list_lookup_insert_eq. by eapply lookup_lt_Some. }
  assert (keys st1' !! r = Some k) as Hk1'.
  { unfold st1', setFragLoader. by rewrite Hf1. }
  assert (decryptdata st1' f = (st1', Some r)) as Hd1'
    by (by apply (decryptdata_memoized st1' f (setLoader frag1 (Some 0%nat)))).
  rewrite (onKeyLoading_fetch config st1' st1'
             {| engines := [answeredEngine (uri k) f config];
                _loaders := delete "key"%string (<[type frag := 0%nat]> ∅);
                _keyData := None; _keyUrl := uri k |}
             f _ r k Hf1' Hd1' Hk1' (or_intror eq_refl)).
  cbn [fst snd engines _loaders length].
  rewrite fetches_app, aborts_app, keyLoaded_app, abortLane_answered.
  split; [done |]. split; [done |]. split; [done |]. split; [done |]. split; [done |].
  split; [| done].
  intros Hty'. rewrite lookup_delete_ne by done. apply lookup_insert_eq.
Qed.

Lemma failed_key_is_fetched_again_witness :
  let failed :=
    run sampleConfig twoFragments KeyLoadingHandler_new [KeyLoading 0; Answer 0 404 []] in
  fetches failed.2 = [0%nat] ∧
  fetches (handle sampleConfig failed.1.1 failed.1.2 (KeyLoading 0)).1.2 = [1%nat].
Proof.
  pose proof (failed_key_is_fetched_again sampleConfig twoFragments
                (decryptdata twoFragments 0).1 0
                _ 0%nat _ 404 [] eq_refl eq_refl eq_refl ltac:(lia)) as H.
  cbv zeta in *. destruct H as (_ & Hfirst & _ & _ & _ & _ & _ & Hagain & _).
  split; [exact Hfirst | exact Hagain].
Defined.

End KeyLoadingLaws.

(** ** When a fragment counts as buffered
       (MediaFragmentReceiver: onFragParsed, onBufferAppended) *)

Module ReceiverLifecycle.
Import Receiver.

(** What the receiver finds around it: whether [mediaBuffer] or [media] is
    set, and whether [stats] is (it is set when a fragment has loaded). *)
Record Surroundings : Type := mkSurroundings {
  media : bool;
  stats : bool
}.

(** The signal, with the receiver as it is when the signal is triggered:
    that is what the listeners, which run before [trigger] returns, find. *)
Inductive LifecycleEffect : Type :=
| TriggerFragBuffered (frag : nat) (receiver : MediaFragmentReceiver).

(** A step: the receiver after it, what it signalled, and the message of the
    exception if it threw. *)
Definition lstep : Type := MediaFragmentReceiver * list LifecycleEffect * option string.

Definition setState (rc : MediaFragmentReceiver) (s : MediaFragmentReceiverState)
    : MediaFragmentReceiver :=
  {| state := s; fragCurrent := fragCurrent rc; fragPrevious := fragPrevious rc;
     nextLoadPosition := nextLoadPosition rc; altAudio := altAudio rc;
     appended := appended rc; pendingBuffering := pendingBuffering rc;
     levels := levels rc; level := level rc; fragmentTracker := fragmentTracker rc |}.

Definition setFragPrevious (rc : MediaFragmentReceiver) (frag : option nat)
    : MediaFragmentReceiver :=
  {| state := state rc; fragCurrent := fragCurrent rc; fragPrevious := frag;
     nextLoadPosition := nextLoadPosition rc; altAudio := altAudio rc;
     appended := appended rc; pendingBuffering := pendingBuffering rc;
     levels := levels rc; level := level rc; fragmentTracker := fragmentTracker rc |}.

Definition setPendingBuffering (rc : MediaFragmentReceiver) (pending : bool)
    : MediaFragmentReceiver :=
  {| state := state rc; fragCurrent := fragCurrent rc; fragPrevious := fragPrevious rc;
     nextLoadPosition := nextLoadPosition rc; altAudio := altAudio rc;
     appended := appended rc; pendingBuffering := pending;
     levels := levels rc; level := level rc; fragmentTracker := fragmentTracker rc |}.

(** [_checkAppendedParsed()].  The log line reads [media.buffered] before
    anything is written; [stats.tbuffered] is written after [fragPrevious];
    the signal is triggered before the state is written; the call of
    [tick()] at the end throws in this class. *)
Definition _checkAppendedParsed (env : Surroundings) (rc : MediaFragmentReceiver)
    : lstep :=
  if bool_decide (state rc = PARSED)
     && (negb (appended rc) || negb (pendingBuffering rc))
  then
    match fragCurrent rc with
    | Some frag =>
        if negb (media env) then (rc, [], Some "TypeError: media is null"%string)
        else
          let rc1 := setFragPrevious rc (Some frag) in
          if negb (stats env)
          then (rc1, [], Some "TypeError: stats is undefined"%string)
          else (setState rc1 IDLE, [TriggerFragBuffered frag rc1],
                Some "Method not implemented."%string)
    | None => (rc, [], Some "Method not implemented."%string)
    end
  else (rc, [], None).

(** [onBufferAppended(data)] with [data.parent = parent] and
    [data.pending = pending]. *)
Definition onBufferAppended (env : Surroundings) (rc : MediaFragmentReceiver)
    (parent : string) (pending : Z) : lstep :=
  if String.eqb parent "main" then
    if bool_decide (state rc = PARSING) || bool_decide (state rc = PARSED)
    then _checkAppendedParsed env (setPendingBuffering rc (0 <? pending))
    else (rc, [], None)
  else (rc, [], None).

(** [onFragParsed(data)] with [data.id = id] and [data.frag] the fragment at
    address [frag]. *)
Definition onFragParsed (env : Surroundings) (rc : MediaFragmentReceiver)
    (fragments : list MediaFragment) (id : string) (frag : nat) : lstep :=
  match fragCurrent rc with
  | None => (rc, [], None)
  | Some fc =>
      match fragments !! fc with
      | None => (rc, [], None)
      | Some cur =>
          if negb (String.eqb id "main") then (rc, [], None)
          else
            match fragments !! frag with
            | None => (rc, [], Some "TypeError: data.frag is undefined"%string)
            | Some fragNew =>
                if (sn fragNew =? sn cur)
                   && (Playlist.level fragNew =? Playlist.level cur)
                   && bool_decide (state rc = PARSING)
                then
                  if negb (stats env)
                  then (rc, [], Some "TypeError: stats is undefined"%string)
                  else _checkAppendedParsed env (setState rc PARSED)
                else (rc, [], None)
            end
      end
  end.

End ReceiverLifecycle.

Module ReceiverLifecycleLaws.
Import Receiver ReceiverLifecycle.

(** Outside [PARSING] and [PARSED] neither handler does anything. *)
Lemma quiet_outside_parsing (env : Surroundings) (rc : MediaFragmentReceiver)
    (fragments : list MediaFragment) :
  state rc ≠ PARSING → state rc ≠ PARSED →
  (∀ parent pending, onBufferAppended env rc parent pending = (rc, [], None)) ∧
  (∀ id frag, (onFragParsed env rc fragments id frag).1 = (rc, [])).
Proof.
  intros H1 H2. split.
  - intros parent pending. unfold onBufferAppended.
    rewrite !bool_decide_eq_false_2 by done. by destruct (String.eqb parent "main").
  - intros id frag. unfold onFragParsed.
    destruct (fragCurrent rc) as [fc |]; [| done].
    destruct (fragments !! fc) as [cur |]; [| done].
    destruct (negb (String.eqb id "main")); [done |].
    destruct (fragments !! frag) as [fragNew |]; [| done].
    rewrite (bool_decide_eq_false_2 (state rc = PARSING)) by done.
    by rewrite andb_false_r.
Qed.

(** X21.  When the current fragment counts as buffered.  The receiver is
    [PARSING] the current fragment, with media and load statistics set, and
    is told that parsing is over.  If no append is pending, the fragment is
    signalled as buffered at once.  If appends are pending, nothing is
    signalled and the receiver waits in [PARSED]: a report of the main
    buffer that leaves appends pending changes nothing, and the first
    report with none pending signals the fragment as buffered.  Either way
    the signal is triggered while the receiver is still in [PARSED], with
    the fragment already recorded as the previous one; the receiver goes to
    [IDLE] after that and then calls [tick()], which throws in this class.
    From [IDLE] no report and no end of parsing signals anything: the
    fragment is signalled once. *)
Theorem fragment_buffered_once (env : Surroundings) (rc : MediaFragmentReceiver)
    (fragments : list MediaFragment) (fc f : nat) (cur fragNew : MediaFragment) :
  media env = true → stats env = true →
  fragCurrent rc = Some fc → fragments !! fc = Some cur → fragments !! f = Some fragNew →
  sn fragNew = sn cur → Playlist.level fragNew = Playlist.level cur →
  state rc = PARSING →
  let parsed := onFragParsed env rc fragments "main" f in
  let triggering := setFragPrevious (setState rc PARSED) (Some fc) in
  (appended rc && pendingBuffering rc = false →
   parsed = (setState triggering IDLE, [TriggerFragBuffered fc triggering],
             Some "Method not implemented."%string)) ∧
  (appended rc = true → pendingBuffering rc = true →
   parsed = (setState rc PARSED, [], None) ∧
   (∀ pending, 0 < pending →
      onBufferAppended env parsed.1.1 "main" pending = (parsed.1.1, [], None)) ∧
   (∀ pending, pending ≤ 0 →
      onBufferAppended env parsed.1.1 "main" pending
      = (setState (setPendingBuffering triggering false) IDLE,
         [TriggerFragBuffered fc (setPendingBuffering triggering false)],
         Some "Method not implemented."%string)) ∧
   (∀ parent pending, parent ≠ "main"%string →
      onBufferAppended env parsed.1.1 parent pending = (parsed.1.1, [], None))) ∧
  state triggering = PARSED ∧ fragPrevious triggering = Some fc ∧
  state (setPendingBuffering triggering false) = PARSED ∧
  fragPrevious (setPendingBuffering triggering false) = Some fc ∧
  state (setState triggering IDLE) = IDLE ∧
  fragPrevious (setState triggering IDLE) = Some fc ∧
  (∀ rc', state rc' = IDLE →
     (∀ parent pending, onBufferAppended env rc' parent pending = (rc', [], None)) ∧
     (∀ id g, (onFragParsed env rc' fragments id g).1 = (rc', []))).
Proof.
  intros Hmedia Hstats Hfc Hcur Hnew Hsn Hlevel Hstate parsed triggering.
  assert (parsed = _checkAppendedParsed env (setState rc PARSED)) as Hparsed.
  { subst parsed. unfold onFragParsed. rewrite Hfc, Hcur, Hnew, Hsn, Hlevel, Hstate.
    rewrite !Z.eqb_refl, Hstats. cbn [String.eqb Ascii.eqb Bool.eqb negb andb].
    by rewrite bool_decide_eq_true_2. }
  rewrite Hparsed. clear Hparsed parsed. subst triggering.
  unfold _checkAppendedParsed. cbn [state appended pendingBuffering fragCurrent setState].
  rewrite Hfc, Hmedia, Hstats. cbn [negb].
  rewrite (bool_decide_eq_true_2 (PARSED = PARSED)) by done. cbn [andb].
  split; [| split; [| do 6 (split; [done |])]].
  - intros Hpending.
    destruct (appended rc), (pendingBuffering rc); (done || by cbn in *).
  - intros Happ Hpend. rewrite Happ, Hpend. cbn [negb orb fst].
    split; [done |]. split; [| split].
    + intros pending Hp. unfold onBufferAppended, _checkAppendedParsed.
      cbn [String.eqb Ascii.eqb Bool.eqb state setState setPendingBuffering appended
           pendingBuffering].
      assert ((0 <? pending) = true) as -> by (by apply Z.ltb_lt).
      rewrite Happ. cbn. unfold setPendingBuffering, setState. cbn. by rewrite Hpend.
    + intros pending Hp. unfold onBufferAppended, _checkAppendedParsed.
      cbn [String.eqb Ascii.eqb Bool.eqb state setState setPendingBuffering appended
           pendingBuffering fragCurrent].
      assert ((0 <? pending) = false) as -> by (by apply Z.ltb_ge).
      rewrite Hfc, Hmedia, Hstats.
      rewrite (bool_decide_eq_true_2 (PARSED = PARSED)) by done.
      by rewrite !orb_true_r.
    + intros parent pending Hparent. unfold onBufferAppended.
      by rewrite (proj2 (String.eqb_neq parent "main") Hparent).
  - intros rc' Hidle.
    apply quiet_outside_parsing; by rewrite Hidle.
Qed.

Lemma fragment_buffered_once_witness :
  let rc := {| state := PARSING; fragCurrent := Some 0%nat; fragPrevious := None;
               nextLoadPosition := None; altAudio := false; appended := true;
               pendingBuffering := true; levels := []; level := 0;
               fragmentTracker := None |} in
  let env := {| media := true; stats := true |} in
  let parsed := onFragParsed env rc [parsedFragment 3 12 6 None] "main" 0 in
  parsed.1.2 = [] ∧
  (onBufferAppended env parsed.1.1 "main" 0).1.2
  = [TriggerFragBuffered 0
       {| state := PARSED; fragCurrent := Some 0%nat; fragPrevious := Some 0%nat;
          nextLoadPosition := None; altAudio := false; appended := true;
          pendingBuffering := false; levels := []; level := 0;
          fragmentTracker := None |}] ∧
  state (onBufferAppended env parsed.1.1 "main" 0).1.1 = IDLE.
Proof.
  pose proof (fragment_buffered_once {| media := true; stats := true |}
                {| state := PARSING; fragCurrent := Some 0%nat; fragPrevious := None;
                   nextLoadPosition := None; altAudio := false; appended := true;
                   pendingBuffering := true; levels := []; level := 0;
                   fragmentTracker := None |}
                [parsedFragment 3 12 6 None] 0 0 _ _
                eq_refl eq_refl eq_refl eq_refl eq_refl eq_refl eq_refl eq_refl) as H.
  cbv zeta in *. destruct H as (_ & Hwait & _).
  destruct (Hwait eq_refl eq_refl) as (Hparsed & _ & Hdone & _).
  split; [by rewrite Hparsed |]. by rewrite (Hdone 0 ltac:(lia)).
Defined.

End ReceiverLifecycleLaws.

(** ** The second player: URL hand-over and segment routing
       (_re-lib/re-hls.ts, _re-lib/transmux-flow.ts) *)

Module ReHls.

(** [s.endsWith(suffix)]. *)
Definition endsWith (s suffix : string) : bool :=
  let n := String.length s in
  let m := String.length suffix in
  if (m <=? n)%nat then String.eqb (substring (n - m) m s) suffix else false.

(** The two inputs a [TransmuxFlow] can take its packets on: the first input
    of its MPEG-TS demuxer or of its MP4 demuxer. *)
Inductive DemuxInput : Type :=
| TsDemuxInput
| Mp4DemuxInput.

Record TransmuxFlow : Type := mkFlow {
  _inSocket : DemuxInput
}.

(** [new TransmuxFlow(url, mediaSource)], as far as the choice of the input
    goes. *)
Definition TransmuxFlow_new (url : string) : TransmuxFlow :=
  {| _inSocket := if endsWith url ".ts" then TsDemuxInput else Mp4DemuxInput |}.

(** [getExternalSockets()]. *)
Definition getExternalSockets (flow : TransmuxFlow) : list DemuxInput :=
  [_inSocket flow].

(** [_pendingSetUrl] is declared without a value: a field that was never
    written is [None]. *)
Record ReHls : Type := mkReHls {
  _transmuxFlow : option TransmuxFlow;
  _isShutdown : bool;
  _url : option string;
  _pendingSetUrl : option bool
}.

(** [new ReHls(media)], before the media source opens. *)
Definition ReHls_new : ReHls :=
  {| _transmuxFlow := None; _isShutdown := false; _url := None; _pendingSetUrl := None |}.

(** What the player does to the outside: it starts to fetch and parse a
    playlist ([_processM3u8File]), or hands the bytes of a segment to an
    input of the flow. *)
Inductive ReEffect : Type :=
| ProcessM3u8File (url : option string)
| Transfer (socket : DemuxInput) (segment : nat).

Definition restep : Type := ReHls * list ReEffect * option string.

(** [_onSetUrl()]. *)
Definition _onSetUrl (rh : ReHls) : restep :=
  ({| _transmuxFlow := _transmuxFlow rh; _isShutdown := _isShutdown rh; _url := _url rh;
      _pendingSetUrl := Some false |},
   [ProcessM3u8File (_url rh)], None).

(** The listener of [sourceopen] the constructor installs. *)
Definition sourceopen (rh : ReHls) : restep :=
  let rh1 :=
    {| _transmuxFlow := Some (TransmuxFlow_new ".ts"); _isShutdown := _isShutdown rh;
       _url := _url rh; _pendingSetUrl := _pendingSetUrl rh |} in
  if default false (_pendingSetUrl rh) then _onSetUrl rh1 else (rh1, [], None).

(** [setUrl(url)]. *)
Definition setUrl (rh : ReHls) (url : string) : restep :=
  let rh1 :=
    {| _transmuxFlow := _transmuxFlow rh; _isShutdown := _isShutdown rh;
       _url := Some url; _pendingSetUrl := _pendingSetUrl rh |} in
  match _transmuxFlow rh with
  | None =>
      ({| _transmuxFlow := _transmuxFlow rh1; _isShutdown := _isShutdown rh1;
          _url := _url rh1; _pendingSetUrl := Some true |}, [], None)
  | Some _ => _onSetUrl rh1
  end.

(** [getUrl()]. *)
Definition getUrl (rh : ReHls) : option string := _url rh.

(** [shutdown()]. *)
Definition shutdown (rh : ReHls) : restep :=
  ({| _transmuxFlow := _transmuxFlow rh; _isShutdown := true; _url := _url rh;
      _pendingSetUrl := _pendingSetUrl rh |}, [], None).

(** [_onSegmentBuffered(segment)]. *)
Definition _onSegmentBuffered (rh : ReHls) (segment : nat) : restep :=
  match _transmuxFlow rh with
  | None => (rh, [], Some "No TransmuxFlow existant"%string)
  | Some flow =>
      match getExternalSockets flow with
      | socket :: _ => (rh, [Transfer socket segment], None)
      | [] => (rh, [], Some "TypeError: socket is undefined"%string)
      end
  end.

(** What can happen to the player. *)
Inductive Event : Type :=
| SetUrl (url : string)
| SourceOpen
| SegmentBuffered (segment : nat)
| Shutdown.

Definition handle (rh : ReHls) (ev : Event) : restep :=
  match ev with
  | SetUrl url => setUrl rh url
  | SourceOpen => sourceopen rh
  | SegmentBuffered segment => _onSegmentBuffered rh segment
  | Shutdown => shutdown rh
  end.

(** The player and everything done after a sequence of events; an exception
    ends the event it is thrown in, not the sequence. *)
Fixpoint run (rh : ReHls) (events : list Event) : ReHls * list ReEffect :=
  match events with
  | [] => (rh, [])
  | ev :: rest =>
      let '(rh1, effects1, _) := handle rh ev in
      let '(rh2, effects2) := run rh1 rest in
      (rh2, effects1 ++ effects2)
  end.

(** The playlists processed in a trace, in order. *)
Definition processed (effects : list ReEffect) : list (option string) :=
  omap (λ eff, match eff with ProcessM3u8File url => Some url | _ => None end) effects.

(** The segments handed over in a trace, each with the input it went to, in
    order. *)
Definition transfers (effects : list ReEffect) : list (DemuxInput * nat) :=
  omap (λ eff, match eff with
               | Transfer socket segment => Some (socket, segment)
               | _ => None
               end) effects.

(** The URLs set by a sequence of events, in order. *)
Definition urlsSet (events : list Event) : list string :=
  omap (λ ev, match ev with SetUrl url => Some url | _ => None end) events.

(** The segments reported as buffered by a sequence of events, in order. *)
Definition segmentsBuffered (events : list Event) : list nat :=
  omap (λ ev, match ev with SegmentBuffered segment => Some segment | _ => None end)
    events.

Definition isSourceOpen (ev : Event) : bool :=
  match ev with
  | SourceOpen => true
  | _ => false
  end.

End ReHls.

Module ReHlsLaws.
Import ReHls.

Lemma processed_app (l1 l2 : list ReEffect) :
  processed (l1 ++ l2) = processed l1 ++ processed l2.
Proof. apply omap_app. Qed.

Lemma transfers_app (l1 l2 : list ReEffect) :
  transfers (l1 ++ l2) = transfers l1 ++ transfers l2.
Proof. apply omap_app. Qed.

(** Once the media source has opened, every URL set is processed at once,
    and every buffered segment is handed to the MPEG-TS input. *)
Lemma run_open (events : list Event) :
  ∀ rh, _transmuxFlow rh = Some (TransmuxFlow_new ".ts") →
    default false (_pendingSetUrl rh) = false →
    processed (run rh events).2 = Some <$> urlsSet events ∧
    transfers (run rh events).2
    = (λ segment, (TsDemuxInput, segment)) <$> segmentsBuffered events ∧
    getUrl (run rh events).1 = default (_url rh) (Some <$> last (urlsSet events)).
Proof.
  induction events as [| ev events IH]; intros rh Hflow Hpending; [done |].
  cbn [run].
  destruct ev as [url | | segment |]; cbn [handle].
  - unfold setUrl, _onSetUrl. rewrite Hflow. cbn [_url _transmuxFlow _isShutdown].
    destruct (IH {| _transmuxFlow := Some (TransmuxFlow_new ".ts");
                    _isShutdown := _isShutdown rh; _url := Some url;
                    _pendingSetUrl := Some false |} eq_refl eq_refl) as (Hp & Hf & Hu).
    destruct (run _ events) as [rh2 effects2]. cbn [fst snd] in *.
    rewrite processed_app, transfers_app, Hp. split; [done |]. split; [done |].
    rewrite Hu. cbn [_url urlsSet omap list_omap]. fold (urlsSet events).
    rewrite last_cons. by destruct (last (urlsSet events)).
  - unfold sourceopen. rewrite Hpending.
    destruct (IH {| _transmuxFlow := Some (TransmuxFlow_new ".ts");
                    _isShutdown := _isShutdown rh; _url := _url rh;
                    _pendingSetUrl := _pendingSetUrl rh |} eq_refl Hpending)
      as (Hp & Hf & Hu).
    destruct (run _ events) as [rh2 effects2]. cbn [fst snd] in *. done.
  - unfold _onSegmentBuffered. rewrite Hflow. cbn [getExternalSockets].
    destruct (IH rh Hflow Hpending) as (Hp & Hf & Hu).
    destruct (run rh events) as [rh2 effects2]. cbn [fst snd] in *.
    rewrite processed_app, transfers_app, Hf. split; [done |]. split; [done | done].
  - unfold shutdown.
    destruct (IH {| _transmuxFlow := _transmuxFlow rh; _isShutdown := true;
                    _url := _url rh; _pendingSetUrl := _pendingSetUrl rh |}
                Hflow Hpending) as (Hp & Hf & Hu).
    destruct (run _ events) as [rh2 effects2]. cbn [fst snd] in *. done.
Qed.

(** Before the media source opens nothing is processed and no segment is
    handed over; the last URL set waits. *)
Lemma run_closed (events : list Event) :
  ∀ rh, _transmuxFlow rh = None → forallb (λ ev, negb (isSourceOpen ev)) events = true →
    processed (run rh events).2 = [] ∧ transfers (run rh events).2 = [] ∧
    _transmuxFlow (run rh events).1 = None ∧
    _url (run rh events).1 = default (_url rh) (Some <$> last (urlsSet events)) ∧
    default false (_pendingSetUrl (run rh events).1)
    = (if urlsSet events is [] then default false (_pendingSetUrl rh) else true).
Proof.
  induction events as [| ev events IH]; intros rh Hflow Hclosed; [done |].
  cbn [forallb] in Hclosed. apply andb_true_iff in Hclosed as [Hev Hclosed].
  cbn [run].
  destruct ev as [url | | segment |]; cbn [handle]; [| done | |].
  - unfold setUrl. rewrite Hflow. cbn [_url _transmuxFlow _isShutdown].
    destruct (IH {| _transmuxFlow := None; _isShutdown := _isShutdown rh;
                    _url := Some url; _pendingSetUrl := Some true |} eq_refl Hclosed)
      as (Hp & Hf & Hfl & Hu & Hpe).
    destruct (run _ events) as [rh2 effects2]. cbn [fst snd app] in *.
    split; [done |]. split; [done |]. split; [done |].
    cbn [urlsSet omap list_omap]. fold (urlsSet events).
    rewrite Hu, Hpe. cbn [_url _pendingSetUrl default from_option id].
    rewrite last_cons. split; [by destruct (last (urlsSet events)) |].
    by destruct (urlsSet events).
  - unfold _onSegmentBuffered. rewrite Hflow.
    destruct (IH rh Hflow Hclosed) as (Hp & Hf & Hfl & Hu & Hpe).
    destruct (run rh events) as [rh2 effects2]. cbn [fst snd app] in *. done.
  - unfold shutdown.
    destruct (IH {| _transmuxFlow := _transmuxFlow rh; _isShutdown := true;
                    _url := _url rh; _pendingSetUrl := _pendingSetUrl rh |}
                Hflow Hclosed) as (Hp & Hf & Hfl & Hu & Hpe).
    destruct (run _ events) as [rh2 effects2]. cbn [fst snd app] in *. done.
Qed.

Lemma run_app (events1 events2 : list Event) :
  ∀ rh, run rh (events1 ++ events2)
        = ((run (run rh events1).1 events2).1,
           (run rh events1).2 ++ (run (run rh events1).1 events2).2).
Proof.
  induction events1 as [| ev events1 IH]; intros rh; cbn [run app fst snd].
  - by destruct (run rh events2).
  - destruct (handle rh ev) as [[rh1 effects1] thrown]. rewrite IH.
    destruct (run rh1 events1) as [rh2 effects2]. cbn [fst snd].
    by rewrite app_assoc.
Qed.

(** X22.  How the second player hands a URL and the segments over.  Nothing
    is processed before the media source has opened, whatever is set, and no
    segment is handed over: a segment buffered then throws
    "No TransmuxFlow existant".  When the source opens, the last URL set so
    far is processed, once, and the ones before it never are; every URL set
    afterwards is processed at once, in order.  Every segment buffered after
    the source has opened is handed over, once and in order, to the MPEG-TS
    input of the flow, whatever the URL; the segments buffered before are
    never handed over.  [getUrl] returns the last URL set. *)
Theorem pending_url_processed_on_open (before after : list Event) :
  forallb (λ ev, negb (isSourceOpen ev)) before = true →
  let waiting := run ReHls_new before in
  let opened := run ReHls_new (before ++ SourceOpen :: after) in
  processed waiting.2 = [] ∧ transfers waiting.2 = [] ∧
  (∀ segment, handle waiting.1 (SegmentBuffered segment)
              = (waiting.1, [], Some "No TransmuxFlow existant"%string)) ∧
  processed opened.2
  = option_list (Some <$> last (urlsSet before)) ++ (Some <$> urlsSet after) ∧
  transfers opened.2 = (λ segment, (TsDemuxInput, segment)) <$> segmentsBuffered after ∧
  getUrl opened.1 = last (urlsSet (before ++ after)).
Proof.
  intros Hclosed waiting opened. subst waiting opened.
  destruct (run_closed before ReHls_new eq_refl Hclosed) as (Hp & Hf & Hfl & Hu & Hpe).
  split; [exact Hp |]. split; [exact Hf |].
  split; [intros segment; cbn [handle]; unfold _onSegmentBuffered; by rewrite Hfl |].
  rewrite run_app.
  destruct (run ReHls_new before) as [rh effects]. cbn [fst snd] in *.
  rewrite processed_app, transfers_app, Hp, Hf. cbn [run handle app]. unfold sourceopen.
  cbn [ReHls_new _url _pendingSetUrl default from_option id] in Hu, Hpe.
  unfold urlsSet at 3. rewrite omap_app. fold (urlsSet before). fold (urlsSet after).
  destruct (urlsSet before) as [| u us] eqn:Hus.
  - rewrite Hpe. cbn [last fmap option_fmap option_map default from_option id] in Hu.
    destruct (run_open after
                {| _transmuxFlow := Some (TransmuxFlow_new ".ts");
                   _isShutdown := _isShutdown rh; _url := _url rh;
                   _pendingSetUrl := _pendingSetUrl rh |} eq_refl Hpe)
      as (Hp2 & Hf2 & Hu2).
    destruct (run _ after) as [rh2 effects2]. cbn [fst snd app] in *.
    rewrite Hp2. split; [done |]. split; [done |].
    rewrite Hu2. cbn [_url]. rewrite Hu.
    by destruct (last (urlsSet after)).
  - rewrite Hpe. unfold _onSetUrl. cbn [_transmuxFlow _isShutdown _url].
    destruct (run_open after
                {| _transmuxFlow := Some (TransmuxFlow_new ".ts");
                   _isShutdown := _isShutdown rh; _url := _url rh;
                   _pendingSetUrl := Some false |} eq_refl eq_refl)
      as (Hp2 & Hf2 & Hu2).
    destruct (run _ after) as [rh2 effects2]. cbn [fst snd app] in *.
    change (processed (ProcessM3u8File (_url rh) :: effects2))
      with (_url rh :: processed effects2).
    change (transfers (ProcessM3u8File (_url rh) :: effects2)) with (transfers effects2).
    rewrite Hp2, Hu.
    destruct (last (u :: us)) as [l |] eqn:Hlast; [| by apply last_None in Hlast].
    cbn [fmap option_fmap option_map default from_option id option_list app].
    split; [done |]. split; [done |]. rewrite Hu2. cbn [_url]. rewrite Hu.
    change (u :: us ++ urlsSet after) with ((u :: us) ++ urlsSet after).
    rewrite last_app, Hlast.
    by destruct (last (urlsSet after)).
Qed.

Lemma pending_url_processed_on_open_witness :
  let effects :=
    (run ReHls_new
       ([SetUrl "a.m3u8"; SegmentBuffered 0; SetUrl "b.m3u8"]
          ++ SourceOpen :: [SegmentBuffered 1; SetUrl "c.m3u8"; SegmentBuffered 2])).2 in
  processed effects = [Some "b.m3u8"%string; Some "c.m3u8"%string] ∧
  transfers effects = [(TsDemuxInput, 1%nat); (TsDemuxInput, 2%nat)].
Proof.
  pose proof (pending_url_processed_on_open
                [SetUrl "a.m3u8"; SegmentBuffered 0; SetUrl "b.m3u8"]
                [SegmentBuffered 1; SetUrl "c.m3u8"; SegmentBuffered 2] eq_refl)
    as (_ & _ & _ & Hprocessed & Htransfers & _).
  split; [exact Hprocessed | exact Htransfers].
Defined.

End ReHlsLaws.

(** ** The key of a fragment (m3u8/media-fragment.ts: getKey) *)

Module FragmentIdentity.
Import JsString.

(** A value of a template literal that is an integer or [undefined]. *)
Definition printValue (v : option Z) : option string :=
  match v with
  | Some n => Number_toString n
  | None => Some "undefined"%string
  end.

(** [getKey()]: [`${this.type}_${this.level}_${this.urlId}_${this.sn}`], with
    [urlId] next to the fields of the playlist model; it is [undefined]
    ([None]) as long as nobody assigns it.  The result is [None] where a
    number is one whose printed form the model does not describe (see
    [Number_toString]). *)
Definition getKey (f : MediaFragment) (urlId : option Z) : option string :=
  levelDigits ← Number_toString (Playlist.level f);
  urlIdDigits ← printValue urlId;
  snDigits ← Number_toString (sn f);
  Some (type f ++ "_" ++ levelDigits ++ "_" ++ urlIdDigits ++ "_" ++ snDigits)%string.

End FragmentIdentity.

Module FragmentIdentityLaws.
Import JsString JsStringLaws FragmentIdentity.

(** A printed integer has no ["_"] in it. *)
Lemma lacks_underscore_of_uint (d : Decimal.uint) :
  lacks "_" (NilEmpty.string_of_uint d) = true.
Proof. induction d; [done | ..]; exact IHd. Qed.

Lemma lacks_underscore_decimal (n : Z) : lacks "_" (decimal n) = true.
Proof.
  unfold decimal. destruct n as [| p | p]; [done | |];
    cbn [Z.to_int NilZero.string_of_int].
  - pose proof (Unsigned.to_uint_nonnil p) as Hnil.
    assert (NilZero.string_of_uint (Pos.to_uint p)
            = NilEmpty.string_of_uint (Pos.to_uint p)) as ->
      by (by destruct (Pos.to_uint p)).
    apply lacks_underscore_of_uint.
  - pose proof (Unsigned.to_uint_nonnil p) as Hnil.
    assert (NilZero.string_of_uint (Pos.to_uint p)
            = NilEmpty.string_of_uint (Pos.to_uint p)) as ->
      by (by destruct (Pos.to_uint p)).
    cbn [lacks]. apply lacks_underscore_of_uint.
Qed.

(** A printed value has no ["_"] in it and reads back as the value:
    ["undefined"] reads as [NaN]. *)
Lemma printValue_spec (v : option Z) (s : string) :
  printValue v = Some s → lacks "_" s = true ∧ parseInt s = v.
Proof.
  destruct v as [n |]; cbn [printValue].
  - intros Hs. destruct (parseInt_Number_toString n s Hs) as (Hp & -> & _).
    split; [apply lacks_underscore_decimal | done].
  - intros [= <-]. split; reflexivity.
Qed.

(** The parts of a key. *)
Lemma split_getKey (f : MediaFragment) (urlId : option Z) (key : string) :
  lacks "_" (type f) = true → getKey f urlId = Some key →
  ∃ levelDigits urlIdDigits snDigits,
    split "_" key = [type f; levelDigits; urlIdDigits; snDigits] ∧
    parseInt levelDigits = Some (Playlist.level f) ∧
    parseInt urlIdDigits = urlId ∧ parseInt snDigits = Some (sn f).
Proof.
  intros Htype. unfold getKey.
  destruct (Number_toString (Playlist.level f)) as [l |] eqn:Hl; [| done].
  destruct (printValue urlId) as [u |] eqn:Hu; [| done].
  destruct (Number_toString (sn f)) as [n |] eqn:Hn; [| done].
  cbn [mbind option_bind]. intros [= <-].
  destruct (printValue_spec (Some (Playlist.level f)) l Hl) as [Hl1 Hl2].
  destruct (printValue_spec urlId u Hu) as [Hu1 Hu2].
  destruct (printValue_spec (Some (sn f)) n Hn) as [Hn1 Hn2].
  exists l, u, n. split; [| done].
  change ("_" ++ ?s)%string with (String "_" s).
  rewrite split_app by done.
  change ("_" ++ ?s)%string with (String "_" s).
  rewrite split_app by done.
  change ("_" ++ ?s)%string with (String "_" s).
  rewrite split_app by done.
  by rewrite split_lacks by done.
Qed.

(** X23.  The key of a fragment tells its identity.  Level, URL id and
    sequence number are integers of at most [2^53] in absolute value, which
    print as their decimal digits; the URL id may also be [undefined], as
    the constructor leaves it, and prints as [undefined] then.  For such a
    fragment whose type has no underscore in it (as [main], [audio] and
    [subtitle]), the key splits at its underscores into the type and the
    printed level, URL id and sequence number, which read back as the
    numbers ([undefined] as [NaN]); so two such fragments have the same key
    only if they agree in type, level, URL id and sequence number. *)
Theorem getKey_tells_identity (f : MediaFragment) (urlId : option Z) :
  lacks "_" (type f) = true →
  Z.abs (Playlist.level f) ≤ 2 ^ 53 → Z.abs (sn f) ≤ 2 ^ 53 →
  (∀ n, urlId = Some n → Z.abs n ≤ 2 ^ 53) →
  ∃ key,
    getKey f urlId = Some key ∧
    key = (type f ++ "_" ++ decimal (Playlist.level f) ++ "_"
             ++ from_option decimal "undefined" urlId ++ "_" ++ decimal (sn f))%string ∧
    let parts := split "_" key in
    parts !! 0%nat = Some (type f) ∧
    (parts !! 1%nat ≫= parseInt) = Some (Playlist.level f) ∧
    (parts !! 2%nat ≫= parseInt) = urlId ∧
    (parts !! 3%nat ≫= parseInt) = Some (sn f) ∧
    length parts = 4%nat ∧
    (∀ g urlId', lacks "_" (type g) = true → getKey g urlId' = Some key →
       type g = type f ∧ Playlist.level g = Playlist.level f ∧ urlId' = urlId ∧
       sn g = sn f).
Proof.
  intros Htype Hlevel Hsn Hurl.
  assert (getKey f urlId
          = Some (type f ++ "_" ++ decimal (Playlist.level f) ++ "_"
                    ++ from_option decimal "undefined" urlId ++ "_" ++ decimal (sn f))%string)
    as Hkey.
  { unfold getKey. rewrite !Number_toString_exact by done. cbn [mbind option_bind].
    destruct urlId as [n |]; cbn [printValue from_option]; [| done].
    by rewrite Number_toString_exact by (by apply Hurl). }
  eexists. split; [exact Hkey |]. split; [done |].
  destruct (split_getKey f urlId _ Htype Hkey) as (l & u & n & Hsplit & Hl & Hu & Hn).
  cbn zeta. rewrite Hsplit. cbn [lookup list_lookup mbind option_bind length].
  split; [done |]. split; [done |]. split; [done |]. split; [done |]. split; [done |].
  intros g urlId' Hg Hgkey.
  destruct (split_getKey g urlId' _ Hg Hgkey) as (l' & u' & n' & Hsplit' & Hl' & Hu' & Hn').
  rewrite Hsplit in Hsplit'. injection Hsplit' as Ht <- <- <-.
  split; [done |]. split; [congruence |]. split; congruence.
Qed.

Lemma getKey_tells_identity_witness :
  getKey (parsedFragment 7 42 6 None) None = Some "main_0_undefined_7"%string ∧
  getKey (parsedFragment 7 42 6 None) (Some 1) = Some "main_0_1_7"%string.
Proof.
  split.
  - destruct (getKey_tells_identity (parsedFragment 7 42 6 None) None eq_refl
                ltac:(simpl; lia) ltac:(simpl; lia) ltac:(done)) as (key & -> & -> & _).
    reflexivity.
  - destruct (getKey_tells_identity (parsedFragment 7 42 6 None) (Some 1) eq_refl
                ltac:(simpl; lia) ltac:(simpl; lia)
                ltac:(intros n [= <-]; simpl; lia)) as (key & -> & -> & _).
    reflexivity.
Defined.

(** Beyond [2^53] the model does not say what the key is. *)
Example getKey_beyond_2_53 :
  getKey (parsedFragment (2 ^ 53 + 2) 42 6 None) (Some 1) = None.
Proof. vm_compute. reflexivity. Qed.

End FragmentIdentityLaws.
